(** * LineScript compiler core (lsc.cpp): a shallow embedding and its properties

    The development follows the pipeline of [src/lsc.cpp]: lexer (the whole
    of [Lexer::run], over the character classes of [CType]), typed IR,
    type checker, optimizer, C emitter (entry selection and wrapper, the
    closed form of a pair-coupled loop and the functions that recognize
    it, string literals), and the driver: its cache hashes, the typed-IR
    bundle it writes and reads back, its sequence of stages, the custom
    command-line flags and the quoting of the compiler command.  [Exec]
    runs the IR statement by statement and every loop round by round, as a
    function on a store and standard output; this is the emitted C except
    where the emitter writes a closed form for a loop.  Machine integers
    are [Z] with the wrap-around written out; the one division that the
    optimizer leaves unguarded ([INT64_MIN] by [-1]) has no result;
    [std::unordered_map] and [std::unordered_set] are stdpp's [gmap] and
    [gset]; [std::vector] is [list]; C++ exceptions are the left summand of
    a sum type; loops whose number of rounds is not bounded by the size of
    their input take a [fuel] and return [None] when it runs out.

    Two things of the source are left out of the embedding and said so here:
    source positions ([Span]) on IR nodes, which only feed diagnostics, and
    float literals ([EFloat]), whose folding needs IEEE doubles.  Every
    function below is the source function of the same name restricted to
    IR without float literals.

    The file has three parts: the embedding, the definitions that only the
    properties use (the description's wording of a property, example
    programs), and the properties. *)

From Stdlib Require Import ZArith Lia Bool List Ascii String DecimalString.
From stdpp Require Import base option list gmap strings.

Import ListNotations.
Local Open Scope string_scope.
Local Open Scope Z_scope.

(* ===================================================================== *)
(** * Machine integers *)
(* ===================================================================== *)

Definition two63 : Z := 9223372036854775808.
Definition two64 : Z := 18446744073709551616.
Definition two127 : Z := 170141183460469231731687303715884105728.
Definition two128 : Z := 340282366920938463463374607431768211456.

Definition INT64_MIN : Z := - two63.
Definition INT64_MAX : Z := two63 - 1.

(** Two's complement reduction to [int64_t] and [__int128]. *)
Definition wrap64 (z : Z) : Z := (z + two63) mod two64 - two63.
Definition wrap128 (z : Z) : Z := (z + two127) mod two128 - two127.
(** Reduction to [uint64_t] and [std::size_t]. *)
Definition wrapU64 (z : Z) : Z := z mod two64.

Definition inI64 (z : Z) : bool := (INT64_MIN <=? z) && (z <=? INT64_MAX).

Definition add64 (a b : Z) : Z := wrap64 (a + b).
Definition sub64 (a b : Z) : Z := wrap64 (a - b).
Definition mul64 (a b : Z) : Z := wrap64 (a * b).
Definition neg64 (a : Z) : Z := wrap64 (- a).
(** C's [/] and [%] truncate towards zero. *)
Definition div64 (a b : Z) : Z := wrap64 (Z.quot a b).
Definition rem64 (a b : Z) : Z := wrap64 (Z.rem a b).
(** [a / b] and [a % b] on [int64_t] where the code has excluded [b == 0]
    and nothing else: for [INT64_MIN] and [-1] the quotient is not an
    [int64_t], C++ leaves both operations undefined and the division
    instruction of x86-64 traps.  That case is [None]: the program that
    executes it has no result. *)
Definition divOverflows (a b : Z) : bool := (a =? INT64_MIN) && (b =? -1).
Definition cdiv64 (a b : Z) : option Z :=
  if divOverflows a b then None else Some (div64 a b).
Definition crem64 (a b : Z) : option Z :=
  if divOverflows a b then None else Some (rem64 a b).

Definition add128 (a b : Z) : Z := wrap128 (a + b).
Definition sub128 (a b : Z) : Z := wrap128 (a - b).
Definition mul128 (a b : Z) : Z := wrap128 (a * b).
Definition neg128 (a : Z) : Z := wrap128 (- a).
Definition div128 (a b : Z) : Z := wrap128 (Z.quot a b).
Definition rem128 (a b : Z) : Z := wrap128 (Z.rem a b).

(** [std::to_string] of a signed integer. *)
Definition to_string (z : Z) : string := NilZero.string_of_int (Z.to_int z).

(** Characters the source names by escape. *)
Definition chNUL : ascii := "000"%char.
Definition chTAB : ascii := "009"%char.
Definition chLF : ascii := "010"%char.
Definition chCR : ascii := "013"%char.
Definition chQUOTE : ascii := "034"%char.
Definition chAPOS : ascii := "039"%char.
Definition chBACKSLASH : ascii := "092"%char.

Definition str1 (c : ascii) : string := String c EmptyString.

(* ===================================================================== *)
(** * Character classes *)

(** [<cctype>] in the "C" locale, which the compiler never leaves: the
    argument is the [unsigned char] value of the character. *)
Module CType.

Definition code (c : ascii) : Z := Z.of_nat (nat_of_ascii c).

Definition isdigit (c : ascii) : bool := (48 <=? code c) && (code c <=? 57).
Definition isupper (c : ascii) : bool := (65 <=? code c) && (code c <=? 90).
Definition islower (c : ascii) : bool := (97 <=? code c) && (code c <=? 122).
Definition isalpha (c : ascii) : bool := isupper c || islower c.
Definition isalnum (c : ascii) : bool := isalpha c || isdigit c.
(** space, [\t], [\n], [\v], [\f], [\r] *)
Definition isspace (c : ascii) : bool :=
  (code c =? 32) || ((9 <=? code c) && (code c <=? 13)).
Definition tolower (c : ascii) : ascii :=
  if isupper c then ascii_of_nat (nat_of_ascii c + 32) else c.

End CType.

(* ===================================================================== *)
(** * Lexer *)
(* ===================================================================== *)

Module Lexer.

(** [struct Span { std::size_t line = 1; std::size_t col = 1; }] *)
Record Span := mkSpan { line : Z; col : Z }.

(** [CompileError(span, message)] *)
Record CompileError := mkCompileError { errSpan : Span; errMsg : string }.

(** [CompileError::format] *)
Definition what (e : CompileError) : string :=
  "line " ++ to_string (line (errSpan e)) ++ ", col " ++ to_string (col (errSpan e))
    ++ ": " ++ errMsg e.

Inductive TokenKind :=
| End | Newline | Id | Str | Int | Float
| KwFn | KwInline | KwExtern | KwLet | KwVar | KwConst | KwDeclare | KwOwned
| KwReturn | KwIf | KwUnless | KwElif | KwElse | KwWhile | KwFor | KwParallel
| KwMacro | KwClass | KwIn | KwStep | KwDo | KwEnd | KwThrows | KwBreak
| KwContinue | KwTrue | KwFalse | Arrow | Dot | DotDot | Pow | PlusPlus
| MinusMinus | Colon | Semi | Comma | LPar | RPar | LBra | RBra | Plus | Minus
| Star | Slash | Percent | PlusAssign | MinusAssign | StarAssign | SlashAssign
| PercentAssign | PowAssign | Assign | Eq | Neq | AndAnd | OrOr | Bang | Lt
| Lte | Gt | Gte.

Record Token := mkToken { kind : TokenKind; text : string; span : Span }.

(** The lexer's cursor.  [rest] is the unread part of [src_], that is
    [src_[pos_ ..]]; [line_] and [col_] are as in the source. *)
Record Lexer := mkLexer { rest : string; line_ : Z; col_ : Z }.

Definition init (src : string) : Lexer := mkLexer src 1 1.

Definition eof (lx : Lexer) : bool :=
  match rest lx with EmptyString => true | String _ _ => false end.

(** The position update of [adv()] for the character just read. *)
Definition advPos (c : ascii) (ln cl : Z) : Z * Z :=
  if Ascii.eqb c chLF then (wrapU64 (ln + 1), 1) else (ln, wrapU64 (cl + 1)).
Global Arguments advPos : simpl never.

(** [char adv()] *)
Definition adv (lx : Lexer) : ascii * Lexer :=
  match rest lx with
  | EmptyString => (chNUL, lx)
  | String c r => let '(ln, cl) := advPos c (line_ lx) (col_ lx) in (c, mkLexer r ln cl)
  end.

(** The [switch (esc)] of [readString]: the character an escape stands for. *)
Definition unescape (esc : ascii) : option ascii :=
  if Ascii.eqb esc "n"%char then Some chLF
  else if Ascii.eqb esc "r"%char then Some chCR
  else if Ascii.eqb esc "t"%char then Some chTAB
  else if Ascii.eqb esc chBACKSLASH then Some chBACKSLASH
  else if Ascii.eqb esc chQUOTE then Some chQUOTE
  else None.

Definition unsupportedEscape (esc : ascii) : string :=
  "unsupported escape sequence '" ++ str1 chBACKSLASH ++ str1 esc ++ str1 chAPOS.

(** The [while (!eof())] loop of [readString], after the opening quote has
    been consumed.  [src], [ln], [cl] are the cursor, [out] the decoded text
    so far, [s] the span taken at the opening quote. *)
Fixpoint readStringLoop (s : Span) (src : string) (ln cl : Z) (out : string)
  : CompileError + (Token * Lexer) :=
  match src with
  | EmptyString => inl (mkCompileError s "unterminated string literal")
  | String c src1 =>
    let '(ln1, cl1) := advPos c ln cl in
    if Ascii.eqb c chQUOTE then inr (mkToken Str out s, mkLexer src1 ln1 cl1)
    else if Ascii.eqb c chBACKSLASH then
      match src1 with
      | EmptyString =>
        inl (mkCompileError s "unterminated escape sequence in string literal")
      | String esc src2 =>
        let '(ln2, cl2) := advPos esc ln1 cl1 in
        match unescape esc with
        | Some ch => readStringLoop s src2 ln2 cl2 (out ++ str1 ch)
        | None => inl (mkCompileError s (unsupportedEscape esc))
        end
      end
    else if Ascii.eqb c chLF then inl (mkCompileError s "unterminated string literal")
    else readStringLoop s src1 ln1 cl1 (out ++ str1 c)
  end.

(** [Token readString()], called by [run()] with the cursor on the opening
    quote. *)
Definition readString (lx : Lexer) : CompileError + (Token * Lexer) :=
  let s := mkSpan (line_ lx) (col_ lx) in
  let '(_, lx1) := adv lx in
  readStringLoop s (rest lx1) (line_ lx1) (col_ lx1) EmptyString.

(** The escapes of the language description, each with the character it
    stands for. *)
Definition escapeTable : list (ascii * ascii) :=
  [ ("n"%char, chLF); ("r"%char, chCR); ("t"%char, chTAB);
    (chBACKSLASH, chBACKSLASH); (chQUOTE, chQUOTE) ].

(** The body of a well-formed literal, in the words of the language
    description: a sequence of plain characters (anything but a quote, a
    backslash or a raw newline) and of the five escapes.
    [LiteralBody raw dec] relates the raw characters between the quotes to
    the decoded text. *)
Inductive LiteralBody : string -> string -> Prop :=
| BodyNil : LiteralBody EmptyString EmptyString
| BodyPlain c raw dec :
    c <> chQUOTE -> c <> chBACKSLASH -> c <> chLF ->
    LiteralBody raw dec -> LiteralBody (String c raw) (String c dec)
| BodyEscape esc ch raw dec :
    In (esc, ch) escapeTable ->
    LiteralBody raw dec ->
    LiteralBody (String chBACKSLASH (String esc raw)) (String ch dec).

(** [char peek(std::size_t off = 0)] *)
Definition peek (off : nat) (lx : Lexer) : ascii :=
  match String.get off (rest lx) with
  | Some c => c
  | None => chNUL
  end.

(** [void skipTrivia()]: blanks, tabs, carriage returns and line comments.
    The inner [fix] is the loop [while (!eof() && peek() != '\n') adv();]
    of a comment, after which the outer loop goes on. *)
Fixpoint skipTriviaLoop (src : string) (ln cl : Z) {struct src} : Lexer :=
  match src with
  | EmptyString => mkLexer src ln cl
  | String c r =>
    if Ascii.eqb c " " || Ascii.eqb c chTAB || Ascii.eqb c chCR then
      let '(ln1, cl1) := advPos c ln cl in skipTriviaLoop r ln1 cl1
    else
      match r with
      | String c2 r2 =>
        if Ascii.eqb c "/" && Ascii.eqb c2 "/" then
          let '(ln1, cl1) := advPos c ln cl in
          let '(ln2, cl2) := advPos c2 ln1 cl1 in
          (fix comment (s : string) (ln cl : Z) {struct s} : Lexer :=
             match s with
             | EmptyString => skipTriviaLoop s ln cl
             | String d s' =>
               if Ascii.eqb d chLF then skipTriviaLoop s ln cl
               else let '(ln', cl') := advPos d ln cl in comment s' ln' cl'
             end) r2 ln2 cl2
        else mkLexer src ln cl
      | EmptyString => mkLexer src ln cl
      end
  end.

Definition skipTrivia (lx : Lexer) : Lexer :=
  skipTriviaLoop (rest lx) (line_ lx) (col_ lx).

(** The chain of comparisons that ends [readIdent]. *)
Definition keyword (t : string) : TokenKind :=
  if String.eqb t "fn" || String.eqb t "func" then KwFn
  else if String.eqb t "inline" then KwInline
  else if String.eqb t "extern" then KwExtern
  else if String.eqb t "let" then KwLet
  else if String.eqb t "var" then KwVar
  else if String.eqb t "const" then KwConst
  else if String.eqb t "declare" then KwDeclare
  else if String.eqb t "owned" then KwOwned
  else if String.eqb t "return" then KwReturn
  else if String.eqb t "if" then KwIf
  else if String.eqb t "unless" then KwUnless
  else if String.eqb t "elif" then KwElif
  else if String.eqb t "else" then KwElse
  else if String.eqb t "while" then KwWhile
  else if String.eqb t "for" then KwFor
  else if String.eqb t "parallel" then KwParallel
  else if String.eqb t "macro" then KwMacro
  else if String.eqb t "class" then KwClass
  else if String.eqb t "in" then KwIn
  else if String.eqb t "step" then KwStep
  else if String.eqb t "do" then KwDo
  else if String.eqb t "end" then KwEnd
  else if String.eqb t "throws" then KwThrows
  else if String.eqb t "break" then KwBreak
  else if String.eqb t "continue" then KwContinue
  else if String.eqb t "and" then AndAnd
  else if String.eqb t "or" then OrOr
  else if String.eqb t "not" then Bang
  else if String.eqb t "true" then KwTrue
  else if String.eqb t "false" then KwFalse
  else Id.

(** The loop of [readIdent]; [t] is the text read so far. *)
Fixpoint readIdentLoop (src : string) (ln cl : Z) (t : string) : string * Lexer :=
  match src with
  | EmptyString => (t, mkLexer src ln cl)
  | String c r =>
    if CType.isalnum c || Ascii.eqb c "_" then
      let '(ln1, cl1) := advPos c ln cl in readIdentLoop r ln1 cl1 (t ++ str1 c)
    else (t, mkLexer src ln cl)
  end.

(** [Token readIdent()] *)
Definition readIdent (lx : Lexer) : Token * Lexer :=
  let s := mkSpan (line_ lx) (col_ lx) in
  let '(t, lx1) := readIdentLoop (rest lx) (line_ lx) (col_ lx) EmptyString in
  (mkToken (keyword t) t s, lx1).

(** The loop of [readNumber]; [dot] tells whether the point has been
    read. *)
Fixpoint readNumberLoop (src : string) (ln cl : Z) (dot : bool) (t : string)
  : string * bool * Lexer :=
  match src with
  | EmptyString => (t, dot, mkLexer src ln cl)
  | String c r =>
    let peek1 := match r with String d _ => d | EmptyString => chNUL end in
    if CType.isdigit c then
      let '(ln1, cl1) := advPos c ln cl in readNumberLoop r ln1 cl1 dot (t ++ str1 c)
    else if Ascii.eqb c "." && negb dot && CType.isdigit peek1 then
      let '(ln1, cl1) := advPos c ln cl in readNumberLoop r ln1 cl1 true (t ++ str1 c)
    else (t, dot, mkLexer src ln cl)
  end.

(** [Token readNumber()] *)
Definition readNumber (lx : Lexer) : Token * Lexer :=
  let s := mkSpan (line_ lx) (col_ lx) in
  let '(t, dot, lx1) :=
    readNumberLoop (rest lx) (line_ lx) (col_ lx) false EmptyString in
  (mkToken (if dot then Float else Int) t s, lx1).

(** The [switch (c)] that ends a round of [run], for the character [c] that
    has just been read. *)
Definition punctuation (c : ascii) : option (TokenKind * string) :=
  if Ascii.eqb c ":" then Some (Colon, ":")
  else if Ascii.eqb c ";" then Some (Semi, ";")
  else if Ascii.eqb c "," then Some (Comma, ",")
  else if Ascii.eqb c "." then Some (Dot, ".")
  else if Ascii.eqb c "(" then Some (LPar, "(")
  else if Ascii.eqb c ")" then Some (RPar, ")")
  else if Ascii.eqb c "{" then Some (LBra, "{")
  else if Ascii.eqb c "}" then Some (RBra, "}")
  else if Ascii.eqb c "[" then Some (LBra, "[")
  else if Ascii.eqb c "]" then Some (RBra, "]")
  else if Ascii.eqb c "+" then Some (Plus, "+")
  else if Ascii.eqb c "-" then Some (Minus, "-")
  else if Ascii.eqb c "*" then Some (Star, "*")
  else if Ascii.eqb c "^" then Some (Pow, "^")
  else if Ascii.eqb c "/" then Some (Slash, "/")
  else if Ascii.eqb c "%" then Some (Percent, "%")
  else if Ascii.eqb c "=" then Some (Assign, "=")
  else if Ascii.eqb c "!" then Some (Bang, "!")
  else if Ascii.eqb c "<" then Some (Lt, "<")
  else if Ascii.eqb c ">" then Some (Gt, ">")
  else None.

Definition unexpectedChar (c : ascii) : string :=
  "unexpected char '" ++ str1 c ++ str1 chAPOS.

(** One round of the loop of [run] once [skipTrivia] has been called and
    the input is not at its end: the token that is pushed and the cursor
    after it, or the error. *)
Definition token (lx : Lexer) : CompileError + (Token * Lexer) :=
  let s := mkSpan (line_ lx) (col_ lx) in
  let c := peek 0 lx in
  let c1 := peek 1 lx in
  let adv1 := snd (adv lx) in
  let adv2 := snd (adv adv1) in
  let adv3 := snd (adv adv2) in
  let at2 (a : ascii) (b : ascii) := Ascii.eqb c a && Ascii.eqb c1 b in
  if Ascii.eqb c chLF then inr (mkToken Newline (String chBACKSLASH "n") s, adv1)
  else if CType.isalpha c || Ascii.eqb c "_" then inr (readIdent lx)
  else if Ascii.eqb c chQUOTE then readString lx
  else if CType.isdigit c then inr (readNumber lx)
  else if at2 "-"%char ">"%char then inr (mkToken Arrow "->" s, adv2)
  else if at2 "="%char "="%char then inr (mkToken Eq "==" s, adv2)
  else if at2 "&"%char "&"%char then inr (mkToken AndAnd "&&" s, adv2)
  else if at2 "|"%char "|"%char then inr (mkToken OrOr "||" s, adv2)
  else if at2 "!"%char "="%char then inr (mkToken Neq "!=" s, adv2)
  else if at2 "<"%char "="%char then inr (mkToken Lte "<=" s, adv2)
  else if at2 ">"%char "="%char then inr (mkToken Gte ">=" s, adv2)
  else if at2 "."%char "."%char then inr (mkToken DotDot ".." s, adv2)
  else if at2 "*"%char "*"%char then
    if Ascii.eqb (peek 2 lx) "=" then inr (mkToken PowAssign "**=" s, adv3)
    else inr (mkToken Pow "**" s, adv2)
  else if at2 "+"%char "="%char then inr (mkToken PlusAssign "+=" s, adv2)
  else if at2 "+"%char "+"%char then inr (mkToken PlusPlus "++" s, adv2)
  else if at2 "-"%char "="%char then inr (mkToken MinusAssign "-=" s, adv2)
  else if at2 "-"%char "-"%char then inr (mkToken MinusMinus "--" s, adv2)
  else if at2 "*"%char "="%char then inr (mkToken StarAssign "*=" s, adv2)
  else if at2 "/"%char "="%char then inr (mkToken SlashAssign "/=" s, adv2)
  else if at2 "%"%char "="%char then inr (mkToken PercentAssign "%=" s, adv2)
  else if at2 "^"%char "="%char then inr (mkToken PowAssign "^=" s, adv2)
  else
    match punctuation c with
    | Some (k, t) => inr (mkToken k t s, adv1)
    | None => inl (mkCompileError s (unexpectedChar c))
    end.

(** The loop [while (true)] of [run], with the tokens [out] pushed so far.
    Every round but the last reads at least one character, so the loop is
    bounded by [fuel]; [None] is "out of fuel". *)
Fixpoint runLoop (fuel : nat) (lx : Lexer) (out : list Token)
  : option (CompileError + list Token) :=
  match fuel with
  | O => None
  | S fuel' =>
    let lx1 := skipTrivia lx in
    if eof lx1 then
      Some (inr (out ++ [mkToken End EmptyString (mkSpan (line_ lx1) (col_ lx1))])%list)
    else
      match token lx1 with
      | inl e => Some (inl e)
      | inr (tok, lx2) => runLoop fuel' lx2 (out ++ [tok])%list
      end
  end.

(** [std::vector<Token> run()] on the source text [src]. *)
Definition run (fuel : nat) (src : string) : option (CompileError + list Token) :=
  runLoop fuel (init src) [].

End Lexer.

(* ===================================================================== *)
(** * Driver: typed-IR cache hashes *)
(* ===================================================================== *)

Module Driver.

Definition FNV_OFFSET : Z := 1469598103934665603.
Definition FNV_PRIME : Z := 1099511628211.

Definition byte (c : ascii) : Z := Z.of_nat (nat_of_ascii c).

(** One round of the loop of [fnv1a64]: [h ^= c; h *= 1099511628211ULL]. *)
Definition fnvStep (h : Z) (c : ascii) : Z :=
  wrapU64 (Z.lxor h (byte c) * FNV_PRIME).

(** [fnv1a64(s, seed)] *)
Fixpoint fnv1a64 (s : string) (seed : Z) : Z :=
  match s with
  | EmptyString => seed
  | String c r => fnv1a64 r (fnvStep seed c)
  end.

Definition hexDigit (d : Z) : ascii :=
  match String.get (Z.to_nat d) "0123456789abcdef" with
  | Some c => c
  | None => "0"%char
  end.

Fixpoint hexDigits (n : nat) (v : Z) (acc : string) : string :=
  match n with
  | O => acc
  | S n' => hexDigits n' (v / 16) (String (hexDigit (v mod 16)) acc)
  end.

(** [hex64]: sixteen lower-case hexadecimal digits, zero filled. *)
Definition hex64 (v : Z) : string := hexDigits 16 v EmptyString.

(** The files of the compilation: [readFile] is a lookup, a missing file is
    the [std::runtime_error] of the source. *)
Definition readFile (fs : gmap string string) (p : string) : option string := fs !! p.

(** The loop of [computeSourceStateHash]. *)
Fixpoint sourceStateLoop (fs : gmap string string) (inputs : list string) (h : Z)
  : option Z :=
  match inputs with
  | [] => Some h
  | p :: ps =>
    match readFile fs p with
    | None => None
    | Some c => sourceStateLoop fs ps (fnv1a64 c (fnv1a64 p h))
    end
  end.

Definition computeSourceStateHash (fs : gmap string string) (inputs : list string)
  : option string :=
  hex64 <$> sourceStateLoop fs inputs FNV_OFFSET.

Definition computeBuildConfigHash (fs : gmap string string) (inputs : list string)
    (cc backend : string) (maxSpeed : bool) (passes : Z)
    (target sysroot linker : string) : option string :=
  match computeSourceStateHash fs inputs with
  | None => None
  | Some src =>
    let h := FNV_OFFSET in
    let h := fnv1a64 "LineScript-compile-cache-v1" h in
    let h := fnv1a64 src h in
    let h := fnv1a64 cc h in
    let h := fnv1a64 backend h in
    let h := fnv1a64 (if maxSpeed then "1" else "0") h in
    let h := fnv1a64 (to_string passes) h in
    let h := fnv1a64 target h in
    let h := fnv1a64 sysroot h in
    let h := fnv1a64 linker h in
    Some (hex64 h)
  end.

End Driver.

(* ===================================================================== *)
(** * Typed IR *)
(* ===================================================================== *)

(** [enum class Type] *)
Module Ty.
Inductive t := I32 | I64 | F32 | F64 | Bool | Str | Void.
End Ty.

#[global] Instance Ty_eq_dec : EqDecision Ty.t.
Proof. solve_decision. Defined.

Definition isInt (t : Ty.t) : bool :=
  match t with Ty.I32 | Ty.I64 => true | _ => false end.
Definition isFloat (t : Ty.t) : bool :=
  match t with Ty.F32 | Ty.F64 => true | _ => false end.
Definition isNum (t : Ty.t) : bool := isInt t || isFloat t.

Definition typeName (t : Ty.t) : string :=
  match t with
  | Ty.I32 => "i32" | Ty.I64 => "i64" | Ty.F32 => "f32" | Ty.F64 => "f64"
  | Ty.Bool => "bool" | Ty.Str => "str" | Ty.Void => "void"
  end.

(** [enum class UK] and [enum class BK] *)
Module UK.
Inductive t := Neg | Not.
End UK.

Module BK.
Inductive t :=
| Add | Sub | Mul | Div | Mod | Pow | Eq | Neq | Lt | Lte | Gt | Gte | And | Or.
End BK.

#[global] Instance UK_eq_dec : EqDecision UK.t.
Proof. solve_decision. Defined.
#[global] Instance BK_eq_dec : EqDecision BK.t.
Proof. solve_decision. Defined.

(** The two annotation fields of [struct Expr], [inf] and [typed], with
    their defaults. *)
Record Ann := mkAnn { inf : Ty.t; typed : bool }.
Definition noAnn : Ann := mkAnn Ty.Void false.

#[global] Instance Ann_eq_dec : EqDecision Ann.
Proof. solve_decision. Defined.

(** Induction principles of the two nested types below get a hypothesis for
    the statements and expressions inside their lists. *)
Scheme All for list.

(** The [Expr] class hierarchy ([EK] is the constructor). *)
Inductive Expr :=
| EInt (v : Z) (a : Ann)
| EBool (v : bool) (a : Ann)
| EString (v : string) (a : Ann)
| EVar (n : string) (a : Ann)
| EUnary (op : UK.t) (x : Expr) (overrideFn : string) (a : Ann)
| EBinary (op : BK.t) (l r : Expr) (overrideFn : string) (a : Ann)
| ECall (f : string) (args : list Expr) (a : Ann).

Definition annOf (e : Expr) : Ann :=
  match e with
  | EInt _ a | EBool _ a | EString _ a | EVar _ a | EUnary _ _ _ a
  | EBinary _ _ _ _ a | ECall _ _ a => a
  end.

Definition setAnn (e : Expr) (a : Ann) : Expr :=
  match e with
  | EInt v _ => EInt v a
  | EBool v _ => EBool v a
  | EString v _ => EString v a
  | EVar n _ => EVar n a
  | EUnary op x ov _ => EUnary op x ov a
  | EBinary op l r ov _ => EBinary op l r ov a
  | ECall f args _ => ECall f args a
  end.

(** Nodes as the parser and the optimizer build them: not yet typed. *)
Definition eInt (v : Z) : Expr := EInt v noAnn.
Definition eBool (v : bool) : Expr := EBool v noAnn.
Definition eStr (v : string) : Expr := EString v noAnn.
Definition eVar (n : string) : Expr := EVar n noAnn.
Definition eUn (op : UK.t) (x : Expr) : Expr := EUnary op x EmptyString noAnn.
Definition eBin (op : BK.t) (l r : Expr) : Expr := EBinary op l r EmptyString noAnn.
Definition eCall (f : string) (args : list Expr) : Expr := ECall f args noAnn.

(** The [Stmt] class hierarchy.  [SLet] carries [decl], [isConst],
    [isOwned], [ownedFreeFn] and its own [inf]/[typed] pair (default
    [I64], [false]); [SRet] carries [has] and a possibly null [v]. *)
Inductive Stmt :=
| SLet (n : string) (decl : option Ty.t) (isConst isOwned : bool)
       (ownedFreeFn : string) (a : Ann) (v : Expr)
| SAssign (n : string) (v : Expr)
| SExpr (e : Expr)
| SRet (has : bool) (v : option Expr)
| SIf (c : Expr) (t e : list Stmt)
| SWhile (c : Expr) (b : list Stmt)
| SFor (n : string) (start stop step : Expr) (parallel : bool) (b : list Stmt)
| SFormatBlock (endArg : option Expr) (b : list Stmt)
| SBreak
| SContinue.

Definition letAnn : Ann := mkAnn Ty.I64 false.

(** [declare n = v] and [declare n: ty = v] as [sDeclare] builds them. *)
Definition sLet (n : string) (decl : option Ty.t) (v : Expr) : Stmt :=
  SLet n decl false false EmptyString letAnn v.

Module Param.
Record t := mk { n : string; t_ : Ty.t }.
End Param.

(** [struct Fn], with the fields the modelled passes read. *)
Module Fn.
Record t := mk {
  n : string;
  sourceName : string;
  isCliFlag : bool;
  cliFlagName : string;
  ex : bool;
  inl : bool;
  p : list Param.t;
  ret : Ty.t;
  throws : list string;
  b : list Stmt
}.
End Fn.

Definition kScriptEntryName : string := "__linescript_script_main".

(** The function the driver synthesizes from the top-level statements. *)
Definition scriptFn (top : list Stmt) : Fn.t :=
  Fn.mk kScriptEntryName EmptyString false EmptyString false false [] Ty.Void [] top.

(** [struct Program], after the driver has moved [top] into the script
    entry: the list [f]. *)
Definition Program := list Fn.t.

Definition startsWith (s prefix : string) : bool := String.prefix prefix s.

(** [name.substr(k)] *)
Definition substrFrom (k : nat) (s : string) : string :=
  String.substring k (String.length s - k) s.

Definition canonicalSuperuserCallName (name : string) : string :=
  if startsWith name "superuser." then "su." ++ substrFrom 10 name else name.

Definition operatorOverrideSymbol (op : BK.t) : string :=
  match op with
  | BK.Add => "__ls_op_add" | BK.Sub => "__ls_op_sub" | BK.Mul => "__ls_op_mul"
  | BK.Div => "__ls_op_div" | BK.Mod => "__ls_op_mod" | BK.Pow => "__ls_op_pow"
  | BK.Eq => "__ls_op_eq" | BK.Neq => "__ls_op_neq" | BK.Lt => "__ls_op_lt"
  | BK.Lte => "__ls_op_lte" | BK.Gt => "__ls_op_gt" | BK.Gte => "__ls_op_gte"
  | BK.And => "__ls_op_and" | BK.Or => "__ls_op_or"
  end.

Definition unaryOperatorOverrideSymbol (op : UK.t) : string :=
  match op with UK.Neg => "__ls_uop_neg" | UK.Not => "__ls_uop_not" end.

Definition unaryOperatorSymbolText (op : UK.t) : string :=
  match op with UK.Neg => "-" | UK.Not => "!" end.

Definition operatorSymbolText (op : BK.t) : string :=
  match op with
  | BK.Add => "+" | BK.Sub => "-" | BK.Mul => "*" | BK.Div => "/" | BK.Mod => "%"
  | BK.Pow => "^" | BK.Eq => "==" | BK.Neq => "!=" | BK.Lt => "<" | BK.Lte => "<="
  | BK.Gt => ">" | BK.Gte => ">=" | BK.And => "&&" | BK.Or => "||"
  end.

(* ===================================================================== *)
(** * Type checker *)
(* ===================================================================== *)

Module Sig.
Record t := mk { p : list Ty.t; r : Ty.t; throws : list string }.
End Sig.

Module OverloadCandidate.
Record t := mk { symbol : string; sig : Sig.t }.
End OverloadCandidate.

(** [TypeCheck::Local] *)
Module Local.
Record t := mk { t_ : Ty.t; isConst : bool; isOwned : bool; ownedFreeFn : string }.
End Local.

(** The signatures [addBuiltins] registers, in its order. *)
Module Builtins.
Import Ty.
Definition table : list (string * list Ty.t * Ty.t) :=
  [ ("print_i64", [I64], Void); ("print_f64", [F64], Void); ("print_bool", [Bool], Void)
  ; ("print_str", [Str], Void); ("println_i64", [I64], Void); ("println_f64", [F64], Void)
  ; ("println_bool", [Bool], Void); ("println_str", [Str], Void); ("await", [I64], Void)
  ; ("await_all", [], Void); ("clock_ms", [], I64); ("clock_us", [], I64)
  ; ("stateSpeed", [], Void); (".stateSpeed", [], Void); ("superuser", [], Void)
  ; (".format", [], Void); (".freeConsole", [], Void); ("FreeConsole", [], Void)
  ; ("su.trace.on", [], Void); ("su.trace.off", [], Void); ("su.capabilities", [], Str)
  ; ("su.memory.inspect", [], Str); ("su.limit.set", [I64; I64], Void)
  ; ("su.compiler.inspect", [], Str); ("su.ir.dump", [], Void); ("su.debug.hook", [Str], Void)
  ; ("http_server_listen", [I64], I64); ("http_server_accept", [I64], I64)
  ; ("http_server_read", [I64], Str); ("http_server_respond_text", [I64; I64; Str], Void)
  ; ("http_server_close", [I64], Void); ("http_client_connect", [Str; I64], I64)
  ; ("http_client_send", [I64; Str], Void); ("http_client_read", [I64], Str)
  ; ("http_client_close", [I64], Void); ("input_i64", [Str], I64); ("input_f64", [Str], F64)
  ; ("cli_token_count", [], I64); ("cli_token", [I64], Str); ("cli_has", [Str], Bool)
  ; ("cli_value", [Str], Str); ("includes", [Str; Str], Bool); ("len", [Str], I64)
  ; ("bytes_len", [Str], I64); ("is_empty", [Str], Bool); ("contains", [Str; Str], Bool)
  ; ("starts_with", [Str; Str], Bool); ("ends_with", [Str; Str], Bool); ("find", [Str; Str], I64)
  ; ("replace", [Str; Str; Str], Str); ("trim", [Str], Str); ("lower", [Str], Str)
  ; ("upper", [Str], Str); ("substring", [Str; I64; I64], Str); ("repeat", [Str; I64], Str)
  ; ("reverse", [Str], Str); ("byte_at", [Str; I64], I64); ("ord", [Str], I64)
  ; ("chr", [I64], Str); ("mem_alloc", [I64], I64); ("mem_realloc", [I64; I64], I64)
  ; ("mem_free", [I64], Void); ("mem_set", [I64; I64; I64], Void)
  ; ("mem_copy", [I64; I64; I64], Void); ("mem_read_i64", [I64], I64)
  ; ("mem_write_i64", [I64; I64], Void); ("mem_read_f64", [I64], F64)
  ; ("mem_write_f64", [I64; F64], Void); ("array_new", [], I64); ("array_len", [I64], I64)
  ; ("array_free", [I64], Void); ("array_push", [I64; Str], Void); ("array_get", [I64; I64], Str)
  ; ("array_set", [I64; I64; Str], Void); ("array_pop", [I64], Str)
  ; ("array_join", [I64; Str], Str); ("array_includes", [I64; Str], Bool); ("dict_new", [], I64)
  ; ("dict_len", [I64], I64); ("dict_free", [I64], Void); ("dict_set", [I64; Str; Str], Void)
  ; ("dict_get", [I64; Str], Str); ("dict_has", [I64; Str], Bool)
  ; ("dict_remove", [I64; Str], Void); ("map_new", [], I64); ("map_len", [I64], I64)
  ; ("map_free", [I64], Void); ("map_set", [I64; Str; Str], Void); ("map_get", [I64; Str], Str)
  ; ("map_has", [I64; Str], Bool); ("map_remove", [I64; Str], Void); ("object_new", [], I64)
  ; ("object_len", [I64], I64); ("object_free", [I64], Void)
  ; ("object_set", [I64; Str; Str], Void); ("object_get", [I64; Str], Str)
  ; ("object_has", [I64; Str], Bool); ("object_remove", [I64; Str], Void)
  ; ("option_some", [Str], I64); ("option_none", [], I64); ("option_is_some", [I64], Bool)
  ; ("option_is_none", [I64], Bool); ("option_unwrap", [I64], Str)
  ; ("option_unwrap_or", [I64; Str], Str); ("option_free", [I64], Void); ("result_ok", [Str], I64)
  ; ("result_err", [Str; Str], I64); ("result_is_ok", [I64], Bool); ("result_is_err", [I64], Bool)
  ; ("result_value", [I64], Str); ("result_error_type", [I64], Str)
  ; ("result_error_message", [I64], Str); ("result_unwrap_or", [I64; Str], Str)
  ; ("result_free", [I64], Void); ("gfx_new", [I64; I64], I64); ("gfx_free", [I64], Void)
  ; ("gfx_width", [I64], I64); ("gfx_height", [I64], I64)
  ; ("gfx_clear", [I64; I64; I64; I64], Void); ("gfx_set", [I64; I64; I64; I64; I64; I64], Void)
  ; ("gfx_get", [I64; I64; I64], I64)
  ; ("gfx_line", [I64; I64; I64; I64; I64; I64; I64; I64], Void)
  ; ("gfx_rect", [I64; I64; I64; I64; I64; I64; I64; I64; Bool], Void)
  ; ("gfx_save_ppm", [I64; Str], Bool); ("game_new", [I64; I64; Str; Bool], I64)
  ; ("game_free", [I64], Void); ("game_width", [I64], I64); ("game_height", [I64], I64)
  ; ("game_set_target_fps", [I64; I64], Void); ("game_set_fixed_dt", [I64; F64], Void)
  ; ("game_should_close", [I64], Bool); ("game_begin", [I64], Void); ("game_end", [I64], Void)
  ; ("game_poll", [I64], Void); ("game_present", [I64], Void); ("game_delta", [I64], F64)
  ; ("game_frame", [I64], I64); ("game_mouse_x", [I64], F64); ("game_mouse_y", [I64], F64)
  ; ("game_mouse_norm_x", [I64], F64); ("game_mouse_norm_y", [I64], F64)
  ; ("game_scroll_x", [I64], F64); ("game_scroll_y", [I64], F64)
  ; ("game_mouse_down", [I64; I64], Bool); ("game_mouse_down_name", [I64; Str], Bool)
  ; ("game_clear", [I64; I64; I64; I64], Void); ("game_set", [I64; I64; I64; I64; I64; I64], Void)
  ; ("game_get", [I64; I64; I64], I64)
  ; ("game_line", [I64; I64; I64; I64; I64; I64; I64; I64], Void)
  ; ("game_rect", [I64; I64; I64; I64; I64; I64; I64; I64; Bool], Void)
  ; ("game_draw_gfx", [I64; I64; I64; I64], Void); ("game_save_ppm", [I64; Str], Bool)
  ; ("game_checksum", [I64], I64); ("pg_init", [I64; I64; Str; Bool], I64)
  ; ("pg_quit", [I64], Void); ("pg_should_quit", [I64], Bool); ("pg_begin", [I64], Void)
  ; ("pg_end", [I64], Void); ("pg_set_target_fps", [I64; I64], Void)
  ; ("pg_set_fixed_dt", [I64; F64], Void); ("pg_clear", [I64; I64; I64; I64], Void)
  ; ("pg_draw_pixel", [I64; I64; I64; I64; I64; I64], Void)
  ; ("pg_draw_line", [I64; I64; I64; I64; I64; I64; I64; I64], Void)
  ; ("pg_draw_rect", [I64; I64; I64; I64; I64; I64; I64; I64; Bool], Void)
  ; ("pg_blit", [I64; I64; I64; I64], Void); ("pg_get_pixel", [I64; I64; I64], I64)
  ; ("pg_save_ppm", [I64; Str], Bool); ("pg_checksum", [I64], I64); ("pg_mouse_x", [I64], F64)
  ; ("pg_mouse_y", [I64], F64); ("pg_mouse_norm_x", [I64], F64); ("pg_mouse_norm_y", [I64], F64)
  ; ("pg_scroll_x", [I64], F64); ("pg_scroll_y", [I64], F64); ("pg_delta", [I64], F64)
  ; ("pg_frame", [I64], I64); ("pg_key_down", [I64], Bool); ("pg_key_down_name", [Str], Bool)
  ; ("pg_mouse_down", [I64; I64], Bool); ("pg_mouse_down_name", [I64; Str], Bool)
  ; ("pg_surface_new", [I64; I64], I64); ("pg_surface_free", [I64], Void)
  ; ("pg_surface_clear", [I64; I64; I64; I64], Void)
  ; ("pg_surface_set", [I64; I64; I64; I64; I64; I64], Void)
  ; ("pg_surface_get", [I64; I64; I64], I64)
  ; ("pg_surface_line", [I64; I64; I64; I64; I64; I64; I64; I64], Void)
  ; ("pg_surface_rect", [I64; I64; I64; I64; I64; I64; I64; I64; Bool], Void)
  ; ("pg_surface_save_ppm", [I64; Str], Bool); ("np_new", [I64], I64); ("np_free", [I64], Void)
  ; ("np_len", [I64], I64); ("np_get", [I64; I64], F64); ("np_set", [I64; I64; F64], Void)
  ; ("np_copy", [I64], I64); ("np_fill", [I64; F64], Void)
  ; ("np_from_range", [F64; F64; F64], I64); ("np_linspace", [F64; F64; I64], I64)
  ; ("np_sum", [I64], F64); ("np_mean", [I64], F64); ("np_min", [I64], F64)
  ; ("np_max", [I64], F64); ("np_dot", [I64; I64], F64); ("np_add", [I64; I64], I64)
  ; ("np_sub", [I64; I64], I64); ("np_mul", [I64; I64], I64); ("np_div", [I64; I64], I64)
  ; ("np_add_scalar", [I64; F64], Void); ("np_mul_scalar", [I64; F64], Void)
  ; ("np_clip", [I64; F64; F64], Void); ("np_abs", [I64], Void)
  ; ("phys_new", [F64; F64; F64; F64; Bool], I64); ("phys_free", [I64], Void)
  ; ("phys_set_position", [I64; F64; F64; F64], Void)
  ; ("phys_set_velocity", [I64; F64; F64; F64], Void); ("phys_move", [I64; F64; F64; F64], Void)
  ; ("phys_apply_force", [I64; F64; F64; F64], Void); ("phys_step", [F64], Void)
  ; ("phys_get_x", [I64], F64); ("phys_get_y", [I64], F64); ("phys_get_z", [I64], F64)
  ; ("phys_get_vx", [I64], F64); ("phys_get_vy", [I64], F64); ("phys_get_vz", [I64], F64)
  ; ("phys_is_soft", [I64], Bool); ("camera_bind", [I64], Void); ("camera_target", [], I64)
  ; ("camera_set_offset", [F64; F64; F64], Void); ("camera_get_x", [], F64)
  ; ("camera_get_y", [], F64); ("camera_get_z", [], F64); ("key_down", [I64], Bool)
  ; ("key_down_name", [Str], Bool); ("parse_i64", [Str], I64); ("parse_f64", [Str], F64)
  ; ("bool_to_i64", [Bool], I64); ("i64_to_bool", [I64], Bool); ("to_i32", [I64], I32)
  ; ("to_f32", [F64], F32); ("to_i64", [F64], I64); ("to_f64", [I64], F64)
  ; ("gcd", [I64; I64], I64); ("lcm", [I64; I64], I64); ("max_i64", [I64; I64], I64)
  ; ("min_i64", [I64; I64], I64); ("abs_i64", [I64], I64); ("clamp_i64", [I64; I64; I64], I64)
  ; ("max_f64", [F64; F64], F64); ("min_f64", [F64; F64], F64); ("abs_f64", [F64], F64)
  ; ("clamp_f64", [F64; F64; F64], F64); ("pi", [], F64); ("tau", [], F64)
  ; ("deg_to_rad", [F64], F64); ("rad_to_deg", [F64], F64); ("sqrt", [F64], F64)
  ; ("sin", [F64], F64); ("cos", [F64], F64); ("tan", [F64], F64); ("asin", [F64], F64)
  ; ("acos", [F64], F64); ("atan", [F64], F64); ("atan2", [F64; F64], F64); ("exp", [F64], F64)
  ; ("log", [F64], F64); ("log10", [F64], F64); ("floor", [F64], F64); ("ceil", [F64], F64)
  ; ("round", [F64], F64); ("pow", [F64; F64], F64) ].
End Builtins.

Module TypeCheck.

(** The mutable members of [class TypeCheck]. *)
Record State := mkState {
  sig_ : gmap string Sig.t;
  overloads_ : gmap string (list OverloadCandidate.t);
  warnings_ : list string
}.

Definition emptyState : State := mkState ∅ ∅ [].

(** A member function either throws a [CompileError] (its message is kept,
    its span is not) or returns, having possibly changed the state. *)
Definition M (A : Type) : Type := State -> string + (A * State).

Definition ret {A} (a : A) : M A := fun st => inr (a, st).
Definition bind {A B} (k : A -> M B) (m : M A) : M B :=
  fun st => match m st with inl e => inl e | inr (a, st') => k a st' end.
Definition throw {A} (msg : string) : M A := fun _ => inl msg.
Definition getState : M State := fun st => inr (st, st).
Definition modify (f : State -> State) : M unit := fun st => inr (tt, f st).

(** stdpp's monad notation: [x ← m; k] and [m ;; k]. *)
#[global] Instance M_ret : MRet M := @ret.
#[global] Instance M_bind : MBind M := @bind.

Fixpoint forM_ {A} (xs : list A) (k : A -> M unit) : M unit :=
  match xs with
  | [] => ret tt
  | x :: xs' => k x ;; forM_ xs' k
  end.

Definition can (a b : Ty.t) : bool :=
  bool_decide (a = b) || (isNum a && isNum b).

Definition canSafeWiden (from to : Ty.t) : bool :=
  if bool_decide (from = to) then true
  else if bool_decide (from = Ty.I32)
          && (bool_decide (to = Ty.I64) || bool_decide (to = Ty.F32)
              || bool_decide (to = Ty.F64)) then true
  else if bool_decide (from = Ty.I64) && bool_decide (to = Ty.F64) then true
  else if bool_decide (from = Ty.F32) && bool_decide (to = Ty.F64) then true
  else false.

Definition conversionCost (from to : Ty.t) : Z :=
  if bool_decide (from = to) then 0
  else if canSafeWiden from to then 1
  else -1.

Definition promote (a b : Ty.t) : Ty.t :=
  if isFloat a || isFloat b then
    (if bool_decide (a = Ty.F64) || bool_decide (b = Ty.F64) then Ty.F64 else Ty.F32)
  else (if bool_decide (a = Ty.I64) || bool_decide (b = Ty.I64) then Ty.I64 else Ty.I32).

Definition isPrintable (t : Ty.t) : bool :=
  match t with Ty.Void => false | _ => true end.

Definition isRawMemFunction (name : string) : bool :=
  bool_decide (name ∈ ["mem_alloc"; "mem_realloc"; "mem_free"; "mem_set"; "mem_copy";
                       "mem_read_i64"; "mem_write_i64"; "mem_read_f64"; "mem_write_f64"]).

Definition isLiteralZero (e : Expr) : bool :=
  match e with EInt v _ => v =? 0 | _ => false end.

Fixpoint stmtHasLoopControl (s : Stmt) : bool :=
  match s with
  | SBreak | SContinue => true
  | SIf _ t e => existsb stmtHasLoopControl t || existsb stmtHasLoopControl e
  | SWhile _ b | SFor _ _ _ _ _ b | SFormatBlock _ b => existsb stmtHasLoopControl b
  | _ => false
  end.

(** [hasLoopControl] *)
Definition hasLoopControl (b : list Stmt) : bool := existsb stmtHasLoopControl b.

Fixpoint stmtHasForbiddenAssign (forbidden : gset string) (s : Stmt) : bool :=
  match s with
  | SAssign n _ => bool_decide (n ∈ forbidden)
  | SIf _ t e =>
    existsb (stmtHasForbiddenAssign forbidden) t
    || existsb (stmtHasForbiddenAssign forbidden) e
  | SWhile _ b | SFor _ _ _ _ _ b | SFormatBlock _ b =>
    existsb (stmtHasForbiddenAssign forbidden) b
  | _ => false
  end.

(** [hasForbiddenAssign] *)
Definition hasForbiddenAssign (b : list Stmt) (forbidden : gset string) : bool :=
  existsb (stmtHasForbiddenAssign forbidden) b.

(** [ownedFreeFnForCtor] *)
Definition ownedFreeFnForCtor (initExpr : Expr) : string :=
  match initExpr with
  | ECall f _ _ =>
    if String.eqb f "array_new" then "array_free"
    else if String.eqb f "dict_new" then "dict_free"
    else if String.eqb f "map_new" then "map_free"
    else if String.eqb f "object_new" then "object_free"
    else if String.eqb f "np_new" || String.eqb f "np_copy"
            || String.eqb f "np_from_range" || String.eqb f "np_linspace" then "np_free"
    else if String.eqb f "gfx_new" || String.eqb f "pg_surface_new" then "gfx_free"
    else if String.eqb f "game_new" || String.eqb f "pg_init" then "game_free"
    else if String.eqb f "phys_new" then "phys_free"
    else if String.eqb f "http_server_listen" then "http_server_close"
    else if String.eqb f "http_client_connect" then "http_client_close"
    else if String.eqb f "result_ok" || String.eqb f "result_err" then "result_free"
    else if String.eqb f "option_some" || String.eqb f "option_none" then "option_free"
    else EmptyString
  | _ => EmptyString
  end.

Definition INT_MAX : Z := 2147483647.

(** The inner loop of [resolveOverload]: the summed conversion cost of the
    arguments, [None] once an argument is not convertible ([ok = false]). *)
Fixpoint argsCost (argTypes params : list Ty.t) (cost : Z) : option Z :=
  match argTypes, params with
  | a :: argTypes', q :: params' =>
    let c := conversionCost a q in
    if c <? 0 then None else argsCost argTypes' params' (cost + c)
  | _, _ => Some cost
  end.

(** One round of the loop over the candidates; the state is
    [(bestCost, best, ambiguous)]. *)
Definition scanCandidate (argTypes : list Ty.t)
    (st : Z * option OverloadCandidate.t * bool) (cand : OverloadCandidate.t)
  : Z * option OverloadCandidate.t * bool :=
  let '(bestCost, best, ambiguous) := st in
  if negb (length (Sig.p (OverloadCandidate.sig cand)) =? length argTypes)%nat then st
  else
    match argsCost argTypes (Sig.p (OverloadCandidate.sig cand)) 0 with
    | None => st
    | Some cost =>
      if cost <? bestCost then (cost, Some cand, false)
      else if cost =? bestCost then (bestCost, best, true)
      else st
    end.

Section WithMode.

Variable superuserMode_ : bool.

(** [warn]: the position prefix of the message is dropped with the span. *)
Definition warn (m : string) : M unit :=
  modify (fun st =>
    mkState (sig_ st) (overloads_ st) (app (warnings_ st) ["warning: " ++ m])).

(** [req] *)
Definition req (ok : bool) (m : string) : M unit :=
  if ok then ret tt
  else if superuserMode_ then warn ("superuser mode: " ++ m ++ " (continuing)")
  else throw m.

(** The lambda [failVoid] of [expr]. *)
Definition failVoid (m : string) : M unit :=
  if superuserMode_ then warn ("superuser mode: " ++ m ++ " (continuing)")
  else throw m.

(** The lambdas [mark] and [failType] of [expr], applied to the node [e]. *)
Definition mark (e : Expr) (t : Ty.t) : M (Ty.t * Expr) :=
  ret (t, setAnn e (mkAnn t true)).

Definition failType (e : Expr) (m : string) (fallback : Ty.t) : M (Ty.t * Expr) :=
  if superuserMode_ then
    warn ("superuser mode: " ++ m ++ " (continuing)") ;; mark e fallback
  else throw m.

(** [addSig] *)
Definition addSig (name : string) (params : list Ty.t) (r : Ty.t)
    (throws : list string) (alias : string) : M unit :=
  st ← getState;
  (if bool_decide (is_Some (sig_ st !! name)) then
     if superuserMode_ then
       warn ("superuser mode: duplicate function '" ++ name ++ "' (latest signature wins)")
     else throw ("duplicate function '" ++ name ++ "'")
   else ret tt) ;;
  modify (fun st =>
    let sg := Sig.mk params r throws in
    let group := if String.eqb alias EmptyString then name else alias in
    let old := default [] (overloads_ st !! group) in
    mkState (<[name := sg]> (sig_ st))
            (<[group := app old [OverloadCandidate.mk name sg]]> (overloads_ st))
            (warnings_ st)).

(** [addBuiltins] *)
Definition addBuiltins : M unit :=
  forM_ Builtins.table (fun '(name, params, r) => addSig name params r [] EmptyString).

(** [collect] *)
Definition collect (p_ : Program) : M unit :=
  addBuiltins ;;
  forM_ p_ (fun f =>
    let params := Param.t_ <$> Fn.p f in
    let alias := if String.eqb (Fn.sourceName f) EmptyString then Fn.n f
                 else Fn.sourceName f in
    addSig (Fn.n f) params (Fn.ret f) (Fn.throws f) alias).

(** [resolveOverload] *)
Definition resolveOverload (name : string) (argTypes : list Ty.t)
  : M (option OverloadCandidate.t) :=
  st ← getState;
  match overloads_ st !! name with
  | None => ret None
  | Some cands =>
    let '(_, best, ambiguous) :=
      fold_left (scanCandidate argTypes) cands (INT_MAX, None, false) in
    match best with
    | None => ret None
    | Some b =>
      (if ambiguous then
         if superuserMode_ then
           warn ("superuser mode: ambiguous overload for '" ++ name
                 ++ "'; keeping first candidate")
         else throw ("ambiguous overload for function '" ++ name ++ "'")
       else ret tt) ;;
      ret (Some b)
    end
  end.

Definition rawMemAdvice (fnName : string) : string :=
  "raw memory API '" ++ fnName
  ++ "' used directly; prefer typed ptr/slice wrappers and isolate raw access to audited blocks".

(** The lambda [tryResolvedUnaryOperator] of [expr]; [Some rt] also means
    that [overrideFn] has been set to [sym]. *)
Definition tryResolvedUnaryOperator (op : UK.t) (t : Ty.t) (sym : string)
  : M (option Ty.t) :=
  if String.eqb sym EmptyString then ret None
  else
    st ← getState;
    match sig_ st !! sym with
    | None => ret None
    | Some sg =>
      match Sig.p sg with
      | [p0] => if can t p0 then ret (Some (Sig.r sg)) else ret None
      | _ =>
        if superuserMode_ then
          warn ("superuser mode: unary operator override '"
                ++ unaryOperatorSymbolText op ++ "' has invalid arity (continuing)") ;;
          ret None
        else throw ("unary operator override '" ++ unaryOperatorSymbolText op
                    ++ "' must have 1 parameter")
      end
    end.

(** The lambda [tryResolvedOperator] of [expr]. *)
Definition tryResolvedOperator (op : BK.t) (a b : Ty.t) (sym : string)
  : M (option Ty.t) :=
  if String.eqb sym EmptyString then ret None
  else
    st ← getState;
    match sig_ st !! sym with
    | None => ret None
    | Some sg =>
      match Sig.p sg with
      | [p0; p1] => if can a p0 && can b p1 then ret (Some (Sig.r sg)) else ret None
      | _ =>
        if superuserMode_ then
          warn ("superuser mode: operator override '"
                ++ operatorSymbolText op ++ "' has invalid arity (continuing)") ;;
          ret None
        else throw ("operator override '" ++ operatorSymbolText op
                    ++ "' must have 2 parameters")
      end
    end.

(** The built-in rules for a unary node whose operand has type [t]. *)
Definition unaryDefault (node : Expr) (op : UK.t) (t : Ty.t) : M (Ty.t * Expr) :=
  match op with
  | UK.Neg =>
    if negb (isNum t) then failType node "unary '-' requires numeric" Ty.I64
    else mark node t
  | UK.Not =>
    if negb (bool_decide (t = Ty.Bool)) then failType node "unary '!' requires bool" Ty.Bool
    else mark node Ty.Bool
  end.

Definition zeroCheck (r : Expr) (what_ : string) : M unit :=
  if isLiteralZero r then
    if superuserMode_ then warn ("superuser mode: allowing " ++ what_ ++ " by zero expression")
    else throw (what_ ++ " by zero")
  else ret tt.

(** The [switch (n.op)] of the binary case; [r] is the right operand. *)
Definition binaryDefault (node : Expr) (op : BK.t) (a b : Ty.t) (r : Expr)
  : M (Ty.t * Expr) :=
  match op with
  | BK.Add | BK.Sub | BK.Mul =>
    if negb (isNum a) || negb (isNum b)
    then failType node "arithmetic requires numeric" Ty.I64
    else mark node (promote a b)
  | BK.Div =>
    if negb (isNum a) || negb (isNum b)
    then failType node "arithmetic requires numeric" Ty.I64
    else zeroCheck r "division" ;; mark node (promote a b)
  | BK.Mod =>
    if negb (isInt a) || negb (isInt b)
    then failType node "'%' requires integer operands" Ty.I64
    else zeroCheck r "modulo" ;; mark node (promote a b)
  | BK.Pow =>
    if negb (isNum a) || negb (isNum b)
    then failType node "power operator requires numeric" Ty.I64
    else mark node (promote a b)
  | BK.Lt | BK.Lte | BK.Gt | BK.Gte =>
    if negb (isNum a) || negb (isNum b)
    then failType node "comparison requires numeric" Ty.Bool
    else mark node Ty.Bool
  | BK.And | BK.Or =>
    if negb (bool_decide (a = Ty.Bool)) || negb (bool_decide (b = Ty.Bool))
    then failType node "logical operators require bool" Ty.Bool
    else mark node Ty.Bool
  | BK.Eq | BK.Neq =>
    if bool_decide (a = b) || (isNum a && isNum b) then mark node Ty.Bool
    else failType node ("cannot compare '" ++ typeName a ++ "' with '"
                        ++ typeName b ++ "'") Ty.Bool
  end.

Definition throwsCheck (sym : string) (throwsAllowed : gset string) (errName : string)
  : M unit :=
  if bool_decide (errName ∈ throwsAllowed) then ret tt
  else if superuserMode_ then
    warn ("superuser mode: bypassing throws contract for '" ++ sym ++ "' and '"
          ++ errName ++ "'")
  else throw ("call to '" ++ sym ++ "' may throw '" ++ errName ++ "'; add 'throws "
              ++ errName ++ "' to the current function").

(** The loop over the arguments that checks convertibility; [i] counts from
    1 as the message does. *)
Fixpoint argsConvertible (i : Z) (argTypes params : list Ty.t) : M unit :=
  match argTypes, params with
  | aty :: argTypes', pt :: params' =>
    (if can aty pt then ret tt
     else failVoid ("arg " ++ to_string i ++ " cannot convert '" ++ typeName aty
                    ++ "' to '" ++ typeName pt ++ "'")) ;;
    argsConvertible (i + 1) argTypes' params'
  | _, _ => ret tt
  end.

(** The end of the call case, from [resolveOverload] on, for a call whose
    arguments [args] have been checked and have the types [argTypes]. *)
Definition callResolved (f fnName : string) (a : Ann) (args : list Expr)
    (argTypes : list Ty.t) (throwsAllowed : gset string) : M (Ty.t * Expr) :=
  c0 ← resolveOverload fnName argTypes;
  st ← getState;
  match (match c0 with
         | Some c => Some c
         | None => OverloadCandidate.mk fnName <$> (sig_ st !! fnName)
         end) with
  | None => failType (ECall f args a) ("unknown function '" ++ f ++ "'") Ty.I64
  | Some cand =>
    let sym := OverloadCandidate.symbol cand in
    let sg := OverloadCandidate.sig cand in
    forM_ (Sig.throws sg) (throwsCheck sym throwsAllowed) ;;
    (if negb (length (Sig.p sg) =? length args)%nat then
       failVoid ("function '" ++ sym ++ "' expects "
                 ++ to_string (Z.of_nat (length (Sig.p sg))) ++ " args")
     else ret tt) ;;
    argsConvertible 1 argTypes (Sig.p sg) ;;
    mark (ECall sym args a) (Sig.r sg)
  end.

(** The [spawn] case once its argument is known to be the call
    [ECall tf targs ta]. *)
Definition spawnTarget (f : string) (a : Ann) (tf : string) (targs : list Expr) (ta : Ann)
  : M (Ty.t * Expr) :=
  let targetFnName := canonicalSuperuserCallName tf in
  (if negb (bool_decide (targs = [])) then failVoid "spawn target must not take arguments"
   else ret tt) ;;
  c0 ← resolveOverload targetFnName [];
  st ← getState;
  match (match c0 with
         | Some c => Some c
         | None => OverloadCandidate.mk targetFnName <$> (sig_ st !! targetFnName)
         end) with
  | None =>
    failVoid ("unknown function '" ++ tf ++ "'") ;;
    mark (ECall f [ECall tf targs ta] a) Ty.I64
  | Some cand =>
    let sg := OverloadCandidate.sig cand in
    (if negb (bool_decide (Sig.p sg = [])) then
       failVoid "spawn target must have zero parameters" else ret tt) ;;
    (if negb (bool_decide (Sig.r sg = Ty.Void)) then
       failVoid "spawn target must return void" else ret tt) ;;
    mark (ECall f [ECall (OverloadCandidate.symbol cand) targs ta] a) Ty.I64
  end.

Definition exprsWith (exprF : Expr -> M (Ty.t * Expr))
  : list Expr -> M (list (Ty.t * Expr)) :=
  fix go xs :=
    match xs with
    | [] => ret []
    | x :: xs' => r ← exprF x; rs ← go xs'; ret (r :: rs)
    end.

(** [Type expr(Expr &e, l, throwsAllowed)]: the type, and the node as the
    call leaves it (annotated, call targets and operator overrides
    rewritten). *)
Fixpoint expr (e : Expr) (l : gmap string Local.t) (throwsAllowed : gset string)
  {struct e} : M (Ty.t * Expr) :=
  match e with
  | EInt _ _ => mark e Ty.I64
  | EBool _ _ => mark e Ty.Bool
  | EString _ _ => mark e Ty.Str
  | EVar n _ =>
    match l !! n with
    | None => failType e ("unknown variable '" ++ n ++ "'") Ty.I64
    | Some loc => mark e (Local.t_ loc)
    end
  | EUnary op x ov a =>
    '(t, x') ← expr x l throwsAllowed;
    r1 ← (if String.eqb ov EmptyString then ret None
          else tryResolvedUnaryOperator op t ov);
    match r1 with
    | Some rt => mark (EUnary op x' ov a) rt
    | None =>
      let sym := unaryOperatorOverrideSymbol op in
      r2 ← tryResolvedUnaryOperator op t sym;
      match r2 with
      | Some rt => mark (EUnary op x' sym a) rt
      | None => unaryDefault (EUnary op x' EmptyString a) op t
      end
    end
  | EBinary op lhs rhs ov a =>
    '(ta, lhs') ← expr lhs l throwsAllowed;
    '(tb, rhs') ← expr rhs l throwsAllowed;
    r1 ← (if String.eqb ov EmptyString then ret None
          else tryResolvedOperator op ta tb ov);
    match r1 with
    | Some rt => mark (EBinary op lhs' rhs' ov a) rt
    | None =>
      let sym := operatorOverrideSymbol op in
      r2 ← tryResolvedOperator op ta tb sym;
      match r2 with
      | Some rt => mark (EBinary op lhs' rhs' sym a) rt
      | None => binaryDefault (EBinary op lhs' rhs' EmptyString a) op ta tb rhs'
      end
    end
  | ECall f args a =>
    let fnName := canonicalSuperuserCallName f in
    let one (k : Ty.t -> Expr -> M (Ty.t * Expr)) (otherwise : M (Ty.t * Expr)) :=
      match args with
      | [x] => '(t, x') ← expr x l throwsAllowed; k t x'
      | _ => otherwise
      end in
    let input_ (nm : string) (rt : Ty.t) :=
      match args with
      | [] => mark e rt
      | [x] =>
        '(t, x') ← expr x l throwsAllowed;
        (if negb (bool_decide (t = Ty.Str)) then
           failVoid ("arg 1 cannot convert '" ++ typeName t ++ "' to 'str'")
         else ret tt) ;;
        mark (ECall f [x'] a) rt
      | _ => failVoid ("function '" ++ nm ++ "' expects 0 or 1 args") ;; mark e rt
      end in
    (if isRawMemFunction fnName then warn (rawMemAdvice fnName) else ret tt) ;;
    if String.eqb fnName "superuser" then
      (if negb (bool_decide (args = [])) then failVoid "function 'superuser' expects 0 args"
       else ret tt) ;;
      mark e Ty.Void
    else if startsWith fnName "su." && negb superuserMode_ then
      throw "Not privileged: call superuser() to enable developer superuser mode"
    else if String.eqb fnName "input" then input_ "input" Ty.Str
    else if String.eqb fnName "input_i64" then input_ "input_i64" Ty.I64
    else if String.eqb fnName "input_f64" then input_ "input_f64" Ty.F64
    else if String.eqb fnName "print" || String.eqb fnName "println" then
      one (fun t x' =>
             (if negb (isPrintable t) then
                failVoid ("arg 1 cannot print type '" ++ typeName t ++ "'")
              else ret tt) ;;
             mark (ECall f [x'] a) Ty.Void)
          (failVoid ("function '" ++ f ++ "' expects 1 arg") ;; mark e Ty.Void)
    else if String.eqb fnName "formatOutput" || String.eqb fnName "FormatOutput" then
      one (fun t x' =>
             (if negb (isPrintable t) then
                failVoid ("arg 1 cannot format type '" ++ typeName t ++ "'")
              else ret tt) ;;
             mark (ECall f [x'] a) Ty.Str)
          (failVoid ("function '" ++ f ++ "' expects 1 arg") ;; mark e Ty.Str)
    else if String.eqb fnName "max" || String.eqb fnName "min" then
      match args with
      | [x0; x1] =>
        '(a0, x0') ← expr x0 l throwsAllowed;
        '(a1, x1') ← expr x1 l throwsAllowed;
        if negb (isNum a0) || negb (isNum a1) then
          failVoid ("function '" ++ f ++ "' requires numeric args") ;;
          mark (ECall f [x0'; x1'] a) Ty.I64
        else mark (ECall f [x0'; x1'] a) (promote a0 a1)
      | _ => failVoid ("function '" ++ f ++ "' expects 2 args") ;; mark e Ty.I64
      end
    else if String.eqb fnName "abs" then
      one (fun a0 x' =>
             if negb (isNum a0) then
               failVoid ("function '" ++ f ++ "' requires numeric args") ;;
               mark (ECall f [x'] a) Ty.I64
             else mark (ECall f [x'] a) a0)
          (failVoid ("function '" ++ f ++ "' expects 1 arg") ;; mark e Ty.I64)
    else if String.eqb fnName "clamp" then
      match args with
      | [x0; x1; x2] =>
        '(a0, x0') ← expr x0 l throwsAllowed;
        '(a1, x1') ← expr x1 l throwsAllowed;
        '(a2, x2') ← expr x2 l throwsAllowed;
        if negb (isNum a0) || negb (isNum a1) || negb (isNum a2) then
          failVoid ("function '" ++ f ++ "' requires numeric args") ;;
          mark (ECall f [x0'; x1'; x2'] a) Ty.I64
        else mark (ECall f [x0'; x1'; x2'] a) (promote (promote a0 a1) a2)
      | _ => failVoid ("function '" ++ f ++ "' expects 3 args") ;; mark e Ty.I64
      end
    else if String.eqb fnName ".format" then
      (if negb (bool_decide (args = [])) then
         failVoid ("function '" ++ f ++ "' expects 0 args") else ret tt) ;;
      mark e Ty.Void
    else if String.eqb fnName "spawn" then
      match args with
      | [ECall tf targs ta] => spawnTarget f a tf targs ta
      | [_] =>
        failVoid "spawn expects a function call like spawn(worker())" ;; mark e Ty.I64
      | _ => failVoid "function 'spawn' expects 1 arg" ;; mark e Ty.I64
      end
    else
      rs ← exprsWith (fun x => expr x l throwsAllowed) args;
      callResolved f fnName a (snd <$> rs) (fst <$> rs) throwsAllowed
  end.

Abbreviation Env := (gmap string Local.t).

Definition blockWith (stmtF : Stmt -> Env -> Z -> M (Stmt * Env))
  : list Stmt -> Env -> Z -> M (list Stmt) :=
  fix go b l loopDepth :=
    match b with
    | [] => ret []
    | x :: tl =>
      '(x', l') ← stmtF x l loopDepth;
      tl' ← go tl l' loopDepth;
      ret (x' :: tl')
    end.

Definition alreadyDeclared (n : string) : string :=
  "variable '" ++ n ++ "' already declared".

Definition ownedNeedsCtor : string :=
  "declare owned requires constructor call that has a matching free function".

(** [void stmt(Stmt &s, l, ret, loopDepth, throwsAllowed)]: the statement
    as the call leaves it and the environment [l], which the source takes
    by reference. *)
Fixpoint stmt (s : Stmt) (l : Env) (ret_ : Ty.t) (loopDepth : Z)
    (throwsAllowed : gset string) {struct s} : M (Stmt * Env) :=
  let block := blockWith (fun x l' d => stmt x l' ret_ d throwsAllowed) in
  match s with
  | SLet n decl isConst isOwned ownedFreeFn a v =>
    req (negb (bool_decide (is_Some (l !! n)))) (alreadyDeclared n) ;;
    '(vt, v') ← expr v l throwsAllowed;
    let ft := default vt decl in
    req (can vt ft) ("cannot convert '" ++ typeName vt ++ "' to '" ++ typeName ft ++ "'") ;;
    free ← (if isOwned then
              req (loopDepth =? 0) "declare owned is not allowed inside loops" ;;
              req (bool_decide (ft = Ty.I64)) "declare owned requires i64 handle type" ;;
              req (negb (String.eqb (ownedFreeFnForCtor v') EmptyString)) ownedNeedsCtor ;;
              ret (ownedFreeFnForCtor v')
            else ret ownedFreeFn);
    ret (SLet n decl isConst isOwned free (mkAnn ft true) v',
         <[n := Local.mk ft isConst isOwned free]> l)
  | SAssign n v =>
    req (bool_decide (is_Some (l !! n))) ("assignment to undeclared variable '" ++ n ++ "'") ;;
    '(vt, v') ← expr v l throwsAllowed;
    (* [l[n.n]] creates the entry when it is missing *)
    let loc := default (Local.mk Ty.I64 false false EmptyString) (l !! n) in
    let l' := <[n := loc]> l in
    req (negb (Local.isConst loc)) ("cannot assign to const variable '" ++ n ++ "'") ;;
    req (negb (Local.isOwned loc))
        ("cannot assign to owned handle '" ++ n
         ++ "'; release explicitly and declare a new owned handle") ;;
    req (can vt (Local.t_ loc))
        ("cannot assign '" ++ typeName vt ++ "' to '" ++ typeName (Local.t_ loc) ++ "'") ;;
    ret (SAssign n v', l')
  | SExpr e =>
    '(_, e') ← expr e l throwsAllowed;
    ret (SExpr e', l)
  | SRet has v =>
    if negb has then
      req (bool_decide (ret_ = Ty.Void)) "missing return value" ;; ret (s, l)
    else
      match v with
      | None =>
        (* [SRet(true, nullptr)] is built nowhere (the parser and the optimizer
           pair [has] with a non-null [v]); the source would dereference the
           null pointer here, which the embedding keeps as a failure *)
        throw "internal: return without an expression"
      | Some v0 =>
        (match v0 with
         | EVar rv _ =>
           match l !! rv with
           | Some loc =>
             if Local.isOwned loc
             then req false ("cannot return owned handle variable '" ++ rv ++ "'")
             else ret tt
           | None => ret tt
           end
         | _ => ret tt
         end) ;;
        '(vt, v') ← expr v0 l throwsAllowed;
        req (can vt ret_)
            ("cannot return '" ++ typeName vt ++ "' from '" ++ typeName ret_ ++ "'") ;;
        ret (SRet has (Some v'), l)
      end
  | SIf c t e =>
    '(ct, c') ← expr c l throwsAllowed;
    req (bool_decide (ct = Ty.Bool)) "if condition must be bool" ;;
    t' ← block t l loopDepth;
    e' ← block e l loopDepth;
    ret (SIf c' t' e', l)
  | SWhile c b =>
    '(ct, c') ← expr c l throwsAllowed;
    req (bool_decide (ct = Ty.Bool)) "while condition must be bool" ;;
    b' ← block b l (loopDepth + 1);
    ret (SWhile c' b', l)
  | SFor n start stop step parallel b =>
    '(st, start') ← expr start l throwsAllowed;
    '(en, stop') ← expr stop l throwsAllowed;
    '(sp, step') ← expr step l throwsAllowed;
    req (bool_decide (st = Ty.I64)) "for range start must be i64" ;;
    req (bool_decide (en = Ty.I64)) "for range stop must be i64" ;;
    req (bool_decide (sp = Ty.I64)) "for range step must be i64" ;;
    (if isLiteralZero step' then
       if superuserMode_ then
         warn "superuser mode: allowing for-range literal step 0 (loop becomes no-op)"
       else throw "for range step cannot be zero"
     else ret tt) ;;
    (if parallel && hasLoopControl b then
       if superuserMode_ then
         warn "superuser mode: allowing break/continue inside parallel for"
       else throw "parallel for does not support break/continue"
     else ret tt) ;;
    (if parallel && hasForbiddenAssign b (dom l ∪ {[n]}) then
       if superuserMode_ then
         warn "superuser mode: allowing outer-variable writes in parallel for"
       else throw "parallel for cannot assign to outer variables"
     else ret tt) ;;
    b' ← block b (<[n := Local.mk Ty.I64 false false EmptyString]> l) (loopDepth + 1);
    ret (SFor n start' stop' step' parallel b', l)
  | SFormatBlock endArg b =>
    endArg' ← match endArg with
               | Some x =>
                 '(et, x') ← expr x l throwsAllowed;
                 req (bool_decide (et = Ty.Str))
                     "formatOutput block end argument must be str" ;;
                 ret (Some x')
               | None => ret None
               end;
    b' ← block b l loopDepth;
    ret (SFormatBlock endArg' b', l)
  | SBreak =>
    req (0 <? loopDepth) "'break' can only be used inside loops" ;; ret (s, l)
  | SContinue =>
    req (0 <? loopDepth) "'continue' can only be used inside loops" ;; ret (s, l)
  end.

(** [void block(b, l, ret, loopDepth, throwsAllowed)]: [l] is taken by value,
    so nothing of the environment comes back. *)
Definition block (b : list Stmt) (l : Env) (ret_ : Ty.t) (loopDepth : Z)
    (throwsAllowed : gset string) : M (list Stmt) :=
  blockWith (fun x l' d => stmt x l' ret_ d throwsAllowed) b l loopDepth.

(** The loop of [fn] over the parameters. *)
Fixpoint params (ps : list Param.t) (l : Env) : M Env :=
  match ps with
  | [] => ret l
  | q :: ps' =>
    (if bool_decide (is_Some (l !! Param.n q)) then
       if superuserMode_ then
         warn ("superuser mode: duplicate parameter '" ++ Param.n q
               ++ "' (latest declaration wins)")
       else throw ("duplicate parameter '" ++ Param.n q ++ "'")
     else ret tt) ;;
    params ps' (<[Param.n q := Local.mk (Param.t_ q) false false EmptyString]> l)
  end.

(** [void fn(Fn &f)] *)
Definition fn (f : Fn.t) : M Fn.t :=
  l ← params (Fn.p f) ∅;
  b' ← block (Fn.b f) l (Fn.ret f) 0 (list_to_set (Fn.throws f));
  ret (Fn.mk (Fn.n f) (Fn.sourceName f) (Fn.isCliFlag f) (Fn.cliFlagName f)
             (Fn.ex f) (Fn.inl f) (Fn.p f) (Fn.ret f) (Fn.throws f) b').

Fixpoint fns (fs : list Fn.t) : M (list Fn.t) :=
  match fs with
  | [] => ret []
  | f :: fs' =>
    f' ← (if Fn.ex f then ret f else fn f);
    fs'' ← fns fs';
    ret (f' :: fs'')
  end.

(** [void run()] *)
Definition run (p_ : Program) : M Program := collect p_ ;; fns p_.

End WithMode.

(** [TypeCheck tc(p, superuserMode); tc.run();]: the annotated program and
    the warnings, or the error. *)
Definition check (superuserMode : bool) (p_ : Program) : string + (Program * list string) :=
  match run superuserMode p_ emptyState with
  | inl e => inl e
  | inr (p', st) => inr (p', warnings_ st)
  end.

End TypeCheck.

(* ===================================================================== *)
(* ===================================================================== *)
(** * The C emitter: entry point *)

Module EmitC.

Definition kEntryName : string := "__linescript_main".

Definition noEntryError : string :=
  "no runnable entry point found; add top-level statements, define main(), or define one zero-argument function".

Definition ambiguousEntryError : string :=
  "ambiguous entry point: multiple zero-argument functions found; define main(), add top-level statements, or keep only one zero-argument function".

(** The locals of the constructor's loop over [p_.f]; [zeroArgCount] is an
    [int] that counts functions of the program, kept here as a [Z]. *)
Record EntryScan := mkEntryScan {
  mainEntry : option Fn.t;
  scriptEntry : option Fn.t;
  singleZeroArg : option Fn.t;
  zeroArgCount : Z
}.

Definition isNil {A} (xs : list A) : bool :=
  match xs with [] => true | _ => false end.

Definition scanEntry (s : EntryScan) (f : Fn.t) : EntryScan :=
  if Fn.ex f || Fn.isCliFlag f then s
  else
    mkEntryScan
      (if String.eqb (Fn.n f) "main" then Some f else mainEntry s)
      (if String.eqb (Fn.n f) kScriptEntryName then Some f else scriptEntry s)
      (if isNil (Fn.p f)
       then match singleZeroArg s with None => Some f | Some g => Some g end
       else singleZeroArg s)
      (if isNil (Fn.p f) then zeroArgCount s + 1 else zeroArgCount s).

(** The end of the constructor: the pair [(entry_, entryError_)]. *)
Definition selectEntry (p_ : Program) : option Fn.t * string :=
  let s := fold_left scanEntry p_ (mkEntryScan None None None 0) in
  match scriptEntry s with
  | Some f => (Some f, EmptyString)
  | None =>
    match mainEntry s with
    | Some f => (Some f, EmptyString)
    | None =>
      if zeroArgCount s =? 1 then (singleZeroArg s, EmptyString)
      else if zeroArgCount s =? 0 then (None, noEntryError)
      else (None, ambiguousEntryError)
    end
  end.

Definition nl : string := str1 chLF.

(** The calls of the active command-line flag functions. *)
Definition flagCalls (activeCliFlagCalls_ : list string) : string :=
  foldr (fun flagFn out => "  " ++ flagFn ++ "();" ++ nl ++ out) EmptyString
        activeCliFlagCalls_.

(** [emitEntryWrapper]: the text appended to the output, or the error. *)
Definition emitEntryWrapper (ultraMinimalRuntime_ : bool)
    (activeCliFlagCalls_ : list string) (entry_ : Fn.t) : string + string :=
  if negb (isNil (Fn.p entry_)) then inl "entry function must have zero parameters"
  else if ultraMinimalRuntime_ then
    inr ("void __stdcall mainCRTStartup(void) {" ++ nl
         ++ flagCalls activeCliFlagCalls_
         ++ (if bool_decide (Fn.ret entry_ = Ty.Void) then
               "  " ++ kEntryName ++ "();" ++ nl ++ "  ExitProcess(0u);" ++ nl
             else if bool_decide (Fn.ret entry_ = Ty.Str) then
               "  (void)" ++ kEntryName ++ "();" ++ nl ++ "  ExitProcess(0u);" ++ nl
             else
               "  const int rc = (int)" ++ kEntryName ++ "();" ++ nl
               ++ "  ExitProcess((unsigned int)rc);" ++ nl)
         ++ "}" ++ nl)
  else
    inr ("int main(void) {" ++ nl
         ++ flagCalls activeCliFlagCalls_
         ++ (if bool_decide (Fn.ret entry_ = Ty.Void) then
               "  " ++ kEntryName ++ "();" ++ nl ++ "  return 0;" ++ nl
             else if bool_decide (Fn.ret entry_ = Ty.Str) then
               "  (void)" ++ kEntryName ++ "();" ++ nl ++ "  return 0;" ++ nl
             else
               "  return (int)" ++ kEntryName ++ "();" ++ nl)
         ++ "}" ++ nl).

(** What the driver does with the entry for a build or a run: it stops with
    [entryError_] when there is no entry, and [run] ends with the wrapper
    otherwise. *)
Definition entryWrapper (ultraMinimalRuntime_ : bool)
    (activeCliFlagCalls_ : list string) (p_ : Program) : string + string :=
  match selectEntry p_ with
  | (None, entryError_) => inl entryError_
  | (Some entry_, _) => emitEntryWrapper ultraMinimalRuntime_ activeCliFlagCalls_ entry_
  end.

End EmitC.

(* ===================================================================== *)
(** * Optimizer *)

Module Opt.

Definition litI (e : Expr) : option Z :=
  match e with EInt v _ => Some v | _ => None end.
Definition litB (e : Expr) : option bool :=
  match e with EBool v _ => Some v | _ => None end.
Definition isZero (e : Expr) : bool :=
  match litI e with Some i => i =? 0 | None => false end.
Definition isOne (e : Expr) : bool :=
  match litI e with Some i => i =? 1 | None => false end.

Definition isVarNamed (e : Expr) (name : string) : bool :=
  match e with EVar n _ => String.eqb n name | _ => false end.

(** [cloneE]: the copy has fresh annotation fields. *)
Fixpoint cloneE (e : Expr) : Expr :=
  match e with
  | EInt v _ => EInt v noAnn
  | EBool v _ => EBool v noAnn
  | EString v _ => EString v noAnn
  | EVar n _ => EVar n noAnn
  | EUnary op x ov _ => EUnary op (cloneE x) ov noAnn
  | EBinary op l r ov _ => EBinary op (cloneE l) (cloneE r) ov noAnn
  | ECall f args _ => ECall f (map cloneE args) noAnn
  end.

Fixpoint substE (e : Expr) (subs : gmap string Expr) : Expr :=
  match e with
  | EVar n _ =>
    match subs !! n with
    | Some x => cloneE x
    | None => EVar n noAnn
    end
  | EInt v _ => EInt v noAnn
  | EBool v _ => EBool v noAnn
  | EString v _ => EString v noAnn
  | EUnary op x ov _ => EUnary op (substE x subs) ov noAnn
  | EBinary op l r ov _ => EBinary op (substE l subs) (substE r subs) ov noAnn
  | ECall f args _ => ECall f (map (fun x => substE x subs) args) noAnn
  end.

Fixpoint hasCall (e : Expr) (name : string) : bool :=
  match e with
  | ECall f args _ =>
    String.eqb (canonicalSuperuserCallName f) (canonicalSuperuserCallName name)
    || existsb (fun a => hasCall a name) args
  | EUnary _ x _ _ => hasCall x name
  | EBinary _ l r _ _ => hasCall l name || hasCall r name
  | _ => false
  end.

(** [inlineCands]: the map holds pointers into the program, kept here as the
    positions of the functions; a later function of the same name wins. *)
Definition isInlineCand (f : Fn.t) : bool :=
  negb (Fn.ex f) && (length (Fn.p f) <=? 8)%nat
  && match Fn.b f with
     | [SRet true (Some v)] => negb (hasCall v (Fn.n f))
     | _ => false
     end.

Fixpoint inlineCandsFrom (i : nat) (p : Program) (m : gmap string nat)
  : gmap string nat :=
  match p with
  | [] => m
  | f :: p' =>
    inlineCandsFrom (S i) p' (if isInlineCand f then <[Fn.n f := i]> m else m)
  end.

Definition inlineCands (p : Program) : gmap string nat := inlineCandsFrom 0 p ∅.

Definition tripCount (start stop step : Z) : option Z :=
  if step =? 0 then None
  else if 0 <? step then
    if stop <=? start then Some 0
    else Some (div64 (sub64 (add64 (sub64 stop start) step) 1) step)
  else if start <=? stop then Some 0
  else
    let negStep := neg64 step in
    Some (div64 (sub64 (add64 (sub64 start stop) negStep) 1) negStep).

Fixpoint stmtDeclNamed (name : string) (s : Stmt) : bool :=
  match s with
  | SLet n _ _ _ _ _ _ => String.eqb n name
  | SIf _ t e => existsb (stmtDeclNamed name) t || existsb (stmtDeclNamed name) e
  | SWhile _ b => existsb (stmtDeclNamed name) b
  | SFor n _ _ _ _ b => String.eqb n name || existsb (stmtDeclNamed name) b
  | SFormatBlock _ b => existsb (stmtDeclNamed name) b
  | _ => false
  end.

Definition hasDeclNamed (b : list Stmt) (name : string) : bool :=
  existsb (stmtDeclNamed name) b.

Fixpoint stmtAssignsNamed (s : Stmt) (name : string) : bool :=
  match s with
  | SAssign n _ => String.eqb n name
  | SIf _ t e =>
    existsb (fun x => stmtAssignsNamed x name) t
    || existsb (fun x => stmtAssignsNamed x name) e
  | SWhile _ b => existsb (fun x => stmtAssignsNamed x name) b
  | SFor n _ _ _ _ b =>
    String.eqb n name || existsb (fun x => stmtAssignsNamed x name) b
  | SFormatBlock _ b => existsb (fun x => stmtAssignsNamed x name) b
  | _ => false
  end.

Fixpoint stmtLoopControl (s : Stmt) : bool :=
  match s with
  | SBreak | SContinue => true
  | SIf _ t e => existsb stmtLoopControl t || existsb stmtLoopControl e
  | SWhile _ b => existsb stmtLoopControl b
  | SFor _ _ _ _ _ b => existsb stmtLoopControl b
  | SFormatBlock _ b => existsb stmtLoopControl b
  | _ => false
  end.

Definition hasLoopControlStmt (b : list Stmt) : bool := existsb stmtLoopControl b.

Fixpoint exprHasVarName (e : Expr) (name : string) : bool :=
  match e with
  | EVar n _ => String.eqb n name
  | EUnary _ x _ _ => exprHasVarName x name
  | EBinary _ l r _ _ => exprHasVarName l name || exprHasVarName r name
  | ECall _ args _ => existsb (fun a => exprHasVarName a name) args
  | _ => false
  end.

Definition checkedI128ToI64 (v : Z) : option Z :=
  if v <? INT64_MIN then None
  else if INT64_MAX <? v then None
  else Some v.

Definition checkedAddI64 (a b : Z) : option Z := checkedI128ToI64 (add128 a b).
Definition checkedMulI64 (a b : Z) : option Z := checkedI128ToI64 (mul128 a b).

Definition absU64I64 (v : Z) : Z :=
  if v <? 0 then wrapU64 (wrapU64 (neg64 (add64 v 1)) + 1) else wrapU64 v.

(** The [while (ub != 0)] loop of [gcdSmallI64]; [gcdFuel] rounds are
    enough for 64-bit operands, as is proved with the properties. *)
Fixpoint gcdLoop (fuel : nat) (ua ub : Z) : Z :=
  match fuel with
  | O => ua
  | S fuel' => if ub =? 0 then ua else gcdLoop fuel' ub (ua mod ub)
  end.

Definition gcdFuel : nat := 200.

Definition gcdSmallI64 (a b : Z) : Z :=
  wrap64 (gcdLoop gcdFuel (absU64I64 a) (absU64I64 b)).

(** [reduceDivisor(x, den)], on the pair it updates in place. *)
Definition reduceDivisor (x den : Z) : Z * Z :=
  if den <=? 1 then (x, den)
  else
    let g := gcdSmallI64 x den in
    if 1 <? g then (div64 x g, div64 den g) else (x, den).

Definition mul2Div2ExactI64 (a b : Z) : option Z :=
  let '(x, den) := reduceDivisor a 2 in
  let '(y, den) := reduceDivisor b den in
  if negb (den =? 1) then None else checkedMulI64 x y.

Definition mul3Div6ExactI64 (a b c : Z) : option Z :=
  let '(x, den) := reduceDivisor a 6 in
  let '(y, den) := reduceDivisor b den in
  let '(z, den) := reduceDivisor c den in
  if negb (den =? 1) then None
  else xy ← checkedMulI64 x y; checkedMulI64 xy z.

Definition arithmeticSeriesSumI64 (count start step : Z) : option Z :=
  if count <=? 0 then Some 0
  else
    nMinus1 ← checkedAddI64 count (-1);
    span ← checkedMulI64 nMinus1 step;
    twoStart ← checkedMulI64 2 start;
    term ← checkedAddI64 twoStart span;
    mul2Div2ExactI64 count term.

Definition modPosI64Const (x m : Z) : option Z :=
  if m <=? 0 then None
  else
    let r := rem64 x m in
    Some (if r <? 0 then add64 r m else r).

(** The two summation loops of [modLinearSeriesSumI64]: [n] rounds from
    [cur], the sum kept in an [__int128]. *)
Fixpoint modWalk (n : nat) (cur d m : Z) (sum : Z) : Z :=
  match n with
  | O => sum
  | S n' =>
    let sum' := add128 sum cur in
    let cur' := add64 cur d in
    let cur'' := if m <=? cur' then sub64 cur' m else cur' in
    modWalk n' cur'' d m sum'
  end.

Definition modLinearSeriesSumI64 (iters start step a b m : Z) : option Z :=
  if (iters <=? 0) || (m <=? 0) then Some 0
  else
    let aStart := checkedMulI64 a start in
    let xRaw := match aStart with Some v => checkedAddI64 v b | None => None end in
    let dRaw := checkedMulI64 a step in
    let x0 := match xRaw with Some v => modPosI64Const v m | None => None end in
    let d := match dRaw with Some v => modPosI64Const v m | None => None end in
    match x0, d with
    | Some x0, Some d =>
      if d =? 0 then checkedI128ToI64 (mul128 x0 iters)
      else
        let g := gcdSmallI64 d m in
        if g <=? 0 then None
        else
          let period := div64 m g in
          if period <=? 0 then None
          else if 8192 <? period then None
          else
            let full := div64 iters period in
            let rem := sub64 iters (mul64 full period) in
            let cycle := modWalk (Z.to_nat period) x0 d m 0 in
            let tail := modWalk (Z.to_nat rem) x0 d m 0 in
            checkedI128ToI64 (add128 (mul128 full cycle) tail)
    | _, _ => None
    end.

Section WithNegOverride.

(** The global [gOptHasUnaryNegOverride], which [optimize] sets for the
    whole run. *)
Variable gOptHasUnaryNegOverride : bool.

(** The three tests that open every [Unary] case of the constant
    evaluators: no override on the node, no user [neg] operator in the
    program, and the operator is [Neg]. *)
Definition plainNeg (op : UK.t) (overrideFn : string) : bool :=
  String.eqb overrideFn EmptyString
  && negb (bool_decide (op = UK.Neg) && gOptHasUnaryNegOverride)
  && bool_decide (op = UK.Neg).

Fixpoint evalConstI64Expr (expr : Expr) : option Z :=
  match expr with
  | EInt v _ => Some v
  | EUnary op x ov _ =>
    if negb (plainNeg op ov) then None
    else v ← evalConstI64Expr x; checkedI128ToI64 (neg128 v)
  | EBinary op l r ov _ =>
    if negb (String.eqb ov EmptyString) then None
    else
      match evalConstI64Expr l, evalConstI64Expr r with
      | Some l, Some r =>
        match op with
        | BK.Add => checkedI128ToI64 (add128 l r)
        | BK.Sub => checkedI128ToI64 (sub128 l r)
        | BK.Mul => checkedI128ToI64 (mul128 l r)
        | _ => None
        end
      | _, _ => None
      end
  | _ => None
  end.

(** [struct AffineI64Const]: the pair [(a, b)] of [a * i + b]. *)
Definition AffineI64Const : Type := Z * Z.

Definition signOf (op : BK.t) : Z := if bool_decide (op = BK.Add) then 1 else -1.

Definition affineScale (c : Z) (x : AffineI64Const) : option AffineI64Const :=
  a ← checkedI128ToI64 (mul128 c (fst x));
  b ← checkedI128ToI64 (mul128 c (snd x));
  Some (a, b).

Fixpoint affineI64ConstExpr (expr : Expr) (loopVar : string) : option AffineI64Const :=
  match expr with
  | EInt v _ => Some (0, v)
  | EVar n _ => if String.eqb n loopVar then Some (1, 0) else None
  | EUnary op x ov _ =>
    if negb (plainNeg op ov) then None
    else
      i ← affineI64ConstExpr x loopVar;
      a ← checkedI128ToI64 (neg128 (fst i));
      b ← checkedI128ToI64 (neg128 (snd i));
      Some (a, b)
  | EBinary op l r ov _ =>
    if negb (String.eqb ov EmptyString) then None
    else if bool_decide (op = BK.Add) || bool_decide (op = BK.Sub) then
      match affineI64ConstExpr l loopVar, affineI64ConstExpr r loopVar with
      | Some l, Some r =>
        a ← checkedI128ToI64 (add128 (fst l) (mul128 (signOf op) (fst r)));
        b ← checkedI128ToI64 (add128 (snd l) (mul128 (signOf op) (snd r)));
        Some (a, b)
      | _, _ => None
      end
    else if bool_decide (op = BK.Mul) then
      match evalConstI64Expr l, evalConstI64Expr r with
      | Some lc, _ => x ← affineI64ConstExpr r loopVar; affineScale lc x
      | None, Some rc => x ← affineI64ConstExpr l loopVar; affineScale rc x
      | None, None => None
      end
    else None
  | _ => None
  end.

(** [struct Linear2I64Const]: [(ax, ay, c)] of [ax * x + ay * y + c]. *)
Definition Linear2I64Const : Type := Z * Z * Z.

Definition linear2Scale (k : Z) (x : Linear2I64Const) : option Linear2I64Const :=
  let '(xax, xay, xc) := x in
  ax ← checkedI128ToI64 (mul128 k xax);
  ay ← checkedI128ToI64 (mul128 k xay);
  c ← checkedI128ToI64 (mul128 k xc);
  Some (ax, ay, c).

Fixpoint linear2I64ConstExpr (expr : Expr) (xVar yVar : string)
  : option Linear2I64Const :=
  match expr with
  | EInt v _ => Some (0, 0, v)
  | EVar n _ =>
    if String.eqb n xVar then Some (1, 0, 0)
    else if String.eqb n yVar then Some (0, 1, 0)
    else None
  | EUnary op x ov _ =>
    if negb (plainNeg op ov) then None
    else
      '(iax, iay, ic) ← linear2I64ConstExpr x xVar yVar;
      ax ← checkedI128ToI64 (neg128 iax);
      ay ← checkedI128ToI64 (neg128 iay);
      c ← checkedI128ToI64 (neg128 ic);
      Some (ax, ay, c)
  | EBinary op l r ov _ =>
    if negb (String.eqb ov EmptyString) then None
    else if bool_decide (op = BK.Add) || bool_decide (op = BK.Sub) then
      match linear2I64ConstExpr l xVar yVar, linear2I64ConstExpr r xVar yVar with
      | Some (lax, lay, lc), Some (rax, ray, rc) =>
        ax ← checkedI128ToI64 (add128 lax (mul128 (signOf op) rax));
        ay ← checkedI128ToI64 (add128 lay (mul128 (signOf op) ray));
        c ← checkedI128ToI64 (add128 lc (mul128 (signOf op) rc));
        Some (ax, ay, c)
      | _, _ => None
      end
    else if bool_decide (op = BK.Mul) then
      match evalConstI64Expr l, evalConstI64Expr r with
      | Some lc, _ => x ← linear2I64ConstExpr r xVar yVar; linear2Scale lc x
      | None, Some rc => x ← linear2I64ConstExpr l xVar yVar; linear2Scale rc x
      | None, None => None
      end
    else None
  | _ => None
  end.

(** [struct Poly2I64Const]: [(c2, c1, c0)]. *)
Definition Poly2I64Const : Type := Z * Z * Z.

Definition poly2Degree (p : Poly2I64Const) : Z :=
  let '(c2, c1, _) := p in
  if negb (c2 =? 0) then 2 else if negb (c1 =? 0) then 1 else 0.

Definition poly2Add (a b : Poly2I64Const) (sign : Z) : option Poly2I64Const :=
  let '(a2, a1, a0) := a in
  let '(b2, b1, b0) := b in
  match checkedI128ToI64 (add128 a2 (mul128 sign b2)),
        checkedI128ToI64 (add128 a1 (mul128 sign b1)),
        checkedI128ToI64 (add128 a0 (mul128 sign b0)) with
  | Some c2, Some c1, Some c0 => Some (c2, c1, c0)
  | _, _, _ => None
  end.

Definition poly2Mul (a b : Poly2I64Const) : option Poly2I64Const :=
  let '(a2, a1, a0) := a in
  let '(b2, b1, b0) := b in
  let c4 := mul128 a2 b2 in
  let c3 := add128 (mul128 a2 b1) (mul128 a1 b2) in
  if negb (c4 =? 0) || negb (c3 =? 0) then None
  else
    match checkedI128ToI64 (add128 (add128 (mul128 a2 b0) (mul128 a1 b1)) (mul128 a0 b2)),
          checkedI128ToI64 (add128 (mul128 a1 b0) (mul128 a0 b1)),
          checkedI128ToI64 (mul128 a0 b0) with
    | Some c2, Some c1, Some c0 => Some (c2, c1, c0)
    | _, _, _ => None
    end.

Fixpoint poly2ConstI64Expr (expr : Expr) (loopVar : string) : option Poly2I64Const :=
  match expr with
  | EInt v _ => Some (0, 0, v)
  | EVar n _ => if String.eqb n loopVar then Some (0, 1, 0) else None
  | EUnary op x ov _ =>
    if negb (plainNeg op ov) then None
    else
      '(i2, i1, i0) ← poly2ConstI64Expr x loopVar;
      match checkedI128ToI64 (neg128 i2), checkedI128ToI64 (neg128 i1),
            checkedI128ToI64 (neg128 i0) with
      | Some c2, Some c1, Some c0 => Some (c2, c1, c0)
      | _, _, _ => None
      end
  | EBinary op l r _ _ =>
    (* no test of [overrideFn] in this one *)
    if bool_decide (op = BK.Add) || bool_decide (op = BK.Sub) then
      match poly2ConstI64Expr l loopVar, poly2ConstI64Expr r loopVar with
      | Some l, Some r => poly2Add l r (signOf op)
      | _, _ => None
      end
    else if bool_decide (op = BK.Mul) then
      match poly2ConstI64Expr l loopVar, poly2ConstI64Expr r loopVar with
      | Some l, Some r =>
        if 2 <? poly2Degree l + poly2Degree r then None else poly2Mul l r
      | _, _ => None
      end
    else None
  | _ => None
  end.

Definition substVarWithI64 (e : Expr) (name : string) (value : Z) : Expr :=
  substE e {[ name := EInt value noAnn ]}.

Fixpoint substStmtVar (s : Stmt) (var : string) (value : Z) : Stmt :=
  let substBlockVar := map (fun x => substStmtVar x var value) in
  match s with
  | SLet n decl isConst isOwned ownedFreeFn a v =>
    SLet n decl isConst isOwned ownedFreeFn a (substVarWithI64 v var value)
  | SAssign n v => SAssign n (substVarWithI64 v var value)
  | SExpr e => SExpr (substVarWithI64 e var value)
  | SRet has v =>
    match has, v with
    | true, Some v0 => SRet true (Some (substVarWithI64 v0 var value))
    | _, _ => SRet false None
    end
  | SIf c t e =>
    SIf (substVarWithI64 c var value) (substBlockVar t) (substBlockVar e)
  | SWhile c b => SWhile (substVarWithI64 c var value) (substBlockVar b)
  | SFor n start stop step parallel b =>
    SFor n (substVarWithI64 start var value) (substVarWithI64 stop var value)
         (substVarWithI64 step var value) parallel (substBlockVar b)
  | SFormatBlock endArg b =>
    SFormatBlock (option_map (fun x => substVarWithI64 x var value) endArg)
                 (substBlockVar b)
  | SBreak => SBreak
  | SContinue => SContinue
  end.

Definition substBlockVar (b : list Stmt) (var : string) (value : Z) : list Stmt :=
  map (fun x => substStmtVar x var value) b.

(** [evalConstI64WithEnv(expr, env)].  [Some None] is [std::nullopt] and
    [Some (Some v)] the constant [v].  The outer [None] is the one case in
    which the source returns nothing: [*l / *r] and [*l % *r] are computed
    on [int64_t] after the test [*r == 0] alone, so on [INT64_MIN] and [-1]
    the call is undefined ([cdiv64], [crem64]), and with it every caller. *)
Fixpoint evalConstI64WithEnv (expr : Expr) (env : gmap string Z)
  : option (option Z) :=
  match expr with
  | EInt v _ => Some (Some v)
  | EVar n _ => Some (env !! n)
  | EUnary op x ov _ =>
    if negb (plainNeg op ov) then Some None
    else
      x ← evalConstI64WithEnv x env;
      Some (v ← x; checkedI128ToI64 (neg128 v))
  | EBinary op l r ov _ =>
    if negb (String.eqb ov EmptyString) then Some None
    else
      l ← evalConstI64WithEnv l env;
      r ← evalConstI64WithEnv r env;
      match l, r with
      | Some l, Some r =>
        match op with
        | BK.Add => Some (checkedI128ToI64 (add128 l r))
        | BK.Sub => Some (checkedI128ToI64 (sub128 l r))
        | BK.Mul => Some (checkedI128ToI64 (mul128 l r))
        | BK.Div => if r =? 0 then Some None else Some <$> cdiv64 l r
        | BK.Mod => if r =? 0 then Some None else Some <$> crem64 l r
        | _ => Some None
        end
      | _, _ => Some None
      end
  | _ => Some None
  end.

Fixpoint exprTrivialNoSideEffects (e : Expr) : bool :=
  match e with
  | EInt _ _ | EBool _ _ | EString _ _ | EVar _ _ => true
  | EUnary _ x _ _ => exprTrivialNoSideEffects x
  | EBinary op l r ov _ =>
    if negb (String.eqb ov EmptyString) then false
    else if bool_decide (op = BK.Div) || bool_decide (op = BK.Mod)
            || bool_decide (op = BK.Pow) then false
    else exprTrivialNoSideEffects l && exprTrivialNoSideEffects r
  | ECall _ _ _ => false
  end.

Fixpoint stmtReadsNamed (s : Stmt) (name : string) : bool :=
  match s with
  | SLet _ _ _ _ _ _ v => exprHasVarName v name
  | SAssign _ v => exprHasVarName v name
  | SExpr e => exprHasVarName e name
  | SRet has v =>
    has && match v with Some v0 => exprHasVarName v0 name | None => false end
  | SIf c t e =>
    existsb (fun x => stmtReadsNamed x name) t
    || existsb (fun x => stmtReadsNamed x name) e
    || exprHasVarName c name
  | SWhile c b =>
    exprHasVarName c name || existsb (fun x => stmtReadsNamed x name) b
  | SFor _ start stop step _ b =>
    exprHasVarName start name || exprHasVarName stop name || exprHasVarName step name
    || existsb (fun x => stmtReadsNamed x name) b
  | SFormatBlock endArg b =>
    match endArg with Some x => exprHasVarName x name | None => false end
    || existsb (fun x => stmtReadsNamed x name) b
  | SBreak | SContinue => false
  end.

(** [blockReadsNamed(b, from, name)] on the statements from [from] on. *)
Definition blockReadsNamed (rest : list Stmt) (name : string) : bool :=
  existsb (fun x => stmtReadsNamed x name) rest.

(** [pruneDeadLocalStores]: the loop over a block, given what it does inside
    a statement; a statement is erased by looking only at the statements
    after it, which the loop has not touched yet. *)
Definition pruneWith (nested : Stmt -> Stmt * bool)
  : list Stmt -> list Stmt * bool :=
  fix go b :=
    match b with
    | [] => ([], false)
    | s :: rest =>
      let erase :=
        match s with
        | SLet n _ _ _ _ _ v =>
          exprTrivialNoSideEffects v && negb (blockReadsNamed rest n)
        | SAssign n v =>
          exprTrivialNoSideEffects v && negb (blockReadsNamed rest n)
        | SExpr e => exprTrivialNoSideEffects e
        | _ => false
        end in
      if erase then (fst (go rest), true)
      else
        let '(s', c1) := nested s in
        let '(rest', c2) := go rest in
        (s' :: rest', c1 || c2)
    end.

Fixpoint pruneStmt (s : Stmt) : Stmt * bool :=
  match s with
  | SIf c t e =>
    let '(t', c1) := pruneWith pruneStmt t in
    let '(e', c2) := pruneWith pruneStmt e in
    (SIf c t' e', c1 || c2)
  | _ => (s, false)
  end.

Definition pruneDeadLocalStores (b : list Stmt) : list Stmt * bool :=
  pruneWith pruneStmt b.

(** [propagateLocalI64Consts]: one statement with the map [known]; the
    result is the statement, the map and [changed].  Every function of
    this pass is undefined ([None]) where a call of [evalConstI64WithEnv]
    it makes is. *)
Definition setConst (v : Expr) (known : gmap string Z)
  : option (Expr * option Z * bool) :=
  c ← evalConstI64WithEnv v known;
  Some match c with
       | Some c =>
         if bool_decide (litI v = Some c) then (v, Some c, false)
         else (EInt c noAnn, Some c, true)
       | None => (v, None, false)
       end.

Definition propagateWith
    (nested : Stmt -> option (Stmt * bool))
  : list Stmt -> gmap string Z -> option (list Stmt * bool) :=
  fix go b known :=
    match b with
    | [] => Some ([], false)
    | s :: rest =>
      '(s', known', c1) ←
        match s with
        | SLet n decl isConst isOwned ownedFreeFn a v =>
          '(v', c, ch) ← setConst v known;
          Some (SLet n decl isConst isOwned ownedFreeFn a v',
                match c with Some c => <[n := c]> known | None => delete n known end,
                ch)
        | SAssign n v =>
          '(v', c, ch) ← setConst v known;
          Some (SAssign n v',
                match c with Some c => <[n := c]> known | None => delete n known end,
                ch)
        | SExpr (ECall f [x] a) =>
          if String.eqb f "print" || String.eqb f "println" then
            c ← evalConstI64WithEnv x known;
            Some match c with
                 | Some c =>
                   (SExpr (ECall (if String.eqb f "println" then "println_str"
                                  else "print_str")
                                 [EString (to_string c) noAnn] a), known, true)
                 | None => (s, known, false)
                 end
          else Some (s, known, false)
        | SExpr _ => Some (s, known, false)
        | SRet true (Some v) =>
          '(v', _, ch) ← setConst v known; Some (SRet true (Some v'), known, ch)
        | SRet _ _ => Some (s, known, false)
        | SIf _ _ _ | SWhile _ _ | SFor _ _ _ _ _ _ | SFormatBlock _ _ =>
          '(s', ch) ← nested s; Some (s', ∅, ch)
        | SBreak | SContinue => Some (s, ∅, false)
        end;
      '(rest', c2) ← go rest known';
      Some (s' :: rest', c1 || c2)
    end.

Fixpoint propagateStmt (s : Stmt) : option (Stmt * bool) :=
  match s with
  | SIf c t e =>
    '(t', c1) ← propagateWith propagateStmt t ∅;
    '(e', c2) ← propagateWith propagateStmt e ∅;
    Some (SIf c t' e', c1 || c2)
  | SWhile c b =>
    '(b', c1) ← propagateWith propagateStmt b ∅; Some (SWhile c b', c1)
  | SFor n start stop step parallel b =>
    '(b', c1) ← propagateWith propagateStmt b ∅;
    Some (SFor n start stop step parallel b', c1)
  | SFormatBlock endArg b =>
    '(b', c1) ← propagateWith propagateStmt b ∅; Some (SFormatBlock endArg b', c1)
  | _ => Some (s, false)
  end.

Definition propagateLocalI64Consts (b : list Stmt) : option (list Stmt * bool) :=
  propagateWith propagateStmt b ∅.

(** The [while (exp > 0)] loop of [foldBin] for an exponent that is not 0,
    read off the bits of [exp]. *)
Fixpoint powLoop (exp : positive) (out base : Z) : Z :=
  match exp with
  | xH => mul64 out base
  | xO p => powLoop p out (mul64 base base)
  | xI p => powLoop p (mul64 out base) (mul64 base base)
  end.

(** [foldBin(n, e)]: [Some (Some e')] is the expression written to [e]
    when it returns true and [Some None] is the return of false.  [l / r]
    and [l % r] of two literals are computed on [int64_t] under the guard
    [r != 0] alone, so the call is undefined on [INT64_MIN] and [-1]
    ([cdiv64], [crem64]): the outer [None]. *)
Definition foldBin (op : BK.t) (l r : Expr) (overrideFn : string)
  : option (option Expr) :=
  if negb (String.eqb overrideFn EmptyString) then Some None
  else
    match litI l, litI r with
    | Some l, Some r =>
      match op with
      | BK.Add => Some (Some (EInt (add64 l r) noAnn))
      | BK.Sub => Some (Some (EInt (sub64 l r) noAnn))
      | BK.Mul => Some (Some (EInt (mul64 l r) noAnn))
      | BK.Div =>
        if r =? 0 then Some None
        else q ← cdiv64 l r; Some (Some (EInt q noAnn))
      | BK.Mod =>
        if r =? 0 then Some None
        else q ← crem64 l r; Some (Some (EInt q noAnn))
      | BK.Pow =>
        if r <? 0 then Some None
        else Some (Some (EInt (if r =? 0 then 1 else powLoop (Z.to_pos r) 1 l) noAnn))
      | BK.Eq => Some (Some (EBool (l =? r) noAnn))
      | BK.Neq => Some (Some (EBool (negb (l =? r)) noAnn))
      | BK.Lt => Some (Some (EBool (l <? r) noAnn))
      | BK.Lte => Some (Some (EBool (l <=? r) noAnn))
      | BK.Gt => Some (Some (EBool (r <? l) noAnn))
      | BK.Gte => Some (Some (EBool (r <=? l) noAnn))
      | BK.And | BK.Or => Some None
      end
    | _, _ =>
      Some
        match litB l, litB r with
        | Some lb, Some rb =>
          match op with
          | BK.Eq => Some (EBool (Bool.eqb lb rb) noAnn)
          | BK.Neq => Some (EBool (negb (Bool.eqb lb rb)) noAnn)
          | BK.And => Some (EBool (lb && rb) noAnn)
          | BK.Or => Some (EBool (lb || rb) noAnn)
          | _ => None
          end
        | _, _ => None
        end
    end.

(** The map [m] of the call case of [optE]: parameter names to arguments,
    a later parameter of the same name winning. *)
Fixpoint inlineSubs (ps : list Param.t) (args : list Expr) (m : gmap string Expr)
  : gmap string Expr :=
  match ps, args with
  | q :: ps', a :: args' => inlineSubs ps' args' (<[Param.n q := a]> m)
  | _, _ => m
  end.

(** The lambda [resolveLocalI64] of the [For] case: the scan from [b[i-1]]
    down to [b[0]] for the declaration of [name]; [after] collects the
    statements between the declaration and [b[i]]. *)
Fixpoint scanDecl (name : string) (revPre after : list Stmt) : option Z :=
  match revPre with
  | [] => None
  | s :: rest =>
    match s with
    | SLet n _ _ _ _ _ v =>
      if String.eqb n name then
        match litI v with
        | Some declVal =>
          if existsb (fun x => stmtAssignsNamed x name) after then None
          else Some declVal
        | None => None
        end
      else scanDecl name rest (s :: after)
    | SAssign n _ =>
      if String.eqb n name then None else scanDecl name rest (s :: after)
    | _ => scanDecl name rest (s :: after)
    end
  end.

Definition resolveLocalI64 (b : list Stmt) (i : nat) (expr : Expr) : option Z :=
  match expr with
  | EInt v _ => Some v
  | EVar name _ => scanDecl name (rev (take i b)) []
  | _ => None
  end.

(** [n = n + other] or [n = other + n]: the operand [other]. *)
Definition selfPlus (n : string) (v : Expr) : option Expr :=
  match v with
  | EBinary BK.Add l r _ _ =>
    let leftSelf := isVarNamed l n in
    let rightSelf := isVarNamed r n in
    if negb leftSelf && negb rightSelf then None
    else Some (if leftSelf then r else l)
  | _ => None
  end.

(** The shape shared by the single-assignment patterns: the body is one
    assignment [n = n + other], or a [declare tmp = e] followed by
    [n = n + tmp]; the result is [(n, other)] with [other] free of [n]. *)
Definition reductionOther (loopVar : string) (body : list Stmt)
  : option (string * Expr) :=
  match body with
  | [SAssign n v] =>
    other ← selfPlus n v;
    if exprHasVarName other n then None else Some (n, other)
  | [SLet tn _ _ _ _ _ tv; SAssign n v] =>
    if negb (String.eqb tn loopVar) && negb (exprHasVarName tv tn) then
      other ← selfPlus n v;
      if isVarNamed other tn then
        if exprHasVarName tv n then None else Some (n, tv)
      else None
    else None
  | _ => None
  end.

Definition plusLit (n : string) (delta : Z) : Stmt :=
  SAssign n (EBinary BK.Add (EVar n noAnn) (EInt delta noAnn) EmptyString noAnn).

(** Nested loops over a bilinear term. *)
Definition foldNested (tc st sp : Z) (n : string) (body : list Stmt)
  : option (list Stmt) :=
  match body with
  | [SFor innerN istart istop istep innerPar innerB] =>
    match litI istart, litI istop, litI istep with
    | Some ist, Some ien, Some isp =>
      match tripCount ist ien isp with
      | Some itc =>
        if negb innerPar && (0 <? itc) then
          '(asn, otherExpr) ← reductionOther innerN innerB;
          '(ax, ay, c) ← linear2I64ConstExpr otherExpr n innerN;
          let ni := tc in
          let nj := itc in
          let sumI := arithmeticSeriesSumI64 ni st sp in
          let sumJ := arithmeticSeriesSumI64 nj ist isp in
          let axNj := checkedMulI64 ax nj in
          part1 ← (x ← axNj; y ← sumI; checkedMulI64 x y);
          let ayNi := checkedMulI64 ay ni in
          part2 ← (x ← ayNi; y ← sumJ; checkedMulI64 x y);
          part3 ← (x ← checkedMulI64 ni nj; checkedMulI64 c x);
          p12 ← checkedAddI64 part1 part2;
          delta ← checkedAddI64 p12 part3;
          Some [plusLit asn delta]
        else None
      | None => None
      end
    | _, _, _ => None
    end
  | _ => None
  end.

(** [parsePlusRed] *)
Definition parsePlusRed (s : Stmt) : option (string * Expr) :=
  match s with
  | SAssign n v =>
    other ← selfPlus n v;
    if exprHasVarName other n then None else Some (n, other)
  | _ => None
  end.

(** [tryFoldPair(acc, state)]: the two statements that replace the loop. *)
Definition tryFoldPair (tc st sp : Z) (loopVar : string)
    (acc state : string * Expr) : option (list Stmt) :=
  let '(accVar, accOther) := acc in
  let '(stateVar, stateOther) := state in
  if negb (isVarNamed accOther stateVar) then None
  else if exprHasVarName stateOther accVar then None
  else if exprHasVarName stateOther stateVar then None
  else
    '(a, b) ← affineI64ConstExpr stateOther loopVar;
    let N := tc in
    sumI ← arithmeticSeriesSumI64 N st sp;
    let dY1 := checkedMulI64 a sumI in
    let dY2 := checkedMulI64 b N in
    let deltaY := x ← dY1; y ← dY2; checkedAddI64 x y in
    let nMinus1 := checkedAddI64 N (-1) in
    let nMinus2 := checkedAddI64 N (-2) in
    let k1 := x ← nMinus1; mul2Div2ExactI64 N x in
    let k2 := x ← nMinus1; y ← nMinus2; mul3Div6ExactI64 N x y in
    let aStart := checkedMulI64 a st in
    let c0 := x ← aStart; checkedAddI64 x b in
    let c1 := checkedMulI64 a sp in
    let gw0 := x ← c0; y ← k1; checkedMulI64 x y in
    let gw1 := x ← c1; y ← k2; checkedMulI64 x y in
    let gw := x ← gw0; y ← gw1; checkedAddI64 x y in
    match deltaY, gw with
    | Some deltaY, Some gw =>
      Some
        [ SAssign accVar
            (EBinary BK.Add (EVar accVar noAnn)
               (EBinary BK.Add
                  (EBinary BK.Mul (EVar stateVar noAnn) (EInt N noAnn) EmptyString noAnn)
                  (EInt gw noAnn) EmptyString noAnn)
               EmptyString noAnn);
          plusLit stateVar deltaY ]
    | _, _ => None
    end.

Definition foldPair (tc st sp : Z) (loopVar : string) (body : list Stmt)
  : option (list Stmt) :=
  match body with
  | [SAssign n0 v0; SAssign n1 v1] =>
    match parsePlusRed (SAssign n0 v0), parsePlusRed (SAssign n1 v1) with
    | Some r0, Some r1 =>
      match tryFoldPair tc st sp loopVar r0 r1 with
      | Some rep => Some rep
      | None => tryFoldPair tc st sp loopVar r1 r0
      end
    | _, _ => None
    end
  | _ => None
  end.

(** [iters * (2 * start + (iters - 1) * step) / 2] in [__int128]. *)
Definition sumIdx128 (tc st sp : Z) : Z :=
  div128 (mul128 tc (add128 (mul128 2 st) (mul128 (sub128 tc 1) sp))) 2.

(** One reduction: a sum of residues, or of an affine term. *)
Definition foldSingle (tc st sp : Z) (loopVar : string) (body : list Stmt)
  : option (list Stmt) :=
  '(asn, otherExpr) ← reductionOther loopVar body;
  let viaMod :=
    match otherExpr with
    | EBinary BK.Mod ml mr _ _ =>
      match evalConstI64Expr mr, affineI64ConstExpr ml loopVar with
      | Some m, Some (a, b) =>
        if 0 <? m then modLinearSeriesSumI64 tc st sp a b m else None
      | _, _ => None
      end
    | _ => None
    end in
  let deltaI :=
    match viaMod with
    | Some d => Some d
    | None =>
      '(a, b) ← affineI64ConstExpr otherExpr loopVar;
      checkedI128ToI64 (add128 (mul128 a (sumIdx128 tc st sp)) (mul128 b tc))
    end in
  d ← deltaI; Some [plusLit asn d].

(** The test on the body shared by the two multi-assignment patterns:
    every statement is an assignment and no variable is assigned twice. *)
Fixpoint assignsOf (body : list Stmt) (seen : gset string)
  : option (list (string * Expr)) :=
  match body with
  | [] => Some []
  | SAssign n v :: rest =>
    if bool_decide (n ∈ seen) then None
    else tl ← assignsOf rest (seen ∪ {[n]}); Some ((n, v) :: tl)
  | _ :: _ => None
  end.

(** One term of them: [n = n + other] with [other] free of every assigned
    variable, read by [classify]. *)
Definition reductionTerm {T} (classify : Expr -> option T)
    (assignedVars : list string) (asn : string * Expr) : option (string * T) :=
  let '(n, v) := asn in
  other ← selfPlus n v;
  if exprHasVarName other n then None
  else if existsb (fun w => negb (String.eqb w n) && exprHasVarName other w) assignedVars
  then None
  else t ← classify other; Some (n, t).

Fixpoint reductionTerms {T} (classify : Expr -> option T)
    (assignedVars : list string) (assigns : list (string * Expr))
  : option (list (string * T)) :=
  match assigns with
  | [] => Some []
  | asn :: rest =>
    t ← reductionTerm classify assignedVars asn;
    ts ← reductionTerms classify assignedVars rest;
    Some (t :: ts)
  end.

(** Up to four reductions over polynomials of degree at most 2. *)
Definition foldPoly (tc st sp : Z) (loopVar : string) (body : list Stmt)
  : option (list Stmt) :=
  if negb ((1 <=? length body)%nat && (length body <=? 4)%nat) then None
  else
    assigns ← assignsOf body ∅;
    terms ← reductionTerms (fun other => poly2ConstI64Expr other loopVar)
                           (map fst assigns) assigns;
    let N := tc in
    let S := st in
    let D := sp in
    nMinus1 ← checkedAddI64 N (-1);
    let twoN := checkedMulI64 2 N in
    twoNMinus1 ← (x ← twoN; checkedAddI64 x (-1));
    sumK ← mul2Div2ExactI64 N nMinus1;
    sumK2 ← mul3Div6ExactI64 N nMinus1 twoNMinus1;
    let nMulS := checkedMulI64 N S in
    let dMulSumK := checkedMulI64 D sumK in
    sumI ← (x ← nMulS; y ← dMulSumK; checkedAddI64 x y);
    let sSq := checkedMulI64 S S in
    let dSq := checkedMulI64 D D in
    let term1 := x ← sSq; checkedMulI64 N x in
    let sMulD := checkedMulI64 S D in
    let twoSMulD := x ← sMulD; checkedMulI64 2 x in
    let term2 := x ← twoSMulD; checkedMulI64 x sumK in
    let term3 := x ← dSq; checkedMulI64 x sumK2 in
    let sumI2a := x ← term1; y ← term2; checkedAddI64 x y in
    sumI2 ← (x ← sumI2a; y ← term3; checkedAddI64 x y);
    (fix reps (ts : list (string * Poly2I64Const)) : option (list Stmt) :=
       match ts with
       | [] => Some []
       | (v, (c2, c1, c0)) :: rest =>
         d ← checkedI128ToI64
               (add128 (add128 (mul128 c2 sumI2) (mul128 c1 sumI)) (mul128 c0 N));
         tl ← reps rest;
         Some (plusLit v d :: tl)
       end) terms.

(** Two to four reductions over affine terms. *)
Definition foldAffine (tc st sp : Z) (loopVar : string) (body : list Stmt)
  : option (list Stmt) :=
  if negb ((2 <=? length body)%nat && (length body <=? 4)%nat) then None
  else
    assigns ← assignsOf body ∅;
    terms ← reductionTerms (fun other => affineI64ConstExpr other loopVar)
                           (map fst assigns) assigns;
    (fix reps (ts : list (string * AffineI64Const)) : option (list Stmt) :=
       match ts with
       | [] => Some []
       | (v, (a, b)) :: rest =>
         d ← checkedI128ToI64
               (add128 (mul128 a (sumIdx128 tc st sp)) (mul128 b tc));
         tl ← reps rest;
         Some (plusLit v d :: tl)
       end) terms.

(** Full unrolling: [tc] copies of the body, the loop variable replaced by
    its value. *)
Fixpoint unrollFrom (iters : nat) (cur sp : Z) (loopVar : string) (body : list Stmt)
  : list Stmt :=
  match iters with
  | O => []
  | S iters' =>
    (substBlockVar body loopVar cur
     ++ unrollFrom iters' (add64 cur sp) sp loopVar body)%list
  end.

Definition unroll (tc st sp : Z) (loopVar : string) (body : list Stmt)
  : option (list Stmt) :=
  if (tc <=? 8) && negb (hasLoopControlStmt body) && negb (hasDeclNamed body loopVar)
  then Some (unrollFrom (Z.to_nat tc) st sp loopVar body)
  else None.

Definition orElse {A} (x : option A) (y : option A) : option A :=
  match x with Some _ => x | None => y end.

(** The end of the [For] case, for the statement [b[i]] whose parts have
    been optimized: the statements that replace it, if any. *)
Definition forReplacement (b : list Stmt) (i : nat)
    (n : string) (start stop step : Expr) (parallel : bool) (body : list Stmt)
  : option (list Stmt) :=
  match resolveLocalI64 b i start, resolveLocalI64 b i stop,
        resolveLocalI64 b i step with
  | Some st, Some en, Some sp =>
    match tripCount st en sp with
    | Some tc =>
      if tc =? 0 then Some []
      else if (0 <? tc) && negb parallel then
        orElse (foldNested tc st sp n body)
          (orElse (foldPair tc st sp n body)
             (orElse (foldSingle tc st sp n body)
                (orElse (foldPoly tc st sp n body)
                   (orElse (foldAffine tc st sp n body)
                      (unroll tc st sp n body)))))
      else None
    | None => None
    end
  | _, _, _ => None
  end.

Section WithCand.

(** The map [cand], as the lookup of a name. *)
Variable cand : string -> option Fn.t.

(** What [optE] does at a binary node once both operands are done: the
    call of [foldBin], undefined where [foldBin] is, and the identities. *)
Definition optBinary (op : BK.t) (l r : Expr) (ov : string) (a : Ann) (ch : bool)
  : option (Expr * bool) :=
  folded ← foldBin op l r ov;
  Some
  match folded with
  | Some e => (e, true)
  | None =>
    let keep := (EBinary op l r ov a, ch) in
    match op with
    | BK.Add =>
      if isZero r then (l, true) else if isZero l then (r, true) else keep
    | BK.Sub =>
      if isZero r then (l, true)
      else
        match l, r with
        | EVar ln _, EVar rn _ =>
          if String.eqb ln rn && typed a && bool_decide (inf a = Ty.I64)
          then (EInt 0 noAnn, true) else keep
        | _, _ => keep
        end
    | BK.Mul =>
      if isOne r then (l, true) else if isOne l then (r, true) else keep
    | BK.Div => if isOne r then (l, true) else keep
    | BK.And =>
      match litB l, litB r with
      | Some lb, _ => (if lb then r else EBool false noAnn, true)
      | None, Some rb => (if rb then l else EBool false noAnn, true)
      | None, None => keep
      end
    | BK.Or =>
      match litB l, litB r with
      | Some lb, _ => (if lb then EBool true noAnn else r, true)
      | None, Some rb => (if rb then EBool true noAnn else l, true)
      | None, None => keep
      end
    | BK.Pow => if isOne r then (l, true) else keep
    | _ => keep
    end
  end.

(** [optE(e, cand)]: the rewritten expression and the flag it returns.  The
    call case starts over on the inlined body, so the recursion is bounded
    by [fuel]; [None] is "out of fuel", or the undefined division of
    [foldBin] at a binary node whose operands have become the literals
    [INT64_MIN] and [-1]. *)
Fixpoint optE (fuel : nat) (e : Expr) : option (Expr * bool) :=
  match fuel with
  | O => None
  | S fuel' =>
    match e with
    | EUnary op x ov a =>
      '(x', ch) ← optE fuel' x;
      if negb (String.eqb ov EmptyString) then Some (EUnary op x' ov a, ch)
      else
        match op with
        | UK.Neg =>
          match litI x' with
          | Some i => Some (EInt (neg64 i) noAnn, true)
          | None => Some (EUnary op x' ov a, ch)
          end
        | _ =>
          match litB x' with
          | Some b => Some (EBool (negb b) noAnn, true)
          | None => Some (EUnary op x' ov a, ch)
          end
        end
    | EBinary op l r ov a =>
      '(l', c1) ← optE fuel' l;
      '(r', c2) ← optE fuel' r;
      optBinary op l' r' ov a (c1 || c2)
    | ECall f args a =>
      '(args', ch) ←
        (fix optArgs (xs : list Expr) : option (list Expr * bool) :=
           match xs with
           | [] => Some ([], false)
           | x :: xs' =>
             '(x', c1) ← optE fuel' x;
             '(xs'', c2) ← optArgs xs';
             Some (x' :: xs'', c1 || c2)
           end) args;
      match cand f with
      | None => Some (ECall f args' a, ch)
      | Some fn =>
        match Fn.b fn with
        | [SRet _ (Some v)] =>
          '(e', _) ← optE fuel' (substE v (inlineSubs (Fn.p fn) args' ∅));
          Some (e', true)
        | _ => Some (ECall f args' a, ch)
        end
      end
    | _ => Some (e, false)
    end
  end.

(** [b.erase(b.begin() + i)] followed by the insertion of [rep] at [i]. *)
Definition splice (b : list Stmt) (i : nat) (rep : list Stmt) : list Stmt :=
  (take i b ++ rep ++ drop (S i) b)%list.

(** [if (i > 0) --i;] *)
Definition stepBack (i : nat) : nat := Nat.pred i.

(** The two calls that end [optBlock]. *)
Definition finishBlock (inLoopBody : bool) (b : list Stmt) (ch : bool)
  : option (list Stmt * bool) :=
  let '(b1, c1) := if inLoopBody then (b, false) else pruneDeadLocalStores b in
  '(b2, c2) ← propagateLocalI64Consts b1;
  Some (b2, ch || c1 || c2).

(** The loop [for (i = 0; i < b.size(); ++i)] of [optBlock], from the index
    [i] on, with the flag [ch] so far.  A round can replace [b[i]] by
    statements that the next rounds visit, so the loop is bounded by
    [fuel]; [None] is "out of fuel", or an undefined division in [optE] or
    in the constant propagation that ends a block. *)
Fixpoint optLoop (fuel : nat) (b : list Stmt) (i : nat) (ch inLoopBody : bool)
  : option (list Stmt * bool) :=
  match fuel with
  | O => None
  | S fuel' =>
    let optBlock' (sub : list Stmt) (inl : bool) : option (list Stmt * bool) :=
      '(sub', c) ← optLoop fuel' sub 0%nat false inl;
      finishBlock inl sub' c in
    match b !! i with
    | None => Some (b, ch)
    | Some s =>
      r ← match s with
          | SLet n decl isConst isOwned free a v =>
            '(v', c) ← optE fuel' v;
            Some (<[i := SLet n decl isConst isOwned free a v']> b, i, c)
          | SAssign n v =>
            '(v', c) ← optE fuel' v;
            Some (<[i := SAssign n v']> b, i, c)
          | SExpr e =>
            '(e', c) ← optE fuel' e;
            Some (<[i := SExpr e']> b, i, c)
          | SRet true (Some v) =>
            '(v', c) ← optE fuel' v;
            Some (<[i := SRet true (Some v')]> b, i, c)
          | SRet _ _ => Some (b, i, false)
          | SIf c t e =>
            '(c', c1) ← optE fuel' c;
            '(t', c2) ← optBlock' t inLoopBody;
            '(e', c3) ← optBlock' e inLoopBody;
            match litB c' with
            | Some bv => Some (splice b i (if bv then t' else e'), stepBack i, true)
            | None => Some (<[i := SIf c' t' e']> b, i, c1 || c2 || c3)
            end
          | SWhile c body =>
            '(c', c1) ← optE fuel' c;
            '(body', c2) ← optBlock' body true;
            match litB c' with
            | Some false => Some (splice b i [], stepBack i, true)
            | _ => Some (<[i := SWhile c' body']> b, i, c1 || c2)
            end
          | SFor n start stop step parallel body =>
            '(start', c1) ← optE fuel' start;
            '(stop', c2) ← optE fuel' stop;
            '(step', c3) ← optE fuel' step;
            '(body', c4) ← optBlock' body true;
            let b1 := <[i := SFor n start' stop' step' parallel body']> b in
            match forReplacement b1 i n start' stop' step' parallel body' with
            | Some rep => Some (splice b1 i rep, stepBack i, true)
            | None => Some (b1, i, c1 || c2 || c3 || c4)
            end
          | SFormatBlock endArg body =>
            '(endArg', c1) ← match endArg with
                              | Some x => '(x', c) ← optE fuel' x; Some (Some x', c)
                              | None => Some (None, false)
                              end;
            '(body', c2) ← optBlock' body inLoopBody;
            Some (<[i := SFormatBlock endArg' body']> b, i, c1 || c2)
          | SBreak | SContinue => Some (b, i, false)
          end;
      let '(b1, i1, c) := r in
      let ch1 := ch || c in
      match b1 !! i1 with
      | Some (SRet _ _) | Some SBreak | Some SContinue =>
        if (S i1 <? length b1)%nat then Some (take (S i1) b1, true)
        else Some (b1, ch1)
      | _ => optLoop fuel' b1 (S i1) ch1 inLoopBody
      end
    end
  end.

(** [optBlock(b, cand, inLoopBody)] *)
Definition optBlock (fuel : nat) (b : list Stmt) (inLoopBody : bool)
  : option (list Stmt * bool) :=
  '(b', ch) ← optLoop fuel b 0%nat false inLoopBody;
  finishBlock inLoopBody b' ch.

End WithCand.

(** One pass of [optimize]: [optBlock] on every function in turn.  The map
    [c] holds pointers into the program, so a call that is inlined takes
    the body of the candidate as the pass has left it so far. *)
Definition candOf (c : gmap string nat) (p : Program) (name : string) : option Fn.t :=
  i ← c !! name; p !! i.

Definition withBody (f : Fn.t) (b : list Stmt) : Fn.t :=
  Fn.mk (Fn.n f) (Fn.sourceName f) (Fn.isCliFlag f) (Fn.cliFlagName f)
        (Fn.ex f) (Fn.inl f) (Fn.p f) (Fn.ret f) (Fn.throws f) b.

Fixpoint optFns (fuel : nat) (c : gmap string nat) (ks : list nat)
    (p : Program) (ch : bool) : option (Program * bool) :=
  match ks with
  | [] => Some (p, ch)
  | k :: ks' =>
    match p !! k with
    | None => optFns fuel c ks' p ch
    | Some f =>
      if Fn.ex f then optFns fuel c ks' p ch
      else
        '(b', c1) ← optBlock (candOf c p) fuel (Fn.b f) false;
        optFns fuel c ks' (<[k := withBody f b']> p) (ch || c1)
    end
  end.

Fixpoint optPasses (fuel : nat) (passes : nat) (p : Program) : option Program :=
  match passes with
  | O => Some p
  | S passes' =>
    match optFns fuel (inlineCands p) (seq 0 (length p)) p false with
    | Some (p', ch) => if ch then optPasses fuel passes' p' else Some p'
    | None => None
    end
  end.

End WithNegOverride.

(** [optimize(p, passes)], on a host with [__int128]. *)
Definition optimize (fuel : nat) (p : Program) (passes : Z) : option Program :=
  let neg :=
    existsb (fun f => String.eqb (Fn.n f) (unaryOperatorOverrideSymbol UK.Neg)) p in
  optPasses neg fuel (Z.to_nat passes) p.

End Opt.

(* ===================================================================== *)
(** * The statements run one by one, loops round by round *)

(** [EmitC::stmt] and [EmitC::e] translate the IR construct by construct:
    a [declare] is a C declaration, an assignment a C assignment, [if] and
    [while] are C's, a binary operator is C's operator of [bop] on
    [int64_t] and [ls_bool], and a [for] that the emitter writes as a loop
    is

      [{ const int64_t start = ..; stop = ..; step = ..;
         if (step > 0) for (int64_t i = start; i < stop; i += step) { body }
         else if (step < 0) for (int64_t i = start; i > stop; i += step) { body } }]

    [Exec] is the program run this way, as a function on a store and the
    text written to standard output: every [for] is run round by round,
    which is what the statement means in the language.  For a program
    without [for] this is the emitted C program, and so it is for a [for]
    whose body has none of the emitter's reduction shapes.  For a body of
    one of these shapes (alternating sign, pair-coupled, multi-affine,
    affine, modular-linear) [EmitC::stmt] writes no loop but a closed form:
    [Exec] then still gives the result of the rounds, and the closed form
    that the emitter writes is in [EmitFor] below; the two need not agree.

    [Exec] covers variables of type [i64], [bool] and [str], and the calls
    [print]/[println] and their typed variants as statements; everything
    else (other calls, [pow], string comparison, division by zero,
    parallel loops, format blocks) is [None]. *)
Module Exec.

Inductive Val := VInt (z : Z) | VBool (b : bool) | VStr (s : string).

Inductive Flow := FNext | FBreak | FContinue | FReturn (v : option Val).

Definition evalBinary (op : BK.t) (l r : Val) : option Val :=
  match l, r with
  | VInt a, VInt b =>
    match op with
    | BK.Add => Some (VInt (add64 a b))
    | BK.Sub => Some (VInt (sub64 a b))
    | BK.Mul => Some (VInt (mul64 a b))
    | BK.Div =>
      if (b =? 0) || ((a =? INT64_MIN) && (b =? -1)) then None
      else Some (VInt (div64 a b))
    | BK.Mod =>
      if (b =? 0) || ((a =? INT64_MIN) && (b =? -1)) then None
      else Some (VInt (rem64 a b))
    | BK.Eq => Some (VBool (a =? b))
    | BK.Neq => Some (VBool (negb (a =? b)))
    | BK.Lt => Some (VBool (a <? b))
    | BK.Lte => Some (VBool (a <=? b))
    | BK.Gt => Some (VBool (b <? a))
    | BK.Gte => Some (VBool (b <=? a))
    | _ => None
    end
  | VBool a, VBool b =>
    match op with
    | BK.Eq => Some (VBool (Bool.eqb a b))
    | BK.Neq => Some (VBool (negb (Bool.eqb a b)))
    | _ => None
    end
  | _, _ => None
  end.

Fixpoint evalE (e : Expr) (σ : gmap string Val) : option Val :=
  match e with
  | EInt v _ => Some (VInt v)
  | EBool v _ => Some (VBool v)
  | EString v _ => Some (VStr v)
  | EVar n _ => σ !! n
  | EUnary op x ov _ =>
    if negb (String.eqb ov EmptyString) then None
    else
      match op, evalE x σ with
      | UK.Neg, Some (VInt z) => Some (VInt (neg64 z))
      | UK.Not, Some (VBool b) => Some (VBool (negb b))
      | _, _ => None
      end
  | EBinary op l r ov _ =>
    if negb (String.eqb ov EmptyString) then None
    else
      match op with
      | BK.And =>
        match evalE l σ with
        | Some (VBool false) => Some (VBool false)
        | Some (VBool true) =>
          match evalE r σ with Some (VBool b) => Some (VBool b) | _ => None end
        | _ => None
        end
      | BK.Or =>
        match evalE l σ with
        | Some (VBool true) => Some (VBool true)
        | Some (VBool false) =>
          match evalE r σ with Some (VBool b) => Some (VBool b) | _ => None end
        | _ => None
        end
      | _ =>
        match evalE l σ, evalE r σ with
        | Some a, Some b => evalBinary op a b
        | _, _ => None
        end
      end
  | ECall _ _ _ => None
  end.

(** [print_i64], [print_bool], [print_str] of the runtime. *)
Definition printed (v : Val) : string :=
  match v with
  | VInt z => to_string z
  | VBool b => if b then "true" else "false"
  | VStr s => s
  end.

(** The text a call statement writes; [print] and [println] dispatch on the
    type of the argument. *)
Definition callText (f : string) (args : list Val) : option string :=
  match args with
  | [v] =>
    let typedAs (name : string) : bool :=
      match v with
      | VInt _ => String.eqb name "i64"
      | VBool _ => String.eqb name "bool"
      | VStr _ => String.eqb name "str"
      end in
    if String.eqb f "print" then Some (printed v)
    else if String.eqb f "println" then Some (printed v ++ EmitC.nl)
    else if String.eqb f "print_i64" && typedAs "i64" then Some (printed v)
    else if String.eqb f "println_i64" && typedAs "i64" then Some (printed v ++ EmitC.nl)
    else if String.eqb f "print_bool" && typedAs "bool" then Some (printed v)
    else if String.eqb f "println_bool" && typedAs "bool" then Some (printed v ++ EmitC.nl)
    else if String.eqb f "print_str" && typedAs "str" then Some (printed v)
    else if String.eqb f "println_str" && typedAs "str" then Some (printed v ++ EmitC.nl)
    else None
  | _ => None
  end.

Fixpoint evalArgs (args : list Expr) (σ : gmap string Val) : option (list Val) :=
  match args with
  | [] => Some []
  | a :: args' => v ← evalE a σ; vs ← evalArgs args' σ; Some (v :: vs)
  end.

(** Leaving a C block: the variables of the enclosing block keep the values
    the block gave them, the block's own variables are gone. *)
Definition leave (outer inner : gmap string Val) : gmap string Val :=
  map_imap (fun k v => match inner !! k with Some w => Some w | None => Some v end) outer.

(** Leaving the body of a [for]: the same, and a variable of the enclosing
    block that has the name of the loop variable is untouched. *)
Definition leaveFor (n : string) (outer inner : gmap string Val) : gmap string Val :=
  match outer !! n with
  | Some v => <[n := v]> (leave outer inner)
  | None => leave outer inner
  end.

(** One statement; [fuel] bounds the nesting depth plus the number of loop
    rounds, and [None] is "out of fuel" or one of the cases left out. *)
Fixpoint exec (fuel : nat) (s : Stmt) (σ : gmap string Val) (out : string)
  : option (Flow * gmap string Val * string) :=
  match fuel with
  | O => None
  | S fuel' =>
    let block :=
      fix block (b : list Stmt) (σ : gmap string Val) (out : string)
        : option (Flow * gmap string Val * string) :=
        match b with
        | [] => Some (FNext, σ, out)
        | x :: rest =>
          '(fl, σ1, out1) ← exec fuel' x σ out;
          match fl with
          | FNext => block rest σ1 out1
          | _ => Some (fl, σ1, out1)
          end
        end in
    match s with
    | SLet n _ _ _ _ _ v =>
      val ← evalE v σ; Some (FNext, <[n := val]> σ, out)
    | SAssign n v =>
      val ← evalE v σ;
      if bool_decide (is_Some (σ !! n)) then Some (FNext, <[n := val]> σ, out)
      else None
    | SExpr (ECall f args _) =>
      vals ← evalArgs args σ;
      txt ← callText f vals;
      Some (FNext, σ, out ++ txt)
    | SExpr e => _ ← evalE e σ; Some (FNext, σ, out)
    | SRet true (Some v) => val ← evalE v σ; Some (FReturn (Some val), σ, out)
    | SRet _ _ => Some (FReturn None, σ, out)
    | SIf c t e =>
      match evalE c σ with
      | Some (VBool cv) =>
        '(fl, σ1, out1) ← block (if cv then t else e) σ out;
        Some (fl, leave σ σ1, out1)
      | _ => None
      end
    | SWhile c body =>
      match evalE c σ with
      | Some (VBool true) =>
        '(fl, σ1, out1) ← block body σ out;
        match fl with
        | FBreak => Some (FNext, leave σ σ1, out1)
        | FReturn v => Some (FReturn v, leave σ σ1, out1)
        | _ => exec fuel' (SWhile c body) (leave σ σ1) out1
        end
      | Some (VBool false) => Some (FNext, σ, out)
      | _ => None
      end
    | SFor n start stop step parallel body =>
      if parallel then None
      else
        match evalE start σ, evalE stop σ, evalE step σ with
        | Some (VInt i), Some (VInt en), Some (VInt sp) =>
          if ((0 <? sp) && (i <? en)) || ((sp <? 0) && (en <? i)) then
            '(fl, σ1, out1) ← block body (<[n := VInt i]> σ) out;
            match fl with
            | FBreak => Some (FNext, leaveFor n σ σ1, out1)
            | FReturn v => Some (FReturn v, leaveFor n σ σ1, out1)
            | _ =>
              match σ1 !! n with
              | Some (VInt i') =>
                exec fuel' (SFor n (EInt (add64 i' sp) noAnn) (EInt en noAnn)
                                 (EInt sp noAnn) parallel body)
                     (leaveFor n σ σ1) out1
              | _ => None
              end
            end
          else Some (FNext, σ, out)
        | _, _, _ => None
        end
    | SFormatBlock _ _ => None
    | SBreak => Some (FBreak, σ, out)
    | SContinue => Some (FContinue, σ, out)
    end
  end.

(** The body of a function, from an empty store. *)
Fixpoint execBlock (fuel : nat) (b : list Stmt) (σ : gmap string Val) (out : string)
  : option (Flow * gmap string Val * string) :=
  match b with
  | [] => Some (FNext, σ, out)
  | x :: rest =>
    '(fl, σ1, out1) ← exec fuel x σ out;
    match fl with
    | FNext => execBlock fuel rest σ1 out1
    | _ => Some (fl, σ1, out1)
    end
  end.

(** Standard output of the program: the wrapper calls the entry. *)
Definition stdout (fuel : nat) (p_ : Program) : option string :=
  match EmitC.selectEntry p_ with
  | (Some entry_, _) =>
    '(_, _, out) ← execBlock fuel (Fn.b entry_) ∅ EmptyString; Some out
  | (None, _) => None
  end.

End Exec.

(* ===================================================================== *)
(** * The C emitter: closed form of a pair-coupled loop *)

(** For a [for] whose body is [acc = acc + state; state = state + (a*i + b)]
    (in either order) and whose bounds are not constants, [EmitC::stmt]
    writes no loop but the statements below; they are kept here as the
    function they compute from the run-time values of the bounds, of the
    two coefficients and of the two variables.  The functions of [EmitC]
    that recognize the shape follow, and the residue function of the
    runtime that the block for a modular-linear body calls. *)
Module EmitFor.

(** [ls_trip_count_runtime] of the runtime text. *)
Definition ls_trip_count_runtime (start stop step : Z) : Z :=
  if 0 <? step then
    if stop <=? start then 0
    else wrap64 (div128 (sub128 (add128 (sub128 stop start) step) 1) step)
  else if step <? 0 then
    if start <=? stop then 0
    else
      let pos := neg64 step in
      wrap64 (div128 (sub128 (add128 (sub128 start stop) pos) 1) pos)
  else 0.

(** The block emitted when [pairCoupledInfo] matches: the new values of
    [(accVar, stateVar)]. *)
Definition pairCoupled (start stop step a b acc state : Z) : Z * Z :=
  let iters := ls_trip_count_runtime start stop step in
  if 0 <? iters then
    let n128 := iters in
    let sumidx :=
      div128 (mul128 n128 (add128 (mul128 2 start) (mul128 (sub128 n128 1) step))) 2 in
    let k1 := div128 (mul128 n128 (sub128 n128 1)) 2 in
    let k2 := div128 (mul128 (mul128 n128 (sub128 n128 1)) (sub128 n128 2)) 6 in
    let gsum := add128 (mul128 a sumidx) (mul128 b n128) in
    let gw :=
      add128 (mul128 (add128 (mul128 a start) b) k1) (mul128 (mul128 a step) k2) in
    (wrap64 (add128 (add128 acc (mul128 n128 state)) gw),
     wrap64 (add128 state gsum))
  else (acc, state).

(** [ls_mod_pos_i128] of the runtime text, for an [x] that is an
    [__int128]: the residue of [x] in [0, m). *)
Definition ls_mod_pos_i128 (x m : Z) : Z :=
  if m <=? 0 then 0
  else
    let r := rem128 x m in
    let r := if r <? 0 then add128 r m else r in
    wrap64 r.

(** [EmitC::exprHasVar] and [EmitC::exprHasAnyCall] *)
Fixpoint exprHasVar (e : Expr) (name : string) : bool :=
  match e with
  | EVar n _ => String.eqb n name
  | EUnary _ x _ _ => exprHasVar x name
  | EBinary _ l r _ _ => exprHasVar l name || exprHasVar r name
  | ECall _ args _ => existsb (fun a => exprHasVar a name) args
  | _ => false
  end.

Fixpoint exprHasAnyCall (e : Expr) : bool :=
  match e with
  | ECall _ _ _ => true
  | EUnary _ x _ _ => exprHasAnyCall x
  | EBinary _ l r _ _ => exprHasAnyCall l || exprHasAnyCall r
  | _ => false
  end.

(** [e.k == EK::Var && static_cast<const EVar &>(e).n == name] *)
Definition isVarNamed (e : Expr) (name : string) : bool :=
  match e with EVar n _ => String.eqb n name | _ => false end.

(** [plusReductionFromAssign(as, loopVar)] for the assignment [n = v],
    without the two optional arguments: the variable and the other
    operand. *)
Definition plusReductionFromAssign (n : string) (v : Expr) (loopVar : string)
  : option (string * Expr) :=
  if String.eqb n loopVar then None
  else
    match v with
    | EBinary BK.Add l r _ _ =>
      let leftSelf := isVarNamed l n in
      let rightSelf := isVarNamed r n in
      if negb leftSelf && negb rightSelf then None
      else
        let other := if leftSelf then r else l in
        if exprHasVar other n then None else Some (n, other)
    | _ => None
    end.

(** [affineI64Expr(expr, loopVar)].  The source returns the two
    coefficients as the text of C expressions on [int64_t]; they are kept
    as expressions of the IR with the same operators: [0LL] and [1LL] are
    the literals, [(e(x))] is [x], [(-(a))] the negation and [((l)op(r))]
    the binary operation.  [gOptHasUnaryNegOverride] is false when the
    emitter runs ([optimize] resets it before it returns). *)
Fixpoint affineI64Expr (expr : Expr) (loopVar : string) : option (Expr * Expr) :=
  if negb (bool_decide (inf (annOf expr) = Ty.I64)) then None
  else if negb (exprHasVar expr loopVar) then
    if exprHasAnyCall expr then None else Some (eInt 0, expr)
  else
    match expr with
    | EVar n _ => if String.eqb n loopVar then Some (eInt 1, eInt 0) else None
    | EUnary op x ov _ =>
      if negb (String.eqb ov EmptyString) then None
      else
        match op with
        | UK.Neg =>
          '(a, b) ← affineI64Expr x loopVar;
          Some (eUn UK.Neg a, eUn UK.Neg b)
        | _ => None
        end
    | EBinary op l r ov _ =>
      if negb (String.eqb ov EmptyString) then None
      else
        match op with
        | BK.Add | BK.Sub =>
          match affineI64Expr l loopVar, affineI64Expr r loopVar with
          | Some (la, lb), Some (ra, rb) => Some (eBin op la ra, eBin op lb rb)
          | _, _ => None
          end
        | BK.Mul =>
          let leftHas := exprHasVar l loopVar in
          let rightHas := exprHasVar r loopVar in
          if leftHas && rightHas then None
          else if leftHas then
            if exprHasAnyCall r then None
            else
              '(la, lb) ← affineI64Expr l loopVar;
              Some (eBin BK.Mul la r, eBin BK.Mul lb r)
          else if rightHas then
            if exprHasAnyCall l then None
            else
              '(ra, rb) ← affineI64Expr r loopVar;
              Some (eBin BK.Mul ra l, eBin BK.Mul rb l)
          else None
        | _ => None
        end
    | _ => None
    end.

(** [condTrueMeansEven(cond, loopVar)] *)
Definition condTrueMeansEven (cond : Expr) (loopVar : string) : option bool :=
  match cond with
  | EBinary op l r _ _ =>
    if negb (bool_decide (op = BK.Eq) || bool_decide (op = BK.Neq)) then None
    else
      let sides :=
        match l, r with
        | EBinary _ _ _ _ _, EInt _ _ => Some (l, r)
        | EInt _ _, EBinary _ _ _ _ _ => Some (r, l)
        | _, _ => None
        end in
      match sides with
      | Some (EBinary mop ml mr _ _, EInt lit _) =>
        if negb (bool_decide (mop = BK.Mod)) then None
        else if negb (isVarNamed ml loopVar) then None
        else if negb (match mr with EInt v _ => v =? 2 | _ => false end) then None
        else if negb ((lit =? 0) || (lit =? 1)) then None
        else
          let eq := bool_decide (op = BK.Eq) in
          Some (if lit =? 0 then eq else negb eq)
      | _ => None
      end
  | _ => None
  end.

(** [loopVarSignedAssignInfo(stmt, loopVar)]: the variable and the sign. *)
Definition loopVarSignedAssignInfo (s : Stmt) (loopVar : string)
  : option (string * Z) :=
  match s with
  | SAssign n (EBinary op l r _ _) =>
    if String.eqb n loopVar then None
    else
      let leftSelf := isVarNamed l n in
      let rightSelf := isVarNamed r n in
      let leftLoop := isVarNamed l loopVar in
      let rightLoop := isVarNamed r loopVar in
      if bool_decide (op = BK.Add) && leftSelf && rightLoop then Some (n, 1)
      else if bool_decide (op = BK.Add) && rightSelf && leftLoop then Some (n, 1)
      else if bool_decide (op = BK.Sub) && leftSelf && rightLoop then Some (n, -1)
      else None
  | _ => None
  end.

(** [alternatingSignReductionInfo(loop)]: the variable and [evenPositive]. *)
Definition alternatingSignReductionInfo (n : string) (start step : Expr)
    (body : list Stmt) : option (string * bool) :=
  match body with
  | [SIf c t e] =>
    if negb (match start with EInt v _ => v =? 0 | _ => false end) then None
    else if negb (match step with EInt v _ => v =? 1 | _ => false end) then None
    else
      match t, e with
      | [t0], [e0] =>
        match condTrueMeansEven c n, loopVarSignedAssignInfo t0 n,
              loopVarSignedAssignInfo e0 n with
        | Some trueEven, Some (tv, ts), Some (ev, es) =>
          if negb (String.eqb tv ev) then None
          else if negb (((ts =? 1) && (es =? -1)) || ((ts =? -1) && (es =? 1)))
          then None
          else
            let evenSign : Z := if trueEven then ts else es in
            Some (tv, 0 <? evenSign)
        | _, _, _ => None
        end
      | _, _ => None
      end
  | _ => None
  end.

(** The lambda [tryBuild] of [pairCoupledInfo], its two arguments being
    the reductions of the accumulator and of the state. *)
Definition tryBuild (loopVar : string) (acc state : string * Expr)
  : option (string * string * Expr * Expr) :=
  if negb (isVarNamed (snd acc) (fst state)) then None
  else if exprHasVar (snd state) (fst acc) then None
  else if exprHasVar (snd state) (fst state) then None
  else if exprHasAnyCall (snd state) then None
  else
    '(a, b) ← affineI64Expr (snd state) loopVar;
    Some (fst acc, fst state, a, b).

(** [pairCoupledInfo(loop)]: [accVar], [stateVar], [a] and [b].  The two
    assignments are tried in both orders. *)
Definition pairCoupledInfo (n : string) (body : list Stmt)
  : option (string * string * Expr * Expr) :=
  match body with
  | [SAssign n0 v0; SAssign n1 v1] =>
    match plusReductionFromAssign n0 v0 n, plusReductionFromAssign n1 v1 n with
    | Some r0, Some r1 =>
      match tryBuild n r0 r1 with
      | Some out => Some out
      | None => tryBuild n r1 r0
      end
    | _, _ => None
    end
  | _ => None
  end.

(** The [For] case of [EmitC::stmt] where it writes the pair-coupled
    block: the loop is not parallel, [alternatingSignReductionInfo] has no
    value and [pairCoupledInfo] has one.  The result is the store after the
    block, in which the loop variable does not exist; [None] when the
    emitter writes something else for the loop, or when a bound, a
    coefficient or one of the two variables has no [int64_t] value. *)
Definition pairCoupledBlock (n : string) (start stop step : Expr)
    (parallel : bool) (body : list Stmt) (σ : gmap string Exec.Val)
  : option (gmap string Exec.Val) :=
  if parallel then None
  else
    match alternatingSignReductionInfo n start step body, pairCoupledInfo n body with
    | None, Some (accVar, stateVar, a, b) =>
      match Exec.evalE start σ, Exec.evalE stop σ, Exec.evalE step σ,
            Exec.evalE a σ, Exec.evalE b σ, σ !! accVar, σ !! stateVar with
      | Some (Exec.VInt i), Some (Exec.VInt en), Some (Exec.VInt sp),
        Some (Exec.VInt a), Some (Exec.VInt b),
        Some (Exec.VInt acc), Some (Exec.VInt state) =>
        let '(acc', state') := pairCoupled i en sp a b acc state in
        Some (<[stateVar := Exec.VInt state']> (<[accVar := Exec.VInt acc']> σ))
      | _, _, _, _, _, _, _ => None
      end
    | _, _ => None
    end.

End EmitFor.

(* ===================================================================== *)
(** * Driver: from the parsed program to the program handed to [EmitC] *)

Module Pipeline.

(** The stages of [main] between the parser and the emitter: type check,
    [optimize], type check again.  [None] is [optimize] without a result
    (out of fuel, or a constant division of [INT64_MIN] by [-1] that the
    optimizer executes); the left summand is the [CompileError]. *)
Definition compile (fuel : nat) (superuserMode : bool) (passes : Z) (p : Program)
  : option (string + Program) :=
  match TypeCheck.check superuserMode p with
  | inl e => Some (inl e)
  | inr (p1, _) =>
    p2 ← Opt.optimize fuel p1 passes;
    match TypeCheck.check superuserMode p2 with
    | inl e => Some (inl e)
    | inr (p3, _) => Some (inr p3)
    end
  end.

(** The option [--passes] when it is not given. *)
Definition defaultPasses : Z := 12.

End Pipeline.


(* ===================================================================== *)
(** * The C emitter: string literals *)

Module EmitLit.

(** The [switch (c)] of [cStrLit]: what one character of the text adds to
    the literal. *)
Definition cStrLitChar (c : ascii) : string :=
  if Ascii.eqb c chBACKSLASH then String chBACKSLASH (str1 chBACKSLASH)
  else if Ascii.eqb c chQUOTE then String chBACKSLASH (str1 chQUOTE)
  else if Ascii.eqb c chLF then String chBACKSLASH "n"
  else if Ascii.eqb c chCR then String chBACKSLASH "r"
  else if Ascii.eqb c chTAB then String chBACKSLASH "t"
  else str1 c.

(** The loop [for (char c : v)], [out] being the literal so far. *)
Fixpoint cStrLitLoop (v : string) (out : string) : string :=
  match v with
  | EmptyString => out
  | String c r => cStrLitLoop r (out ++ cStrLitChar c)
  end.

(** [EmitC::cStrLit] *)
Definition cStrLit (v : string) : string :=
  cStrLitLoop v (str1 chQUOTE) ++ str1 chQUOTE.

End EmitLit.

(* ===================================================================== *)
(** * Driver: the typed-IR bundle *)

Module TypedIr.

Definition chBS : ascii := "008"%char.
Definition chFF : ascii := "012"%char.

(** The [switch (c)] of [jsonEscape]: what one character writes to the
    stream; a control character without a short form is written as
    backslash, [u] and four hexadecimal digits. *)
Definition jsonEscapeChar (c : ascii) : string :=
  if Ascii.eqb c chQUOTE then String chBACKSLASH (str1 chQUOTE)
  else if Ascii.eqb c chBACKSLASH then String chBACKSLASH (str1 chBACKSLASH)
  else if Ascii.eqb c chBS then String chBACKSLASH "b"
  else if Ascii.eqb c chFF then String chBACKSLASH "f"
  else if Ascii.eqb c chLF then String chBACKSLASH "n"
  else if Ascii.eqb c chCR then String chBACKSLASH "r"
  else if Ascii.eqb c chTAB then String chBACKSLASH "t"
  else if CType.code c <? 32 then
    String chBACKSLASH (String "u" (Driver.hexDigits 4 (CType.code c) EmptyString))
  else str1 c.

(** [jsonEscape] *)
Fixpoint jsonEscape (s : string) : string :=
  match s with
  | EmptyString => EmptyString
  | String c r => jsonEscapeChar c ++ jsonEscape r
  end.

(** [jsonUnescape]: the loop over [in], on the text from [i] on.  After a
    backslash and [u] the next four characters are skipped when there are
    four ([i + 4 < in.size()]), and a question mark is written. *)
Fixpoint jsonUnescape (s : string) : string :=
  match s with
  | EmptyString => EmptyString
  | String c r =>
    if negb (Ascii.eqb c chBACKSLASH) then String c (jsonUnescape r)
    else
      match r with
      | EmptyString => EmptyString
      | String n r' =>
        if Ascii.eqb n chQUOTE then String chQUOTE (jsonUnescape r')
        else if Ascii.eqb n chBACKSLASH then String chBACKSLASH (jsonUnescape r')
        else if Ascii.eqb n "/" then String "/" (jsonUnescape r')
        else if Ascii.eqb n "b" then String chBS (jsonUnescape r')
        else if Ascii.eqb n "f" then String chFF (jsonUnescape r')
        else if Ascii.eqb n "n" then String chLF (jsonUnescape r')
        else if Ascii.eqb n "r" then String chCR (jsonUnescape r')
        else if Ascii.eqb n "t" then String chTAB (jsonUnescape r')
        else if Ascii.eqb n "u" then
          String "?"
            match r' with
            | String _ (String _ (String _ (String _ r4))) => jsonUnescape r4
            | _ => jsonUnescape r'
            end
        else String n (jsonUnescape r')
      end
  end.

(** [hay.find(needle)].  A position in a text is kept as the text from that
    position on, so the result is [hay.substr(pos)]; [None] is [npos]. *)
Fixpoint find (needle hay : string) : option string :=
  if String.prefix needle hay then Some hay
  else
    match hay with
    | EmptyString => None
    | String _ r => find needle r
    end.

(** [while (pos < json.size() && std::isspace(json[pos])) ++pos;] *)
Fixpoint skipSpace (s : string) : string :=
  match s with
  | EmptyString => EmptyString
  | String c r => if CType.isspace c then skipSpace r else s
  end.

(** The last loop of [jsonExtractStringField], from [pos] on, with the flag
    [esc] and the text [raw] collected so far. *)
Fixpoint scanRaw (s : string) (esc : bool) (raw : string) : option string :=
  match s with
  | EmptyString => None
  | String c r =>
    if negb esc && Ascii.eqb c chQUOTE then Some (jsonUnescape raw)
    else if negb esc && Ascii.eqb c chBACKSLASH then scanRaw r true (raw ++ str1 c)
    else scanRaw r false (raw ++ str1 c)
  end.

Definition quoted (s : string) : string := str1 chQUOTE ++ s ++ str1 chQUOTE.

(** [jsonExtractStringField] *)
Definition jsonExtractStringField (json key : string) : option string :=
  let needle := quoted key in
  match find needle json with
  | None => None
  | Some atKey =>
    match find ":" (substrFrom (String.length needle) atKey) with
    | None => None
    | Some atColon =>
      match skipSpace (substrFrom 1 atColon) with
      | EmptyString => None
      | String c r => if Ascii.eqb c chQUOTE then scanRaw r false EmptyString else None
      end
    end
  end.

(** The text [writeTypedIrBundle] hands to [writeFile]. *)
Definition bundleText (cCode sourceStateHash buildConfigHash : string) : string :=
  "{" ++ EmitC.nl
  ++ "  " ++ quoted "format" ++ ": " ++ quoted "linescript-typed-ir-v1" ++ "," ++ EmitC.nl
  ++ "  " ++ quoted "source_hash" ++ ": " ++ quoted (jsonEscape sourceStateHash)
  ++ "," ++ EmitC.nl
  ++ "  " ++ quoted "config_hash" ++ ": " ++ quoted (jsonEscape buildConfigHash)
  ++ "," ++ EmitC.nl
  ++ "  " ++ quoted "c_code" ++ ": " ++ quoted (jsonEscape cCode) ++ EmitC.nl
  ++ "}" ++ EmitC.nl.

(** [writeFile] on the files of the compilation (a map from paths to
    contents, as for [readFile]); the write always goes through. *)
Definition writeFile (fs : gmap string string) (p c : string) : gmap string string :=
  <[p := c]> fs.

(** [writeTypedIrBundle] *)
Definition writeTypedIrBundle (fs : gmap string string) (outPath : string)
    (cCode sourceStateHash buildConfigHash : string) : gmap string string :=
  writeFile fs outPath (bundleText cCode sourceStateHash buildConfigHash).

(** [readTypedIrBundle] called with both out-parameters: the C code, the
    source hash and the configuration hash, or the message of the
    [std::runtime_error]. *)
Definition readTypedIrBundle (fs : gmap string string) (inPath : string)
  : string + (string * string * string) :=
  match Driver.readFile fs inPath with
  | None => inl ("failed to read: " ++ inPath)
  | Some json =>
    match jsonExtractStringField json "format" with
    | Some "linescript-typed-ir-v1" =>
      match jsonExtractStringField json "c_code" with
      | None => inl ("typed IR is missing c_code field: " ++ inPath)
      | Some cCode =>
        inr (cCode,
             default EmptyString (jsonExtractStringField json "source_hash"),
             default EmptyString (jsonExtractStringField json "config_hash"))
      end
    | _ => inl ("unsupported typed IR format in " ++ inPath)
    end
  end.

End TypedIr.

(* ===================================================================== *)
(** * Driver: custom command-line flags *)
(* ===================================================================== *)

Module Cli.

(** [body.front()] and [body.back()] of a string that is not empty. *)
Definition front (s : string) : option ascii :=
  match s with
  | EmptyString => None
  | String c _ => Some c
  end.

Fixpoint back (s : string) : option ascii :=
  match s with
  | EmptyString => None
  | String c EmptyString => Some c
  | String _ r => back r
  end.

Definition isChar (c : ascii) (o : option ascii) : bool :=
  match o with
  | Some d => Ascii.eqb d c
  | None => false
  end.

(** The loop of [isValidCliFlagBody] from the characters [s] on. *)
Fixpoint flagBodyLoop (s : string) (prevDash : bool) : bool :=
  match s with
  | EmptyString => true
  | String c r =>
    if Ascii.eqb c "-" then
      if prevDash then false else flagBodyLoop r true
    else if negb (CType.isalnum c) && negb (Ascii.eqb c "_") then false
    else flagBodyLoop r false
  end.

(** [isValidCliFlagBody] *)
Definition isValidCliFlagBody (body : string) : bool :=
  if String.eqb body EmptyString then false
  else if isChar "-" (front body) || isChar "-" (back body) then false
  else flagBodyLoop body false.

(** [cliFlagBodyFromArg] *)
Definition cliFlagBodyFromArg (arg : string) : string :=
  if negb (startsWith arg "--") then EmptyString else substrFrom 2 arg.

End Cli.

(* ===================================================================== *)
(** * Driver: the compiler command *)
(* ===================================================================== *)

Module Shell.

(** [t[i] == c], for an index inside the text. *)
Definition charAt (i : nat) (c : ascii) (t : string) : bool :=
  match String.get i t with
  | Some d => Ascii.eqb d c
  | None => false
  end.

(** [t.back() == c] *)
Definition lastIs (c : ascii) (t : string) : bool :=
  charAt (String.length t - 1) c t.

(** The two tests of the loop of [stripOuterQuotes]: the text is wrapped
    in a pair of double or single quotes; it is wrapped in a pair of
    backslash-escaped double quotes. *)
Definition quoted (t : string) : bool :=
  (2 <=? String.length t)%nat
  && ((charAt 0 chQUOTE t && lastIs chQUOTE t) || (charAt 0 chAPOS t && lastIs chAPOS t)).

Definition escQuoted (t : string) : bool :=
  (4 <=? String.length t)%nat && charAt 0 chBACKSLASH t && charAt 1 chQUOTE t
  && charAt (String.length t - 2) chBACKSLASH t && lastIs chQUOTE t.

(** One round of the loop: the text and [changed]. *)
Definition stripRound (t : string) : string * bool :=
  let '(t1, c1) :=
    if quoted t then (String.substring 1 (String.length t - 2) t, true)
    else (t, false) in
  if escQuoted t1 then (String.substring 2 (String.length t1 - 4) t1, true)
  else (t1, c1).

(** [while (changed)]: every round that changes the text shortens it, so
    one round more than the text has characters is enough, as is proved
    with the properties. *)
Fixpoint stripLoop (fuel : nat) (t : string) : string :=
  match fuel with
  | O => t
  | S fuel' =>
    let '(t', changed) := stripRound t in
    if changed then stripLoop fuel' t' else t'
  end.

(** [stripOuterQuotes] *)
Definition stripOuterQuotes (t : string) : string :=
  stripLoop (S (String.length t)) t.

(** [t.find(' ') != std::string::npos] *)
Fixpoint hasSpace (t : string) : bool :=
  match t with
  | EmptyString => false
  | String c r => Ascii.eqb c " " || hasSpace r
  end.

(** [qCmd] *)
Definition qCmd (s : string) : string :=
  let t := stripOuterQuotes s in
  if hasSpace t then String chQUOTE (t ++ str1 chQUOTE) else t.

End Shell.

(** * Definitions used by the properties *)

Section DriverAux.
Import Driver.

(** [FNV_PRIME] is odd, hence invertible modulo 2^64. *)
Definition FNV_PRIME_INV : Z := 14886173955864302971.

(** The value of a hexadecimal digit. *)
Definition unhexDigit (c : ascii) : Z :=
  match String.index 0 (str1 c) "0123456789abcdef" with
  | Some n => Z.of_nat n
  | None => 0
  end.

(** Two compilations that differ in their inputs only.  The second file
    holds a program that calls [x], which prints 2; the first holds the same
    text after a [c], so that it calls [cx], which prints 1; the first is
    named [p.ls] and the second [p.lsc]. *)
Definition programText : string :=
  "x()" ++ str1 chLF
  ++ "fn x() do println(2) end" ++ str1 chLF
  ++ "fn cx() do println(1) end" ++ str1 chLF.

Definition fsA : gmap string string := {[ "p.ls" := "c" ++ programText ]}.
Definition fsB : gmap string string := {[ "p.lsc" := programText ]}.

(** The bytes that [computeSourceStateHash] hashes: the path of every input
    followed by its content, in the order of the inputs and with nothing
    between them; [None] when an input cannot be read. *)
Fixpoint sourceBytes (fs : gmap string string) (inputs : list string)
  : option string :=
  match inputs with
  | [] => Some EmptyString
  | p :: ps =>
    c ← readFile fs p; rest ← sourceBytes fs ps; Some (p ++ c ++ rest)
  end.

End DriverAux.

Section OverloadAux.








End OverloadAux.

Section OverloadExample.

(** An overload group [area] with one candidate on [i64] and one on [f64]. *)
Definition areaI64 : OverloadCandidate.t :=
  OverloadCandidate.mk "area" (Sig.mk [Ty.I64] Ty.I64 []).
Definition areaF64 : OverloadCandidate.t :=
  OverloadCandidate.mk "area__f64" (Sig.mk [Ty.F64] Ty.F64 []).
Definition areaState : TypeCheck.State :=
  TypeCheck.mkState ∅ {[ "area" := [areaI64; areaF64] ]} [].

End OverloadExample.

Section ShadowAux.



(** [declare x = 1; declare x = 2] *)
Definition declareTwice : Program :=
  [ scriptFn [ sLet "x" None (eInt 1); sLet "x" None (eInt 2) ] ].


(** [if true do declare x = 1 end; declare x = 2] *)
Definition declareAfterBlock : Program :=
  [ scriptFn [ SIf (eBool true) [ sLet "x" None (eInt 1) ] [];
               sLet "x" None (eInt 2) ] ].

(** [fn f(x: i64) -> i64 do while true do declare x = 1 end; return x end] *)
Definition declareParam : Program :=
  [ Fn.mk "f" "f" false EmptyString false false [Param.mk "x" Ty.I64] Ty.I64 []
      [ SWhile (eBool true) [ sLet "x" None (eInt 1) ];
        SRet true (Some (eVar "x")) ] ].

End ShadowAux.

Section OwnedAux.

(** [makeFieldStoreStmt] and [makeFieldLoadExpr] of the parser, for a field
    of type [i64]. *)
Definition makeFieldStoreStmt (receiver field : string) (value : Expr) : Stmt :=
  SExpr (eCall "object_set"
           [eVar receiver; eStr field; eCall "formatOutput" [value]]).

Definition makeFieldLoadExpr (receiver field : string) : Expr :=
  eCall "parse_i64" [eCall "object_get" [eVar receiver; eStr field]].

(** The constructor function that [parseClass] generates for
    [class P { declare x: i64 = 0; constructor(v: i64) { this.x = v } }]. *)
Definition ctorP : Fn.t :=
  Fn.mk "P" "P" false EmptyString false false [Param.mk "v" Ty.I64] Ty.I64 []
    [ sLet "this" (Some Ty.I64) (eCall "object_new" []);
      makeFieldStoreStmt "this" "x" (eInt 0);
      makeFieldStoreStmt "this" "x" (eVar "v");
      SRet true (Some (eVar "this")) ].

(** [declare owned p = P(7); println(p.x)], with and without [owned]. *)
Definition mainE (owned : bool) : list Stmt :=
  [ SLet "p" None false owned EmptyString letAnn (eCall "P" [eInt 7]);
    SExpr (eCall "println" [makeFieldLoadExpr "p" "x"]) ].

Definition scenarioE : Program := [ctorP; scriptFn (mainE true)].
Definition scenarioE_unowned : Program := [ctorP; scriptFn (mainE false)].

(** The calls for which [ownedFreeFnForCtor] has a free function. *)
Definition ownedCtors : list string :=
  [ "array_new"; "dict_new"; "map_new"; "object_new"; "np_new"; "np_copy";
    "np_from_range"; "np_linspace"; "gfx_new"; "pg_surface_new"; "game_new";
    "pg_init"; "phys_new"; "http_server_listen"; "http_client_connect";
    "result_ok"; "result_err"; "option_some"; "option_none" ].

End OwnedAux.

Section EntryAux.

(** The functions that can be an entry: neither [extern] nor a
    command-line flag function. *)
Definition entryCandidates (p_ : Program) : list Fn.t :=
  List.filter (fun f => negb (Fn.ex f || Fn.isCliFlag f)) p_.

Definition named (name : string) (fs : list Fn.t) : list Fn.t :=
  List.filter (fun f => String.eqb (Fn.n f) name) fs.

Definition zeroArg (fs : list Fn.t) : list Fn.t :=
  List.filter (fun f => EmitC.isNil (Fn.p f)) fs.

(** The body of the wrapper [int main(void)] between the flag calls and the
    closing brace, by return type of the entry. *)
Definition wrapperReturn (r : Ty.t) : string :=
  match r with
  | Ty.Void => "  __linescript_main();" ++ EmitC.nl ++ "  return 0;" ++ EmitC.nl
  | Ty.Str => "  (void)__linescript_main();" ++ EmitC.nl ++ "  return 0;" ++ EmitC.nl
  | _ => "  return (int)__linescript_main();" ++ EmitC.nl
  end.

(** The same for the wrapper [mainCRTStartup] of the runtime without a C
    library, which ends the process with the value. *)
Definition wrapperExit (r : Ty.t) : string :=
  match r with
  | Ty.Void => "  __linescript_main();" ++ EmitC.nl ++ "  ExitProcess(0u);" ++ EmitC.nl
  | Ty.Str => "  (void)__linescript_main();" ++ EmitC.nl ++ "  ExitProcess(0u);" ++ EmitC.nl
  | _ => "  const int rc = (int)__linescript_main();" ++ EmitC.nl
         ++ "  ExitProcess((unsigned int)rc);" ++ EmitC.nl
  end.

(** Three functions without parameters, and a program per case. *)
Definition fnNamed (name : string) (r : Ty.t) : Fn.t :=
  Fn.mk name name false EmptyString false false [] r [] [].

End EntryAux.

Section LoopPrograms.

Definition plus (l r : Expr) : Expr := eBin BK.Add l r.

Definition println (e : Expr) : Stmt := SExpr (eCall "println" [e]).

(** Scenario D:
    [declare acc: i64 = 0; declare state: i64 = 0;
     for i in 0..5 step 1 do acc = acc + state; state = state + (i + 1) end;
     println(acc); println(state)] *)
Definition accThenState : list Stmt :=
  [ SAssign "acc" (plus (eVar "acc") (eVar "state"));
    SAssign "state" (plus (eVar "state") (plus (eVar "i") (eInt 1))) ].

Definition twoAccumulators (body : list Stmt) : Program :=
  [ scriptFn
      [ sLet "acc" (Some Ty.I64) (eInt 0);
        sLet "state" (Some Ty.I64) (eInt 0);
        SFor "i" (eInt 0) (eInt 5) (eInt 1) false body;
        println (eVar "acc");
        println (eVar "state") ] ].

Definition scenarioD : Program := twoAccumulators accThenState.

(** The same loop with the two assignments in the other order:
    [state = state + (i + 1); acc = acc + state]. *)
Definition stateThenAcc : list Stmt :=
  [ SAssign "state" (plus (eVar "state") (plus (eVar "i") (eInt 1)));
    SAssign "acc" (plus (eVar "acc") (eVar "state")) ].

Definition pairStateFirst : Program := twoAccumulators stateThenAcc.

(** The statements by which the pair-coupled reduction replaces the loop of
    scenario D. *)
Definition pairReplacement : list Stmt :=
  [ SAssign "acc"
      (plus (eVar "acc")
         (plus (eBin BK.Mul (eVar "state") (eInt 5)) (eInt 20)));
    SAssign "state" (plus (eVar "state") (eInt 15)) ].

(** [declare c: i64 = 1; declare x: i64 = 0; if c > 0 do x = 1 end;
     println(x)] *)
Definition deadStoreIf : Program :=
  [ scriptFn
      [ sLet "c" (Some Ty.I64) (eInt 1);
        sLet "x" (Some Ty.I64) (eInt 0);
        SIf (eBin BK.Gt (eVar "c") (eInt 0)) [ SAssign "x" (eInt 1) ] [];
        println (eVar "x") ] ].

(** [for i in -9223372036854775807..9223372036854775807 step 3 do
       println(1); break end] *)
Definition hugeRange : Program :=
  [ scriptFn
      [ SFor "i" (eUn UK.Neg (eInt 9223372036854775807)) (eInt 9223372036854775807)
             (eInt 3) false
          [ println (eInt 1); SBreak ] ] ].

(** The text of [n] lines. *)
Definition lines (ls : list string) : string :=
  foldr (fun l out => l ++ EmitC.nl ++ out) EmptyString ls.

(** The number of rounds of [for i in a..b step s], in the words of the
    language description: the ceiling of [(b - a) / s] for a positive step,
    of [(a - b) / (-s)] for a negative one, 0 when the range is empty. *)
Definition ceilDiv (x y : Z) : Z := - ((- x) / y).

Definition tripCountSpec (a b s : Z) : option Z :=
  if s =? 0 then None
  else if 0 <? s then Some (if b <=? a then 0 else ceilDiv (b - a) s)
  else Some (if a <=? b then 0 else ceilDiv (a - b) (- s)).

(** The fuel of the evaluations below. *)
Definition fuel : nat := 1000.

End LoopPrograms.

Section TripCountAux.

(** The sums that [tripCount] forms in [int64_t] stay in range. *)
Definition spanFits (a b s : Z) : bool :=
  if 0 <? s then (b <=? a) || (b - a + s <=? INT64_MAX)
  else if s <? 0 then (a <=? b) || (a - b - s <=? INT64_MAX)
  else true.

End TripCountAux.


Section ClosedFormAux.

(** [z] is representable as a signed 64-bit integer. *)
Definition I64val (z : Z) : Prop := INT64_MIN <= z <= INT64_MAX.

(** Value added to the state in round [k] when the loop variable runs over
    [st], [st + sp], ... and the increment is [a * i + b]. *)
Definition affineAt (a b st sp k : Z) : Z := a * (st + k * sp) + b.

Fixpoint sumAffine (n : nat) (a b st sp : Z) : Z :=
  match n with
  | O => 0
  | S n' => sumAffine n' a b st sp + affineAt a b st sp (Z.of_nat n')
  end.

Fixpoint sumPrefix (n : nat) (a b st sp : Z) : Z :=
  match n with
  | O => 0
  | S n' => sumPrefix n' a b st sp + sumAffine n' a b st sp
  end.

(** [n] rounds of [acc = acc + state; state = state + (a*i + b)], the loop
    variable running over [st], [st + sp], ... *)
Fixpoint accFirstRounds (n : nat) (a b st sp acc state : Z) : Z * Z :=
  match n with
  | O => (acc, state)
  | S n' =>
    let '(acc', state') := accFirstRounds n' a b st sp acc state in
    (acc' + state', state' + affineAt a b st sp (Z.of_nat n'))
  end.

End ClosedFormAux.

Section TypedIrAux.
Import TypedIr.

Fixpoint mapString (f : ascii -> ascii) (s : string) : string :=
  match s with
  | EmptyString => EmptyString
  | String c r => String (f c) (mapString f r)
  end.

Fixpoint allChars (p : ascii -> bool) (s : string) : bool :=
  match s with
  | EmptyString => true
  | String c r => p c && allChars p r
  end.

(** The control characters that [jsonEscape] writes with [u]: those below
    32 other than backspace, form feed, newline, carriage return and tab. *)
Definition jsonLossy (c : ascii) : bool :=
  (CType.code c <? 32)
  && negb (Ascii.eqb c chBS || Ascii.eqb c chFF || Ascii.eqb c chLF
           || Ascii.eqb c chCR || Ascii.eqb c chTAB).

(** What comes back for a character after [jsonEscape] and
    [jsonUnescape]. *)
Definition jsonBack (c : ascii) : ascii := if jsonLossy c then "?"%char else c.

End TypedIrAux.

Section HexAux.
Import Driver.

(** The number a string of hexadecimal digits stands for, read from the
    left. *)
Definition unhexFrom (s : string) (acc : Z) : Z :=
  fold_left (fun a c => 16 * a + unhexDigit c) (list_ascii_of_string s) acc.

Definition unhex (s : string) : Z := unhexFrom s 0.

End HexAux.

Section LexerAux.
Import Lexer.

(** The messages of the errors of [readString]. *)
Definition stringError (m : string) : Prop :=
  m = "unterminated string literal"
  \/ m = "unterminated escape sequence in string literal"
  \/ exists esc, m = unsupportedEscape esc.

(** The messages of the errors of [run]. *)
Definition lexError (m : string) : Prop :=
  stringError m \/ exists c, m = unexpectedChar c /\ punctuation c = None.

(** The characters of an identifier, and those that can start one. *)
Definition identChar (c : ascii) : bool := CType.isalnum c || Ascii.eqb c "_".
Definition identStart (c : ascii) : bool := CType.isalpha c || Ascii.eqb c "_".

(** [p] holds of the first character of [s]. *)
Definition headIs (p : ascii -> bool) (s : string) : bool :=
  match s with
  | EmptyString => false
  | String c _ => p c
  end.

Definition isBlank (c : ascii) : bool :=
  Ascii.eqb c " " || Ascii.eqb c chTAB || Ascii.eqb c chCR.

(** Kind and text of the tokens, without their positions. *)
Definition kindsAndTexts (toks : list Token) : list (TokenKind * string) :=
  map (fun t => (kind t, text t)) toks.

End LexerAux.

Section ExprAux.

(** Every integer literal of the expression is an [int64_t], as the field
    [EInt::v] of the source is. *)
Fixpoint litsI64 (e : Expr) : bool :=
  match e with
  | EInt v _ => inI64 v
  | EUnary _ x _ _ => litsI64 x
  | EBinary _ l r _ _ => litsI64 l && litsI64 r
  | ECall _ args _ => forallb litsI64 args
  | _ => true
  end.

(** Every integer of the store is an [int64_t]. *)
Definition storeI64 (σ : gmap string Exec.Val) : Prop :=
  forall n z, σ !! n = Some (Exec.VInt z) -> I64val z.

(** No call anywhere in the expression. *)
Fixpoint callFree (e : Expr) : bool :=
  match e with
  | EUnary _ x _ _ => callFree x
  | EBinary _ l r _ _ => callFree l && callFree r
  | ECall _ _ _ => false
  | _ => true
  end.

(** Every operator [/] and [%] of the expression has an integer literal
    other than [-1] as its right operand. *)
Fixpoint divSafe (e : Expr) : bool :=
  match e with
  | EUnary _ x _ _ => divSafe x
  | EBinary op l r _ _ =>
    (if bool_decide (op = BK.Div) || bool_decide (op = BK.Mod)
     then match r with EInt v _ => negb (v =? -1) | _ => false end
     else true)
    && divSafe l && divSafe r
  | ECall _ args _ => forallb divSafe args
  | _ => true
  end.

Fixpoint depth (e : Expr) : nat :=
  match e with
  | EUnary _ x _ _ => S (depth x)
  | EBinary _ l r _ _ => S (Nat.max (depth l) (depth r))
  | ECall _ args _ => S (fold_right (fun a n => Nat.max (depth a) n) 0%nat args)
  | _ => 0%nat
  end.

End ExprAux.

Section TypeCheckAux.
Import TypeCheck.

(** Every result of the computation satisfies [Q]. *)
Definition post {A} (m : M A) (Q : A -> Prop) : Prop :=
  forall st a st', m st = inr (a, st') -> Q a.

(** The computation throws nothing. *)
Definition total {A} (m : M A) : Prop :=
  forall st, exists a st', m st = inr (a, st').

(** The computation throws, whatever the state. *)
Definition fails {A} (m : M A) : Prop :=
  forall st, exists msg, m st = inl msg.

(** [break] or [continue] that no loop of the statement encloses. *)
Fixpoint escapes (s : Stmt) : bool :=
  match s with
  | SBreak | SContinue => true
  | SIf _ t e => existsb escapes t || existsb escapes e
  | SFormatBlock _ b => existsb escapes b
  | _ => false
  end.

(** No [return] node with the flag [has] and a null expression; the parser
    and the optimizer build none. *)
Fixpoint retsOk (s : Stmt) : bool :=
  match s with
  | SRet true None => false
  | SIf _ t e => forallb retsOk t && forallb retsOk e
  | SWhile _ b | SFor _ _ _ _ _ b | SFormatBlock _ b => forallb retsOk b
  | _ => true
  end.

End TypeCheckAux.

Section SeriesAux.

(** The largest modulus for which the sum of two residues is an [int64_t]. *)
Definition two62 : Z := 4611686018427387904.

(** [f 0 + f 1 + ... + f (n - 1)] *)
Fixpoint sumTo (n : nat) (f : Z -> Z) : Z :=
  match n with
  | O => 0
  | S n' => sumTo n' f + f (Z.of_nat n')
  end.

End SeriesAux.

Section TypingAux.
Import TypeCheck Exec.

(** The type of a run-time value of the fragment that [Exec] covers. *)
Definition hasTy (v : Val) (t : Ty.t) : bool :=
  match v with
  | VInt _ => bool_decide (t = Ty.I64)
  | VBool _ => bool_decide (t = Ty.Bool)
  | VStr _ => bool_decide (t = Ty.Str)
  end.

(** Every variable of the store that the environment knows holds a value
    of its declared type. *)
Definition storeTyped (l : gmap string Local.t) (σ : gmap string Val) : Prop :=
  forall n loc v, l !! n = Some loc -> σ !! n = Some v -> hasTy v (Local.t_ loc) = true.

(** A checked node whose value, if it has one, has the type found. *)
Definition sound (σ : gmap string Val) (r : Ty.t * Expr) : Prop :=
  forall v, evalE (snd r) σ = Some v -> hasTy v (fst r) = true.

End TypingAux.

Section LoopAux.

(** The test of the emitted [for]: [i < stop] for a positive step,
    [i > stop] for a negative one. *)
Definition loopCond (sp en i : Z) : bool :=
  ((0 <? sp) && (i <? en)) || ((sp <? 0) && (en <? i)).

(** The loop from [i] makes exactly [k] rounds, and the loop variable stays
    an [int64_t] up to the value that ends the loop. *)
Definition runsFor (sp en i : Z) (k : nat) : Prop :=
  (forall j, 0 <= j < Z.of_nat k -> loopCond sp en (i + j * sp) = true)
  /\ loopCond sp en (i + Z.of_nat k * sp) = false
  /\ (forall j, 0 <= j <= Z.of_nat k -> I64val (i + j * sp)).

End LoopAux.

Section CliAux.

(** A character of a word of a flag name. *)
Definition flagChar (c : ascii) : bool := CType.isalnum c || Ascii.eqb c "_".

(** A word: letters, digits and underscores, at least one. *)
Definition flagWord (w : string) : bool :=
  negb (String.eqb w EmptyString) && allChars flagChar w.

(** The words with one dash between neighbours. *)
Fixpoint joinDash (ws : list string) : string :=
  match ws with
  | [] => EmptyString
  | [w] => w
  | w :: rest => w ++ String "-" (joinDash rest)
  end.

(** The pieces between the dashes. *)
Fixpoint splitDash (s : string) : list string :=
  match s with
  | EmptyString => [EmptyString]
  | String c r =>
    if Ascii.eqb c "-" then EmptyString :: splitDash r
    else
      match splitDash r with
      | w :: ws => String c w :: ws
      | [] => [String c EmptyString]
      end
  end.

(** No dash at the end, and something after a dash. *)
Definition endsOk (prevDash : bool) (s : string) : Prop :=
  match s with
  | EmptyString => prevDash = false
  | _ => Cli.isChar "-" (Cli.back s) = false
  end.

End CliAux.

Section SuperuserAux.
Import TypeCheck.



End SuperuserAux.

(* ===================================================================== *)
(** * Properties *)
(* ===================================================================== *)

(** ** Lexer: string literals *)

Section LexerFacts.
Import Lexer.

(** stdpp keeps [String.append] from unfolding under [simpl]; these are its
    two equations. *)
Lemma append_nil_l (t : string) : EmptyString ++ t = t.
Proof. reflexivity. Qed.

Lemma append_cons (c : ascii) (s t : string) : String c s ++ t = String c (s ++ t).
Proof. reflexivity. Qed.

Lemma append_nil_r (s : string) : s ++ EmptyString = s.
Proof.
  induction s as [|c s IH]; [reflexivity | now rewrite append_cons, IH].
Qed.

Lemma append_assoc' (a b c : string) : (a ++ b) ++ c = a ++ (b ++ c).
Proof.
  induction a as [|x a IH]; [reflexivity | now rewrite !append_cons, IH].
Qed.

Lemma unescape_table esc ch : unescape esc = Some ch <-> In (esc, ch) escapeTable.
Proof.
  unfold unescape, escapeTable. split.
  - repeat match goal with
           | |- context [Ascii.eqb esc ?c] =>
             destruct (Ascii.eqb_spec esc c) as [->|?];
             [intros [= <-]; simpl; tauto | ]
           end.
    discriminate.
  - simpl. intros [H|[H|[H|[H|[H|[]]]]]]; inversion H; subst; reflexivity.
Qed.

Lemma unescape_none esc :
  unescape esc = None <-> (forall ch, ~ In (esc, ch) escapeTable).
Proof.
  split.
  - intros Hn ch Hin. apply unescape_table in Hin. congruence.
  - intros H. destruct (unescape esc) as [ch|] eqn:E; [|reflexivity].
    apply unescape_table in E. now apply H in E.
Qed.

Ltac dpos :=
  repeat match goal with
         | |- context [advPos ?c ?l ?k] => destruct (advPos c l k) as [? ?]
         end.

(** The loop runs through a well-formed body and goes on with what
    follows it, the decoded text appended to [out]. *)
Lemma readStringLoop_body s raw dec :
  LiteralBody raw dec ->
  forall tail ln cl out,
  exists ln' cl',
    readStringLoop s (raw ++ tail) ln cl out
    = readStringLoop s tail ln' cl' (out ++ dec).
Proof.
  induction 1 as [|c raw dec Hq Hb Hn _ IH|esc ch raw dec Hin _ IH];
    intros tail ln cl out.
  - rewrite append_nil_l, append_nil_r. eauto.
  - rewrite append_cons. simpl. dpos.
    destruct (Ascii.eqb_spec c chQUOTE); [contradiction|].
    destruct (Ascii.eqb_spec c chBACKSLASH); [contradiction|].
    destruct (Ascii.eqb_spec c chLF); [contradiction|].
    edestruct IH as (ln' & cl' & ->).
    exists ln', cl'. now rewrite append_assoc'.
  - rewrite !append_cons. simpl. dpos.
    apply unescape_table in Hin. rewrite Hin.
    edestruct IH as (ln' & cl' & ->).
    exists ln', cl'. now rewrite append_assoc'.
Qed.

(** Whatever the loop accepts is a well-formed body, and whatever it
    refuses is refused with the span [s]. *)
Lemma readStringLoop_sound s n :
  forall src, (String.length src <= n)%nat ->
  forall ln cl out,
    match readStringLoop s src ln cl out with
    | inr (tok, lx') =>
      exists raw dec, src = raw ++ String chQUOTE (rest lx')
                      /\ LiteralBody raw dec /\ tok = mkToken Str (out ++ dec) s
    | inl e => errSpan e = s
    end.
Proof.
  induction n as [|n IH]; intros src Hlen ln cl out.
  - destruct src; simpl in *; [reflexivity | lia].
  - destruct src as [|c src1]; simpl; [reflexivity|].
    destruct (advPos c ln cl) as [ln1 cl1].
    destruct (Ascii.eqb_spec c chQUOTE) as [->|Hq].
    { exists EmptyString, EmptyString. rewrite append_nil_l, append_nil_r.
      repeat split. constructor. }
    destruct (Ascii.eqb_spec c chBACKSLASH) as [->|Hb].
    { destruct src1 as [|esc src2]; [reflexivity|].
      destruct (advPos esc ln1 cl1) as [ln2 cl2].
      destruct (unescape esc) as [ch|] eqn:E; [|reflexivity].
      specialize (IH src2 ltac:(simpl in Hlen; lia) ln2 cl2 (out ++ str1 ch)).
      destruct (readStringLoop s src2 ln2 cl2 (out ++ str1 ch)) as [e|[tok lx']];
        [exact IH|].
      destruct IH as (raw & dec & -> & HB & ->).
      exists (String chBACKSLASH (String esc raw)), (String ch dec).
      repeat split.
      - constructor; [now apply unescape_table | exact HB].
      - now rewrite append_assoc'. }
    destruct (Ascii.eqb_spec c chLF) as [->|Hn]; [reflexivity|].
    specialize (IH src1 ltac:(simpl in Hlen; lia) ln1 cl1 (out ++ str1 c)).
    destruct (readStringLoop s src1 ln1 cl1 (out ++ str1 c)) as [e|[tok lx']];
      [exact IH|].
    destruct IH as (raw & dec & -> & HB & ->).
    exists (String c raw), (String c dec). repeat split.
    + now constructor.
    + now rewrite append_assoc'.
Qed.

(** C9. Inside a double-quoted literal the lexer accepts exactly the escapes
    backslash-n, -r, -t, -backslash and -quote, standing for newline, carriage
    return, tab, backslash and quote; [readString] succeeds exactly on a
    well-formed body closed by a quote and returns the decoded text; any other
    character after a backslash, a raw newline or the end of input before the
    closing quote makes it fail, and every failure is a [CompileError] that
    carries the span of the literal (the position of its opening quote). *)
Theorem readString_escapes_and_errors :
  forall (src : string) (ln cl : Z),
    let lx := mkLexer (String chQUOTE src) ln cl in
    let s := mkSpan ln cl in
    (forall esc ch, unescape esc = Some ch <-> In (esc, ch) escapeTable)
    /\ (forall tok lx', readString lx = inr (tok, lx') ->
          exists raw dec, src = raw ++ String chQUOTE (rest lx')
                          /\ LiteralBody raw dec /\ tok = mkToken Str dec s)
    /\ (forall raw dec rest', LiteralBody raw dec ->
          src = raw ++ String chQUOTE rest' ->
          exists lx', readString lx = inr (mkToken Str dec s, lx') /\ rest lx' = rest')
    /\ (forall raw dec esc rest', LiteralBody raw dec ->
          src = raw ++ String chBACKSLASH (String esc rest') ->
          (forall ch, ~ In (esc, ch) escapeTable) ->
          readString lx = inl (mkCompileError s (unsupportedEscape esc)))
    /\ (forall raw dec, LiteralBody raw dec ->
          src = raw ++ str1 chBACKSLASH ->
          readString lx
          = inl (mkCompileError s "unterminated escape sequence in string literal"))
    /\ (forall raw dec rest', LiteralBody raw dec ->
          src = raw \/ src = raw ++ String chLF rest' ->
          readString lx = inl (mkCompileError s "unterminated string literal"))
    /\ (forall e, readString lx = inl e -> errSpan e = s).
Proof.
  intros src ln cl lx s.
  assert (Hrs : readString lx
                = let '(ln1, cl1) := advPos chQUOTE ln cl in
                  readStringLoop s src ln1 cl1 EmptyString).
  { unfold readString, adv, lx. simpl.
    destruct (advPos chQUOTE ln cl) as [ln1 cl1]. reflexivity. }
  destruct (advPos chQUOTE ln cl) as [ln1 cl1].
  repeat split.
  - apply unescape_table.
  - apply unescape_table.
  - intros tok lx' Hok. rewrite Hrs in Hok.
    pose proof (readStringLoop_sound s (String.length src) src (le_n _)
                  ln1 cl1 EmptyString) as Hs.
    rewrite Hok in Hs. exact Hs.
  - intros raw dec rest' HB ->. rewrite Hrs.
    destruct (readStringLoop_body s raw dec HB (String chQUOTE rest') ln1 cl1
                EmptyString) as (ln' & cl' & ->).
    simpl. dpos. eexists. split; reflexivity.
  - intros raw dec esc rest' HB -> Hbad. rewrite Hrs.
    destruct (readStringLoop_body s raw dec HB
                (String chBACKSLASH (String esc rest')) ln1 cl1 EmptyString)
      as (ln' & cl' & ->).
    simpl. dpos. apply unescape_none in Hbad. now rewrite Hbad.
  - intros raw dec HB ->. rewrite Hrs.
    destruct (readStringLoop_body s raw dec HB (str1 chBACKSLASH) ln1 cl1
                EmptyString) as (ln' & cl' & ->).
    simpl. dpos. reflexivity.
  - intros raw dec rest' HB [->| ->]; rewrite Hrs.
    + rewrite <- (append_nil_r raw).
      destruct (readStringLoop_body s raw dec HB EmptyString ln1 cl1
                  EmptyString) as (ln' & cl' & ->).
      reflexivity.
    + destruct (readStringLoop_body s raw dec HB (String chLF rest') ln1 cl1
                  EmptyString) as (ln' & cl' & ->).
      simpl. dpos. reflexivity.
  - intros e He. rewrite Hrs in He.
    pose proof (readStringLoop_sound s (String.length src) src (le_n _)
                  ln1 cl1 EmptyString) as Hs.
    rewrite He in Hs. exact Hs.
Qed.

(** A literal with every escape, lexed at line 3, column 7: the token is the
    decoded text and the cursor stands after the closing quote. *)
Example readString_all_escapes :
  readString (mkLexer
    (String chQUOTE ("a" ++ str1 chBACKSLASH ++ "n" ++ str1 chBACKSLASH ++ "r"
       ++ str1 chBACKSLASH ++ "t" ++ str1 chBACKSLASH ++ str1 chBACKSLASH
       ++ str1 chBACKSLASH ++ str1 chQUOTE ++ str1 chQUOTE ++ " rest")) 3 7)
  = inr (mkToken Str (String "a" (String chLF (String chCR (String chTAB
           (String chBACKSLASH (str1 chQUOTE)))))) (mkSpan 3 7),
         mkLexer " rest" 3 20).
Proof. vm_compute. reflexivity. Qed.

(** A backslash followed by [x] is refused at the span of the literal. *)
Example readString_bad_escape :
  readString (mkLexer (String chQUOTE ("ab" ++ str1 chBACKSLASH ++ "x" ++ str1 chQUOTE)) 2 5)
  = inl (mkCompileError (mkSpan 2 5) (unsupportedEscape "x"%char)).
Proof. vm_compute. reflexivity. Qed.

End LexerFacts.

(** ** Driver: the configuration hash *)

Section DriverFacts.
Import Driver.

Lemma wrapU64_range z : 0 <= wrapU64 z < two64.
Proof. unfold wrapU64. apply Z.mod_pos_bound. reflexivity. Qed.

Lemma wrapU64_small z : 0 <= z < two64 -> wrapU64 z = z.
Proof. intros H. unfold wrapU64. now apply Z.mod_small. Qed.

Lemma byte_range c : 0 <= byte c < 256.
Proof.
  unfold byte. pose proof (nat_ascii_bounded c) as H. lia.
Qed.

Lemma byte_inj c1 c2 : byte c1 = byte c2 -> c1 = c2.
Proof.
  unfold byte. intros H. apply Nat2Z.inj in H.
  rewrite <- (ascii_nat_embedding c1), <- (ascii_nat_embedding c2). now rewrite H.
Qed.

Lemma lxor_range h b : 0 <= h < two64 -> 0 <= b < 256 -> 0 <= Z.lxor h b < two64.
Proof.
  intros Hh Hb.
  assert (Hnn : 0 <= Z.lxor h b) by (apply Z.lxor_nonneg; lia).
  split; [exact Hnn|].
  destruct (Z.eq_dec (Z.lxor h b) 0) as [->|Hz]; [reflexivity|].
  change two64 with (2 ^ 64). apply Z.log2_lt_pow2; [lia|].
  pose proof (Z.log2_lxor h b ltac:(lia) ltac:(lia)) as Hl.
  assert (Z.log2 h < 64).
  { destruct (Z.eq_dec h 0) as [->|]; [reflexivity|].
    apply Z.log2_lt_pow2; [lia|]. change (2 ^ 64) with two64. lia. }
  assert (Z.log2 b < 64).
  { destruct (Z.eq_dec b 0) as [->|]; [reflexivity|].
    apply Z.log2_lt_pow2; [lia|]. change (2 ^ 64) with two64. unfold two64. lia. }
  lia.
Qed.

Lemma mul_prime_inj x y :
  0 <= x < two64 -> 0 <= y < two64 ->
  wrapU64 (x * FNV_PRIME) = wrapU64 (y * FNV_PRIME) -> x = y.
Proof.
  unfold wrapU64. intros Hx Hy H.
  assert (Hinv : forall z, ((z * FNV_PRIME) mod two64 * FNV_PRIME_INV) mod two64
                           = z mod two64).
  { intros z. rewrite Z.mul_mod_idemp_l by discriminate.
    rewrite <- Z.mul_assoc, <- Z.mul_mod_idemp_r by discriminate.
    change ((FNV_PRIME * FNV_PRIME_INV) mod two64) with 1.
    now rewrite Z.mul_1_r. }
  pose proof (Hinv x) as Ex. pose proof (Hinv y) as Ey.
  rewrite H, Ey in Ex. rewrite !Z.mod_small in Ex by assumption. congruence.
Qed.

Lemma fnvStep_range h c : 0 <= fnvStep h c < two64.
Proof. apply wrapU64_range. Qed.

Lemma fnvStep_inj_seed h1 h2 c :
  0 <= h1 < two64 -> 0 <= h2 < two64 -> fnvStep h1 c = fnvStep h2 c -> h1 = h2.
Proof.
  intros H1 H2 H. unfold fnvStep in H.
  apply mul_prime_inj in H; try (apply lxor_range; [assumption | apply byte_range]).
  assert (E : Z.lxor (Z.lxor h1 (byte c)) (byte c) = Z.lxor (Z.lxor h2 (byte c)) (byte c))
    by now rewrite H.
  now rewrite !Z.lxor_assoc, Z.lxor_nilpotent, !Z.lxor_0_r in E.
Qed.

Lemma fnvStep_inj_byte h c1 c2 :
  0 <= h < two64 -> fnvStep h c1 = fnvStep h c2 -> c1 = c2.
Proof.
  intros Hh H. unfold fnvStep in H.
  apply mul_prime_inj in H; try (apply lxor_range; [assumption | apply byte_range]).
  apply byte_inj.
  assert (E : Z.lxor h (Z.lxor h (byte c1)) = Z.lxor h (Z.lxor h (byte c2)))
    by now rewrite H.
  now rewrite <- !Z.lxor_assoc, Z.lxor_nilpotent, !Z.lxor_0_l in E.
Qed.

Lemma fnv1a64_range s : forall h, 0 <= h < two64 -> 0 <= fnv1a64 s h < two64.
Proof.
  induction s as [|c s IH]; intros h Hh; simpl; [exact Hh|].
  apply IH, fnvStep_range.
Qed.

(** Hashing the same text is injective in the running state. *)
Lemma fnv1a64_inj_seed s :
  forall h1 h2, 0 <= h1 < two64 -> 0 <= h2 < two64 ->
    fnv1a64 s h1 = fnv1a64 s h2 -> h1 = h2.
Proof.
  induction s as [|c s IH]; intros h1 h2 H1 H2 H; simpl in H; [exact H|].
  apply IH in H; try apply fnvStep_range.
  now apply fnvStep_inj_seed in H.
Qed.

(** Chained calls hash the concatenation: nothing separates two fields. *)
Lemma fnv1a64_app a b h : fnv1a64 (a ++ b) h = fnv1a64 b (fnv1a64 a h).
Proof.
  revert h. induction a as [|c a IH]; intros h; [reflexivity|].
  rewrite append_cons. simpl. apply IH.
Qed.

Lemma unhex_hexDigit d : 0 <= d < 16 -> unhexDigit (hexDigit d) = d.
Proof.
  intros H. rewrite <- (Z2Nat.id d) at 2 by lia.
  assert (Hn : (Z.to_nat d < 16)%nat) by lia.
  unfold hexDigit. generalize dependent (Z.to_nat d). clear.
  intros n Hn. do 16 (destruct n as [|n]; [reflexivity|]). lia.
Qed.

Lemma hexDigits_inj n :
  forall v1 v2 acc1 acc2,
    0 <= v1 -> 0 <= v2 ->
    String.length acc1 = String.length acc2 ->
    hexDigits n v1 acc1 = hexDigits n v2 acc2 ->
    v1 mod 16 ^ Z.of_nat n = v2 mod 16 ^ Z.of_nat n /\ acc1 = acc2.
Proof.
  induction n as [|n IH]; intros v1 v2 acc1 acc2 H1 H2 Hl H.
  - simpl in *. rewrite !Z.mod_1_r. auto.
  - simpl hexDigits in H. apply IH in H; try (apply Z.div_pos; lia); [|simpl; lia].
    destruct H as [Hq Hacc]. injection Hacc as Hd ->. split; [|reflexivity].
    assert (Hm : v1 mod 16 = v2 mod 16).
    { rewrite <- (unhex_hexDigit (v1 mod 16)), <- (unhex_hexDigit (v2 mod 16))
        by (apply Z.mod_pos_bound; lia).
      now rewrite Hd. }
    rewrite Nat2Z.inj_succ, Z.pow_succ_r by lia.
    rewrite !Z.rem_mul_r by lia. lia.
Qed.

Lemma hex64_inj v1 v2 :
  0 <= v1 < two64 -> 0 <= v2 < two64 -> hex64 v1 = hex64 v2 -> v1 = v2.
Proof.
  intros H1 H2 H. apply hexDigits_inj in H; [|lia|lia|reflexivity].
  destruct H as [H _]. change (16 ^ Z.of_nat 16) with two64 in H.
  now rewrite !Z.mod_small in H by assumption.
Qed.

(** C8, counterexample.  The inputs differ (another path, another content)
    and everything else is identical, yet the two compilations get the same
    [config_hash]: path and content bytes are hashed back to back. *)
Lemma config_hash_collision :
  ("p.ls", fsA !! "p.ls") <> ("p.lsc", fsB !! "p.lsc")
  /\ is_Some (computeBuildConfigHash fsA ["p.ls"] "clang" "auto" false 12 "" "" "")
  /\ computeBuildConfigHash fsA ["p.ls"] "clang" "auto" false 12 "" "" ""
     = computeBuildConfigHash fsB ["p.lsc"] "clang" "auto" false 12 "" "" "".
Proof.
  split; [discriminate|]. split; [vm_compute; eauto | vm_compute; reflexivity].
Qed.

Lemma sourceStateLoop_bytes fs inputs : forall h,
  sourceStateLoop fs inputs h = (fun bytes => fnv1a64 bytes h) <$> sourceBytes fs inputs.
Proof.
  induction inputs as [|p ps IH]; intros h; [reflexivity|].
  cbn [sourceStateLoop sourceBytes]. destruct (readFile fs p) as [c|]; [|reflexivity].
  cbn [mbind option_bind]. rewrite IH.
  destruct (sourceBytes fs ps) as [rest|]; [|reflexivity].
  cbn. now rewrite !fnv1a64_app.
Qed.

Lemma sourceBytes_is_Some fs inputs :
  is_Some (sourceBytes fs inputs) <-> Forall (fun p => is_Some (fs !! p)) inputs.
Proof.
  induction inputs as [|p ps IH]; [split; [constructor | eauto]|].
  cbn [sourceBytes]. unfold readFile. rewrite Forall_cons, <- IH.
  destruct (fs !! p) as [c|]; cbn.
  - destruct (sourceBytes fs ps); cbn; split.
    + intros _. split; eauto.
    + eauto.
    + intros [? [=]].
    + intros [_ [? [=]]].
  - split; [intros [? [=]] | intros [[? [=]] _]].
Qed.

(** C8, amended.  [config_hash] is a function of the input paths and
    contents, compiler command, backend, max-speed flag, passes, target,
    sysroot and linker alone (so identical values give the identical hash):
    it is the hexadecimal form of the FNV-1a state after the bytes of the
    tag, the source hash and the seven fields, in this order and with
    nothing between them; the source hash is the hexadecimal form of the
    FNV-1a state after the path and the content of every input, in order
    and with nothing between them.  There is a hash exactly when every
    input can be read, and flipping the max-speed flag alone always changes
    it. *)
Theorem config_hash_deterministic :
  forall fs inputs cc backend maxSpeed passes target sysroot linker,
    computeBuildConfigHash fs inputs cc backend maxSpeed passes target sysroot linker
    = (fun src =>
         hex64 (fnv1a64 ("LineScript-compile-cache-v1" ++ src ++ cc ++ backend
                           ++ (if maxSpeed then "1" else "0") ++ to_string passes
                           ++ target ++ sysroot ++ linker) FNV_OFFSET))
      <$> computeSourceStateHash fs inputs
    /\ computeSourceStateHash fs inputs
       = (fun bytes => hex64 (fnv1a64 bytes FNV_OFFSET)) <$> sourceBytes fs inputs
    /\ (is_Some (computeBuildConfigHash fs inputs cc backend maxSpeed passes
                   target sysroot linker)
        <-> Forall (fun p => is_Some (fs !! p)) inputs)
    /\ match computeSourceStateHash fs inputs with
       | Some _ =>
         computeBuildConfigHash fs inputs cc backend true passes target sysroot linker
         <> computeBuildConfigHash fs inputs cc backend false passes target sysroot linker
       | None =>
         computeBuildConfigHash fs inputs cc backend maxSpeed passes target sysroot linker
         = None
       end.
Proof.
  intros fs inputs cc backend maxSpeed passes target sysroot linker.
  assert (Hsrc : computeSourceStateHash fs inputs
                 = (fun bytes => hex64 (fnv1a64 bytes FNV_OFFSET))
                     <$> sourceBytes fs inputs).
  { unfold computeSourceStateHash. rewrite sourceStateLoop_bytes.
    now destruct (sourceBytes fs inputs). }
  assert (Hdef : is_Some (computeBuildConfigHash fs inputs cc backend maxSpeed passes
                            target sysroot linker)
                 <-> Forall (fun p => is_Some (fs !! p)) inputs).
  { rewrite <- sourceBytes_is_Some. unfold computeBuildConfigHash. rewrite Hsrc.
    destruct (sourceBytes fs inputs); cbn; split; eauto; intros [? [=]]. }
  split; [|split; [exact Hsrc|split; [exact Hdef|]]];
    clear Hsrc Hdef; unfold computeBuildConfigHash;
    (destruct (computeSourceStateHash fs inputs) as [src|]; [|reflexivity]).
  - simpl. now rewrite !fnv1a64_app.
  - cbv zeta. intros H. apply (inj Some) in H.
    assert (R0 : 0 <= FNV_OFFSET < two64) by (unfold FNV_OFFSET, two64; lia).
    apply hex64_inj in H; try (repeat apply fnv1a64_range; exact R0).
    do 4 (apply fnv1a64_inj_seed in H;
          [| repeat apply fnv1a64_range; exact R0
           | repeat apply fnv1a64_range; exact R0]).
    change (fnv1a64 "1" ?h) with (fnvStep h "1"%char) in H.
    change (fnv1a64 "0" ?h) with (fnvStep h "0"%char) in H.
    apply fnvStep_inj_byte in H; [discriminate|].
    repeat apply fnv1a64_range; exact R0.
Qed.

End DriverFacts.

(** ** Type checker: overload resolution *)

Section OverloadFacts.
Import TypeCheck.














Lemma filter_all {A} (f : A -> bool) (xs : list A) :
  (forall x, In x xs -> f x = true) -> List.filter f xs = xs.
Proof.
  induction xs as [|x xs IH]; intros H; simpl; [reflexivity|].
  rewrite (H x) by now left. f_equal. apply IH. intros; apply H; now right.
Qed.


(** What the loop over the candidates leaves in [(bestCost, best,
    ambiguous)]. *)
Local Arguments scanCandidate : simpl never.


Lemma bind_inr {A B} (k : A -> M B) (m : M A) st b st2 :
  bind k m st = inr (b, st2) ->
  exists a st1, m st = inr (a, st1) /\ k a st1 = inr (b, st2).
Proof.
  unfold bind. destruct (m st) as [e|[a st1]]; [discriminate|]. eauto.
Qed.


End OverloadFacts.

Section OverloadExamples.
Import TypeCheck.


(** An [i32] argument widens to either candidate at cost 1: a tie. *)
Example resolveOverload_tie :
  resolveOverload false "area" [Ty.I32] areaState
  = inl "ambiguous overload for function 'area'".
Proof. reflexivity. Qed.

(** No candidate takes a string: nothing is resolved. *)
Example resolveOverload_none :
  resolveOverload false "area" [Ty.Str] areaState = inr (None, areaState).
Proof. reflexivity. Qed.

End OverloadExamples.

(** Peels the binds of a successful run. *)
Ltac inv_bind H :=
  repeat (unfold mbind, TypeCheck.M_bind in H;
          let a := fresh "a" in let st1 := fresh "st" in
          let H1 := fresh "H" in
          apply bind_inr in H as (a & st1 & H1 & H);
          lazymatch type of a with
          | prod _ _ => destruct a as [? ?]; cbv beta iota in H
          | _ => idtac
          end).

Section ShadowFacts.
Import TypeCheck.

Lemma req_inr su ok m st u st' :
  req su ok m st = inr (u, st') -> su = false -> ok = true /\ st' = st.
Proof.
  intros H ->. unfold req in H. destruct ok; [|discriminate].
  injection H as _ <-. now split.
Qed.









(** The same on three programs: a [declare] after the block that declared
    the name is fine, a [declare] of a parameter inside a loop is not. *)
Example declare_after_block_accepted :
  exists p, check false declareAfterBlock = inr (p, []).
Proof. vm_compute. eauto. Qed.

Example declare_twice_rejected :
  check false declareTwice = inl (alreadyDeclared "x").
Proof. vm_compute. reflexivity. Qed.

Example declare_param_rejected :
  check false declareParam = inl (alreadyDeclared "x").
Proof. vm_compute. reflexivity. Qed.

End ShadowFacts.

Section OwnedFacts.
Import TypeCheck.

Lemma ownedFreeFnForCtor_table e :
  ownedFreeFnForCtor e <> EmptyString ->
  exists f args a, e = ECall f args a /\ In f ownedCtors.
Proof.
  destruct e as [| | | | | |f args a]; try (intros H; now contradiction H).
  intros H. exists f, args, a. split; [reflexivity|].
  unfold ownedFreeFnForCtor in H. unfold ownedCtors.
  repeat match type of H with
  | context [String.eqb f ?c] =>
    destruct (String.eqb_spec f c) as [->|_]; [simpl; tauto|]
  end.
  simpl in H. now contradiction H.
Qed.

(** C2.  The owned-handle validation accepts an initializer only when it is
    a call to one of the built-in constructors; the constructor of a user
    class is none of them, and the program of scenario E is rejected with
    "declare owned requires constructor call that has a matching free
    function" (it type-checks once [owned] is dropped). *)
Theorem declare_owned_class_ctor_rejected :
  (forall n decl isConst free a v l ret_ d thr st s' l' st',
      stmt false (SLet n decl isConst true free a v) l ret_ d thr st
      = inr (s', l', st') ->
      exists f args an free',
        s' = SLet n decl isConst true free' (mkAnn Ty.I64 true) (ECall f args an)
        /\ In f ownedCtors /\ free' = ownedFreeFnForCtor (ECall f args an))
  /\ ownedFreeFnForCtor (eCall "P" [eInt 7]) = EmptyString
  /\ check false scenarioE = inl ownedNeedsCtor
  /\ (exists p, check false scenarioE_unowned = inr (p, [])).
Proof.
  split; [|split; [reflexivity | split; vm_compute; eauto]].
  intros n decl isConst free a v l ret_ d thr st s' l' st' Hrun.
  simpl in Hrun. inv_bind Hrun.
  match goal with
  | Hb : bind _ _ _ = inr _ |- _ => inv_bind Hb; injection Hb as <- <-
  end.
  injection Hrun as <- <- <-.
  repeat match goal with
  | Hreq : req false _ _ _ = inr _ |- _ =>
    apply req_inr in Hreq as [? ->]; [|reflexivity]
  end.
  match goal with
  | Hne : negb (String.eqb (ownedFreeFnForCtor ?e) _) = true |- _ =>
    apply negb_true_iff, String.eqb_neq, ownedFreeFnForCtor_table in Hne
      as (f & args & an & -> & Hin)
  end.
  match goal with
  | Hty : bool_decide (_ = Ty.I64) = true |- _ =>
    apply bool_decide_eq_true in Hty; rewrite Hty
  end.
  eauto 10.
Qed.

(** A built-in constructor is accepted, and its free function recorded. *)
Example declare_owned_array :
  exists p,
    check false
      [scriptFn [SLet "a" None false true EmptyString letAnn (eCall "array_new" [])]]
    = inr ([Fn.mk kScriptEntryName EmptyString false EmptyString false false []
              Ty.Void [] [p]], [])
    /\ match p with SLet _ _ _ _ free _ _ => free = "array_free" | _ => False end.
Proof. vm_compute. eexists. split; reflexivity. Qed.

End OwnedFacts.

Section EntryFacts.
Import EmitC.

Lemma scanEntry_fold p_ :
  forall s,
    fold_left scanEntry p_ s
    = mkEntryScan
        (match last (named "main" (entryCandidates p_)) with
         | Some f => Some f | None => mainEntry s end)
        (match last (named kScriptEntryName (entryCandidates p_)) with
         | Some f => Some f | None => scriptEntry s end)
        (match singleZeroArg s with
         | Some g => Some g | None => head (zeroArg (entryCandidates p_)) end)
        (zeroArgCount s + Z.of_nat (length (zeroArg (entryCandidates p_)))).
Proof.
  induction p_ as [|f p_ IH]; intros s.
  - simpl. destruct s as [m sc z c]; simpl. destruct z; f_equal; lia.
  - simpl fold_left. rewrite IH. clear IH.
    unfold scanEntry, entryCandidates, named, zeroArg. simpl List.filter.
    destruct (Fn.ex f || Fn.isCliFlag f); simpl; [reflexivity|].
    destruct (String.eqb (Fn.n f) "main"), (String.eqb (Fn.n f) kScriptEntryName),
      (isNil (Fn.p f)); simpl; rewrite ?last_cons;
      repeat match goal with
      | |- context [last ?l] => destruct (last l)
      end;
      destruct (singleZeroArg s); simpl; f_equal; lia.
Qed.

(** C7.  The entry is the function named [__linescript_script_main] if
    there is one, else the function named [main], else the only function
    without parameters, all taken among the functions the program defines
    (neither [extern] declarations nor command-line flag functions, which
    the loop skips; a program without them is searched as a whole); with no
    function without parameters the build stops with one message, with
    several of them with another.  The wrapper returns 0 for an entry of
    type [void] or [str] and the entry's value cast to [int] otherwise
    (through [ExitProcess] in the variant without a C library); an entry
    with parameters, which only [main] can be, is refused when the wrapper
    is written. *)
Theorem entry_selection_and_wrapper (p_ : Program) :
  let cands := entryCandidates p_ in
  selectEntry p_
  = match last (named kScriptEntryName cands) with
    | Some f => (Some f, EmptyString)
    | None =>
      match last (named "main" cands) with
      | Some f => (Some f, EmptyString)
      | None =>
        match zeroArg cands with
        | [] => (None, noEntryError)
        | [f] => (Some f, EmptyString)
        | _ :: _ :: _ => (None, ambiguousEntryError)
        end
      end
    end
  /\ (forallb (fun f => negb (Fn.ex f || Fn.isCliFlag f)) p_ = true -> cands = p_)
  /\ noEntryError <> ambiguousEntryError
  /\ (forall ultra flags entry,
         fst (selectEntry p_) = Some entry -> Fn.p entry <> [] ->
         entryWrapper ultra flags p_ = inl "entry function must have zero parameters")
  /\ (forall ultra flags,
         fst (selectEntry p_) = None ->
         entryWrapper ultra flags p_ = inl (snd (selectEntry p_)))
  /\ (forall flags entry,
         fst (selectEntry p_) = Some entry -> Fn.p entry = [] ->
         entryWrapper false flags p_
         = inr ("int main(void) {" ++ nl ++ flagCalls flags
                ++ wrapperReturn (Fn.ret entry) ++ "}" ++ nl)
         /\ entryWrapper true flags p_
            = inr ("void __stdcall mainCRTStartup(void) {" ++ nl ++ flagCalls flags
                   ++ wrapperExit (Fn.ret entry) ++ "}" ++ nl)).
Proof.
  intros cands. split; [|split; [|split; [discriminate|split; [|split]]]].
  - unfold selectEntry. rewrite scanEntry_fold.
    cbn [scriptEntry mainEntry singleZeroArg zeroArgCount]. fold cands.
    destruct (last (named kScriptEntryName cands)); [reflexivity|].
    destruct (last (named "main" cands)); [reflexivity|].
    destruct (zeroArg cands) as [|f [|g rest]]; try reflexivity.
    destruct (Z.eqb_spec (0 + Z.of_nat (length (f :: g :: rest))) 1) as [E|_];
      [simpl length in E; lia|].
    destruct (Z.eqb_spec (0 + Z.of_nat (length (f :: g :: rest))) 0) as [E|_];
      [simpl length in E; lia|].
    reflexivity.
  - intros Hall. unfold cands, entryCandidates. apply filter_all.
    intros f Hf. rewrite forallb_forall in Hall. now apply Hall.
  - intros ultra flags entry H Hp. unfold entryWrapper.
    destruct (selectEntry p_) as [[e|] msg]; [|discriminate].
    simpl in H. injection H as ->. unfold emitEntryWrapper.
    destruct (Fn.p entry); [contradiction | reflexivity].
  - intros ultra flags H. unfold entryWrapper.
    destruct (selectEntry p_) as [[e|] msg]; [discriminate | reflexivity].
  - intros flags entry H Hp. unfold entryWrapper.
    destruct (selectEntry p_) as [[e|] msg]; [|discriminate].
    simpl in H. injection H as ->. unfold emitEntryWrapper. rewrite Hp. simpl.
    destruct (Fn.ret entry); split; reflexivity.
Qed.

(** The three cases and the two failures on programs. *)
Example entry_script_first :
  fst (selectEntry [fnNamed "main" Ty.I64; fnNamed "helper" Ty.Void;
                    scriptFn []])
  = Some (scriptFn []).
Proof. reflexivity. Qed.

Example entry_main_second :
  fst (selectEntry [fnNamed "helper" Ty.Void; fnNamed "main" Ty.I64;
                    fnNamed "other" Ty.Void])
  = Some (fnNamed "main" Ty.I64).
Proof. reflexivity. Qed.

Example entry_sole_zero_arg :
  entryWrapper false [] [fnNamed "helper" Ty.I64]
  = inr ("int main(void) {" ++ nl ++ "  return (int)__linescript_main();" ++ nl
         ++ "}" ++ nl).
Proof. reflexivity. Qed.

Example entry_none :
  entryWrapper false [] [] = inl noEntryError.
Proof. reflexivity. Qed.

Example entry_ambiguous :
  entryWrapper false [] [fnNamed "a" Ty.Void; fnNamed "b" Ty.Void]
  = inl ambiguousEntryError.
Proof. reflexivity. Qed.

End EntryFacts.

Section ScenarioD.
Import Pipeline.

(** C1, counterexample.  The loop of scenario D, run round by round, leaves
    [acc = 20] and [state = 15], and the program compiled with the default
    number of passes prints 20 and 15, not 10 and 15. *)
Lemma scenarioD_prints_20_not_10 :
  (exists typed,
      TypeCheck.check false scenarioD = inr (typed, [])
      /\ Exec.stdout fuel typed = Some (lines ["20"; "15"]))
  /\ (exists p,
         compile fuel false defaultPasses scenarioD = Some (inr p)
         /\ Exec.stdout fuel p = Some (lines ["20"; "15"]))
  /\ lines ["20"; "15"] <> lines ["10"; "15"].
Proof.
  split; [|split].
  - eexists. split; [vm_compute; reflexivity|]. vm_compute. reflexivity.
  - eexists. split; [vm_compute; reflexivity|]. vm_compute. reflexivity.
  - discriminate.
Qed.

(** C1, with the values the program has.  For scenario D the type-checked
    program run round by round, the optimizer's pair-coupled reduction, the
    program after the default twelve passes and the emitter's closed form
    all agree: [acc = 20] and [state = 15], and standard output is the line
    20 followed by the line 15.  The reduction replaces the loop by
    [acc = acc + (state * 5 + 20); state = state + 15]. *)
Theorem scenarioD_pair_coupled :
  (exists typed,
      TypeCheck.check false scenarioD = inr ([scriptFn typed], [])
      /\ Exec.execBlock fuel typed ∅ EmptyString
         = Some (Exec.FNext,
                 {[ "acc" := Exec.VInt 20; "state" := Exec.VInt 15 ]},
                 lines ["20"; "15"])
      /\ match typed !! 2%nat with
         | Some (SFor n start stop step parallel body) =>
           Opt.forReplacement false typed 2 n start stop step parallel body
           = Some pairReplacement
         | _ => False
         end)
  /\ Exec.execBlock fuel pairReplacement
       {[ "acc" := Exec.VInt 0; "state" := Exec.VInt 0 ]} EmptyString
     = Some (Exec.FNext, {[ "acc" := Exec.VInt 20; "state" := Exec.VInt 15 ]},
             EmptyString)
  /\ (exists p,
         compile fuel false defaultPasses scenarioD = Some (inr [scriptFn p])
         /\ map (fun s => match s with
                          | SExpr (ECall f [EString v _] _) => (f, v)
                          | _ => (EmptyString, EmptyString)
                          end) p
            = [("println_str", "20"); ("println_str", "15")]
         /\ Exec.stdout fuel [scriptFn p] = Some (lines ["20"; "15"]))
  /\ EmitFor.pairCoupled 0 5 1 1 1 0 0 = (20, 15).
Proof.
  split; [|split; [|split]].
  - eexists. split; [vm_compute; reflexivity|].
    split; vm_compute; reflexivity.
  - vm_compute. reflexivity.
  - eexists. split; [vm_compute; reflexivity|].
    split; vm_compute; reflexivity.
  - vm_compute. reflexivity.
Qed.

End ScenarioD.

Section OptimizerDefects.
Import Pipeline.

(** C3.  Dead-store elimination runs at the end of [optBlock] on every
    block outside a loop, the branches of an [if] included, and looks for
    reads in that block only: an assignment with a call-free value that
    ends a branch is erased although the variable is read after the [if].
    The program [declare c = 1; declare x = 0; if c > 0 do x = 1 end;
    println(x)] prints 1 as type-checked and 0 as compiled. *)
Theorem dead_store_in_branch_changes_output :
  (forall n v,
      Opt.exprTrivialNoSideEffects v = true ->
      Opt.pruneDeadLocalStores [SAssign n v] = ([], true))
  /\ (exists typed,
         TypeCheck.check false deadStoreIf = inr (typed, [])
         /\ Exec.stdout fuel typed = Some (lines ["1"]))
  /\ (exists p,
         compile fuel false defaultPasses deadStoreIf = Some (inr p)
         /\ Exec.stdout fuel p = Some (lines ["0"])).
Proof.
  split; [|split].
  - intros n v Hv. unfold Opt.pruneDeadLocalStores. simpl. rewrite Hv. reflexivity.
  - eexists. split; [vm_compute; reflexivity|]. vm_compute. reflexivity.
  - eexists. split; [vm_compute; reflexivity|]. vm_compute. reflexivity.
Qed.

End OptimizerDefects.

Section TripCount.
Import Pipeline.

Lemma wrap64_id z : INT64_MIN <= z <= INT64_MAX -> wrap64 z = z.
Proof.
  unfold wrap64, INT64_MIN, INT64_MAX, two63, two64. intros H.
  rewrite Z.mod_small by lia. lia.
Qed.

Lemma inI64_range z : inI64 z = true -> INT64_MIN <= z <= INT64_MAX.
Proof. unfold inI64. intros H. apply andb_true_iff in H as [H1 H2]. lia. Qed.

Lemma ceilDiv_quot x y : 0 < x -> 0 < y -> Z.quot (x + y - 1) y = ceilDiv x y.
Proof.
  intros Hx Hy. rewrite Z.quot_div_nonneg by lia. unfold ceilDiv.
  pose proof (Z.div_mod (- x) y ltac:(lia)) as E.
  pose proof (Z.mod_pos_bound (- x) y Hy) as B.
  symmetry. apply Z.div_unique with (r := y - 1 - (- x) mod y); [lia|].
  lia.
Qed.

Lemma ceilDiv_bounds x y : 0 < x -> 0 < y -> 0 < ceilDiv x y <= x.
Proof.
  intros Hx Hy. rewrite <- ceilDiv_quot by assumption.
  rewrite Z.quot_div_nonneg by lia. split.
  - apply Z.div_str_pos. lia.
  - apply Z.div_le_upper_bound; [lia|]. nia.
Qed.

Lemma tripCount_in_range a b s :
  inI64 a = true -> inI64 b = true -> inI64 s = true -> spanFits a b s = true ->
  Opt.tripCount a b s = tripCountSpec a b s.
Proof.
  intros Ha Hb Hs Hfit.
  apply inI64_range in Ha, Hb, Hs.
  unfold Opt.tripCount, tripCountSpec, spanFits in *.
  destruct (Z.eqb_spec s 0) as [->|Hs0]; [reflexivity|].
  unfold INT64_MIN, INT64_MAX, two63 in *.
  destruct (Z.ltb_spec 0 s) as [Hpos|Hneg].
  - destruct (Z.leb_spec b a) as [Hle|Hlt]; [reflexivity|].
    simpl in Hfit. apply Z.leb_le in Hfit. f_equal.
    unfold div64, sub64, add64.
    rewrite (wrap64_id (b - a)) by (unfold INT64_MIN, INT64_MAX, two63; lia).
    rewrite (wrap64_id (b - a + s)) by (unfold INT64_MIN, INT64_MAX, two63; lia).
    rewrite (wrap64_id (b - a + s - 1)) by (unfold INT64_MIN, INT64_MAX, two63; lia).
    rewrite ceilDiv_quot by lia.
    pose proof (ceilDiv_bounds (b - a) s ltac:(lia) Hpos).
    apply wrap64_id. unfold INT64_MIN, INT64_MAX, two63. lia.
  - destruct (Z.ltb_spec s 0) as [Hn|Hn]; [|lia].
    destruct (Z.leb_spec a b) as [Hle|Hlt]; [reflexivity|].
    simpl in Hfit. apply Z.leb_le in Hfit. f_equal.
    unfold div64, sub64, add64, neg64.
    rewrite (wrap64_id (- s)) by (unfold INT64_MIN, INT64_MAX, two63; lia).
    rewrite (wrap64_id (a - b)) by (unfold INT64_MIN, INT64_MAX, two63; lia).
    rewrite (wrap64_id (a - b + - s)) by (unfold INT64_MIN, INT64_MAX, two63; lia).
    rewrite (wrap64_id (a - b + - s - 1)) by (unfold INT64_MIN, INT64_MAX, two63; lia).
    rewrite ceilDiv_quot by lia.
    pose proof (ceilDiv_bounds (a - b) (- s) ltac:(lia) ltac:(lia)).
    apply wrap64_id. unfold INT64_MIN, INT64_MAX, two63. lia.
Qed.

(** C6.  [tripCount] is the ceiling of the description, and undefined for
    a step of 0, as long as the sums it forms in [int64_t] stay in range,
    and a loop whose count is 0 is erased from its block.  When they do not
    stay in range the count is wrong: for [-9223372036854775807 ..
    9223372036854775807 step 3] it is 0 instead of 6148914691236517205
    (which the 128-bit [ls_trip_count_runtime] of the runtime gets right),
    and the optimizer erases a loop whose body runs. *)
Theorem tripCount_ceiling_unless_overflow :
  (forall a b s,
      inI64 a = true -> inI64 b = true -> inI64 s = true -> spanFits a b s = true ->
      Opt.tripCount a b s = tripCountSpec a b s)
  /\ (forall neg b i n start stop step parallel body st en sp,
         Opt.resolveLocalI64 b i start = Some st ->
         Opt.resolveLocalI64 b i stop = Some en ->
         Opt.resolveLocalI64 b i step = Some sp ->
         Opt.tripCount st en sp = Some 0 ->
         Opt.forReplacement neg b i n start stop step parallel body = Some []
         /\ Opt.splice b i [] = (take i b ++ drop (S i) b)%list)
  /\ Opt.tripCount (-9223372036854775807) 9223372036854775807 3 = Some 0
  /\ tripCountSpec (-9223372036854775807) 9223372036854775807 3
     = Some 6148914691236517205
  /\ EmitFor.ls_trip_count_runtime (-9223372036854775807) 9223372036854775807 3
     = 6148914691236517205
  /\ (exists typed,
         TypeCheck.check false hugeRange = inr (typed, [])
         /\ Exec.stdout fuel typed = Some (lines ["1"]))
  /\ (exists p,
         compile fuel false defaultPasses hugeRange = Some (inr p)
         /\ Exec.stdout fuel p = Some EmptyString).
Proof.
  split; [exact tripCount_in_range|].
  split.
  { intros neg b i n start stop step parallel body st en sp H1 H2 H3 H4.
    unfold Opt.forReplacement. rewrite H1, H2, H3, H4. split; reflexivity. }
  split; [vm_compute; reflexivity|].
  split; [vm_compute; reflexivity|].
  split; [vm_compute; reflexivity|].
  split.
  - eexists. split; [vm_compute; reflexivity|]. vm_compute. reflexivity.
  - eexists. split; [vm_compute; reflexivity|]. vm_compute. reflexivity.
Qed.

End TripCount.

Section GcdFuel.

Lemma gcdLoop_enough (k : nat) :
  forall fuel ua ub,
    0 <= ua -> 0 <= ub < 2 ^ Z.of_nat k -> (2 * k + 1 <= fuel)%nat ->
    Opt.gcdLoop fuel ua ub = Z.gcd ua ub.
Proof.
  induction k as [|k IH]; intros fuel ua ub Hua Hub Hfuel.
  - destruct fuel as [|fuel]; [lia|]. simpl in *.
    assert (ub = 0) as -> by lia. simpl.
    rewrite Z.gcd_0_r. lia.
  - destruct fuel as [|fuel]; [lia|]. simpl Opt.gcdLoop.
    destruct (Z.eqb_spec ub 0) as [->|Hnz]; [rewrite Z.gcd_0_r; lia|].
    pose proof (Z.mod_pos_bound ua ub ltac:(lia)) as Hr1.
    destruct fuel as [|fuel]; [lia|]. simpl Opt.gcdLoop.
    destruct (Z.eqb_spec (ua mod ub) 0) as [E|Hnz1].
    + rewrite (Z.gcd_comm ua ub), <- (Z.gcd_mod ua ub) by lia.
      rewrite E, Z.gcd_0_l. lia.
    + pose proof (Z.mod_pos_bound ub (ua mod ub) ltac:(lia)) as Hr2.
      rewrite IH; [| lia | | lia].
      * rewrite (Z.gcd_comm ua ub), <- (Z.gcd_mod ua ub) by lia.
        rewrite <- (Z.gcd_mod ub (ua mod ub)) by lia. apply Z.gcd_comm.
      * split; [lia|].
        pose proof (Z.div_mod ub (ua mod ub) ltac:(lia)) as E.
        assert (Hq : 1 <= ub / (ua mod ub)).
        { apply Z.div_le_lower_bound; lia. }
        rewrite Nat2Z.inj_succ, Z.pow_succ_r in Hub by lia.
        nia.
Qed.

(** The loop of [gcdSmallI64] has ended after [gcdFuel] rounds: it returns
    the greatest common divisor of two 64-bit operands. *)
Lemma gcdLoop_fuel ua ub :
  0 <= ua < two64 -> 0 <= ub < two64 ->
  Opt.gcdLoop Opt.gcdFuel ua ub = Z.gcd ua ub.
Proof.
  intros Ha Hb. apply (gcdLoop_enough 64); [lia | | unfold Opt.gcdFuel; lia].
  change (2 ^ Z.of_nat 64) with two64. exact Hb.
Qed.

Lemma gcdLoop_fuel_witness :
  (0 <= 12 < two64 /\ 0 <= 18 < two64)
  /\ Opt.gcdLoop Opt.gcdFuel 12 18 = Z.gcd 12 18.
Proof.
  assert (H12 : 0 <= 12 < two64) by (unfold two64; lia).
  assert (H18 : 0 <= 18 < two64) by (unfold two64; lia).
  split; [split; assumption|]. exact (gcdLoop_fuel 12 18 H12 H18).
Defined.

End GcdFuel.

Section RuntimeTripCount.

Lemma wrap128_id z : - two127 <= z < two127 -> wrap128 z = z.
Proof.
  unfold wrap128, two127, two128. intros H.
  rewrite Z.mod_small by lia. lia.
Qed.

(** The runtime's [ls_trip_count_runtime] computes in 128 bits and is the
    count of the description on every range of [int64_t] values whose count
    fits [int64_t] (the step [INT64_MIN], whose negation does not exist,
    apart). *)
Lemma ls_trip_count_runtime_spec a b s n :
  inI64 a = true -> inI64 b = true -> inI64 s = true -> INT64_MIN < s ->
  tripCountSpec a b s = Some n -> n <= INT64_MAX ->
  EmitFor.ls_trip_count_runtime a b s = n.
Proof.
  intros Ha Hb Hs Hmin Hspec Hn.
  apply inI64_range in Ha, Hb, Hs.
  unfold EmitFor.ls_trip_count_runtime, tripCountSpec in *.
  unfold INT64_MIN, INT64_MAX, two63 in *.
  destruct (Z.eqb_spec s 0) as [->|Hs0]; [discriminate|].
  destruct (Z.ltb_spec 0 s) as [Hpos|Hneg].
  - injection Hspec as <-.
    destruct (Z.leb_spec b a) as [Hle|Hlt]; [reflexivity|].
    unfold div128, sub128, add128.
    rewrite (wrap128_id (b - a)) by (unfold two127; lia).
    rewrite (wrap128_id (b - a + s)) by (unfold two127; lia).
    rewrite (wrap128_id (b - a + s - 1)) by (unfold two127; lia).
    rewrite ceilDiv_quot by lia.
    pose proof (ceilDiv_bounds (b - a) s ltac:(lia) Hpos).
    rewrite wrap128_id by (unfold two127; lia).
    apply wrap64_id. unfold INT64_MIN, INT64_MAX, two63.
    destruct (Z.leb_spec b a); lia.
  - destruct (Z.ltb_spec s 0) as [Hn0|Hn0]; [|lia].
    injection Hspec as <-.
    destruct (Z.leb_spec a b) as [Hle|Hlt]; [reflexivity|].
    unfold div128, sub128, add128, neg64.
    rewrite (wrap64_id (- s)) by (unfold INT64_MIN, INT64_MAX, two63; lia).
    rewrite (wrap128_id (a - b)) by (unfold two127; lia).
    rewrite (wrap128_id (a - b + - s)) by (unfold two127; lia).
    rewrite (wrap128_id (a - b + - s - 1)) by (unfold two127; lia).
    rewrite ceilDiv_quot by lia.
    pose proof (ceilDiv_bounds (a - b) (- s) ltac:(lia) ltac:(lia)).
    rewrite wrap128_id by (unfold two127; lia).
    apply wrap64_id. unfold INT64_MIN, INT64_MAX, two63.
    destruct (Z.leb_spec a b); lia.
Qed.

Lemma ls_trip_count_runtime_spec_witness :
  EmitFor.ls_trip_count_runtime 0 10 3 = 4.
Proof.
  apply (ls_trip_count_runtime_spec 0 10 3 4); reflexivity || (vm_compute; congruence).
Defined.

End RuntimeTripCount.

Section ClosedFormFacts.

Lemma checkedI128ToI64_some v r :
  Opt.checkedI128ToI64 v = Some r -> r = v /\ I64val v.
Proof.
  unfold Opt.checkedI128ToI64, I64val.
  destruct (Z.ltb_spec v INT64_MIN); [discriminate|].
  destruct (Z.ltb_spec INT64_MAX v); [discriminate|].
  intros [= <-]. lia.
Qed.

Lemma mul128_exact a b : I64val a -> I64val b -> mul128 a b = a * b.
Proof.
  unfold I64val, INT64_MIN, INT64_MAX, two63. intros Ha Hb.
  apply wrap128_id. unfold two127. nia.
Qed.

Lemma add128_exact a b : I64val a -> I64val b -> add128 a b = a + b.
Proof.
  unfold I64val, INT64_MIN, INT64_MAX, two63. intros Ha Hb.
  apply wrap128_id. unfold two127. lia.
Qed.

Lemma checkedMulI64_some a b r :
  I64val a -> I64val b -> Opt.checkedMulI64 a b = Some r -> r = a * b /\ I64val r.
Proof.
  intros Ha Hb H. unfold Opt.checkedMulI64 in H. rewrite mul128_exact in H by assumption.
  apply checkedI128ToI64_some in H as [-> H]. auto.
Qed.

Lemma checkedAddI64_some a b r :
  I64val a -> I64val b -> Opt.checkedAddI64 a b = Some r -> r = a + b /\ I64val r.
Proof.
  intros Ha Hb H. unfold Opt.checkedAddI64 in H. rewrite add128_exact in H by assumption.
  apply checkedI128ToI64_some in H as [-> H]. auto.
Qed.

Lemma absU64I64_abs v : I64val v -> Opt.absU64I64 v = Z.abs v.
Proof.
  unfold I64val, INT64_MIN, INT64_MAX, two63, Opt.absU64I64. intros H.
  destruct (Z.ltb_spec v 0).
  - unfold add64, neg64. rewrite (wrap64_id (v + 1)) by (unfold INT64_MIN, INT64_MAX, two63; lia).
    rewrite (wrap64_id (- (v + 1))) by (unfold INT64_MIN, INT64_MAX, two63; lia).
    unfold wrapU64, two64. rewrite (Z.mod_small (- (v + 1))) by lia.
    rewrite Z.mod_small by lia. lia.
  - unfold wrapU64, two64. rewrite Z.mod_small by lia. lia.
Qed.

Lemma gcdSmallI64_gcd x den :
  I64val x -> 0 < den <= 6 -> Opt.gcdSmallI64 x den = Z.gcd x den.
Proof.
  intros Hx Hd. unfold Opt.gcdSmallI64.
  rewrite (absU64I64_abs x Hx).
  rewrite (absU64I64_abs den) by (unfold I64val, INT64_MIN, INT64_MAX, two63; lia).
  assert (Hr : I64val x) by exact Hx.
  unfold I64val, INT64_MIN, INT64_MAX, two63 in Hx.
  rewrite (gcdLoop_enough 64 Opt.gcdFuel);
    [| lia | change (2 ^ Z.of_nat 64) with two64; unfold two64; lia
     | unfold Opt.gcdFuel; lia].
  rewrite Z.gcd_abs_l, Z.gcd_abs_r.
  assert (0 <= Z.gcd x den <= den).
  { split; [apply Z.gcd_nonneg|]. apply Z.divide_pos_le; [lia | apply Z.gcd_divide_r]. }
  apply wrap64_id. unfold INT64_MIN, INT64_MAX, two63. lia.
Qed.

Lemma quot_exact x g : 0 < g -> (g | x) -> g * Z.quot x g = x.
Proof.
  intros Hg [k ->]. rewrite Z.quot_mul by lia. lia.
Qed.

Lemma reduceDivisor_spec x den x' den' :
  I64val x -> 1 <= den <= 6 -> Opt.reduceDivisor x den = (x', den') ->
  x' * den = x * den' /\ 1 <= den' <= den /\ I64val x'.
Proof.
  intros Hx Hd. unfold Opt.reduceDivisor.
  destruct (Z.leb_spec den 1) as [H1|H1];
    [intros [= <- <-]; split; [lia|split; [lia|assumption]]|].
  rewrite gcdSmallI64_gcd by (assumption || lia).
  pose proof (Z.gcd_divide_l x den) as Dx.
  pose proof (Z.gcd_divide_r x den) as Dd.
  pose proof (Z.gcd_nonneg x den) as Hn.
  destruct (Z.ltb_spec 1 (Z.gcd x den)) as [Hg|Hg];
    [|intros [= <- <-]; split; [lia|split; [lia|assumption]]].
  set (g := Z.gcd x den) in *.
  pose proof (quot_exact x g ltac:(lia) Dx) as Ex.
  pose proof (quot_exact den g ltac:(lia) Dd) as Ed.
  unfold I64val, INT64_MIN, INT64_MAX, two63 in Hx.
  assert (Hqx : Z.abs (Z.quot x g) <= Z.abs x) by nia.
  assert (Hqd : 1 <= Z.quot den g <= den) by nia.
  unfold div64.
  rewrite (wrap64_id (Z.quot x g)) by (unfold INT64_MIN, INT64_MAX, two63; lia).
  rewrite (wrap64_id (Z.quot den g)) by (unfold INT64_MIN, INT64_MAX, two63; lia).
  intros [= <- <-]. split; [nia|]. split; [lia|].
  unfold I64val, INT64_MIN, INT64_MAX, two63. lia.
Qed.

Lemma mul2Div2ExactI64_some a b v :
  I64val a -> I64val b -> Opt.mul2Div2ExactI64 a b = Some v -> 2 * v = a * b /\ I64val v.
Proof.
  intros Ha Hb. unfold Opt.mul2Div2ExactI64.
  destruct (Opt.reduceDivisor a 2) as [x d1] eqn:E1.
  apply reduceDivisor_spec in E1 as (Ex & Hd1 & Hx); [|assumption|lia].
  destruct (Opt.reduceDivisor b d1) as [y d2] eqn:E2.
  apply reduceDivisor_spec in E2 as (Ey & Hd2 & Hy); [|assumption|lia].
  destruct (Z.eqb_spec d2 1) as [->|]; [|discriminate]. simpl.
  intros H. apply checkedMulI64_some in H as [-> Hv]; [|assumption..].
  split; [|exact Hv].
  assert (Eb : b = y * d1) by lia.
  rewrite Eb.
  replace (a * (y * d1)) with (a * d1 * y) by ring.
  rewrite <- Ex. ring.
Qed.

Lemma mul3Div6ExactI64_some a b c v :
  I64val a -> I64val b -> I64val c -> Opt.mul3Div6ExactI64 a b c = Some v ->
  6 * v = a * b * c /\ I64val v.
Proof.
  intros Ha Hb Hc. unfold Opt.mul3Div6ExactI64.
  destruct (Opt.reduceDivisor a 6) as [x d1] eqn:E1.
  apply reduceDivisor_spec in E1 as (Ex & Hd1 & Hx); [|assumption|lia].
  destruct (Opt.reduceDivisor b d1) as [y d2] eqn:E2.
  apply reduceDivisor_spec in E2 as (Ey & Hd2 & Hy); [|assumption|lia].
  destruct (Opt.reduceDivisor c d2) as [z d3] eqn:E3.
  apply reduceDivisor_spec in E3 as (Ez & Hd3 & Hz); [|assumption|lia].
  destruct (Z.eqb_spec d3 1) as [->|]; [|discriminate]. simpl.
  destruct (Opt.checkedMulI64 x y) as [xy|] eqn:Exy; [|discriminate]. simpl.
  apply checkedMulI64_some in Exy as [-> Hxy]; [|assumption..].
  intros H. apply checkedMulI64_some in H as [-> Hv]; [|assumption..].
  split; [|exact Hv].
  assert (Ec : c = z * d2) by lia.
  rewrite Ec.
  replace (a * b * (z * d2)) with (a * z * (b * d2)) by ring.
  rewrite <- Ey.
  replace (a * z * (y * d1)) with (a * d1 * y * z) by ring.
  rewrite <- Ex. ring.
Qed.

Lemma arithmeticSeriesSumI64_some count start step v :
  I64val count -> I64val start -> I64val step -> 0 < count ->
  Opt.arithmeticSeriesSumI64 count start step = Some v ->
  2 * v = count * (2 * start + (count - 1) * step) /\ I64val v.
Proof.
  intros Hc Hs Hp Hpos. unfold Opt.arithmeticSeriesSumI64.
  destruct (Z.leb_spec count 0); [lia|].
  assert (H1 : I64val (-1)) by (unfold I64val, INT64_MIN, INT64_MAX, two63; lia).
  assert (H2 : I64val 2) by (unfold I64val, INT64_MIN, INT64_MAX, two63; lia).
  destruct (Opt.checkedAddI64 count (-1)) as [n1|] eqn:E1; [|discriminate]. simpl.
  apply checkedAddI64_some in E1 as [-> Hn1]; [|assumption..].
  destruct (Opt.checkedMulI64 (count + -1) step) as [span|] eqn:E2; [|discriminate]. simpl.
  apply checkedMulI64_some in E2 as [-> Hspan]; [|assumption..].
  destruct (Opt.checkedMulI64 2 start) as [ts|] eqn:E3; [|discriminate]. simpl.
  apply checkedMulI64_some in E3 as [-> Hts]; [|assumption..].
  destruct (Opt.checkedAddI64 (2 * start) ((count + -1) * step)) as [term|] eqn:E4;
    [|discriminate]. simpl.
  apply checkedAddI64_some in E4 as [-> Hterm]; [|assumption..].
  intros Hm. apply mul2Div2ExactI64_some in Hm as [Hm Hv]; [|assumption..].
  split; [|exact Hv]. rewrite Hm. ring.
Qed.

(** The affine term at round [k], the sum of the first [n] terms and the sum
    of the first [n] such sums. *)
Lemma sumAffine_closed n a b st sp :
  2 * sumAffine n a b st sp
  = a * (Z.of_nat n * (2 * st + (Z.of_nat n - 1) * sp)) + 2 * b * Z.of_nat n.
Proof.
  induction n as [|n IH]; [simpl; ring|].
  cbn [sumAffine]. rewrite Z.mul_add_distr_l, IH. unfold affineAt.
  rewrite Nat2Z.inj_succ. ring.
Qed.

Lemma sumPrefix_closed n a b st sp :
  6 * sumPrefix n a b st sp
  = 3 * (a * st + b) * (Z.of_nat n * (Z.of_nat n - 1))
    + a * sp * (Z.of_nat n * (Z.of_nat n - 1) * (Z.of_nat n - 2)).
Proof.
  induction n as [|n IH]; [simpl; ring|].
  cbn [sumPrefix]. rewrite Z.mul_add_distr_l, IH.
  replace (6 * sumAffine n a b st sp) with (3 * (2 * sumAffine n a b st sp)) by ring.
  rewrite sumAffine_closed. rewrite Nat2Z.inj_succ. ring.
Qed.

Lemma accFirstRounds_closed n a b st sp acc state :
  accFirstRounds n a b st sp acc state
  = (acc + Z.of_nat n * state + sumPrefix n a b st sp,
     state + sumAffine n a b st sp).
Proof.
  induction n as [|n IH]; [simpl; f_equal; ring|].
  cbn [accFirstRounds sumPrefix sumAffine]. rewrite IH.
  rewrite Nat2Z.inj_succ. f_equal; ring.
Qed.

Local Arguments Opt.checkedMulI64 : simpl never.
Local Arguments Opt.checkedAddI64 : simpl never.
Local Arguments Opt.mul2Div2ExactI64 : simpl never.
Local Arguments Opt.mul3Div6ExactI64 : simpl never.
Local Arguments Opt.arithmeticSeriesSumI64 : simpl never.
Local Arguments Opt.affineI64ConstExpr : simpl never.
Local Arguments sumPrefix : simpl never.
Local Arguments sumAffine : simpl never.

(** Exactness of the pair-coupled closed form, accumulator first.  Whenever
    [tryFoldPair] produces a replacement for the body
    [acc = acc + state; state = state + (a * i + b)], its two constants are
    the sums the loop itself accumulates over [tc] rounds
    ([accFirstRounds_closed]): [acc] gains [tc * state + sumPrefix] and
    [state] gains [sumAffine].  The checked 128-bit arithmetic only ever
    refuses; it never yields a wrapped constant. *)
Theorem tryFoldPair_exact neg tc st sp loopVar accVar stateVar accAnn stateOther a b rep :
  I64val tc -> I64val st -> I64val sp -> 0 < tc ->
  Opt.affineI64ConstExpr neg stateOther loopVar = Some (a, b) -> I64val a -> I64val b ->
  Opt.tryFoldPair neg tc st sp loopVar (accVar, EVar stateVar accAnn) (stateVar, stateOther)
  = Some rep ->
  rep = [ SAssign accVar
            (plus (eVar accVar)
               (plus (eBin BK.Mul (eVar stateVar) (eInt tc))
                     (eInt (sumPrefix (Z.to_nat tc) a b st sp))));
          Opt.plusLit stateVar (sumAffine (Z.to_nat tc) a b st sp) ].
Proof.
  intros Htc Hst Hsp Hpos Haff Ha Hb. unfold Opt.tryFoldPair.
  destruct (negb (Opt.isVarNamed (EVar stateVar accAnn) stateVar)); [discriminate|].
  destruct (Opt.exprHasVarName stateOther accVar); [discriminate|].
  destruct (Opt.exprHasVarName stateOther stateVar); [discriminate|].
  rewrite Haff. simpl.
  assert (H1 : I64val (-1)) by (unfold I64val, INT64_MIN, INT64_MAX, two63; lia).
  assert (H2 : I64val (-2)) by (unfold I64val, INT64_MIN, INT64_MAX, two63; lia).
  destruct (Opt.arithmeticSeriesSumI64 tc st sp) as [sumI|] eqn:E1;
    [|simpl; intros Hx; discriminate Hx]. simpl.
  apply arithmeticSeriesSumI64_some in E1 as [EsumI HsumI]; [|assumption..].
  destruct (Opt.checkedMulI64 a sumI) as [dY1|] eqn:E2;
    [|simpl; intros Hx; discriminate Hx]. simpl.
  apply checkedMulI64_some in E2 as [-> HdY1]; [|assumption..].
  destruct (Opt.checkedMulI64 b tc) as [dY2|] eqn:E3;
    [|simpl; intros Hx; discriminate Hx]. simpl.
  apply checkedMulI64_some in E3 as [-> HdY2]; [|assumption..].
  destruct (Opt.checkedAddI64 (a * sumI) (b * tc)) as [deltaY|] eqn:E4;
    [|simpl; intros Hx; discriminate Hx].
  apply checkedAddI64_some in E4 as [-> HdY]; [|assumption..].
  destruct (Opt.checkedMulI64 a st) as [aStart|] eqn:E9;
    [|simpl; intros Hx; discriminate Hx]. simpl.
  apply checkedMulI64_some in E9 as [-> HaS]; [|assumption..].
  destruct (Opt.checkedAddI64 (a * st) b) as [c0|] eqn:E10;
    [|simpl; intros Hx; discriminate Hx]. simpl.
  apply checkedAddI64_some in E10 as [-> Hc0]; [|assumption..].
  destruct (Opt.checkedAddI64 tc (-1)) as [n1|] eqn:E5;
    [|simpl; intros Hx; discriminate Hx]. simpl.
  apply checkedAddI64_some in E5 as [-> Hn1]; [|assumption..].
  destruct (Opt.mul2Div2ExactI64 tc (tc + -1)) as [k1|] eqn:E7;
    [|simpl; intros Hx; discriminate Hx]. simpl.
  apply mul2Div2ExactI64_some in E7 as [Ek1 Hk1]; [|assumption..].
  destruct (Opt.checkedMulI64 (a * st + b) k1) as [gw0|] eqn:E12;
    [|simpl; intros Hx; discriminate Hx]. simpl.
  apply checkedMulI64_some in E12 as [-> Hgw0]; [|assumption..].
  destruct (Opt.checkedMulI64 a sp) as [c1|] eqn:E11;
    [|simpl; intros Hx; discriminate Hx]. simpl.
  apply checkedMulI64_some in E11 as [-> Hc1]; [|assumption..].
  destruct (Opt.checkedAddI64 tc (-2)) as [n2|] eqn:E6;
    [|simpl; intros Hx; discriminate Hx]. simpl.
  apply checkedAddI64_some in E6 as [-> Hn2]; [|assumption..].
  destruct (Opt.mul3Div6ExactI64 tc (tc + -1) (tc + -2)) as [k2|] eqn:E8;
    [|simpl; intros Hx; discriminate Hx]. simpl.
  apply mul3Div6ExactI64_some in E8 as [Ek2 Hk2]; [|assumption..].
  destruct (Opt.checkedMulI64 (a * sp) k2) as [gw1|] eqn:E13;
    [|simpl; intros Hx; discriminate Hx]. simpl.
  apply checkedMulI64_some in E13 as [-> Hgw1]; [|assumption..].
  destruct (Opt.checkedAddI64 ((a * st + b) * k1) (a * sp * k2)) as [gw|] eqn:E14;
    [|simpl; intros Hx; discriminate Hx].
  apply checkedAddI64_some in E14 as [-> Hgw]; [|assumption..].
  intros [= <-].
  assert (EN : Z.of_nat (Z.to_nat tc) = tc) by lia.
  assert (Egw : (a * st + b) * k1 + a * sp * k2 = sumPrefix (Z.to_nat tc) a b st sp).
  { apply (Z.mul_reg_l _ _ 6); [lia|]. rewrite sumPrefix_closed, EN.
    replace (6 * ((a * st + b) * k1 + a * sp * k2))
      with (3 * (a * st + b) * (2 * k1) + a * sp * (6 * k2)) by ring.
    rewrite Ek1, Ek2. ring. }
  assert (EdY : a * sumI + b * tc = sumAffine (Z.to_nat tc) a b st sp).
  { apply (Z.mul_reg_l _ _ 2); [lia|]. rewrite sumAffine_closed, EN.
    replace (2 * (a * sumI + b * tc)) with (a * (2 * sumI) + 2 * b * tc) by ring.
    rewrite EsumI. ring. }
  rewrite Egw, EdY. reflexivity.
Qed.

Example tryFoldPair_exact_witness :
  exists rep,
    Opt.tryFoldPair false 5 0 1 "i" ("acc", eVar "state") ("state", eVar "i") = Some rep /\
    rep = [ SAssign "acc"
              (plus (eVar "acc")
                 (plus (eBin BK.Mul (eVar "state") (eInt 5))
                       (eInt (sumPrefix (Z.to_nat 5) 1 0 0 1))));
            Opt.plusLit "state" (sumAffine (Z.to_nat 5) 1 0 0 1) ].
Proof.
  eexists. split; [vm_compute; reflexivity|].
  apply (tryFoldPair_exact false 5 0 1 "i" "acc" "state" noAnn (eVar "i") 1 0);
    try (unfold I64val, INT64_MIN, INT64_MAX, two63; lia);
    vm_compute; reflexivity.
Defined.

End ClosedFormFacts.

Section EmitLitFacts.
Import Lexer EmitLit.

Lemma cStrLitLoop_app v : forall out,
  cStrLitLoop v out = out ++ cStrLitLoop v EmptyString.
Proof.
  induction v as [|c v IH]; intros out; simpl.
  - now rewrite append_nil_r.
  - rewrite IH, (IH (EmptyString ++ cStrLitChar c)), append_nil_l.
    now rewrite append_assoc'.
Qed.

(** The body of a literal written by [cStrLit] is well formed in the sense
    of the lexer, and stands for the text it was written from. *)
Lemma cStrLit_body v : LiteralBody (cStrLitLoop v EmptyString) v.
Proof.
  induction v as [|c v IH]; [constructor|].
  simpl. rewrite cStrLitLoop_app, append_nil_l. unfold cStrLitChar.
  destruct (Ascii.eqb_spec c chBACKSLASH) as [->|Hb].
  { unfold str1. rewrite !append_cons, append_nil_l.
    apply (BodyEscape chBACKSLASH chBACKSLASH); [simpl; tauto | exact IH]. }
  destruct (Ascii.eqb_spec c chQUOTE) as [->|Hq].
  { unfold str1. rewrite !append_cons, append_nil_l.
    apply (BodyEscape chQUOTE chQUOTE); [simpl; tauto | exact IH]. }
  destruct (Ascii.eqb_spec c chLF) as [->|Hn].
  { unfold str1. rewrite !append_cons, append_nil_l.
    apply (BodyEscape "n"%char chLF); [simpl; tauto | exact IH]. }
  destruct (Ascii.eqb_spec c chCR) as [->|Hr].
  { unfold str1. rewrite !append_cons, append_nil_l.
    apply (BodyEscape "r"%char chCR); [simpl; tauto | exact IH]. }
  destruct (Ascii.eqb_spec c chTAB) as [->|Ht].
  { unfold str1. rewrite !append_cons, append_nil_l.
    apply (BodyEscape "t"%char chTAB); [simpl; tauto | exact IH]. }
  unfold str1. rewrite append_cons, append_nil_l.
  now constructor.
Qed.

(** The literal the emitter writes for a text is read back by the lexer's
    [readString] as that text, whatever the text (quotes, backslashes, line
    breaks, any byte) and whatever follows the literal; the cursor is left
    right after the closing quote. *)
Theorem readString_cStrLit :
  forall (v tail : string) (ln cl : Z),
  exists lx',
    readString (mkLexer (cStrLit v ++ tail) ln cl)
    = inr (mkToken Str v (mkSpan ln cl), lx')
    /\ rest lx' = tail.
Proof.
  intros v tail ln cl. unfold cStrLit.
  rewrite cStrLitLoop_app. unfold str1 at 1.
  rewrite append_cons, append_nil_l, append_cons.
  unfold readString, adv. simpl rest. cbv iota. simpl line_. simpl col_.
  destruct (advPos chQUOTE ln cl) as [ln1 cl1] eqn:E1. simpl.
  rewrite append_assoc'.
  match goal with
  | |- context [readStringLoop _ _ ?a ?b _] =>
    destruct (readStringLoop_body (mkSpan ln cl) _ _ (cStrLit_body v)
                (str1 chQUOTE ++ tail) a b EmptyString) as (ln' & cl' & ->)
  end.
  unfold str1. rewrite append_cons, append_nil_l. simpl.
  destruct (advPos chQUOTE ln' cl') as [ln2 cl2].
  eexists. split; reflexivity.
Qed.

End EmitLitFacts.

Section HexFacts.
Import Driver.

Lemma unhexFrom_app a b acc : unhexFrom (a ++ b) acc = unhexFrom b (unhexFrom a acc).
Proof.
  unfold unhexFrom. revert acc.
  induction a as [|c a IH]; intros acc; [reflexivity|].
  rewrite append_cons. simpl. apply IH.
Qed.

Lemma hexDigits_length n : forall v acc,
  String.length (hexDigits n v acc) = (n + String.length acc)%nat.
Proof.
  induction n as [|n IH]; intros v acc; simpl; [reflexivity|].
  rewrite IH. simpl. lia.
Qed.

Lemma hexDigits_acc n : forall v acc,
  hexDigits n v acc = hexDigits n v EmptyString ++ acc.
Proof.
  induction n as [|n IH]; intros v acc; simpl; [reflexivity|].
  rewrite IH, (IH _ (String _ EmptyString)), append_assoc'. reflexivity.
Qed.

Lemma unhex_hexDigits n : forall v,
  unhexFrom (hexDigits n v EmptyString) 0 = v mod 16 ^ Z.of_nat n.
Proof.
  induction n as [|n IH]; intros v.
  - simpl. now rewrite Z.mod_1_r.
  - simpl hexDigits. rewrite hexDigits_acc, unhexFrom_app, IH.
    unfold unhexFrom. simpl.
    rewrite unhex_hexDigit by (apply Z.mod_pos_bound; lia).
    rewrite Nat2Z.inj_succ, Z.pow_succ_r by lia.
    assert (H : 0 < 16 ^ Z.of_nat n) by (apply Z.pow_pos_nonneg; lia).
    rewrite Z.rem_mul_r by lia. lia.
Qed.

(** [hex64] always writes sixteen characters, and reading them back as a
    hexadecimal number gives the value as a [uint64_t]. *)
Theorem hex64_round_trip :
  forall v : Z, String.length (hex64 v) = 16%nat /\ unhex (hex64 v) = wrapU64 v.
Proof.
  intros v. unfold hex64. split.
  - now rewrite hexDigits_length.
  - unfold unhex. now rewrite unhex_hexDigits.
Qed.

End HexFacts.

Section SourceHashFacts.
Import Driver.

Lemma sourceStateLoop_app fs xs : forall ys h,
  sourceStateLoop fs (xs ++ ys)%list h
  = match sourceStateLoop fs xs h with
    | Some h' => sourceStateLoop fs ys h'
    | None => None
    end.
Proof.
  induction xs as [|x xs IH]; intros ys h; simpl; [reflexivity|].
  destruct (readFile fs x); [apply IH | reflexivity].
Qed.

(** Files that are not touched are hashed as before. *)
Lemma sourceStateLoop_insert fs p c ps :
  p ∉ ps -> forall h,
  sourceStateLoop (<[p := c]> fs) ps h = sourceStateLoop fs ps h.
Proof.
  induction ps as [|q ps IH]; intros Hp h; simpl; [reflexivity|].
  apply not_elem_of_cons in Hp as [Hq Hps].
  unfold readFile. rewrite lookup_insert_ne by congruence.
  destruct (fs !! q); [now apply IH | reflexivity].
Qed.

Lemma sourceStateLoop_range fs ps : forall h r,
  0 <= h < two64 -> sourceStateLoop fs ps h = Some r -> 0 <= r < two64.
Proof.
  induction ps as [|q ps IH]; intros h r Hh; simpl.
  - now intros [= <-].
  - destruct (readFile fs q); [|discriminate].
    apply IH. now repeat apply fnv1a64_range.
Qed.

(** The rest of the inputs cannot bring two different states together. *)
Lemma sourceStateLoop_inj fs ps : forall h1 h2 r,
  0 <= h1 < two64 -> 0 <= h2 < two64 -> h1 <> h2 ->
  sourceStateLoop fs ps h1 = Some r ->
  exists r', sourceStateLoop fs ps h2 = Some r' /\ r' <> r.
Proof.
  induction ps as [|q ps IH]; intros h1 h2 r H1 H2 Hne; simpl.
  - intros [= <-]. eauto.
  - destruct (readFile fs q) as [c|]; [|discriminate].
    apply IH; try (now repeat apply fnv1a64_range).
    intros E. apply fnv1a64_inj_seed in E; try (now apply fnv1a64_range).
    apply fnv1a64_inj_seed in E; auto.
Qed.

(** Replacing one byte of a text changes its hash, whatever the state the
    text is hashed from. *)
Lemma fnv1a64_byte_edit a x y b h :
  0 <= h < two64 -> x <> y ->
  fnv1a64 (a ++ String x b) h <> fnv1a64 (a ++ String y b) h.
Proof.
  intros Hh Hxy. rewrite !fnv1a64_app. simpl. intros E.
  apply fnv1a64_inj_seed in E; try apply fnvStep_range.
  apply fnvStep_inj_byte in E; [congruence|].
  now apply fnv1a64_range.
Qed.

(** Cache invalidation: when one byte of one input file is replaced by
    another byte, the source-state hash changes.  The file is named once in
    the list of inputs; the other inputs, in any number and order, are as
    they were. *)
Theorem source_hash_single_byte_edit :
  forall (fs : gmap string string) (pre post : list string) (p a b : string)
         (x y : ascii) (h : string),
    p ∉ pre -> p ∉ post ->
    fs !! p = Some (a ++ String x b) ->
    x <> y ->
    computeSourceStateHash fs (pre ++ p :: post) = Some h ->
    exists h',
      computeSourceStateHash (<[p := a ++ String y b]> fs) (pre ++ p :: post) = Some h'
      /\ h' <> h.
Proof.
  intros fs pre post p a b x y h Hpre Hpost Hp Hxy.
  unfold computeSourceStateHash.
  assert (R0 : 0 <= FNV_OFFSET < two64) by (unfold FNV_OFFSET, two64; lia).
  rewrite !sourceStateLoop_app, sourceStateLoop_insert by assumption.
  destruct (sourceStateLoop fs pre FNV_OFFSET) as [h0|] eqn:E0; [|discriminate].
  pose proof (sourceStateLoop_range _ _ _ _ R0 E0) as R1.
  simpl. unfold readFile. rewrite lookup_insert_eq, Hp.
  rewrite sourceStateLoop_insert by assumption.
  destruct (sourceStateLoop fs post (fnv1a64 (a ++ String x b) (fnv1a64 p h0)))
    as [r|] eqn:E1; [|discriminate].
  intros [= <-].
  assert (R2 : 0 <= fnv1a64 p h0 < two64) by now apply fnv1a64_range.
  destruct (sourceStateLoop_inj fs post _ (fnv1a64 (a ++ String y b) (fnv1a64 p h0)) r
              ltac:(now apply fnv1a64_range) ltac:(now apply fnv1a64_range)
              (fnv1a64_byte_edit a x y b _ R2 Hxy) E1) as (r' & E2 & Hr).
  rewrite E2.
  exists (hex64 r'). split; [reflexivity|].
  intros E. apply hex64_inj in E; [congruence| |].
  - eapply sourceStateLoop_range; [|exact E2]. now apply fnv1a64_range.
  - eapply sourceStateLoop_range; [|exact E1]. now apply fnv1a64_range.
Qed.

Example source_hash_single_byte_edit_witness :
  exists h',
    computeSourceStateHash (<["m.ls" := "a" ++ String "2" ";"]>
                              ({["m.ls" := "a" ++ String "1" ";"; "u.ls" := "x"]}))
                           (["u.ls"] ++ "m.ls" :: [])
    = Some h'
    /\ h' <> "91f6045c14321388".
Proof.
  apply (source_hash_single_byte_edit
           {["m.ls" := "a" ++ String "1" ";"; "u.ls" := "x"]}
           ["u.ls"] [] "m.ls" "a" ";" "1"%char "2"%char).
  - intros H. inversion H as [|? ? ? H']; subst; inversion H'.
  - intros H. inversion H.
  - reflexivity.
  - discriminate.
  - vm_compute. reflexivity.
Defined.

End SourceHashFacts.

Section TypedIrFacts.
Import TypedIr.

Lemma code_range c : 0 <= CType.code c < 256.
Proof.
  unfold CType.code. pose proof (nat_ascii_bounded c). lia.
Qed.

Lemma code_inj c d : CType.code c = CType.code d -> c = d.
Proof.
  unfold CType.code. intros H. apply Nat2Z.inj in H.
  rewrite <- (ascii_nat_embedding c), <- (ascii_nat_embedding d). now rewrite H.
Qed.

Lemma eqb_code c d : Ascii.eqb c d = (CType.code c =? CType.code d).
Proof.
  destruct (Ascii.eqb_spec c d) as [->|H].
  - now rewrite Z.eqb_refl.
  - symmetry. apply Z.eqb_neq. intros E. now apply code_inj in E.
Qed.

(** One character, escaped and read back. *)
Lemma jsonUnescape_char c r :
  jsonUnescape (jsonEscapeChar c ++ r) = String (jsonBack c) (jsonUnescape r).
Proof.
  unfold jsonEscapeChar, jsonBack, jsonLossy.
  destruct (Ascii.eqb_spec c chQUOTE) as [->|H1]; [reflexivity|].
  destruct (Ascii.eqb_spec c chBACKSLASH) as [->|H2]; [reflexivity|].
  destruct (Ascii.eqb_spec c chBS) as [->|H3]; [reflexivity|].
  destruct (Ascii.eqb_spec c chFF) as [->|H4]; [reflexivity|].
  destruct (Ascii.eqb_spec c chLF) as [->|H5]; [reflexivity|].
  destruct (Ascii.eqb_spec c chCR) as [->|H6]; [reflexivity|].
  destruct (Ascii.eqb_spec c chTAB) as [->|H7]; [reflexivity|].
  destruct (CType.code c <? 32) eqn:E; [reflexivity|].
  unfold str1. rewrite append_cons, append_nil_l. simpl.
  destruct (Ascii.eqb_spec c chBACKSLASH); [contradiction | reflexivity].
Qed.

Lemma jsonUnescape_jsonEscape_map s :
  jsonUnescape (jsonEscape s) = mapString jsonBack s.
Proof.
  induction s as [|c s IH]; [reflexivity|].
  simpl. now rewrite jsonUnescape_char, IH.
Qed.

(** [jsonUnescape] after [jsonEscape] gives the text back, except that each
    control character written with [u] comes back as a question mark; a
    text without such characters comes back unchanged. *)
Theorem jsonUnescape_jsonEscape :
  forall s : string,
    jsonUnescape (jsonEscape s) = mapString jsonBack s
    /\ (allChars (fun c => negb (jsonLossy c)) s = true ->
        jsonUnescape (jsonEscape s) = s).
Proof.
  intros s. split; [apply jsonUnescape_jsonEscape_map|].
  rewrite jsonUnescape_jsonEscape_map.
  induction s as [|c s IH]; [reflexivity|]. simpl.
  intros Hall. apply andb_true_iff in Hall as [Hc Hs].
  rewrite IH by exact Hs. unfold jsonBack.
  now destruct (jsonLossy c).
Qed.

(** ** The bundle is read back as it was written *)

Lemma substrFrom_0 s : substrFrom 0 s = s.
Proof.
  unfold substrFrom. rewrite Nat.sub_0_r.
  induction s as [|c s IH]; [reflexivity|]. simpl. now rewrite IH.
Qed.

Lemma substrFrom_S k c s : substrFrom (S k) (String c s) = substrFrom k s.
Proof. reflexivity. Qed.

Lemma substrFrom_app a b : substrFrom (String.length a) (a ++ b) = b.
Proof.
  induction a as [|c a IH]; [apply substrFrom_0|].
  rewrite append_cons. simpl String.length. now rewrite substrFrom_S.
Qed.

Lemma find_hit needle hay : String.prefix needle hay = true -> find needle hay = Some hay.
Proof. intros H. destruct hay; cbn [find]; now rewrite H. Qed.

Lemma find_miss needle c t :
  String.prefix needle (String c t) = false ->
  find needle (String c t) = find needle t.
Proof. intros H. cbn [find]. now rewrite H. Qed.

Lemma prefix_cons a n b h :
  String.prefix (String a n) (String b h)
  = if Ascii.eqb a b then String.prefix n h else false.
Proof.
  simpl. destruct (ascii_dec a b) as [->|H].
  - now rewrite Ascii.eqb_refl.
  - apply Ascii.eqb_neq in H. now rewrite H.
Qed.

(** A run of characters other than the first character of the needle is
    passed over. *)
Lemma find_skip q n s t :
  allChars (fun c => negb (Ascii.eqb q c)) s = true ->
  find (String q n) (s ++ t) = find (String q n) t.
Proof.
  induction s as [|c s IH]; [reflexivity|]. simpl allChars.
  intros H. apply andb_true_iff in H as [Hc Hs].
  rewrite append_cons, find_miss; [now apply IH|].
  rewrite prefix_cons. apply negb_true_iff in Hc. now rewrite Hc.
Qed.

Lemma isalnum_code c :
  CType.isalnum c = true ->
  48 <= CType.code c <= 57 \/ 65 <= CType.code c <= 90 \/ 97 <= CType.code c <= 122.
Proof.
  unfold CType.isalnum, CType.isalpha, CType.isupper, CType.islower, CType.isdigit.
  intros H. repeat (apply orb_true_iff in H as [H|H]);
    apply andb_true_iff in H as [H1 H2]; lia.
Qed.

Lemma alnum_not c d :
  CType.isalnum c = true -> CType.isalnum d = false -> Ascii.eqb c d = false.
Proof.
  intros Hc Hd. destruct (Ascii.eqb_spec c d) as [->|]; congruence.
Qed.

Lemma alnum_no_quote s :
  allChars CType.isalnum s = true ->
  allChars (fun c => negb (Ascii.eqb chQUOTE c)) s = true.
Proof.
  induction s as [|c s IH]; [reflexivity|]. cbn [allChars].
  intros H. apply andb_true_iff in H as [Hc Hs].
  rewrite IH by exact Hs. rewrite Ascii.eqb_sym, (alnum_not c chQUOTE Hc); reflexivity.
Qed.

Lemma jsonEscape_alnum s : allChars CType.isalnum s = true -> jsonEscape s = s.
Proof.
  induction s as [|c s IH]; [reflexivity|]. simpl.
  intros H. apply andb_true_iff in H as [Hc Hs]. rewrite IH by exact Hs.
  unfold jsonEscapeChar.
  rewrite (alnum_not c chQUOTE Hc), (alnum_not c chBACKSLASH Hc),
    (alnum_not c chBS Hc), (alnum_not c chFF Hc), (alnum_not c chLF Hc),
    (alnum_not c chCR Hc), (alnum_not c chTAB Hc) by reflexivity.
  apply isalnum_code in Hc.
  destruct (Z.ltb_spec (CType.code c) 32); [lia|]. reflexivity.
Qed.

(** A key with a character that is neither a letter nor a digit is not
    found at the opening quote of a value made of letters and digits. *)
Lemma prefix_key_alnum key : forall s tail,
  allChars (fun c => negb (Ascii.eqb c chQUOTE)) key = true ->
  allChars CType.isalnum key = false ->
  allChars CType.isalnum s = true ->
  String.prefix (key ++ str1 chQUOTE) (s ++ String chQUOTE tail) = false.
Proof.
  induction key as [|k key IH]; intros s tail Hq Hk Hs; [discriminate|].
  simpl in Hq. apply andb_true_iff in Hq as [Hkq Hq].
  apply negb_true_iff in Hkq.
  destruct s as [|c s].
  - rewrite append_nil_l, append_cons, prefix_cons. now rewrite Hkq.
  - rewrite !append_cons, prefix_cons.
    destruct (Ascii.eqb_spec k c) as [->|]; [|reflexivity].
    simpl in Hk, Hs. apply andb_true_iff in Hs as [Hc Hs].
    rewrite Hc in Hk. apply IH; assumption.
Qed.

Lemma find_value_alnum key s tail :
  allChars (fun c => negb (Ascii.eqb c chQUOTE)) key = true ->
  allChars CType.isalnum key = false ->
  allChars CType.isalnum s = true ->
  find (quoted key) (String chQUOTE (s ++ String chQUOTE tail))
  = find (quoted key) (String chQUOTE tail).
Proof.
  intros Hq Hk Hs. unfold quoted, str1 at 1. rewrite append_cons, append_nil_l.
  rewrite find_miss.
  - apply find_skip. now apply alnum_no_quote.
  - rewrite prefix_cons, Ascii.eqb_refl. now apply prefix_key_alnum.
Qed.

Lemma hexDigit_plain d :
  Ascii.eqb (Driver.hexDigit d) chQUOTE = false
  /\ Ascii.eqb (Driver.hexDigit d) chBACKSLASH = false.
Proof.
  unfold Driver.hexDigit. generalize (Z.to_nat d). intros n.
  do 16 (destruct n as [|n]; [split; reflexivity|]). split; reflexivity.
Qed.

Lemma scanRaw_plain c r raw :
  Ascii.eqb c chQUOTE = false -> Ascii.eqb c chBACKSLASH = false ->
  scanRaw (String c r) false raw = scanRaw r false (raw ++ str1 c).
Proof. intros H1 H2. simpl. now rewrite H1, H2. Qed.

Lemma scanRaw_escaped c r raw :
  scanRaw (String chBACKSLASH (String c r)) false raw
  = scanRaw r false (raw ++ String chBACKSLASH (str1 c)).
Proof.
  simpl. unfold str1. now rewrite append_assoc', append_cons, append_nil_l.
Qed.

(** The scan of [jsonExtractStringField] runs through an escaped text and
    stops at the quote that follows it. *)
Lemma scanRaw_jsonEscape v : forall raw tail,
  scanRaw (jsonEscape v ++ String chQUOTE tail) false raw
  = Some (jsonUnescape (raw ++ jsonEscape v)).
Proof.
  induction v as [|c v IH]; intros raw tail.
  - simpl jsonEscape. rewrite append_nil_l, append_nil_r. reflexivity.
  - simpl jsonEscape. rewrite append_assoc'.
    assert (Hesc : forall x,
      scanRaw (String chBACKSLASH (str1 x) ++ jsonEscape v ++ String chQUOTE tail)
        false raw
      = Some (jsonUnescape
                (raw ++ String chBACKSLASH (str1 x) ++ jsonEscape v))).
    { intros x. unfold str1. rewrite !append_cons, append_nil_l.
      rewrite scanRaw_escaped, IH. unfold str1.
      now rewrite append_assoc', !append_cons, append_nil_l. }
    unfold jsonEscapeChar.
    destruct (Ascii.eqb_spec c chQUOTE) as [->|H1]; [apply Hesc|].
    destruct (Ascii.eqb_spec c chBACKSLASH) as [->|H2]; [apply Hesc|].
    destruct (Ascii.eqb c chBS); [apply (Hesc "b"%char)|].
    destruct (Ascii.eqb c chFF); [apply (Hesc "f"%char)|].
    destruct (Ascii.eqb c chLF); [apply (Hesc "n"%char)|].
    destruct (Ascii.eqb c chCR); [apply (Hesc "r"%char)|].
    destruct (Ascii.eqb c chTAB); [apply (Hesc "t"%char)|].
    destruct (CType.code c <? 32).
    + simpl Driver.hexDigits. rewrite !append_cons, append_nil_l.
      rewrite scanRaw_escaped.
      rewrite 4 scanRaw_plain by apply hexDigit_plain.
      rewrite IH. unfold str1.
      now rewrite !append_assoc', !append_cons, !append_nil_l.
    + unfold str1. rewrite append_cons, append_nil_l.
      rewrite scanRaw_plain by (now apply Ascii.eqb_neq).
      rewrite IH. unfold str1.
      now rewrite !append_assoc', !append_cons, !append_nil_l.
Qed.

(** Once the key is found in front of a colon, a blank and a quoted escaped
    text, the field is that text read back. *)
Lemma jsonExtractStringField_at json key v tail :
  find (quoted key) json
  = Some (quoted key ++ String ":" (String " " (String chQUOTE
            (jsonEscape v ++ String chQUOTE tail)))) ->
  jsonExtractStringField json key = Some (jsonUnescape (jsonEscape v)).
Proof.
  intros H. unfold jsonExtractStringField. rewrite H, substrFrom_app.
  rewrite find_hit by reflexivity.
  rewrite substrFrom_S, substrFrom_0. simpl skipSpace. cbv iota.
  rewrite Ascii.eqb_refl. now rewrite scanRaw_jsonEscape, append_nil_l.
Qed.

Ltac cons_form :=
  unfold bundleText, quoted, EmitC.nl, str1;
  repeat first [ rewrite append_assoc' | rewrite append_cons | rewrite append_nil_l ].

Ltac find_steps :=
  repeat (rewrite find_miss by reflexivity).

Section Fields.

Variables cCode sh ch : string.
Hypothesis Hsh : allChars CType.isalnum sh = true.
Hypothesis Hch : allChars CType.isalnum ch = true.

Lemma bundle_format :
  jsonExtractStringField (bundleText cCode sh ch) "format"
  = Some "linescript-typed-ir-v1".
Proof.
  change (Some "linescript-typed-ir-v1")
    with (Some (jsonUnescape (jsonEscape "linescript-typed-ir-v1"))).
  eapply jsonExtractStringField_at.
  cons_form. find_steps. rewrite find_hit by reflexivity. reflexivity.
Qed.

Lemma jsonUnescape_alnum s : allChars CType.isalnum s = true -> jsonUnescape s = s.
Proof.
  induction s as [|c s IH]; [reflexivity|]. cbn [allChars].
  intros H. apply andb_true_iff in H as [Hc Hs]. cbn [jsonUnescape].
  rewrite (alnum_not c chBACKSLASH Hc) by reflexivity. simpl negb. cbv iota.
  now rewrite IH.
Qed.

Lemma alnum_back s :
  allChars CType.isalnum s = true -> jsonUnescape (jsonEscape s) = s.
Proof.
  intros H. rewrite jsonEscape_alnum by exact H. now apply jsonUnescape_alnum.
Qed.

Ltac skip_value key :=
  match goal with
  | |- context [find _ (String chQUOTE (jsonEscape ?s ++ String chQUOTE ?t))] =>
    let HH := fresh "HH" in
    assert (HH := find_value_alnum key (jsonEscape s) t eq_refl eq_refl);
    rewrite (jsonEscape_alnum s) in HH at 1 by assumption;
    specialize (HH ltac:(assumption));
    unfold quoted, str1 in HH;
    repeat first [ rewrite append_assoc' in HH | rewrite append_cons in HH
                 | rewrite append_nil_l in HH ];
    rewrite HH; clear HH
  end.

Lemma bundle_source_hash :
  jsonExtractStringField (bundleText cCode sh ch) "source_hash" = Some sh.
Proof.
  rewrite <- (alnum_back sh Hsh) at 2.
  eapply jsonExtractStringField_at.
  cons_form. find_steps. rewrite find_hit by reflexivity. reflexivity.
Qed.

Lemma bundle_config_hash :
  jsonExtractStringField (bundleText cCode sh ch) "config_hash" = Some ch.
Proof.
  rewrite <- (alnum_back ch Hch) at 2.
  eapply jsonExtractStringField_at.
  cons_form. find_steps. skip_value "config_hash". find_steps.
  rewrite find_hit by reflexivity. reflexivity.
Qed.

Lemma bundle_c_code :
  jsonExtractStringField (bundleText cCode sh ch) "c_code"
  = Some (jsonUnescape (jsonEscape cCode)).
Proof.
  eapply jsonExtractStringField_at.
  cons_form. find_steps. skip_value "c_code". find_steps.
  skip_value "c_code". find_steps.
  rewrite find_hit by reflexivity. reflexivity.
Qed.

End Fields.

(** A bundle written by [writeTypedIrBundle] is read back by
    [readTypedIrBundle] from the same path: the two hashes as they were
    given, when they are made of letters and digits (as the output of
    [hex64] and the empty hash are), and the C code with each control
    character that has no short escape replaced by a question mark. *)
Theorem typed_ir_bundle_round_trip :
  forall (fs : gmap string string) (path cCode sh ch : string),
    allChars CType.isalnum sh = true ->
    allChars CType.isalnum ch = true ->
    readTypedIrBundle (writeTypedIrBundle fs path cCode sh ch) path
    = inr (mapString jsonBack cCode, sh, ch).
Proof.
  intros fs path cCode sh ch Hsh Hch.
  unfold readTypedIrBundle, writeTypedIrBundle, writeFile, Driver.readFile.
  rewrite lookup_insert_eq.
  rewrite (bundle_format cCode sh ch). cbv iota beta.
  rewrite (bundle_c_code cCode sh ch Hsh Hch).
  rewrite (bundle_source_hash cCode sh ch Hsh).
  rewrite (bundle_config_hash cCode sh ch Hsh Hch).
  simpl default. now rewrite jsonUnescape_jsonEscape_map.
Qed.

Example typed_ir_bundle_round_trip_witness :
  readTypedIrBundle
    (writeTypedIrBundle ∅ "a.json" "int main(void) { return 0; }"
       (Driver.hex64 255) EmptyString) "a.json"
  = inr (mapString jsonBack "int main(void) { return 0; }", Driver.hex64 255, EmptyString).
Proof.
  apply (typed_ir_bundle_round_trip ∅ "a.json" "int main(void) { return 0; }"
           (Driver.hex64 255) EmptyString); reflexivity.
Defined.

End TypedIrFacts.

Section LexerRunFacts.
Import Lexer.

Lemma advPos_line c ln cl :
  Ascii.eqb c chLF = false -> advPos c ln cl = (ln, wrapU64 (cl + 1)).
Proof. unfold advPos. now intros ->. Qed.

(** [skipTrivia] only moves forward: what is left is a suffix of what was
    there. *)
Lemma skipTriviaLoop_suffix n : forall src ln cl,
  (String.length src <= n)%nat ->
  exists pre, src = pre ++ rest (skipTriviaLoop src ln cl).
Proof.
  induction n as [|n IH]; intros src ln cl Hn.
  - destruct src; [|simpl in Hn; lia]. exists EmptyString. reflexivity.
  - destruct src as [|c r]; [exists EmptyString; reflexivity|].
    simpl in Hn. cbn [skipTriviaLoop].
    destruct (Ascii.eqb c " " || Ascii.eqb c chTAB || Ascii.eqb c chCR).
    { destruct (advPos c ln cl) as [ln1 cl1].
      destruct (IH r ln1 cl1 ltac:(lia)) as [pre Hpre].
      exists (String c pre). rewrite append_cons. now f_equal. }
    destruct r as [|c2 r2]; [exists EmptyString; reflexivity|].
    destruct (Ascii.eqb c "/" && Ascii.eqb c2 "/"); [|exists EmptyString; reflexivity].
    destruct (advPos c ln cl) as [ln1 cl1].
    destruct (advPos c2 ln1 cl1) as [ln2 cl2].
    simpl in Hn.
    match goal with
    | |- context [?f r2 ln2 cl2] =>
      assert (Hc : forall s ln cl, (String.length s <= n)%nat ->
                exists pre, s = pre ++ rest (f s ln cl))
    end.
    { induction s as [|d s IHs]; intros ln' cl' Hs.
      - exists EmptyString. reflexivity.
      - simpl in Hs. cbn beta iota.
        destruct (Ascii.eqb d chLF).
        + apply IH. simpl. lia.
        + destruct (advPos d ln' cl') as [ln3 cl3].
          destruct (IHs ln3 cl3 ltac:(lia)) as [pre Hpre].
          exists (String d pre). rewrite append_cons. now f_equal. }
    destruct (Hc r2 ln2 cl2 ltac:(lia)) as [pre Hpre].
    exists (String c (String c2 pre)). rewrite !append_cons. now do 2 f_equal.
Qed.

Lemma length_app a b : String.length (a ++ b) = (String.length a + String.length b)%nat.
Proof.
  induction a as [|c a IH]; [reflexivity|]. rewrite append_cons. simpl. now rewrite IH.
Qed.

Lemma skipTrivia_length lx :
  (String.length (rest (skipTrivia lx)) <= String.length (rest lx))%nat.
Proof.
  unfold skipTrivia.
  destruct (skipTriviaLoop_suffix _ (rest lx) (line_ lx) (col_ lx) (le_n _)) as [pre H].
  rewrite H at 2. rewrite length_app. lia.
Qed.

Lemma readIdentLoop_length src : forall ln cl t,
  (String.length (rest (snd (readIdentLoop src ln cl t))) <= String.length src)%nat.
Proof.
  induction src as [|c r IH]; intros ln cl t; [simpl; lia|].
  cbn [readIdentLoop].
  destruct (CType.isalnum c || Ascii.eqb c "_"); [|simpl; lia].
  destruct (advPos c ln cl) as [ln1 cl1]. specialize (IH ln1 cl1 (t ++ str1 c)).
  simpl. lia.
Qed.

Lemma readNumberLoop_length src : forall ln cl dot t,
  (String.length (rest (snd (readNumberLoop src ln cl dot t))) <= String.length src)%nat.
Proof.
  induction src as [|c r IH]; intros ln cl dot t; [simpl; lia|].
  cbn [readNumberLoop].
  destruct (CType.isdigit c).
  { destruct (advPos c ln cl) as [ln1 cl1]. specialize (IH ln1 cl1 dot (t ++ str1 c)).
    simpl. lia. }
  destruct (Ascii.eqb c "." && negb dot
            && CType.isdigit match r with String d _ => d | EmptyString => chNUL end);
    [|simpl; lia].
  destruct (advPos c ln cl) as [ln1 cl1]. specialize (IH ln1 cl1 true (t ++ str1 c)).
  simpl. lia.
Qed.

Lemma keyword_not_End t : keyword t <> End.
Proof.
  unfold keyword.
  repeat match goal with
         | |- context [if ?b then _ else _] => destruct b; [discriminate|]
         end.
  discriminate.
Qed.

Lemma punctuation_not_End c k t : punctuation c = Some (k, t) -> k <> End.
Proof.
  unfold punctuation.
  repeat match goal with
         | |- context [if ?b then _ else _] => destruct b; [intros [= <- _]; discriminate|]
         end.
  discriminate.
Qed.

Lemma adv_rest_le lx :
  (String.length (rest (snd (adv lx))) <= String.length (rest lx))%nat.
Proof.
  destruct lx as [[|c r] ln cl]; unfold adv; simpl; [lia|].
  destruct (advPos c ln cl). simpl. lia.
Qed.

Lemma adv_rest_lt lx :
  eof lx = false ->
  (String.length (rest (snd (adv lx))) < String.length (rest lx))%nat.
Proof.
  destruct lx as [[|c r] ln cl]; unfold adv, eof; simpl; [discriminate|]. intros _.
  destruct (advPos c ln cl). simpl. lia.
Qed.

Lemma readStringLoop_error s n : forall src ln cl out e,
  (String.length src <= n)%nat ->
  readStringLoop s src ln cl out = inl e -> stringError (errMsg e).
Proof.
  induction n as [|n IH]; intros src ln cl out e Hn.
  { destruct src; [|simpl in Hn; lia]. simpl. intros [= <-]. left. reflexivity. }
  destruct src as [|c r]; simpl.
  - intros [= <-]. left. reflexivity.
  - simpl in Hn. destruct (advPos c ln cl) as [ln1 cl1].
    destruct (Ascii.eqb c chQUOTE); [discriminate|].
    destruct (Ascii.eqb c chBACKSLASH).
    + destruct r as [|esc r2]; [intros [= <-]; right; left; reflexivity|].
      destruct (advPos esc ln1 cl1) as [ln2 cl2].
      destruct (unescape esc).
      * apply IH. simpl in Hn. lia.
      * intros [= <-]. right. right. eauto.
    + destruct (Ascii.eqb c chLF); [intros [= <-]; left; reflexivity|].
      apply IH. lia.
Qed.

Lemma readIdent_progress c r ln cl tok lx' :
  CType.isalpha c || Ascii.eqb c "_" = true ->
  readIdent (mkLexer (String c r) ln cl) = (tok, lx') ->
  (String.length (rest lx') < String.length (String c r))%nat /\ kind tok <> End.
Proof.
  intros Hc. unfold readIdent. cbn [rest line_ col_ readIdentLoop].
  assert (Hc' : CType.isalnum c || Ascii.eqb c "_" = true).
  { apply orb_true_iff in Hc as [Hc|Hc]; unfold CType.isalnum; rewrite Hc;
      [reflexivity | apply orb_true_r]. }
  rewrite Hc'. destruct (advPos c ln cl) as [ln1 cl1].
  pose proof (readIdentLoop_length r ln1 cl1 (EmptyString ++ str1 c)) as Hl.
  destruct (readIdentLoop r ln1 cl1 (EmptyString ++ str1 c)) as [t lx1].
  intros [= <- <-]. split; [simpl in *; lia | apply keyword_not_End].
Qed.

Lemma readNumber_progress c r ln cl tok lx' :
  CType.isdigit c = true ->
  readNumber (mkLexer (String c r) ln cl) = (tok, lx') ->
  (String.length (rest lx') < String.length (String c r))%nat /\ kind tok <> End.
Proof.
  intros Hc. unfold readNumber. cbn [rest line_ col_ readNumberLoop].
  rewrite Hc. destruct (advPos c ln cl) as [ln1 cl1].
  pose proof (readNumberLoop_length r ln1 cl1 false (EmptyString ++ str1 c)) as Hl.
  destruct (readNumberLoop r ln1 cl1 false (EmptyString ++ str1 c)) as [[t dot] lx1].
  intros [= <- <-]. split; [simpl in *; lia | now destruct dot].
Qed.

Lemma readString_progress c r ln cl tok lx' :
  readString (mkLexer (String c r) ln cl) = inr (tok, lx') ->
  (String.length (rest lx') < String.length (String c r))%nat /\ kind tok <> End.
Proof.
  unfold readString, adv. cbn [rest line_ col_].
  destruct (advPos c ln cl) as [ln1 cl1]. cbn [rest line_ col_].
  intros H.
  pose proof (readStringLoop_sound (mkSpan ln cl) _ r (le_n _) ln1 cl1 EmptyString) as Hs.
  rewrite H in Hs. destruct Hs as (raw & dec & -> & _ & ->).
  split; [|discriminate]. simpl. rewrite length_app. simpl. lia.
Qed.

Lemma readString_error lx e :
  readString lx = inl e -> stringError (errMsg e).
Proof.
  unfold readString. destruct (adv lx) as [c lx1].
  apply (readStringLoop_error _ _ _ _ _ _ _ (le_n _)).
Qed.

(** A round of [run] that pushes a token has read at least one character,
    and the token is not [End]. *)
Lemma token_progress lx tok lx' :
  eof lx = false ->
  token lx = inr (tok, lx') ->
  (String.length (rest lx') < String.length (rest lx))%nat /\ kind tok <> End.
Proof.
  destruct lx as [[|c r] ln cl]; [discriminate|]. intros _.
  assert (H1 : (String.length (rest (snd (adv (mkLexer (String c r) ln cl))))
                < String.length (String c r))%nat)
    by (apply (adv_rest_lt (mkLexer (String c r) ln cl)); reflexivity).
  assert (H2 := adv_rest_le (snd (adv (mkLexer (String c r) ln cl)))).
  assert (H3 := adv_rest_le (snd (adv (snd (adv (mkLexer (String c r) ln cl)))))).
  unfold token. cbn [rest line_ col_].
  change (peek 0 (mkLexer (String c r) ln cl)) with c.
  set (lx := mkLexer (String c r) ln cl) in *.
  destruct (Ascii.eqb c chLF); [intros [= <- <-]; split; [exact H1|discriminate]|].
  destruct (CType.isalpha c || Ascii.eqb c "_") eqn:Ea.
  { intros [= H]. now apply readIdent_progress in H. }
  destruct (Ascii.eqb c chQUOTE); [apply readString_progress|].
  destruct (CType.isdigit c) eqn:Ed.
  { intros [= H]. now apply readNumber_progress in H. }
  repeat match goal with
         | |- context [if ?b then _ else _] =>
           destruct b;
           [try match goal with
                | |- context [if ?b2 then _ else _] => destruct b2
                end;
            intros [= <- <-]; (split; [cbn [rest] in *; lia | discriminate])|]
         end.
  destruct (punctuation c) as [[k t]|] eqn:Ep; [|discriminate].
  intros [= <- <-]. split; [exact H1 | now apply punctuation_not_End in Ep].
Qed.

Lemma token_error lx e :
  token lx = inl e -> lexError (errMsg e).
Proof.
  unfold token.
  repeat match goal with
         | |- context [if ?b then _ else _] =>
           destruct b;
           [first [ discriminate
                  | intros H; left; now apply readString_error in H
                  | try match goal with
                        | |- context [if ?b2 then _ else _] => destruct b2
                        end; discriminate ]|]
         end.
  destruct (punctuation (peek 0 lx)) as [[k t]|] eqn:Ep; [discriminate|].
  intros [= <-]. right. eauto.
Qed.

(** The loop of [run] ends once the fuel exceeds the length of the input,
    with the same result for every such fuel: an error of the lexer, or
    the tokens pushed so far followed by tokens other than [End] and one
    final [End]. *)
Lemma runLoop_spec n : forall lx out,
  (String.length (rest lx) <= n)%nat ->
  exists r,
    (forall fuel, (n < fuel)%nat -> runLoop fuel lx out = Some r)
    /\ match r with
       | inr toks =>
         exists pre e, toks = (out ++ pre ++ [e])%list
                       /\ kind e = End /\ Forall (fun t => kind t <> End) pre
       | inl e => lexError (errMsg e)
       end.
Proof.
  induction n as [|n IH]; intros lx out Hn;
    pose proof (skipTrivia_length lx) as Hs;
    destruct (eof (skipTrivia lx)) eqn:Ee.
  - eexists. split.
    + intros [|fuel] Hf; [lia|]. cbn [runLoop]. rewrite Ee. reflexivity.
    + exists [], (mkToken End EmptyString
                    (mkSpan (line_ (skipTrivia lx)) (col_ (skipTrivia lx)))).
      repeat split. constructor.
  - unfold eof in Ee. destruct (rest (skipTrivia lx)); [discriminate|simpl in Hs; lia].
  - eexists. split.
    + intros [|fuel] Hf; [lia|]. cbn [runLoop]. rewrite Ee. reflexivity.
    + exists [], (mkToken End EmptyString
                    (mkSpan (line_ (skipTrivia lx)) (col_ (skipTrivia lx)))).
      repeat split. constructor.
  - destruct (token (skipTrivia lx)) as [e|[tok lx2]] eqn:Et.
    + exists (inl e). split.
      * intros [|fuel] Hf; [lia|]. cbn [runLoop]. now rewrite Ee, Et.
      * now apply token_error in Et.
    + destruct (token_progress _ _ _ Ee Et) as [Hlt Hk].
      destruct (IH lx2 (out ++ [tok])%list ltac:(lia)) as (r & Hr & Hshape).
      exists r. split.
      * intros [|fuel] Hf; [lia|]. cbn [runLoop]. rewrite Ee, Et.
        apply Hr. lia.
      * destruct r as [e|toks]; [exact Hshape|].
        destruct Hshape as (pre & e & -> & He & Hpre).
        exists (tok :: pre), e. split; [|split; [exact He|now constructor]].
        now rewrite <- app_assoc.
Qed.

(** Lexing always ends: with any fuel above the length of the source,
    [run] returns, and returns the same.  What it returns is either one of
    the lexer's errors (an unterminated string literal, an unterminated or
    unsupported escape, a character that starts no token) or a list of
    tokens that ends with [End] and has no other [End] in it. *)
Theorem run_total_and_ends_with_End :
  forall src : string,
  exists r,
    (forall fuel, (String.length src < fuel)%nat -> run fuel src = Some r)
    /\ match r with
       | inr toks =>
         exists pre e, toks = (pre ++ [e])%list
                       /\ kind e = End /\ Forall (fun t => kind t <> End) pre
       | inl e => lexError (errMsg e)
       end.
Proof.
  intros src.
  destruct (runLoop_spec (String.length src) (init src) [] (le_n _))
    as (r & Hr & Hshape).
  exists r. split; [exact Hr|].
  destruct r as [e|toks]; [exact Hshape|].
  destruct Hshape as (pre & e & -> & He & Hpre). now exists pre, e.
Qed.

(** ** Words, numbers and comments *)

Lemma readIdentLoop_word w : forall tail ln cl t,
  allChars identChar w = true -> headIs identChar tail = false ->
  exists ln' cl',
    readIdentLoop (w ++ tail) ln cl t = (t ++ w, mkLexer tail ln' cl').
Proof.
  induction w as [|c w IH]; intros tail ln cl t Hw Ht.
  - rewrite append_nil_l, append_nil_r.
    destruct tail as [|d r]; [simpl; eauto|].
    cbn [readIdentLoop]. simpl in Ht. unfold identChar in Ht. rewrite Ht. eauto.
  - cbn [allChars] in Hw. apply andb_true_iff in Hw as [Hc Hw].
    rewrite append_cons. cbn [readIdentLoop]. unfold identChar in Hc. rewrite Hc.
    destruct (advPos c ln cl) as [ln1 cl1].
    destruct (IH tail ln1 cl1 (t ++ str1 c) Hw Ht) as (ln' & cl' & ->).
    exists ln', cl'. unfold str1. now rewrite append_assoc', append_cons, append_nil_l.
Qed.

Lemma identStart_identChar c : identStart c = true -> identChar c = true.
Proof.
  unfold identStart, identChar, CType.isalnum. intros H.
  apply orb_true_iff in H as [->| ->]; [reflexivity | apply orb_true_r].
Qed.

Lemma identStart_not_LF c : identStart c = true -> Ascii.eqb c chLF = false.
Proof.
  intros H. destruct (Ascii.eqb_spec c chLF) as [->|]; [discriminate | reflexivity].
Qed.

(** Maximal munch: a letter or underscore followed by letters, digits and
    underscores, up to the first character that is none of these (or the
    end of the input), is one token; its text is the whole word and its
    kind is the keyword's, or [Id] for any other word. *)
Theorem token_word :
  forall (c : ascii) (w tail : string) (ln cl : Z),
    identStart c = true ->
    allChars identChar w = true ->
    headIs identChar tail = false ->
    exists lx',
      token (mkLexer (String c w ++ tail) ln cl)
      = inr (mkToken (keyword (String c w)) (String c w) (mkSpan ln cl), lx')
      /\ rest lx' = tail.
Proof.
  intros c w tail ln cl Hc Hw Ht.
  unfold token. rewrite append_cons.
  change (peek 0 (mkLexer (String c (w ++ tail)) ln cl)) with c.
  rewrite (identStart_not_LF c Hc). unfold identStart in Hc. rewrite Hc.
  unfold readIdent. cbn [rest line_ col_].
  destruct (readIdentLoop_word (String c w) tail ln cl EmptyString) as (ln' & cl' & E).
  { cbn [allChars]. rewrite Hw. fold (identStart c) in Hc.
    now rewrite (identStart_identChar c Hc). }
  { exact Ht. }
  rewrite append_cons in E. rewrite E, append_nil_l.
  eexists. split; reflexivity.
Qed.

Example token_word_witness :
  exists lx',
    token (mkLexer (String "w" "hile" ++ " i < 10 do") 4 1)
    = inr (mkToken (keyword (String "w" "hile")) (String "w" "hile") (mkSpan 4 1), lx')
    /\ rest lx' = " i < 10 do".
Proof.
  apply (token_word "w" "hile" " i < 10 do" 4 1); reflexivity.
Defined.

Lemma runLoop_mono fuel : forall lx out r,
  runLoop fuel lx out = Some r ->
  forall fuel', (fuel <= fuel')%nat -> runLoop fuel' lx out = Some r.
Proof.
  induction fuel as [|fuel IH]; intros lx out r H fuel' Hf; [discriminate|].
  destruct fuel' as [|fuel']; [lia|]. cbn [runLoop] in *.
  destruct (eof (skipTrivia lx)); [exact H|].
  destruct (token (skipTrivia lx)) as [e|[tok lx2]]; [exact H|].
  apply (IH _ _ _ H). lia.
Qed.

Lemma skipTriviaLoop_stay c r ln cl :
  isBlank c = false -> Ascii.eqb c "/" = false ->
  skipTriviaLoop (String c r) ln cl = mkLexer (String c r) ln cl.
Proof.
  unfold isBlank. intros Hb Hs. cbn [skipTriviaLoop]. rewrite Hb, Hs.
  now destruct r.
Qed.

Lemma skipTrivia_stay c r ln cl :
  isBlank c = false -> Ascii.eqb c "/" = false ->
  skipTrivia (mkLexer (String c r) ln cl) = mkLexer (String c r) ln cl.
Proof. apply skipTriviaLoop_stay. Qed.

Lemma isdigit_code c : CType.isdigit c = true -> 48 <= CType.code c <= 57.
Proof.
  unfold CType.isdigit. intros H. apply andb_true_iff in H as [H1 H2]. lia.
Qed.

Lemma isdigit_not c d :
  CType.isdigit c = true -> CType.isdigit d = false -> Ascii.eqb c d = false.
Proof.
  intros Hc Hd. destruct (Ascii.eqb_spec c d) as [->|]; congruence.
Qed.

Lemma isdigit_not_alpha c : CType.isdigit c = true -> CType.isalpha c = false.
Proof.
  intros H. apply isdigit_code in H.
  unfold CType.isalpha, CType.isupper, CType.islower.
  destruct (Z.leb_spec 65 (CType.code c)), (Z.leb_spec (CType.code c) 90),
    (Z.leb_spec 97 (CType.code c)), (Z.leb_spec (CType.code c) 122);
    simpl; try reflexivity; lia.
Qed.

Lemma readNumberLoop_digits d : forall tail ln cl dot t,
  allChars CType.isdigit d = true ->
  exists ln' cl',
    readNumberLoop (d ++ tail) ln cl dot t = readNumberLoop tail ln' cl' dot (t ++ d).
Proof.
  induction d as [|c d IH]; intros tail ln cl dot t Hd.
  - rewrite append_nil_l, append_nil_r. eauto.
  - cbn [allChars] in Hd. apply andb_true_iff in Hd as [Hc Hd].
    rewrite append_cons. cbn [readNumberLoop]. rewrite Hc.
    destruct (advPos c ln cl) as [ln1 cl1].
    destruct (IH tail ln1 cl1 dot (t ++ str1 c) Hd) as (ln' & cl' & ->).
    exists ln', cl'. unfold str1. now rewrite append_assoc', append_cons, append_nil_l.
Qed.

(** A token that starts with a digit is read by [readNumber]. *)
Lemma token_digit c r ln cl :
  CType.isdigit c = true ->
  token (mkLexer (String c r) ln cl) = inr (readNumber (mkLexer (String c r) ln cl)).
Proof.
  intros Hc. unfold token.
  change (peek 0 (mkLexer (String c r) ln cl)) with c.
  rewrite (isdigit_not c chLF Hc), (isdigit_not_alpha c Hc),
    (isdigit_not c "_" Hc), (isdigit_not c chQUOTE Hc) by reflexivity.
  now rewrite Hc.
Qed.

Lemma skipTrivia_digit c r ln cl :
  CType.isdigit c = true ->
  skipTrivia (mkLexer (String c r) ln cl) = mkLexer (String c r) ln cl.
Proof.
  intros Hc. unfold skipTrivia. cbn [rest line_ col_].
  apply skipTriviaLoop_stay.
  - unfold isBlank.
    now rewrite (isdigit_not c " " Hc), (isdigit_not c chTAB Hc),
      (isdigit_not c chCR Hc) by reflexivity.
  - now rewrite (isdigit_not c "/" Hc) by reflexivity.
Qed.

(** The number at the start of [d ++ tail] when [tail] does not go on with
    a digit or with a point and a digit: the token [Int d]. *)
Lemma readNumber_int c d tail ln cl :
  CType.isdigit c = true -> allChars CType.isdigit d = true ->
  headIs CType.isdigit tail = false ->
  (headIs (Ascii.eqb ".") tail = true ->
   headIs CType.isdigit (substrFrom 1 tail) = false) ->
  exists ln' cl',
    readNumber (mkLexer (String c d ++ tail) ln cl)
    = (mkToken Int (String c d) (mkSpan ln cl), mkLexer tail ln' cl').
Proof.
  intros Hc Hd Ht Hdot. unfold readNumber. cbn [rest line_ col_].
  destruct (readNumberLoop_digits (String c d) tail ln cl false EmptyString)
    as (ln' & cl' & ->).
  { cbn [allChars]. now rewrite Hc, Hd. }
  rewrite append_nil_l. exists ln', cl'.
  destruct tail as [|x tail']; [reflexivity|].
  cbn [readNumberLoop]. simpl in Ht. rewrite Ht.
  destruct (Ascii.eqb_spec x ".") as [->|]; [|reflexivity].
  specialize (Hdot eq_refl). rewrite substrFrom_S, substrFrom_0 in Hdot.
  destruct tail' as [|y tail'']; [reflexivity|].
  simpl in Hdot. rewrite Hdot. reflexivity.
Qed.

(** Two numbers with two points between them are a range: [Int], [DotDot],
    [Int].  With one point between them they are one [Float]. *)
Theorem run_range_and_float :
  forall (c1 c2 : ascii) (d1 d2 : string),
    CType.isdigit c1 = true -> allChars CType.isdigit d1 = true ->
    CType.isdigit c2 = true -> allChars CType.isdigit d2 = true ->
    (exists toks,
        (forall fuel,
            (String.length (String c1 d1 ++ ".." ++ String c2 d2) < fuel)%nat ->
            run fuel (String c1 d1 ++ ".." ++ String c2 d2) = Some (inr toks))
        /\ kindsAndTexts toks
           = [(Int, String c1 d1); (DotDot, ".."); (Int, String c2 d2);
              (End, EmptyString)])
    /\ (exists toks,
        (forall fuel,
            (String.length (String c1 d1 ++ "." ++ String c2 d2) < fuel)%nat ->
            run fuel (String c1 d1 ++ "." ++ String c2 d2) = Some (inr toks))
        /\ kindsAndTexts toks
           = [(Float, String c1 d1 ++ "." ++ String c2 d2); (End, EmptyString)]).
Proof.
  intros c1 c2 d1 d2 Hc1 Hd1 Hc2 Hd2. split.
  - destruct (readNumber_int c1 d1 (".." ++ String c2 d2) 1 1 Hc1 Hd1 eq_refl)
      as (ln1 & cl1 & E1); [intros _; reflexivity|].
    destruct (readNumber_int c2 d2 EmptyString ln1 (snd (advPos "." ln1
                (snd (advPos "." ln1 cl1)))) Hc2 Hd2 eq_refl)
      as (ln2 & cl2 & E2); [discriminate|].
    rewrite append_nil_r in E2.
    eexists. split.
    + intros fuel Hf.
      apply (runLoop_mono 4); [|rewrite !length_app in Hf; simpl in Hf; lia].
      unfold run, init. cbn [runLoop].
      rewrite append_cons, skipTrivia_digit by exact Hc1.
      cbn [eof rest]. rewrite token_digit by exact Hc1.
      rewrite <- append_cons, E1.
      change (".." ++ String c2 d2) with (String "." (String "." (String c2 d2))).
      rewrite (skipTrivia_stay "." _ ln1 cl1 eq_refl eq_refl).
      cbn [eof rest].
      replace (token (mkLexer (String "." (String "." (String c2 d2))) ln1 cl1))
        with (inr (A:=CompileError)
                (mkToken DotDot ".." (mkSpan ln1 cl1),
                 mkLexer (String c2 d2) ln1
                   (snd (advPos "." ln1 (snd (advPos "." ln1 cl1))))))
        by reflexivity.
      rewrite skipTrivia_digit by exact Hc2.
      cbn [eof rest]. rewrite token_digit by exact Hc2. rewrite E2.
      reflexivity.
    + reflexivity.
  - unfold run, init.
    assert (E : exists ln' cl',
      readNumber (mkLexer (String c1 d1 ++ "." ++ String c2 d2) 1 1)
      = (mkToken Float (String c1 d1 ++ "." ++ String c2 d2) (mkSpan 1 1),
         mkLexer EmptyString ln' cl')).
    { unfold readNumber. cbn [rest line_ col_].
      destruct (readNumberLoop_digits (String c1 d1) ("." ++ String c2 d2) 1 1 false
                  EmptyString) as (ln1 & cl1 & ->).
      { cbn [allChars]. now rewrite Hc1, Hd1. }
      change ("." ++ String c2 d2) with (String "." (String c2 d2)).
      cbn [readNumberLoop]. rewrite Hc2. simpl andb.
      change (CType.isdigit ".") with false. cbv iota.
      destruct (advPos "." ln1 cl1) as [ln2 cl2].
      destruct (advPos c2 ln2 cl2) as [ln3 cl3].
      match goal with
      | |- context [readNumberLoop d2 ?a ?b ?c ?t] =>
        replace (readNumberLoop d2 a b c t)
          with (readNumberLoop (d2 ++ EmptyString) a b c t)
          by now rewrite append_nil_r
      end.
      destruct (readNumberLoop_digits d2 EmptyString ln3 cl3 true
                  (((EmptyString ++ String c1 d1) ++ str1 ".") ++ str1 c2) Hd2)
        as (ln4 & cl4 & ->).
      exists ln4, cl4. cbn [readNumberLoop]. unfold str1.
      now rewrite append_nil_l, !append_assoc', !append_cons, !append_nil_l. }
    destruct E as (ln' & cl' & E).
    eexists. split.
    + intros fuel Hf.
      apply (runLoop_mono 2); [|rewrite !length_app in Hf; simpl in Hf; lia].
      cbn [runLoop]. rewrite append_cons, skipTrivia_digit by exact Hc1.
      cbn [eof rest]. rewrite token_digit by exact Hc1.
      rewrite <- append_cons, E. reflexivity.
    + reflexivity.
Qed.

Example run_range_and_float_witness :
  (exists toks,
      (forall fuel,
          (String.length (String "1" "0" ++ ".." ++ String "2" "5") < fuel)%nat ->
          run fuel (String "1" "0" ++ ".." ++ String "2" "5") = Some (inr toks))
      /\ kindsAndTexts toks
         = [(Int, String "1" "0"); (DotDot, ".."); (Int, String "2" "5");
            (End, EmptyString)])
  /\ (exists toks,
      (forall fuel,
          (String.length (String "1" "0" ++ "." ++ String "2" "5") < fuel)%nat ->
          run fuel (String "1" "0" ++ "." ++ String "2" "5") = Some (inr toks))
      /\ kindsAndTexts toks
         = [(Float, String "1" "0" ++ "." ++ String "2" "5"); (End, EmptyString)]).
Proof.
  apply (run_range_and_float "1" "2" "0" "5"); reflexivity.
Defined.

Lemma isBlank_not_LF c : isBlank c = true -> Ascii.eqb c chLF = false.
Proof.
  intros H. destruct (Ascii.eqb_spec c chLF) as [->|]; [discriminate | reflexivity].
Qed.

Lemma skipTriviaLoop_blanks ws : forall tail ln cl,
  allChars isBlank ws = true ->
  exists cl', skipTriviaLoop (ws ++ tail) ln cl = skipTriviaLoop tail ln cl'.
Proof.
  induction ws as [|c ws IH]; intros tail ln cl Hws; [rewrite append_nil_l; eauto|].
  cbn [allChars] in Hws. apply andb_true_iff in Hws as [Hc Hws].
  rewrite append_cons. cbn [skipTriviaLoop].
  rewrite (advPos_line c ln cl (isBlank_not_LF c Hc)).
  unfold isBlank in Hc. rewrite Hc. apply IH, Hws.
Qed.

(** After the two slashes, the text of a comment is passed over up to the
    line break or the end of the input. *)
Lemma skipTriviaLoop_comment c tail ln cl :
  allChars (fun x => negb (Ascii.eqb x chLF)) c = true ->
  tail = EmptyString \/ (exists r, tail = String chLF r) ->
  exists cl',
    skipTriviaLoop (String "/" (String "/" (c ++ tail))) ln cl = mkLexer tail ln cl'.
Proof.
  intros Hc Htail. cbn [skipTriviaLoop]. simpl orb. simpl andb. cbv iota.
  rewrite !advPos_line by reflexivity.
  match goal with
  | |- context [?f (c ++ tail) ln ?k] =>
    assert (Hf : forall c ln cl,
               allChars (fun x => negb (Ascii.eqb x chLF)) c = true ->
               exists cl', f (c ++ tail) ln cl = mkLexer tail ln cl');
      [|destruct (Hf c ln k Hc) as [cl' ->]; eauto]
  end.
  clear c Hc. induction c as [|d c IH]; intros ln' cl' Hc.
  - rewrite append_nil_l. destruct Htail as [->|[r ->]].
    + eexists. reflexivity.
    + eexists. cbn beta iota. rewrite Ascii.eqb_refl.
      now rewrite (skipTriviaLoop_stay chLF r ln' cl' eq_refl eq_refl).
  - cbn [allChars] in Hc. apply andb_true_iff in Hc as [Hd Hc].
    apply negb_true_iff in Hd.
    rewrite append_cons. cbn beta iota. rewrite Hd.
    rewrite (advPos_line d ln' cl' Hd). apply IH, Hc.
Qed.

(** Blanks, tabs and carriage returns, then a line comment: [skipTrivia]
    stops at the line break that ends the comment, which is left for the
    [Newline] token, or at the end of the input; the line number has not
    changed. *)
Theorem skipTrivia_line_comment :
  forall (ws c r : string) (ln cl : Z),
    allChars isBlank ws = true ->
    allChars (fun x => negb (Ascii.eqb x chLF)) c = true ->
    (exists cl',
        skipTrivia (mkLexer (ws ++ "//" ++ c ++ String chLF r) ln cl)
        = mkLexer (String chLF r) ln cl')
    /\ (exists cl',
        skipTrivia (mkLexer (ws ++ "//" ++ c) ln cl) = mkLexer EmptyString ln cl').
Proof.
  intros ws c r ln cl Hws Hc. unfold skipTrivia. cbn [rest line_ col_]. split.
  - destruct (skipTriviaLoop_blanks ws ("//" ++ c ++ String chLF r) ln cl Hws)
      as [cl1 ->].
    change ("//" ++ c ++ String chLF r)
      with (String "/" (String "/" (c ++ String chLF r))).
    apply skipTriviaLoop_comment; eauto.
  - destruct (skipTriviaLoop_blanks ws ("//" ++ c) ln cl Hws) as [cl1 ->].
    rewrite <- (append_nil_r c).
    change ("//" ++ c ++ EmptyString)
      with (String "/" (String "/" (c ++ EmptyString))).
    apply skipTriviaLoop_comment; eauto.
Qed.

Example skipTrivia_line_comment_witness :
  (exists cl',
      skipTrivia (mkLexer ("  " ++ "//" ++ " note" ++ String chLF "x = 1") 7 1)
      = mkLexer (String chLF "x = 1") 7 cl')
  /\ (exists cl',
      skipTrivia (mkLexer ("  " ++ "//" ++ " note") 7 1) = mkLexer EmptyString 7 cl').
Proof.
  apply (skipTrivia_line_comment "  " " note" "x = 1" 7 1); reflexivity.
Defined.

End LexerRunFacts.

Section OptExprFacts.
Import Exec.

Lemma wrap64_range z : I64val (wrap64 z).
Proof.
  unfold I64val, wrap64, INT64_MIN, INT64_MAX, two63, two64.
  pose proof (Z.mod_pos_bound (z + 9223372036854775808) 18446744073709551616
                ltac:(lia)). lia.
Qed.

(** Two integers that differ by a multiple of 2^64 are the same
    [int64_t]. *)
Lemma wrap64_eq x y : (two64 | x - y) -> wrap64 x = wrap64 y.
Proof.
  intros [k Hk]. unfold wrap64. f_equal.
  replace (x + two63) with (y + two63 + k * two64) by lia.
  apply Z_mod_plus_full.
Qed.

Lemma wrap64_cong x : (two64 | wrap64 x - x).
Proof.
  unfold wrap64. exists (- ((x + two63) / two64)).
  pose proof (Z.div_mod (x + two63) two64 ltac:(unfold two64; lia)). lia.
Qed.

Lemma neg128_exact a : I64val a -> neg128 a = - a.
Proof.
  unfold I64val, INT64_MIN, INT64_MAX, two63. intros H.
  apply wrap128_id. unfold two127. lia.
Qed.

Lemma sub128_exact a b : I64val a -> I64val b -> sub128 a b = a - b.
Proof.
  unfold I64val, INT64_MIN, INT64_MAX, two63. intros Ha Hb.
  apply wrap128_id. unfold two127. lia.
Qed.

Lemma I64val_wrap64 z : I64val z -> wrap64 z = z.
Proof. apply wrap64_id. Qed.

Lemma inI64_I64val z : inI64 z = true -> I64val z.
Proof. apply inI64_range. Qed.

Section WithNeg.
Variable neg : bool.

(** A constant the optimizer computes is the value of the expression. *)
Lemma evalConstI64Expr_eval e : forall v σ,
  litsI64 e = true ->
  Opt.evalConstI64Expr neg e = Some v ->
  I64val v /\ evalE e σ = Some (VInt v).
Proof.
  induction e as [v0 a|v0 a|v0 a|n a|op x IHx ov a|op l IHl r IHr ov a|f args _ a];
    intros v σ Hl; simpl; try discriminate.
  - intros [= <-]. split; [now apply inI64_I64val | reflexivity].
  - destruct (Opt.plainNeg neg op ov) eqn:Ep; [|discriminate]. simpl.
    unfold Opt.plainNeg in Ep.
    apply andb_true_iff in Ep as [Ep Eop]. apply andb_true_iff in Ep as [Eov _].
    apply bool_decide_eq_true in Eop as ->. rewrite Eov. simpl.
    destruct (Opt.evalConstI64Expr neg x) as [vx|] eqn:Ex; [|discriminate].
    destruct (IHx vx σ Hl eq_refl) as [Hvx ->]. simpl.
    intros H. apply checkedI128ToI64_some in H as [-> Hr].
    rewrite neg128_exact in * by assumption.
    split; [exact Hr|]. unfold neg64. now rewrite I64val_wrap64.
  - simpl in Hl. apply andb_true_iff in Hl as [Hll Hlr].
    destruct (String.eqb ov EmptyString) eqn:Eov; [|discriminate]. simpl.
    destruct (Opt.evalConstI64Expr neg l) as [vl|] eqn:El; [|discriminate].
    destruct (Opt.evalConstI64Expr neg r) as [vr|] eqn:Er; [|discriminate].
    destruct (IHl vl σ Hll eq_refl) as [Hvl ->].
    destruct (IHr vr σ Hlr eq_refl) as [Hvr ->].
    destruct op; try discriminate; intros H;
      apply checkedI128ToI64_some in H as [-> Hr]; simpl.
    + rewrite add128_exact in * by assumption.
      split; [exact Hr|]. unfold add64. now rewrite I64val_wrap64.
    + rewrite sub128_exact in * by assumption.
      split; [exact Hr|]. unfold sub64. now rewrite I64val_wrap64.
    + rewrite mul128_exact in * by assumption.
      split; [exact Hr|]. unfold mul64. now rewrite I64val_wrap64.
Qed.

End WithNeg.

(** Constant evaluation is sound: when [evalConstI64Expr] gives a constant
    for an expression, the constant is an [int64_t] and the expression, as
    emitted, has that value in every store.  An overflow of 64 bits
    anywhere inside makes it give nothing instead. *)
Theorem evalConstI64Expr_sound :
  forall (neg : bool) (e : Expr) (v : Z) (σ : gmap string Val),
    litsI64 e = true ->
    Opt.evalConstI64Expr neg e = Some v ->
    I64val v /\ evalE e σ = Some (VInt v).
Proof. intros neg e v σ. apply evalConstI64Expr_eval. Qed.

Example evalConstI64Expr_sound_witness :
  I64val 14
  /\ evalE (eBin BK.Add (eInt 2) (eBin BK.Mul (eInt 3) (eInt 4))) ∅ = Some (VInt 14).
Proof.
  apply (evalConstI64Expr_sound false
           (eBin BK.Add (eInt 2) (eBin BK.Mul (eInt 3) (eInt 4))) 14 ∅);
    reflexivity.
Defined.

Lemma affineScale_some c x a b :
  I64val c -> I64val (fst x) -> I64val (snd x) ->
  Opt.affineScale c x = Some (a, b) ->
  a = c * fst x /\ b = c * snd x /\ I64val a /\ I64val b.
Proof.
  intros Hc Hx1 Hx2. unfold Opt.affineScale.
  destruct (Opt.checkedI128ToI64 (mul128 c (fst x))) as [a'|] eqn:Ea; [|discriminate].
  destruct (Opt.checkedI128ToI64 (mul128 c (snd x))) as [b'|] eqn:Eb; [|discriminate].
  simpl. intros [= <- <-].
  apply checkedI128ToI64_some in Ea as [-> Ha], Eb as [-> Hb].
  rewrite !mul128_exact in * by assumption.
  split; [reflexivity|split; [reflexivity|split; assumption]].
Qed.

Section WithNeg2.
Variable neg : bool.

(** The two coefficients the optimizer finds for an expression give its
    value, as an [int64_t], for every value of the loop variable. *)
Lemma affineI64ConstExpr_eval e : forall loopVar a b σ i,
  litsI64 e = true ->
  σ !! loopVar = Some (VInt i) -> I64val i ->
  Opt.affineI64ConstExpr neg e loopVar = Some (a, b) ->
  I64val a /\ I64val b /\ evalE e σ = Some (VInt (wrap64 (a * i + b))).
Proof.
  induction e as [v0 an|v0 an|v0 an|n an|op x IHx ov an|op l IHl r IHr ov an|f args _ an];
    intros loopVar a b σ i Hl Hi Hri; simpl; try discriminate.
  - intros [= <- <-]. apply inI64_I64val in Hl.
    split; [unfold I64val, INT64_MIN, INT64_MAX, two63; lia|].
    split; [exact Hl|]. simpl. now rewrite I64val_wrap64.
  - destruct (String.eqb_spec n loopVar) as [->|]; [|discriminate].
    intros [= <- <-].
    split; [unfold I64val, INT64_MIN, INT64_MAX, two63; lia|].
    split; [unfold I64val, INT64_MIN, INT64_MAX, two63; lia|].
    rewrite Hi. do 2 f_equal. rewrite I64val_wrap64; [lia|].
    now replace (1 * i + 0) with i by lia.
  - destruct (Opt.plainNeg neg op ov) eqn:Ep; [|discriminate]. simpl.
    unfold Opt.plainNeg in Ep.
    apply andb_true_iff in Ep as [Ep Eop]. apply andb_true_iff in Ep as [Eov _].
    apply bool_decide_eq_true in Eop as ->. rewrite Eov. simpl.
    destruct (Opt.affineI64ConstExpr neg x loopVar) as [[xa xb]|] eqn:Ex; [|discriminate].
    destruct (IHx loopVar xa xb σ i Hl Hi Hri Ex) as (Hxa & Hxb & ->). simpl.
    destruct (Opt.checkedI128ToI64 (neg128 xa)) as [a'|] eqn:Ea; [|discriminate].
    destruct (Opt.checkedI128ToI64 (neg128 xb)) as [b'|] eqn:Eb; [|discriminate].
    simpl. intros [= <- <-].
    apply checkedI128ToI64_some in Ea as [-> Ha], Eb as [-> Hb].
    rewrite (neg128_exact xa Hxa), (neg128_exact xb Hxb) in *.
    split; [assumption|split; [assumption|]]. do 2 f_equal. unfold neg64.
    apply wrap64_eq. destruct (wrap64_cong (xa * i + xb)) as [k Hk].
    exists (- k). lia.
  - simpl in Hl. apply andb_true_iff in Hl as [Hll Hlr].
    destruct (String.eqb ov EmptyString) eqn:Eov; [|discriminate]. simpl.
    destruct op; simpl; try discriminate.
    + (* Add *)
      destruct (Opt.affineI64ConstExpr neg l loopVar) as [[la lb]|] eqn:El; [|discriminate].
      destruct (Opt.affineI64ConstExpr neg r loopVar) as [[ra rb]|] eqn:Er; [|discriminate].
      destruct (IHl loopVar la lb σ i Hll Hi Hri El) as (Hla & Hlb & ->).
      destruct (IHr loopVar ra rb σ i Hlr Hi Hri Er) as (Hra & Hrb & ->).
      simpl. unfold Opt.signOf. simpl.
      destruct (Opt.checkedI128ToI64 (add128 la (mul128 1 ra))) as [a'|] eqn:Ea;
        [|discriminate].
      destruct (Opt.checkedI128ToI64 (add128 lb (mul128 1 rb))) as [b'|] eqn:Eb;
        [|discriminate].
      simpl. intros [= <- <-].
      apply checkedI128ToI64_some in Ea as [-> Ha], Eb as [-> Hb].
      assert (H1 : I64val 1) by (unfold I64val, INT64_MIN, INT64_MAX, two63; lia).
      rewrite (mul128_exact 1 ra), (mul128_exact 1 rb) in * by assumption.
      replace (1 * ra) with ra in * by lia. replace (1 * rb) with rb in * by lia.
      rewrite (add128_exact la ra Hla Hra), (add128_exact lb rb Hlb Hrb) in *.
      split; [assumption|split; [assumption|]]. do 2 f_equal. unfold add64.
      apply wrap64_eq.
      destruct (wrap64_cong (la * i + lb)) as [k1 Hk1].
      destruct (wrap64_cong (ra * i + rb)) as [k2 Hk2].
      exists (k1 + k2). lia.
    + (* Sub *)
      destruct (Opt.affineI64ConstExpr neg l loopVar) as [[la lb]|] eqn:El; [|discriminate].
      destruct (Opt.affineI64ConstExpr neg r loopVar) as [[ra rb]|] eqn:Er; [|discriminate].
      destruct (IHl loopVar la lb σ i Hll Hi Hri El) as (Hla & Hlb & ->).
      destruct (IHr loopVar ra rb σ i Hlr Hi Hri Er) as (Hra & Hrb & ->).
      simpl. unfold Opt.signOf. simpl.
      destruct (Opt.checkedI128ToI64 (add128 la (mul128 (-1) ra))) as [a'|] eqn:Ea;
        [|discriminate].
      destruct (Opt.checkedI128ToI64 (add128 lb (mul128 (-1) rb))) as [b'|] eqn:Eb;
        [|discriminate].
      simpl. intros [= <- <-].
      apply checkedI128ToI64_some in Ea as [Ea Ha], Eb as [Eb Hb].
      assert (Hwa : add128 la (mul128 (-1) ra) = la - ra).
      { unfold add128, mul128. unfold I64val, INT64_MIN, INT64_MAX, two63 in *.
        rewrite (wrap128_id (-1 * ra)) by (unfold two127; lia).
        apply wrap128_id. unfold two127. lia. }
      assert (Hwb : add128 lb (mul128 (-1) rb) = lb - rb).
      { unfold add128, mul128. unfold I64val, INT64_MIN, INT64_MAX, two63 in *.
        rewrite (wrap128_id (-1 * rb)) by (unfold two127; lia).
        apply wrap128_id. unfold two127. lia. }
      rewrite Hwa in *. rewrite Hwb in *. subst a' b'.
      split; [assumption|split; [assumption|]]. do 2 f_equal. unfold sub64.
      apply wrap64_eq.
      destruct (wrap64_cong (la * i + lb)) as [k1 Hk1].
      destruct (wrap64_cong (ra * i + rb)) as [k2 Hk2].
      exists (k1 - k2). lia.
    + (* Mul *)
      destruct (Opt.evalConstI64Expr neg l) as [lc|] eqn:Elc.
      * destruct (evalConstI64Expr_eval neg l lc σ Hll Elc) as [Hlc ->].
        destruct (Opt.affineI64ConstExpr neg r loopVar) as [[ra rb]|] eqn:Er;
          [|discriminate].
        destruct (IHr loopVar ra rb σ i Hlr Hi Hri Er) as (Hra & Hrb & ->).
        simpl. intros H.
        apply affineScale_some in H as (-> & -> & Ha & Hb); try assumption.
        simpl in *. split; [assumption|split; [assumption|]]. do 2 f_equal. unfold mul64.
        apply wrap64_eq. destruct (wrap64_cong (ra * i + rb)) as [k Hk].
        exists (lc * k). nia.
      * destruct (Opt.evalConstI64Expr neg r) as [rc|] eqn:Erc; [|discriminate].
        destruct (evalConstI64Expr_eval neg r rc σ Hlr Erc) as [Hrc Hre].
        destruct (Opt.affineI64ConstExpr neg l loopVar) as [[la lb]|] eqn:El;
          [|discriminate].
        destruct (IHl loopVar la lb σ i Hll Hi Hri El) as (Hla & Hlb & ->).
        rewrite Hre. simpl. intros H.
        apply affineScale_some in H as (-> & -> & Ha & Hb); try assumption.
        simpl in *. split; [assumption|split; [assumption|]]. do 2 f_equal. unfold mul64.
        apply wrap64_eq. destruct (wrap64_cong (la * i + lb)) as [k Hk].
        exists (rc * k). nia.
Qed.

End WithNeg2.

(** The affine classification is sound: when [affineI64ConstExpr] gives
    [(a, b)] for an expression and a loop variable, the expression, as
    emitted, has the value [a * i + b] reduced to 64 bits whenever the loop
    variable holds [i]; the two coefficients are [int64_t]s. *)
Theorem affineI64ConstExpr_sound :
  forall (neg : bool) (e : Expr) (loopVar : string) (a b : Z)
         (σ : gmap string Val) (i : Z),
    litsI64 e = true ->
    σ !! loopVar = Some (VInt i) -> I64val i ->
    Opt.affineI64ConstExpr neg e loopVar = Some (a, b) ->
    I64val a /\ I64val b /\ evalE e σ = Some (VInt (wrap64 (a * i + b))).
Proof. intros neg e. apply affineI64ConstExpr_eval. Qed.

Example affineI64ConstExpr_sound_witness :
  I64val 3 /\ I64val (-2)
  /\ evalE (eBin BK.Sub (eBin BK.Mul (eInt 3) (eVar "i")) (eInt 2))
           {[ "i" := VInt 5 ]}
     = Some (VInt (wrap64 (3 * 5 + -2))).
Proof.
  apply (affineI64ConstExpr_sound false
           (eBin BK.Sub (eBin BK.Mul (eInt 3) (eVar "i")) (eInt 2)) "i" 3 (-2)
           {[ "i" := VInt 5 ]} 5);
    try reflexivity.
  unfold I64val, INT64_MIN, INT64_MAX, two63. lia.
Defined.

(** Substituting a number for a variable and evaluating is evaluating with
    the variable set to the number. *)
Theorem substVarWithI64_evalE :
  forall (e : Expr) (name : string) (value : Z) (σ : gmap string Val),
    evalE (Opt.substVarWithI64 e name value) σ
    = evalE e (<[name := VInt value]> σ).
Proof.
  intros e name value σ. unfold Opt.substVarWithI64.
  induction e as [v0 a|v0 a|v0 a|n a|op x IHx ov a|op l IHl r IHr ov a|f args _ a];
    simpl; try reflexivity.
  - destruct (decide (n = name)) as [->|Hn].
    + now rewrite lookup_singleton_eq, lookup_insert_eq.
    + rewrite lookup_singleton_ne, lookup_insert_ne by congruence. reflexivity.
  - now rewrite IHx.
  - now rewrite IHl, IHr.
Qed.

(** ** [optE] keeps the value of an expression *)

Lemma evalE_I64 e σ z :
  litsI64 e = true -> storeI64 σ -> evalE e σ = Some (VInt z) -> I64val z.
Proof.
  intros Hl Hs. destruct e as [v a|v a|v a|n a|op x ov a|op l r ov a|f args a];
    simpl; try discriminate.
  - intros [= <-]. now apply inI64_I64val.
  - apply Hs.
  - destruct (negb (String.eqb ov EmptyString)); [discriminate|].
    destruct op, (evalE x σ) as [[zx|bx|sx]|]; try discriminate;
      intros [= <-]; apply wrap64_range.
  - destruct (negb (String.eqb ov EmptyString)); [discriminate|].
    destruct op;
      repeat match goal with
             | |- context [match evalE ?t σ with _ => _ end] =>
               destruct (evalE t σ) as [[?|[|]|?]|]
             end;
      simpl; try discriminate;
      repeat match goal with
             | |- context [if ?b then _ else _] => destruct b
             end;
      try discriminate; intros [= <-]; apply wrap64_range.
Qed.

Lemma litI_inv e v : Opt.litI e = Some v -> exists a, e = EInt v a.
Proof. destruct e; try discriminate. intros [= <-]. eauto. Qed.

Lemma litB_inv e v : Opt.litB e = Some v -> exists a, e = EBool v a.
Proof. destruct e; try discriminate. intros [= <-]. eauto. Qed.

Lemma isZero_inv e : Opt.isZero e = true -> exists a, e = EInt 0 a.
Proof.
  unfold Opt.isZero. destruct (Opt.litI e) as [i|] eqn:E; [|discriminate].
  intros H. apply Z.eqb_eq in H as ->. now apply litI_inv.
Qed.

Lemma isOne_inv e : Opt.isOne e = true -> exists a, e = EInt 1 a.
Proof.
  unfold Opt.isOne. destruct (Opt.litI e) as [i|] eqn:E; [|discriminate].
  intros H. apply Z.eqb_eq in H as ->. now apply litI_inv.
Qed.

Lemma add64_0_r z : I64val z -> add64 z 0 = z.
Proof. intros H. unfold add64. rewrite Z.add_0_r. now apply I64val_wrap64. Qed.
Lemma add64_0_l z : I64val z -> add64 0 z = z.
Proof. intros H. unfold add64. now apply I64val_wrap64. Qed.
Lemma sub64_0_r z : I64val z -> sub64 z 0 = z.
Proof. intros H. unfold sub64. rewrite Z.sub_0_r. now apply I64val_wrap64. Qed.
Lemma sub64_diag z : sub64 z z = 0.
Proof. unfold sub64. now rewrite Z.sub_diag. Qed.
Lemma mul64_1_r z : I64val z -> mul64 z 1 = z.
Proof. intros H. unfold mul64. rewrite Z.mul_1_r. now apply I64val_wrap64. Qed.
Lemma mul64_1_l z : I64val z -> mul64 1 z = z.
Proof. intros H. unfold mul64. rewrite Z.mul_1_l. now apply I64val_wrap64. Qed.
Lemma div64_1_r z : I64val z -> div64 z 1 = z.
Proof. intros H. unfold div64. rewrite Z.quot_1_r. now apply I64val_wrap64. Qed.

(** Folding two literals gives the literal of the value. *)
Lemma foldBin_sound op l' r' e σ x y w :
  Opt.foldBin op l' r' EmptyString = Some (Some e) ->
  evalE l' σ = Some x -> evalE r' σ = Some y ->
  op <> BK.And -> op <> BK.Or ->
  evalBinary op x y = Some w ->
  evalE e σ = Some w.
Proof.
  unfold Opt.foldBin. simpl. intros Hf Hx Hy Hand Hor Hw.
  destruct (Opt.litI l') as [a|] eqn:Ela.
  - apply litI_inv in Ela as [? ->]. simpl in Hx. injection Hx as <-.
    destruct (Opt.litI r') as [b|] eqn:Elb.
    + apply litI_inv in Elb as [? ->]. simpl in Hy. injection Hy as <-.
      destruct op; simpl in *; try congruence;
        try (injection Hf as <-; simpl; congruence).
      * destruct (b =? 0); [discriminate|]. simpl in Hw.
        unfold cdiv64, divOverflows in Hf.
        destruct ((a =? INT64_MIN) && (b =? -1)); [discriminate|].
        injection Hf as <-. simpl. congruence.
      * destruct (b =? 0); [discriminate|]. simpl in Hw.
        unfold crem64, divOverflows in Hf.
        destruct ((a =? INT64_MIN) && (b =? -1)); [discriminate|].
        injection Hf as <-. simpl. congruence.
    + simpl in Hf. discriminate.
  - assert (Hf0 : match Opt.litB l', Opt.litB r' with
                  | Some lb, Some rb =>
                    match op with
                    | BK.Eq => Some (EBool (Bool.eqb lb rb) noAnn)
                    | BK.Neq => Some (EBool (negb (Bool.eqb lb rb)) noAnn)
                    | BK.And => Some (EBool (lb && rb) noAnn)
                    | BK.Or => Some (EBool (lb || rb) noAnn)
                    | _ => None
                    end
                  | _, _ => None
                  end = Some e) by (destruct (Opt.litI r'); now injection Hf).
    clear Hf. rename Hf0 into Hf.
    destruct (Opt.litB l') as [lb|] eqn:Elb; [|discriminate].
    apply litB_inv in Elb as [? ->]. simpl in Hx. injection Hx as <-.
    assert (Hf' : match Opt.litB r' with
                  | Some rb =>
                    match op with
                    | BK.Eq => Some (EBool (Bool.eqb lb rb) noAnn)
                    | BK.Neq => Some (EBool (negb (Bool.eqb lb rb)) noAnn)
                    | BK.And => Some (EBool (lb && rb) noAnn)
                    | BK.Or => Some (EBool (lb || rb) noAnn)
                    | _ => None
                    end
                  | None => None
                  end = Some e) by exact Hf.
    clear Hf. destruct (Opt.litB r') as [rb|] eqn:Erb; [|discriminate].
    apply litB_inv in Erb as [? ->]. simpl in Hy. injection Hy as <-.
    destruct op; simpl in *; try congruence; injection Hf' as <-; simpl; congruence.
Qed.

Lemma classic_bk (op : BK.t) :
  (op = BK.And \/ op = BK.Or) \/ (op <> BK.And /\ op <> BK.Or).
Proof. destruct op; auto; right; split; discriminate. Qed.

Lemma foldBin_logic_none l' r' :
  Opt.litB l' = None \/ Opt.litB r' = None ->
  forall op, op = BK.And \/ op = BK.Or ->
  Opt.foldBin op l' r' EmptyString = Some None.
Proof.
  intros Hn op Hop. unfold Opt.foldBin. simpl.
  destruct (Opt.litI l') as [a|] eqn:Ea.
  - apply litI_inv in Ea as [? ->].
    destruct (Opt.litI r'); [destruct Hop as [-> | ->]; reflexivity|].
    simpl. reflexivity.
  - assert (Opt.litB l' = None \/ Opt.litB r' = None) as [H|H] by exact Hn.
    + rewrite H. now destruct (Opt.litI r').
    + rewrite H. destruct (Opt.litI r'), (Opt.litB l'); reflexivity.
Qed.

(** What [optE] does at a binary node keeps the value, given operands that
    keep theirs. *)
Lemma optBinary_sound op l r l' r' ov a ch σ w res :
  (forall v, evalE l σ = Some v -> evalE l' σ = Some v) ->
  (forall v, evalE r σ = Some v -> evalE r' σ = Some v) ->
  (forall z, evalE l σ = Some (VInt z) -> I64val z) ->
  (forall z, evalE r σ = Some (VInt z) -> I64val z) ->
  Opt.optBinary op l' r' ov a ch = Some res ->
  evalE (EBinary op l r ov a) σ = Some w ->
  evalE (fst res) σ = Some w.
Proof.
  intros Hl Hr Rl Rr Hopt. unfold Opt.optBinary in Hopt.
  destruct (Opt.foldBin op l' r' ov) as [folded|] eqn:Ef; [|discriminate].
  cbn [mbind option_bind] in Hopt. injection Hopt as <-. simpl.
  destruct (String.eqb_spec ov EmptyString) as [->|]; [|discriminate]. simpl.
  destruct (classic_bk op) as [[-> | ->]|Hop].
  - (* And *)
    destruct (evalE l σ) as [[?|lb|?]|] eqn:El; try discriminate.
    specialize (Hl _ eq_refl).
    destruct (Opt.litB l') as [lb'|] eqn:Elb.
    + apply litB_inv in Elb as [? ->]. simpl in Hl. injection Hl as ->.
      destruct (Opt.litB r') as [rb'|] eqn:Erb.
      * apply litB_inv in Erb as [? ->]. simpl in Ef. injection Ef as <-. simpl.
        destruct lb; [|now intros [= <-]].
        destruct (evalE r σ) as [[?|rb|?]|] eqn:Er; try discriminate.
        specialize (Hr _ eq_refl). simpl in Hr. injection Hr as ->.
        now intros [= <-].
      * rewrite foldBin_logic_none in Ef by auto. injection Ef as <-. simpl.
        destruct lb; simpl; [|now intros [= <-]].
        destruct (evalE r σ) as [[?|rb|?]|] eqn:Er; try discriminate.
        intros [= <-]. now apply Hr.
    + rewrite foldBin_logic_none in Ef by auto. injection Ef as <-. simpl.
      destruct (Opt.litB r') as [rb'|] eqn:Erb.
      * apply litB_inv in Erb as [? ->]. simpl.
        destruct lb.
        -- destruct (evalE r σ) as [[?|rb|?]|] eqn:Er; try discriminate.
           specialize (Hr _ eq_refl). simpl in Hr. injection Hr as ->.
           intros [= <-]. now destruct rb.
        -- intros [= <-]. now destruct rb'.
      * simpl. rewrite Hl.
        destruct lb; [|now intros [= <-]].
        destruct (evalE r σ) as [[?|rb|?]|] eqn:Er; try discriminate.
        specialize (Hr _ eq_refl). now rewrite Hr.
  - (* Or *)
    destruct (evalE l σ) as [[?|lb|?]|] eqn:El; try discriminate.
    specialize (Hl _ eq_refl).
    destruct (Opt.litB l') as [lb'|] eqn:Elb.
    + apply litB_inv in Elb as [? ->]. simpl in Hl. injection Hl as ->.
      destruct (Opt.litB r') as [rb'|] eqn:Erb.
      * apply litB_inv in Erb as [? ->]. simpl in Ef. injection Ef as <-. simpl.
        destruct lb; [now intros [= <-]|].
        destruct (evalE r σ) as [[?|rb|?]|] eqn:Er; try discriminate.
        specialize (Hr _ eq_refl). simpl in Hr. injection Hr as ->.
        now intros [= <-].
      * rewrite foldBin_logic_none in Ef by auto. injection Ef as <-. simpl.
        destruct lb; simpl; [now intros [= <-]|].
        destruct (evalE r σ) as [[?|rb|?]|] eqn:Er; try discriminate.
        intros [= <-]. now apply Hr.
    + rewrite foldBin_logic_none in Ef by auto. injection Ef as <-. simpl.
      destruct (Opt.litB r') as [rb'|] eqn:Erb.
      * apply litB_inv in Erb as [? ->]. simpl.
        destruct lb.
        -- intros [= <-]. now destruct rb'.
        -- destruct (evalE r σ) as [[?|rb|?]|] eqn:Er; try discriminate.
           specialize (Hr _ eq_refl). simpl in Hr. injection Hr as ->.
           intros [= <-]. now destruct rb.
      * simpl. rewrite Hl.
        destruct lb; [now intros [= <-]|].
        destruct (evalE r σ) as [[?|rb|?]|] eqn:Er; try discriminate.
        specialize (Hr _ eq_refl). now rewrite Hr.
  - (* the operators that evaluate both operands *)
    destruct Hop as [Hand Hor].
    intros H.
    assert (exists x y, evalE l σ = Some x /\ evalE r σ = Some y
                        /\ evalBinary op x y = Some w) as (x & y & El & Er & Hw).
    { destruct op; try congruence;
        destruct (evalE l σ) as [x|], (evalE r σ) as [y|]; try discriminate;
        eauto. }
    clear H.
    pose proof (Hl _ El) as El'. pose proof (Hr _ Er) as Er'.
    destruct folded as [e|].
    { simpl. eapply foldBin_sound; eauto. }
    assert (Hkeep : evalE (EBinary op l' r' EmptyString a) σ = Some w).
    { simpl. rewrite El', Er'. destruct op; congruence. }
    destruct op; try exact Hkeep; try congruence.
    + (* Add *)
      destruct (Opt.isZero r') eqn:Zr.
      { apply isZero_inv in Zr as [? ->]. simpl in Er'. injection Er' as <-.
        destruct x as [z| |]; try discriminate. simpl in Hw. injection Hw as <-.
        simpl. rewrite El'. now rewrite add64_0_r by (now apply Rl). }
      destruct (Opt.isZero l') eqn:Zl; [|exact Hkeep].
      apply isZero_inv in Zl as [? ->]. simpl in El'. injection El' as <-.
      destruct y as [z| |]; try discriminate. simpl in Hw. injection Hw as <-.
      simpl. rewrite Er'. now rewrite add64_0_l by (now apply Rr).
    + (* Sub *)
      destruct (Opt.isZero r') eqn:Zr.
      { apply isZero_inv in Zr as [? ->]. simpl in Er'. injection Er' as <-.
        destruct x as [z| |]; try discriminate. simpl in Hw. injection Hw as <-.
        simpl. rewrite El'. now rewrite sub64_0_r by (now apply Rl). }
      destruct l' as [| | |ln ?| | |]; try exact Hkeep.
      destruct r' as [| | |rn ?| | |]; try exact Hkeep.
      destruct (String.eqb_spec ln rn) as [->|]; [|exact Hkeep].
      cbn [andb]. destruct (typed a && bool_decide (inf a = Ty.I64)); [|exact Hkeep].
      simpl in El', Er'. rewrite El' in Er'. injection Er' as <-.
      destruct x as [z| |]; try discriminate. simpl in Hw. injection Hw as <-.
      simpl. now rewrite sub64_diag.
    + (* Mul *)
      destruct (Opt.isOne r') eqn:Zr.
      { apply isOne_inv in Zr as [? ->]. simpl in Er'. injection Er' as <-.
        destruct x as [z| |]; try discriminate. simpl in Hw. injection Hw as <-.
        simpl. rewrite El'. now rewrite mul64_1_r by (now apply Rl). }
      destruct (Opt.isOne l') eqn:Zl; [|exact Hkeep].
      apply isOne_inv in Zl as [? ->]. simpl in El'. injection El' as <-.
      destruct y as [z| |]; try discriminate. simpl in Hw. injection Hw as <-.
      simpl. rewrite Er'. now rewrite mul64_1_l by (now apply Rr).
    + (* Div *)
      destruct (Opt.isOne r') eqn:Zr; [|exact Hkeep].
      apply isOne_inv in Zr as [? ->]. simpl in Er'. injection Er' as <-.
      destruct x as [z| |]; try discriminate. simpl in Hw.
      rewrite andb_false_r in Hw. simpl in Hw. injection Hw as <-.
      simpl. rewrite El'. now rewrite div64_1_r by (now apply Rl).
    + (* Pow *)
      destruct x, y; discriminate.
Qed.

Section WithCandidates.
Variable cand : string -> option Fn.t.

Lemma optE_eval fuel : forall e e' ch σ w,
  litsI64 e = true -> storeI64 σ ->
  Opt.optE cand fuel e = Some (e', ch) ->
  evalE e σ = Some w -> evalE e' σ = Some w.
Proof.
  induction fuel as [|fuel IH]; intros e e' ch σ w Hl Hs; [discriminate|].
  destruct e as [v a|v a|v a|n a|op x ov a|op l r ov a|f args a];
    try (simpl; intros [= <- <-]; exact id).
  - cbn [Opt.optE].
    destruct (Opt.optE cand fuel x) as [[x' c]|] eqn:Ex; [|discriminate].
    simpl in Hl. cbn [mbind option_bind].
    intros Ho He. simpl in He.
    destruct (String.eqb ov EmptyString) eqn:Eov; [|discriminate].
    simpl in He, Ho.
    destruct (evalE x σ) as [vx|] eqn:Evx; [|destruct op; discriminate].
    pose proof (IH _ _ _ _ _ Hl Hs Ex Evx) as Ex'.
    destruct op.
    + destruct vx as [z| |]; try discriminate. injection He as <-.
      destruct (Opt.litI x') as [i|] eqn:Ei.
      * apply litI_inv in Ei as [? ->]. injection Ho as <- <-.
        simpl in Ex'. injection Ex' as ->. reflexivity.
      * injection Ho as <- <-. simpl. now rewrite Eov, Ex'.
    + destruct vx as [|b|]; try discriminate. injection He as <-.
      destruct (Opt.litB x') as [i|] eqn:Ei.
      * apply litB_inv in Ei as [? ->]. injection Ho as <- <-.
        simpl in Ex'. injection Ex' as ->. reflexivity.
      * injection Ho as <- <-. simpl. now rewrite Eov, Ex'.
  - cbn [Opt.optE].
    destruct (Opt.optE cand fuel l) as [[l' c1]|] eqn:El; [|discriminate].
    destruct (Opt.optE cand fuel r) as [[r' c2]|] eqn:Er; [|discriminate].
    cbn [mbind option_bind]. simpl in Hl. apply andb_true_iff in Hl as [Hll Hlr].
    intros Ho He.
    pose proof (optBinary_sound op l r l' r' ov a (c1 || c2) σ w (e', ch)) as Hb.
    apply Hb; try assumption.
    + intros v. now apply IH with (ch := c1).
    + intros v. now apply IH with (ch := c2).
    + intros z. now apply evalE_I64.
    + intros z. now apply evalE_I64.
  - intros _. discriminate.
Qed.

(** The call of [foldBin] has a result unless it divides by the literal
    [-1]. *)
Lemma foldBin_defined op l' r' ov :
  (op = BK.Div \/ op = BK.Mod -> exists v a, r' = EInt v a /\ v <> -1) ->
  exists f, Opt.foldBin op l' r' ov = Some f.
Proof.
  intros Hd. unfold Opt.foldBin.
  destruct (negb (String.eqb ov EmptyString)); [eauto|].
  destruct (Opt.litI l') as [lv|]; [|destruct (Opt.litI r'); eauto].
  destruct (Opt.litI r') as [rv|] eqn:Er; [|eauto].
  destruct op; eauto.
  - destruct Hd as (v & a & -> & Hv); [now left|]. injection Er as <-.
    destruct (v =? 0); [eauto|]. unfold cdiv64, divOverflows.
    destruct (Z.eqb_spec v (-1)); [contradiction|]. rewrite andb_false_r. cbn. eauto.
  - destruct Hd as (v & a & -> & Hv); [now right|]. injection Er as <-.
    destruct (v =? 0); [eauto|]. unfold crem64, divOverflows.
    destruct (Z.eqb_spec v (-1)); [contradiction|]. rewrite andb_false_r. cbn. eauto.
  - destruct (_ <? 0); eauto.
Qed.

Lemma optE_total fuel : forall e,
  callFree e = true -> divSafe e = true -> (depth e < fuel)%nat ->
  exists r, Opt.optE cand fuel e = Some r.
Proof.
  induction fuel as [|fuel IH]; intros e Hc Hv Hd; [lia|].
  destruct e as [v a|v a|v a|n a|op x ov a|op l r ov a|f args a];
    try (simpl; eauto; fail).
  - simpl in Hc, Hv, Hd. cbn [Opt.optE].
    destruct (IH x Hc Hv ltac:(lia)) as [[x' c] ->]. cbn [mbind option_bind].
    destruct (negb (String.eqb ov EmptyString)); [eauto|].
    destruct op; [destruct (Opt.litI x') | destruct (Opt.litB x')]; eauto.
  - simpl in Hc, Hd. cbn [divSafe] in Hv. apply andb_true_iff in Hc as [Hcl Hcr].
    apply andb_true_iff in Hv as [Hv Hvr]. apply andb_true_iff in Hv as [Hop Hvl].
    cbn [Opt.optE].
    destruct (IH l Hcl Hvl ltac:(lia)) as [[l' c1] ->].
    destruct (IH r Hcr Hvr ltac:(lia)) as [[r' c2] Er]. rewrite Er.
    cbn [mbind option_bind]. unfold Opt.optBinary.
    destruct (foldBin_defined op l' r' ov) as [f ->]; [|cbn [mbind option_bind]; eauto].
    intros Hdm.
    assert (Hlit : match r with EInt v _ => negb (v =? -1) | _ => false end = true).
    { destruct Hdm as [-> | ->]; exact Hop. }
    destruct r as [v ra| | | | | |]; try discriminate Hlit.
    destruct fuel as [|fuel']; [lia|]. cbn in Er. injection Er as <- _.
    exists v, ra. split; [reflexivity|].
    apply negb_true_iff, Z.eqb_neq in Hlit. exact Hlit.
  - discriminate.
Qed.

(** The quotient and the remainder of the literals [INT64_MIN] and [-1] are
    folded by the undefined division: [optE] has no result on them,
    whatever the fuel. *)
Lemma optE_division_overflow fuel op a1 a2 a :
  op = BK.Div \/ op = BK.Mod ->
  Opt.optE cand fuel (EBinary op (EInt INT64_MIN a1) (EInt (-1) a2) EmptyString a)
  = None.
Proof.
  intros Hop. destruct fuel as [|[|fuel]]; [reflexivity| reflexivity |].
  destruct Hop as [-> | ->]; reflexivity.
Qed.

End WithCandidates.

(** Expression optimization keeps values: whatever [optE] returns for an
    expression (constant folding, the algebraic identities, inlining in
    operands that are not evaluated) has, in every store of [int64_t]s,
    the value the expression had, whenever it had one. *)
Theorem optE_preserves_value :
  forall (cand : string -> option Fn.t) (fuel : nat) (e e' : Expr) (ch : bool)
         (σ : gmap string Val) (w : Val),
    litsI64 e = true -> storeI64 σ ->
    Opt.optE cand fuel e = Some (e', ch) ->
    evalE e σ = Some w ->
    evalE e' σ = Some w.
Proof. intros cand fuel. apply optE_eval. Qed.

(** [optE] returns on every expression without calls in which every [/]
    and [%] has an integer literal other than [-1] as its right operand, as
    soon as the fuel exceeds the depth of the expression.  (A [/] or [%]
    whose operands fold to [INT64_MIN] and [-1] is the undefined division
    of [foldBin], where [optE] has no result.) *)
Theorem optE_total_safe_division :
  forall (cand : string -> option Fn.t) (fuel : nat) (e : Expr),
    callFree e = true -> divSafe e = true -> (depth e < fuel)%nat ->
    exists r, Opt.optE cand fuel e = Some r.
Proof. intros cand fuel. apply optE_total. Qed.

Example optE_preserves_value_witness :
  evalE (EVar "x" noAnn) {[ "x" := VInt 7 ]} = Some (VInt 7).
Proof.
  apply (optE_preserves_value (fun _ => None) 5
           (eBin BK.Mul (eBin BK.Add (EVar "x" noAnn) (eInt 0)) (eInt 1))
           (EVar "x" noAnn) true {[ "x" := VInt 7 ]} (VInt 7)).
  - reflexivity.
  - intros n z H. apply lookup_singleton_Some in H as [_ [= <-]].
    unfold I64val, INT64_MIN, INT64_MAX, two63. lia.
  - vm_compute. reflexivity.
  - vm_compute. reflexivity.
Defined.

Example optE_total_safe_division_witness :
  exists r,
    Opt.optE (fun _ => None) 3
      (eBin BK.Mod (eBin BK.Add (EVar "x" noAnn) (eInt 0)) (eInt 2)) = Some r.
Proof.
  apply (optE_total_safe_division (fun _ => None) 3
           (eBin BK.Mod (eBin BK.Add (EVar "x" noAnn) (eInt 0)) (eInt 2)));
    [reflexivity | reflexivity | simpl; lia].
Defined.

End OptExprFacts.

Section TypeCheckFacts.
Import TypeCheck.

Lemma post_ret {A} (a : A) (Q : A -> Prop) : Q a -> post (ret a) Q.
Proof. intros H st a' st' [= <- _]. exact H. Qed.

Lemma post_throw {A} (m : string) (Q : A -> Prop) : post (throw m) Q.
Proof. intros st a st' H. discriminate. Qed.

Lemma post_bind {A B} (m : M A) (k : A -> M B) (Q : B -> Prop) :
  (forall a, post (k a) Q) -> post (bind k m) Q.
Proof.
  intros H st b st' Hb. apply bind_inr in Hb as (a & st1 & _ & Hk).
  exact (H a st1 b st' Hk).
Qed.

Lemma post_bind_with {A B} (P : A -> Prop) (m : M A) (k : A -> M B) (Q : B -> Prop) :
  post m P -> (forall a, P a -> post (k a) Q) -> post (bind k m) Q.
Proof.
  intros Hm H st b st' Hb. apply bind_inr in Hb as (a & st1 & Ha & Hk).
  exact (H a (Hm _ _ _ Ha) st1 b st' Hk).
Qed.

Section Mode.
Variable su : bool.

Lemma post_mark e t : post (mark e t) (fun r => annOf (snd r) = mkAnn (fst r) true).
Proof. apply post_ret. now destruct e. Qed.

Lemma post_failType e m t :
  post (failType su e m t) (fun r => annOf (snd r) = mkAnn (fst r) true).
Proof.
  unfold failType. destruct su; [|apply post_throw].
  apply post_bind. intros _. apply post_mark.
Qed.

Ltac post_step :=
  first
    [ apply post_mark
    | apply post_failType
    | apply post_throw
    | apply post_bind; intros
    | match goal with
      | |- post (let '(_, _) := ?a in _) _ => destruct a
      | |- post (match ?x with _ => _ end) _ => destruct x
      | |- post (if ?b then _ else _) _ => destruct b
      end ].

Lemma post_unaryDefault node op t :
  post (unaryDefault su node op t) (fun r => annOf (snd r) = mkAnn (fst r) true).
Proof. unfold unaryDefault. repeat post_step. Qed.

Lemma post_binaryDefault node op a b r :
  post (binaryDefault su node op a b r)
       (fun r => annOf (snd r) = mkAnn (fst r) true).
Proof. unfold binaryDefault. repeat post_step. Qed.

Lemma post_callResolved f fnName a args argTypes thr :
  post (callResolved su f fnName a args argTypes thr)
       (fun r => annOf (snd r) = mkAnn (fst r) true).
Proof. unfold callResolved. repeat post_step. Qed.

Lemma post_spawnTarget f a tf targs ta :
  post (spawnTarget su f a tf targs ta)
       (fun r => annOf (snd r) = mkAnn (fst r) true).
Proof. unfold spawnTarget. repeat post_step. Qed.

Lemma post_expr e l thr :
  post (expr su e l thr) (fun r => annOf (snd r) = mkAnn (fst r) true).
Proof.
  destruct e as [v a|v a|v a|n a|op x ov a|op lhs rhs ov a|f args a];
    cbn [expr]; unfold mbind, M_bind;
    repeat first [ apply post_unaryDefault | apply post_binaryDefault
                 | apply post_callResolved | apply post_spawnTarget | post_step ].
Qed.

End Mode.

(** Whatever node [expr] returns carries the type [expr] returns for it,
    with the flag [typed] set: this is what the emitter reads. *)
Theorem expr_annotates :
  forall (su : bool) (e : Expr) (l : gmap string Local.t) (thr : gset string)
         (st : State)
         (t : Ty.t) (e' : Expr) (st' : State),
    expr su e l thr st = inr ((t, e'), st') ->
    annOf e' = mkAnn t true.
Proof.
  intros su e l thr st t e' st' H. exact (post_expr su e l thr st (t, e') st' H).
Qed.

Example expr_annotates_witness :
  annOf (EBinary BK.Lt (EInt 1 (mkAnn Ty.I64 true)) (EInt 2 (mkAnn Ty.I64 true))
                 EmptyString (mkAnn Ty.Bool true))
  = mkAnn Ty.Bool true.
Proof.
  apply (expr_annotates false (eBin BK.Lt (eInt 1) (eInt 2)) ∅ ∅ emptyState
           Ty.Bool _ emptyState).
  vm_compute. reflexivity.
Defined.

(** ** Superuser mode rejects nothing *)

Lemma total_ret {A} (a : A) : total (ret a).
Proof. intros st. eexists _, _. reflexivity. Qed.

Lemma total_bind {A B} (m : M A) (k : A -> M B) :
  total m -> (forall a, total (k a)) -> total (bind k m).
Proof.
  intros Hm Hk st. destruct (Hm st) as (a & st1 & E).
  destruct (Hk a st1) as (b & st2 & E2).
  exists b, st2. unfold bind. now rewrite E.
Qed.

Lemma total_modify f : total (modify f).
Proof. intros st. eexists _, _. reflexivity. Qed.

Lemma total_getState : total getState.
Proof. intros st. eexists _, _. reflexivity. Qed.

Lemma total_warn m : total (warn m).
Proof. apply total_modify. Qed.

Lemma total_forM_ {A} (xs : list A) (k : A -> M unit) :
  (forall x, total (k x)) -> total (forM_ xs k).
Proof.
  intros Hk. induction xs as [|x xs IH]; [apply total_ret|].
  simpl. apply total_bind; [apply Hk | intros _; exact IH].
Qed.

Lemma list_all_In {A} (P : A -> Prop) (xs : list A) :
  list_all A P xs -> forall x, In x xs -> P x.
Proof.
  induction 1 as [|a Ha l _ IH]; intros x Hx; [destruct Hx|].
  destruct Hx as [<-|Hx]; [exact Ha | now apply IH].
Qed.

Lemma total_exprsWith (f : Expr -> M (Ty.t * Expr)) xs :
  (forall x, In x xs -> total (f x)) -> total (exprsWith f xs).
Proof.
  induction xs as [|x xs IH]; intros H; [apply total_ret|].
  cbn [exprsWith]. apply total_bind; [apply H; now left|]. intros r.
  apply total_bind; [apply IH; intros y Hy; apply H; now right|].
  intros rs. apply total_ret.
Qed.

Lemma total_blockWith (stmtF : Stmt -> gmap string Local.t -> Z -> M (Stmt * gmap string Local.t)) b :
  (forall x, In x b -> forall l d, total (stmtF x l d)) ->
  forall l d, total (blockWith stmtF b l d).
Proof.
  induction b as [|x b IH]; intros H l d; [apply total_ret|].
  cbn [blockWith]. apply total_bind; [apply H; now left|]. intros [x' l'].
  apply total_bind; [apply IH; intros y Hy; apply H; now right|].
  intros tl'. apply total_ret.
Qed.

Ltac total_step :=
  lazymatch goal with
  | |- total (ret _) => apply total_ret
  | |- total (mark _ _) => apply total_ret
  | |- total (warn _) => apply total_warn
  | |- total getState => apply total_getState
  | |- total (modify _) => apply total_modify
  | |- total (forM_ _ _) => apply total_forM_; intros
  | |- total (bind _ _) => apply total_bind; [|intros]
  | |- total (match ?x with _ => _ end) => destruct x
  end.

Lemma total_req ok m : total (req true ok m).
Proof. unfold req. repeat total_step. Qed.

Lemma total_failVoid m : total (failVoid true m).
Proof. unfold failVoid. repeat total_step. Qed.

Lemma total_failType e m t : total (failType true e m t).
Proof. unfold failType, mbind, M_bind. repeat total_step. Qed.

Lemma total_addSig name ps r thr alias : total (addSig true name ps r thr alias).
Proof. unfold addSig, mbind, M_bind. repeat total_step. Qed.

Lemma total_resolveOverload name argTypes : total (resolveOverload true name argTypes).
Proof. unfold resolveOverload, mbind, M_bind. repeat total_step. Qed.

Lemma total_tryResolvedUnaryOperator op t sym :
  total (tryResolvedUnaryOperator true op t sym).
Proof. unfold tryResolvedUnaryOperator, mbind, M_bind. repeat total_step. Qed.

Lemma total_tryResolvedOperator op a b sym :
  total (tryResolvedOperator true op a b sym).
Proof. unfold tryResolvedOperator, mbind, M_bind. repeat total_step. Qed.

Lemma total_zeroCheck r w : total (zeroCheck true r w).
Proof. unfold zeroCheck. repeat total_step. Qed.

Lemma total_throwsCheck sym thr errName : total (throwsCheck true sym thr errName).
Proof. unfold throwsCheck. repeat total_step. Qed.

Lemma total_argsConvertible argTypes : forall i ps,
  total (argsConvertible true i argTypes ps).
Proof.
  induction argTypes as [|a argTypes IH]; intros i [|q ps]; try apply total_ret.
  cbn [argsConvertible]. unfold mbind, M_bind.
  apply total_bind; [|intros; apply IH].
  destruct (can a q); [apply total_ret | apply total_failVoid].
Qed.

(** The steps for the functions above. *)
Ltac total_call :=
  lazymatch goal with
  | |- total (req true _ _) => apply total_req
  | |- total (failVoid true _) => apply total_failVoid
  | |- total (failType true _ _ _) => apply total_failType
  | |- total (addSig true _ _ _ _ _) => apply total_addSig
  | |- total (resolveOverload true _ _) => apply total_resolveOverload
  | |- total (tryResolvedUnaryOperator true _ _ _) =>
    apply total_tryResolvedUnaryOperator
  | |- total (tryResolvedOperator true _ _ _ _) => apply total_tryResolvedOperator
  | |- total (zeroCheck true _ _) => apply total_zeroCheck
  | |- total (throwsCheck true _ _ _) => apply total_throwsCheck
  | |- total (argsConvertible true _ _ _) => apply total_argsConvertible
  | |- _ => total_step
  end.

Lemma total_unaryDefault node op t : total (unaryDefault true node op t).
Proof. unfold unaryDefault. repeat total_call. Qed.

Lemma total_binaryDefault node op a b r : total (binaryDefault true node op a b r).
Proof. unfold binaryDefault, mbind, M_bind. repeat total_call. Qed.

Lemma total_callResolved f fnName a args argTypes thr :
  total (callResolved true f fnName a args argTypes thr).
Proof. unfold callResolved, mbind, M_bind. repeat total_call. Qed.

Lemma total_spawnTarget f a tf targs ta : total (spawnTarget true f a tf targs ta).
Proof. unfold spawnTarget, mbind, M_bind. repeat total_call. Qed.

Ltac total_expr_step IH :=
  lazymatch goal with
  | |- total (expr true _ _ _) => IH
  | |- total (unaryDefault true _ _ _) => apply total_unaryDefault
  | |- total (binaryDefault true _ _ _ _ _) => apply total_binaryDefault
  | |- total (callResolved true _ _ _ _ _ _) => apply total_callResolved
  | |- total (spawnTarget true _ _ _ _ _) => apply total_spawnTarget
  | |- total (exprsWith _ _) => apply total_exprsWith; intros
  | |- _ => total_call
  end.

Lemma total_expr e : forall l thr, total (expr true e l thr).
Proof.
  induction e as [v a|v a|v a|n a|op x IHx ov a|op lhs IHl rhs IHr ov a|f args IHargs a]
    using Expr_ind; intros l thr.
  1-6: cbn [expr]; unfold mbind, M_bind;
    repeat total_expr_step ltac:(first [apply IHx | apply IHl | apply IHr]).
  pose proof (list_all_In _ _ IHargs) as Hin. clear IHargs.
  cbn [expr]. unfold mbind, M_bind. cbn [negb]. rewrite andb_false_r.
  repeat total_expr_step ltac:(apply Hin; simpl; tauto).
Qed.

Lemma forallb_In {A} (f : A -> bool) xs x : forallb f xs = true -> In x xs -> f x = true.
Proof. intros H Hx. rewrite forallb_forall in H. now apply H. Qed.

Ltac total_stmt_step IH :=
  lazymatch goal with
  | |- total (blockWith _ _ _ _) => apply total_blockWith; intros; IH
  | |- total (stmt true _ _ _ _ _) => IH
  | |- total (expr true _ _ _) => apply total_expr
  | |- _ => total_call
  end.

Lemma total_stmt s : forall l ret_ d thr,
  retsOk s = true -> total (stmt true s l ret_ d thr).
Proof.
  induction s as [n decl isConst isOwned free a v | n v | e | has v
                 | c t IHt e IHe | c b IHb
                 | n0 start stop step par b IHb | endArg b IHb | | ] using Stmt_ind;
    intros l ret_ d thr Hok.
  - cbn [stmt]. unfold mbind, M_bind. repeat total_stmt_step idtac.
  - cbn [stmt]. unfold mbind, M_bind. repeat total_stmt_step idtac.
  - cbn [stmt]. unfold mbind, M_bind. repeat total_stmt_step idtac.
  - cbn [stmt]. unfold mbind, M_bind.
    destruct has; cbn [negb]; [|repeat total_stmt_step idtac].
    destruct v as [v0|]; [|discriminate Hok].
    repeat total_stmt_step idtac.
  - pose proof (list_all_In _ _ IHt) as Ht. pose proof (list_all_In _ _ IHe) as He.
    cbv beta in Ht, He.
    cbn [retsOk] in Hok. apply andb_true_iff in Hok as [Ho1 Ho2].
    cbn [stmt]. unfold mbind, M_bind.
    repeat total_stmt_step
      ltac:(first [ apply Ht; [assumption | eapply forallb_In; [|eassumption]; assumption]
                  | apply He; [assumption | eapply forallb_In; [|eassumption]; assumption] ]).
  - pose proof (list_all_In _ _ IHb) as Hb. cbv beta in Hb. cbn [retsOk] in Hok.
    cbn [stmt]. unfold mbind, M_bind.
    repeat total_stmt_step
      ltac:(apply Hb; [assumption | eapply forallb_In; [|eassumption]; assumption]).
  - pose proof (list_all_In _ _ IHb) as Hb. cbv beta in Hb. cbn [retsOk] in Hok.
    cbn [stmt]. unfold mbind, M_bind.
    repeat total_stmt_step
      ltac:(apply Hb; [assumption | eapply forallb_In; [|eassumption]; assumption]).
  - pose proof (list_all_In _ _ IHb) as Hb. cbv beta in Hb. cbn [retsOk] in Hok.
    cbn [stmt]. unfold mbind, M_bind.
    repeat total_stmt_step
      ltac:(apply Hb; [assumption | eapply forallb_In; [|eassumption]; assumption]).
  - cbn [stmt]. unfold mbind, M_bind. repeat total_stmt_step idtac.
  - cbn [stmt]. unfold mbind, M_bind. repeat total_stmt_step idtac.
Qed.

Lemma total_block b l ret_ d thr :
  forallb retsOk b = true -> total (block true b l ret_ d thr).
Proof.
  intros H. unfold block. apply total_blockWith. intros x Hx l' d'.
  apply total_stmt. eapply forallb_In; [|eassumption]; assumption.
Qed.

Lemma total_params ps : forall l, total (params true ps l).
Proof.
  induction ps as [|q ps IH]; intros l; cbn [params]; unfold mbind, M_bind.
  - apply total_ret.
  - apply total_bind; [|intros; apply IH]. repeat total_call.
Qed.

Lemma total_fn f : forallb retsOk (Fn.b f) = true -> total (fn true f).
Proof.
  intros H. unfold fn, mbind, M_bind.
  apply total_bind; [apply total_params|intros l].
  apply total_bind; [now apply total_block|intros b']. apply total_ret.
Qed.

Lemma total_fns fs :
  forallb (fun f => forallb retsOk (Fn.b f)) fs = true -> total (fns true fs).
Proof.
  induction fs as [|f fs IH]; intros H; cbn [fns]; unfold mbind, M_bind.
  - apply total_ret.
  - cbn [forallb] in H. apply andb_true_iff in H as [H1 H2].
    apply total_bind; [destruct (Fn.ex f); [apply total_ret | now apply total_fn]|intros f'].
    apply total_bind; [now apply IH|intros]. apply total_ret.
Qed.

Lemma total_collect p : total (collect true p).
Proof.
  unfold collect, addBuiltins, mbind, M_bind.
  apply total_bind; [|intros _]; apply total_forM_.
  - intros [[name ps] r]. apply total_addSig.
  - intros f. apply total_addSig.
Qed.

(** In superuser mode the type checker rejects nothing: every program in
    which each [return] that carries the flag [has] also carries its
    expression (the parser and the optimizer build no other) is checked to
    the end, each complaint having become a warning. *)
Theorem check_superuser_accepts :
  forall p : Program,
    forallb (fun f => forallb retsOk (Fn.b f)) p = true ->
    exists p' ws, check true p = inr (p', ws).
Proof.
  intros p H. unfold check, run, mbind, M_bind.
  assert (T : total (bind (fun _ => fns true p) (collect true p))).
  { apply total_bind; [apply total_collect | intros _; now apply total_fns]. }
  destruct (T emptyState) as (p' & st' & E). rewrite E. eauto.
Qed.

Example check_superuser_accepts_witness :
  exists p' ws,
    check true [Fn.mk "main" "main" false EmptyString false false [] Ty.Void []
                  [SAssign "x" (eBin BK.Add (eInt 1) (EBool true noAnn)); SBreak]]
    = inr (p', ws).
Proof.
  apply (check_superuser_accepts
           [Fn.mk "main" "main" false EmptyString false false [] Ty.Void []
              [SAssign "x" (eBin BK.Add (eInt 1) (EBool true noAnn)); SBreak]]).
  reflexivity.
Defined.

(** ** Loop control outside loops *)

Lemma fails_throw {A} msg : fails (@throw A msg).
Proof. intros st. now exists msg. Qed.

Lemma fails_bind_l {A B} (m : M A) (k : A -> M B) : fails m -> fails (bind k m).
Proof. intros H st. destruct (H st) as [msg E]. exists msg. unfold bind. now rewrite E. Qed.

Lemma fails_bind_r {A B} (m : M A) (k : A -> M B) :
  (forall a, fails (k a)) -> fails (bind k m).
Proof.
  intros H st. unfold bind. destruct (m st) as [msg|[a st1]]; [now exists msg|].
  apply H.
Qed.

Lemma fails_blockWith (stmtF : Stmt -> gmap string Local.t -> Z -> M (Stmt * gmap string Local.t))
    (P : Stmt -> bool) b d :
  (forall x, In x b -> P x = true -> forall l, fails (stmtF x l d)) ->
  existsb P b = true -> forall l, fails (blockWith stmtF b l d).
Proof.
  induction b as [|x b IH]; intros H Hex l; [discriminate Hex|].
  cbn [blockWith]. cbn [existsb] in Hex.
  destruct (P x) eqn:Px.
  - apply fails_bind_l. apply H; [now left | exact Px].
  - apply fails_bind_r. intros [x' l']. apply fails_bind_l.
    apply IH; [|exact Hex]. intros y Hy. apply H. now right.
Qed.

(** Go to the block [b] of the chain of binds and show that it fails. *)
Ltac fails_at b tac :=
  repeat lazymatch goal with
         | |- fails (bind _ (blockWith _ b _ _)) => apply fails_bind_l
         | |- fails (bind _ _) => apply fails_bind_r; intros
         | |- fails (match ?x with _ => _ end) => destruct x
         end;
  lazymatch goal with
  | |- fails (blockWith _ b _ _) =>
    apply (fails_blockWith _ escapes); [intros; tac | assumption]
  end.

Lemma fails_stmt s : forall l ret_ thr,
  escapes s = true -> fails (stmt false s l ret_ 0 thr).
Proof.
  induction s as [n decl isConst isOwned free a v | n v | e | has v
                 | c t IHt e IHe | c b IHb
                 | n0 start stop step par b IHb | endArg b IHb | | ] using Stmt_ind;
    intros l ret_ thr Hesc; try discriminate Hesc.
  - pose proof (list_all_In _ _ IHt) as Ht. pose proof (list_all_In _ _ IHe) as He.
    cbv beta in Ht, He. clear IHt IHe.
    cbn [escapes] in Hesc. apply orb_true_iff in Hesc as [Hesc|Hesc];
      cbn [stmt]; unfold mbind, M_bind.
    + fails_at t ltac:(now apply Ht).
    + fails_at e ltac:(now apply He).
  - pose proof (list_all_In _ _ IHb) as Hb. cbv beta in Hb. clear IHb.
    cbn [escapes] in Hesc. cbn [stmt]; unfold mbind, M_bind.
    fails_at b ltac:(now apply Hb).
  - cbn [stmt]. unfold mbind, M_bind. apply fails_bind_l. apply fails_throw.
  - cbn [stmt]. unfold mbind, M_bind. apply fails_bind_l. apply fails_throw.
Qed.

Lemma fails_fns fs f :
  In f fs -> Fn.ex f = false -> existsb escapes (Fn.b f) = true -> fails (fns false fs).
Proof.
  intros Hin Hex Hesc. induction fs as [|g fs IH]; [destruct Hin|].
  cbn [fns]. unfold mbind, M_bind. destruct Hin as [->|Hin].
  - apply fails_bind_l. rewrite Hex. unfold fn, mbind, M_bind.
    apply fails_bind_r. intros l. apply fails_bind_l. unfold block.
    apply (fails_blockWith _ escapes); [|exact Hesc].
    intros x _ Hx l'. now apply fails_stmt.
  - apply fails_bind_r. intros g'. apply fails_bind_l. now apply IH.
Qed.

(** Outside superuser mode a program is rejected when the body of one of
    its functions has a [break] or a [continue] that no [while] and no
    [for] encloses, however deep inside [if] and format blocks it is. *)
Theorem check_rejects_loop_control_outside_loop :
  forall (p : Program) (f : Fn.t),
    In f p -> Fn.ex f = false -> existsb escapes (Fn.b f) = true ->
    exists msg, check false p = inl msg.
Proof.
  intros p f Hin Hex Hesc. unfold check, run, mbind, M_bind.
  assert (F : fails (bind (fun _ => fns false p) (collect false p))).
  { apply fails_bind_r. intros _. now apply (fails_fns p f). }
  destruct (F emptyState) as [msg E]. rewrite E. now exists msg.
Qed.

Example check_rejects_loop_control_outside_loop_witness :
  exists msg,
    check false [Fn.mk "main" "main" false EmptyString false false [] Ty.Void []
                   [SWhile (EBool true noAnn) [];
                    SIf (EBool true noAnn) [] [SFormatBlock None [SContinue]]]]
    = inl msg.
Proof.
  apply (check_rejects_loop_control_outside_loop
           [Fn.mk "main" "main" false EmptyString false false [] Ty.Void []
              [SWhile (EBool true noAnn) [];
               SIf (EBool true noAnn) [] [SFormatBlock None [SContinue]]]]
           (Fn.mk "main" "main" false EmptyString false false [] Ty.Void []
              [SWhile (EBool true noAnn) [];
               SIf (EBool true noAnn) [] [SFormatBlock None [SContinue]]]));
    [now left | reflexivity | reflexivity].
Defined.

End TypeCheckFacts.

Section SuperuserFacts.
Import TypeCheck.






























End SuperuserFacts.

Section SeriesFacts.

Lemma sumTo_ext n f g : (forall k, 0 <= k < Z.of_nat n -> f k = g k) -> sumTo n f = sumTo n g.
Proof.
  induction n as [|n IH]; intros H; [reflexivity|].
  cbn [sumTo]. rewrite IH by (intros; apply H; lia). rewrite H by lia. reflexivity.
Qed.

Lemma sumTo_add a b f :
  sumTo (a + b) f = sumTo a f + sumTo b (fun k => f (Z.of_nat a + k)).
Proof.
  induction b as [|b IH]; [rewrite Nat.add_0_r; simpl; lia|].
  rewrite Nat.add_succ_r. cbn [sumTo]. rewrite IH.
  rewrite Nat2Z.inj_add. lia.
Qed.

Lemma sumTo_const n c : sumTo n (fun _ => c) = Z.of_nat n * c.
Proof. induction n as [|n IH]; [reflexivity|]. cbn [sumTo]. rewrite IH. lia. Qed.

Lemma sumTo_bounds n f m :
  (forall k, 0 <= k < Z.of_nat n -> 0 <= f k < m) -> 0 <= sumTo n f <= Z.of_nat n * m.
Proof.
  induction n as [|n IH]; intros H; [simpl; lia|].
  cbn [sumTo]. specialize (IH ltac:(intros; apply H; lia)).
  specialize (H (Z.of_nat n) ltac:(lia)). nia.
Qed.

Lemma sumTo_periodic (p q r : nat) f :
  (forall k, 0 <= k -> f (Z.of_nat p + k) = f k) ->
  sumTo (q * p + r) f = Z.of_nat q * sumTo p f + sumTo r f.
Proof.
  intros Hp.
  assert (Hq : forall q k, 0 <= k -> f (Z.of_nat (q * p) + k) = f k).
  { clear q. induction q as [|q IH]; intros k Hk; [reflexivity|].
    replace (Z.of_nat (S q * p) + k) with (Z.of_nat p + (Z.of_nat (q * p) + k))
      by (cbn [Nat.mul]; lia).
    rewrite Hp by lia. now apply IH. }
  rewrite sumTo_add.
  rewrite (sumTo_ext r (fun k => f (Z.of_nat (q * p) + k)) f) by (intros; apply Hq; lia).
  f_equal. clear r. induction q as [|q IH]; [reflexivity|].
  replace (S q * p)%nat with (q * p + p)%nat by lia.
  rewrite sumTo_add, IH.
  rewrite (sumTo_ext p (fun k => f (Z.of_nat (q * p) + k)) f) by (intros; apply Hq; lia). lia.
Qed.

(** [arithmeticSeriesSumI64] is exact: what it returns is the sum of the
    [count] terms [start], [start + step], ... as a mathematical integer,
    and that sum is an [int64_t]; an empty series sums to 0. *)
Theorem arithmeticSeriesSumI64_exact :
  forall count start step v : Z,
    I64val count -> I64val start -> I64val step ->
    Opt.arithmeticSeriesSumI64 count start step = Some v ->
    v = sumTo (Z.to_nat count) (fun k => start + k * step) /\ I64val v.
Proof.
  intros count start step v Hc Hs Hp H.
  destruct (Z.leb_spec count 0) as [Hle|Hpos].
  - unfold Opt.arithmeticSeriesSumI64 in H.
    destruct (Z.leb_spec count 0); [|lia]. injection H as <-.
    replace (Z.to_nat count) with O by lia.
    split; [reflexivity|]. unfold I64val, INT64_MIN, INT64_MAX, two63. lia.
  - apply arithmeticSeriesSumI64_some in H as [H Hv]; try assumption.
    split; [|exact Hv].
    assert (G : forall n : nat,
               2 * sumTo n (fun k => start + k * step)
               = Z.of_nat n * (2 * start + (Z.of_nat n - 1) * step)).
    { induction n as [|n IH]; [reflexivity|]. cbn [sumTo]. lia. }
    specialize (G (Z.to_nat count)). rewrite Z2Nat.id in G by lia. lia.
Qed.

Example arithmeticSeriesSumI64_exact_witness :
  10 = sumTo (Z.to_nat 4) (fun k => 1 + k * 1) /\ I64val 10.
Proof.
  apply (arithmeticSeriesSumI64_exact 4 1 1 10);
    try (unfold I64val, INT64_MIN, INT64_MAX, two63; lia).
  vm_compute. reflexivity.
Defined.

Lemma I64val_small z : - two63 <= z < two63 -> I64val z.
Proof. unfold I64val, INT64_MIN, INT64_MAX. lia. Qed.

Lemma modPosI64Const_pos x m :
  I64val x -> I64val m -> 0 < m -> Opt.modPosI64Const x m = Some (x mod m).
Proof.
  intros Hx Hm Hpos. unfold Opt.modPosI64Const.
  destruct (Z.leb_spec m 0) as [Hle|_]; [lia|].
  f_equal. unfold I64val, INT64_MIN, INT64_MAX, two63 in *.
  pose proof (Z.rem_bound_abs x m ltac:(lia)) as Hb.
  pose proof (Z.mod_pos_bound x m ltac:(lia)) as Hmod.
  assert (Hr : rem64 x m = Z.rem x m).
  { unfold rem64. apply wrap64_id. unfold INT64_MIN, INT64_MAX, two63. lia. }
  rewrite Hr.
  destruct (Z.ltb_spec (Z.rem x m) 0) as [Hneg|Hnn].
  - unfold add64. rewrite wrap64_id by (unfold INT64_MIN, INT64_MAX, two63; lia).
    apply (Zmod_unique x m (Z.quot x m - 1)); [lia|].
    pose proof (Z.quot_rem' x m). lia.
  - apply (Zmod_unique x m (Z.quot x m)); [lia|].
    pose proof (Z.quot_rem' x m). lia.
Qed.

(** [modPosI64Const] turns C's truncating remainder into the residue in
    [0, m): for a positive modulus it returns [x mod m]; for any other
    modulus it returns nothing. *)
Theorem modPosI64Const_spec :
  forall x m : Z,
    I64val x -> I64val m ->
    Opt.modPosI64Const x m = if 0 <? m then Some (x mod m) else None.
Proof.
  intros x m Hx Hm. destruct (Z.ltb_spec 0 m); [now apply modPosI64Const_pos|].
  unfold Opt.modPosI64Const. destruct (Z.leb_spec m 0); [reflexivity|lia].
Qed.

Example modPosI64Const_spec_witness :
  Opt.modPosI64Const (-7) 3 = if 0 <? 3 then Some ((-7) mod 3) else None.
Proof.
  apply (modPosI64Const_spec (-7) 3);
    unfold I64val, INT64_MIN, INT64_MAX, two63; lia.
Defined.

Lemma gcdSmallI64_pos x den :
  I64val x -> 0 < den <= INT64_MAX -> Opt.gcdSmallI64 x den = Z.gcd x den.
Proof.
  intros Hx Hd. unfold Opt.gcdSmallI64.
  rewrite (absU64I64_abs x Hx).
  rewrite (absU64I64_abs den) by (unfold I64val, INT64_MIN, INT64_MAX, two63 in *; lia).
  unfold I64val, INT64_MIN, INT64_MAX, two63 in *.
  rewrite (gcdLoop_enough 64 Opt.gcdFuel);
    [| lia | change (2 ^ Z.of_nat 64) with two64; unfold two64; lia
     | unfold Opt.gcdFuel; lia].
  rewrite Z.gcd_abs_l, Z.gcd_abs_r.
  assert (0 <= Z.gcd x den <= den).
  { split; [apply Z.gcd_nonneg|]. apply Z.divide_pos_le; [lia | apply Z.gcd_divide_r]. }
  apply wrap64_id. unfold INT64_MIN, INT64_MAX, two63. lia.
Qed.

(** The summation loop: the residues of [cur], [cur + d], ... *)
Lemma modWalk_spec d m :
  0 <= d < m -> m <= two62 ->
  forall n cur sum,
    0 <= cur < m -> 0 <= sum -> sum + Z.of_nat n * m < two127 ->
    Opt.modWalk n cur d m sum = sum + sumTo n (fun k => (cur + k * d) mod m).
Proof.
  intros Hd Hm. induction n as [|n IH]; intros cur sum Hc Hs Hb; [simpl; lia|].
  cbn [Opt.modWalk]. unfold two62 in Hm.
  rewrite Nat2Z.inj_succ in Hb.
  assert (E1 : add128 sum cur = sum + cur).
  { unfold add128. apply wrap128_id. unfold two127 in *. nia. }
  assert (E2 : add64 cur d = cur + d).
  { unfold add64. apply wrap64_id. unfold INT64_MIN, INT64_MAX, two63. lia. }
  rewrite E1, E2.
  assert (E3 : (if m <=? cur + d then sub64 (cur + d) m else cur + d) = (cur + d) mod m).
  { destruct (Z.leb_spec m (cur + d)).
    - unfold sub64. rewrite wrap64_id by (unfold INT64_MIN, INT64_MAX, two63; lia).
      apply (Zmod_unique (cur + d) m 1); lia.
    - apply (Zmod_unique (cur + d) m 0); lia. }
  rewrite E3.
  rewrite IH; [| apply Z.mod_pos_bound; lia | lia | nia].
  replace (S n) with (1 + n)%nat by lia.
  rewrite (sumTo_add 1 n). cbn [sumTo].
  rewrite (sumTo_ext n (fun k => ((cur + d) mod m + k * d) mod m)
             (fun k => (cur + (Z.of_nat 1 + k) * d) mod m)).
  - rewrite Z.mul_0_l, Z.add_0_r, (Z.mod_small cur m) by lia. lia.
  - intros k _. rewrite Zplus_mod_idemp_l. f_equal. lia.
Qed.

Lemma residue_step A D m k :
  0 < m -> (A mod m + k * (D mod m)) mod m = (A + k * D) mod m.
Proof.
  intros Hm. rewrite Zplus_mod_idemp_l.
  rewrite <- (Zplus_mod_idemp_r (k * (D mod m))), Zmult_mod_idemp_r, Zplus_mod_idemp_r.
  reflexivity.
Qed.

(** The period decomposition of [modLinearSeriesSumI64] (full cycles plus
    tail) loses nothing. *)
Lemma modLinearSeriesSumI64_sum :
  forall iters start step a b m v : Z,
    I64val iters -> I64val start -> I64val step -> I64val a -> I64val b ->
    0 < m <= two62 ->
    Opt.modLinearSeriesSumI64 iters start step a b m = Some v ->
    v = sumTo (Z.to_nat iters) (fun k => (a * (start + k * step) + b) mod m).
Proof.
  intros iters start step a b m v Hi Hs Hp Ha Hb Hm H.
  unfold Opt.modLinearSeriesSumI64 in H.
  assert (Im : I64val m).
  { unfold two62 in Hm. unfold I64val, INT64_MIN, INT64_MAX, two63. lia. }
  destruct (Z.leb_spec iters 0) as [Hle|Hpos]; cbn [orb] in H.
  { injection H as <-. now replace (Z.to_nat iters) with O by lia. }
  destruct (Z.leb_spec m 0); [lia|].
  destruct (Opt.checkedMulI64 a start) as [as_|] eqn:E1; [|discriminate H].
  apply checkedMulI64_some in E1 as [-> I1]; [|assumption..].
  destruct (Opt.checkedAddI64 (a * start) b) as [xr|] eqn:E2; [|discriminate H].
  apply checkedAddI64_some in E2 as [-> I2]; [|assumption..].
  destruct (Opt.checkedMulI64 a step) as [dr|] eqn:E3;
    [|rewrite modPosI64Const_pos in H by assumption; discriminate H].
  apply checkedMulI64_some in E3 as [-> I3]; [|assumption..].
  rewrite !modPosI64Const_pos in H by assumption.
  set (x0 := (a * start + b) mod m) in *.
  set (d := (a * step) mod m) in *.
  assert (Hx0 : 0 <= x0 < m) by (apply Z.mod_pos_bound; lia).
  assert (Hd : 0 <= d < m) by (apply Z.mod_pos_bound; lia).
  assert (F : forall k, (x0 + k * d) mod m = (a * (start + k * step) + b) mod m).
  { intros k. unfold x0, d. rewrite residue_step by lia. f_equal. lia. }
  rewrite <- (sumTo_ext (Z.to_nat iters) (fun k => (x0 + k * d) mod m))
    by (intros; apply F).
  unfold two62 in Hm.
  assert (Hi' : 0 < iters < two63) by (unfold I64val, INT64_MIN, INT64_MAX in Hi; lia).
  unfold two63 in Hi'.
  destruct (Z.eqb_spec d 0) as [Hd0|Hd0].
  - apply checkedI128ToI64_some in H as [-> _].
    rewrite (sumTo_ext _ _ (fun _ => x0)).
    + rewrite sumTo_const, Z2Nat.id by lia.
      unfold mul128. rewrite wrap128_id by (unfold two127; nia). lia.
    + intros k _. rewrite Hd0, Z.mul_0_r, Z.add_0_r. apply Z.mod_small. lia.
  - rewrite gcdSmallI64_pos in H
      by (unfold I64val, INT64_MIN, INT64_MAX, two63; lia).
    pose proof (Z.gcd_divide_l d m) as [dq Edq].
    pose proof (Z.gcd_divide_r d m) as [p Ep].
    pose proof (Z.gcd_nonneg d m) as Hg0.
    set (g := Z.gcd d m) in *.
    assert (Hg : 0 < g).
    { destruct (Z.eq_dec g 0) as [E0|]; [rewrite E0, Z.mul_0_r in Ep; lia | lia]. }
    assert (Hpp : 0 < p <= m) by nia.
    destruct (Z.leb_spec g 0); [lia|].
    assert (Eper : div64 m g = p).
    { unfold div64. rewrite Ep, Z.quot_mul by lia.
      apply wrap64_id. unfold INT64_MIN, INT64_MAX, two63. lia. }
    rewrite Eper in H.
    destruct (Z.leb_spec p 0); [lia|].
    destruct (Z.ltb_spec 8192 p); [discriminate H|].
    assert (Efull : div64 iters p = iters / p).
    { unfold div64. rewrite Z.quot_div_nonneg by lia.
      apply wrap64_id. unfold INT64_MIN, INT64_MAX, two63.
      pose proof (Z.div_pos iters p ltac:(lia) ltac:(lia)).
      pose proof (Z.div_le_upper_bound iters p iters ltac:(lia) ltac:(nia)). lia. }
    rewrite Efull in H.
    pose proof (Z.div_mod iters p ltac:(lia)) as Edm.
    pose proof (Z.mod_pos_bound iters p ltac:(lia)) as Hrem.
    pose proof (Z.div_pos iters p ltac:(lia) ltac:(lia)) as Hq.
    set (q := iters / p) in *. set (r := iters mod p) in *.
    assert (Erem : sub64 iters (mul64 q p) = r).
    { unfold sub64, mul64.
      rewrite (wrap64_id (q * p)) by (unfold INT64_MIN, INT64_MAX, two63; nia).
      rewrite wrap64_id by (unfold INT64_MIN, INT64_MAX, two63; nia). lia. }
    rewrite Erem in H.
    rewrite !(modWalk_spec d m Hd ltac:(unfold two62; lia)) in H
      by (try assumption; unfold two127; nia).
    rewrite !Z.add_0_l in H.
    set (f := fun k => (x0 + k * d) mod m) in *.
    assert (Bc : 0 <= sumTo (Z.to_nat p) f <= Z.of_nat (Z.to_nat p) * m).
    { apply sumTo_bounds. intros; apply Z.mod_pos_bound; lia. }
    assert (Bt : 0 <= sumTo (Z.to_nat r) f <= Z.of_nat (Z.to_nat r) * m).
    { apply sumTo_bounds. intros; apply Z.mod_pos_bound; lia. }
    rewrite Z2Nat.id in Bc, Bt by lia.
    apply checkedI128ToI64_some in H as [-> _].
    unfold add128, mul128.
    rewrite (wrap128_id (q * _)) by (unfold two127; nia).
    rewrite wrap128_id by (unfold two127; nia).
    replace (Z.to_nat iters) with (Z.to_nat q * Z.to_nat p + Z.to_nat r)%nat by nia.
    rewrite sumTo_periodic; [rewrite Z2Nat.id by lia; reflexivity|].
    intros k _. unfold f. rewrite Z2Nat.id by lia.
    replace (x0 + (p + k) * d) with (x0 + k * d + dq * m) by nia.
    apply Z_mod_plus_full.
Qed.

(** [modLinearSeriesSumI64] is exact up to a modulus of [2^62]: whenever
    it returns a value, that value is the sum over the [iters] rounds of
    the residues in [0, m) of [a * i + b], the index [i] running over
    [start], [start + step], ... *)
Theorem modLinearSeriesSumI64_exact :
  forall iters start step a b m v : Z,
    I64val iters -> I64val start -> I64val step -> I64val a -> I64val b ->
    0 < m <= two62 ->
    Opt.modLinearSeriesSumI64 iters start step a b m = Some v ->
    v = sumTo (Z.to_nat iters) (fun k => (a * (start + k * step) + b) mod m).
Proof. exact modLinearSeriesSumI64_sum. Qed.

Example modLinearSeriesSumI64_exact_witness :
  4 = sumTo (Z.to_nat 5) (fun k => (2 * (0 + k * 1) + 1) mod 3).
Proof.
  apply (modLinearSeriesSumI64_exact 5 0 1 2 1 3 4);
    try (unfold I64val, INT64_MIN, INT64_MAX, two63, two62; lia).
  vm_compute. reflexivity.
Defined.

End SeriesFacts.

Section ClosedFormDefects.
Import Pipeline.

(** The residue function of the runtime is the residue in [0, m). *)
Lemma ls_mod_pos_i128_mod x m :
  - two127 <= x < two127 -> 0 < m < two63 ->
  EmitFor.ls_mod_pos_i128 x m = x mod m.
Proof.
  intros Hx Hm. unfold EmitFor.ls_mod_pos_i128.
  destruct (Z.leb_spec m 0) as [Hle|_]; [lia|].
  unfold two127, two63 in *.
  pose proof (Z.rem_bound_abs x m ltac:(lia)) as Hb.
  pose proof (Z.mod_pos_bound x m ltac:(lia)) as Hmod.
  pose proof (Z.quot_rem' x m) as Hq.
  assert (Hr : rem128 x m = Z.rem x m).
  { unfold rem128. apply wrap128_id. unfold two127. lia. }
  rewrite Hr.
  destruct (Z.ltb_spec (Z.rem x m) 0) as [Hneg|Hnn].
  - unfold add128. rewrite wrap128_id by (unfold two127; lia).
    rewrite wrap64_id by (unfold INT64_MIN, INT64_MAX, two63; lia).
    apply (Zmod_unique x m (Z.quot x m - 1)); lia.
  - rewrite wrap64_id by (unfold INT64_MIN, INT64_MAX, two63; lia).
    apply (Zmod_unique x m (Z.quot x m)); lia.
Qed.

(** What [modLinearSeriesSumI64] has checked when it returns a value for a
    loop that runs. *)
Lemma modLinearSeriesSumI64_checked iters start step a b m v :
  I64val start -> I64val step -> I64val a -> I64val b ->
  0 < iters -> 0 < m ->
  Opt.modLinearSeriesSumI64 iters start step a b m = Some v ->
  I64val (a * start + b) /\ I64val (a * step).
Proof.
  intros Hs Hp Ha Hb Hi Hm H. unfold Opt.modLinearSeriesSumI64 in H.
  destruct (Z.leb_spec iters 0); [lia|]. destruct (Z.leb_spec m 0); [lia|].
  cbn [orb] in H.
  destruct (Opt.checkedMulI64 a start) as [as_|] eqn:E1; [|discriminate H].
  apply checkedMulI64_some in E1 as [-> I1]; [|assumption..].
  destruct (Opt.checkedAddI64 (a * start) b) as [xr|] eqn:E2; [|discriminate H].
  apply checkedAddI64_some in E2 as [-> I2]; [|assumption..].
  destruct (Opt.checkedMulI64 a step) as [dr|] eqn:E3.
  - apply checkedMulI64_some in E3 as [-> I3]; [|assumption..]. now split.
  - destruct (Opt.modPosI64Const (a * start + b) m); discriminate H.
Qed.

(** C4.  The pair-coupled reduction of the optimizer takes the two
    assignments in either order and always writes the sums for
    [acc = acc + state] coming first.  For
    [declare acc: i64 = 0; declare state: i64 = 0;
     for i in 0..5 step 1 do state = state + (i + 1); acc = acc + state end;
     println(acc); println(state)]
    the loop of the type-checked program is replaced by
    [acc = acc + (state * 5 + 20); state = state + 15], which leaves
    [acc = 20], while the rounds of the loop leave [acc = 35] ([state] is
    15 in both).  The program compiled with the default number of passes
    has no loop left and prints 20 and 15.  The closed form that the
    emitter writes for the same loop, should the optimizer leave it, is
    the same one: it leaves [acc = 20] as well.

    The modular-linear reduction, on the other hand, is as described for a
    modulus up to [2^62]: the constant that [modLinearSeriesSumI64] returns
    for 64-bit arguments is the sum, over the rounds, of the residues that
    the runtime's [ls_mod_pos_i128] gives for [a * i + b], with [i] running
    over [start], [start + step], ... *)
Theorem pair_fold_state_first_differs_from_rounds :
  (exists typed,
      TypeCheck.check false pairStateFirst = inr ([scriptFn typed], [])
      /\ match typed !! 2%nat with
         | Some (SFor n start stop step parallel body) =>
           Opt.forReplacement false typed 2 n start stop step parallel body
           = Some pairReplacement
           /\ Exec.exec fuel (SFor n start stop step parallel body)
                {[ "acc" := Exec.VInt 0; "state" := Exec.VInt 0 ]} EmptyString
              = Some (Exec.FNext,
                      {[ "acc" := Exec.VInt 35; "state" := Exec.VInt 15 ]},
                      EmptyString)
           /\ EmitFor.pairCoupledBlock n start stop step parallel body
                {[ "acc" := Exec.VInt 0; "state" := Exec.VInt 0 ]}
              = Some {[ "acc" := Exec.VInt 20; "state" := Exec.VInt 15 ]}
         | _ => False
         end)
  /\ Exec.execBlock fuel pairReplacement
       {[ "acc" := Exec.VInt 0; "state" := Exec.VInt 0 ]} EmptyString
     = Some (Exec.FNext, {[ "acc" := Exec.VInt 20; "state" := Exec.VInt 15 ]},
             EmptyString)
  /\ (exists p,
         compile fuel false defaultPasses pairStateFirst = Some (inr [scriptFn p])
         /\ map (fun s => match s with
                          | SExpr (ECall f [EString v _] _) => (f, v)
                          | _ => (EmptyString, EmptyString)
                          end) p
            = [("println_str", "20"); ("println_str", "15")]
         /\ Exec.stdout fuel [scriptFn p] = Some (lines ["20"; "15"]))
  /\ (forall iters start step a b m v : Z,
         I64val iters -> I64val start -> I64val step -> I64val a -> I64val b ->
         0 < m <= two62 ->
         Opt.modLinearSeriesSumI64 iters start step a b m = Some v ->
         v = sumTo (Z.to_nat iters)
               (fun k => EmitFor.ls_mod_pos_i128 (a * (start + k * step) + b) m)).
Proof.
  split; [|split; [|split]].
  - eexists. split; [vm_compute; reflexivity|].
    split; [|split]; vm_compute; reflexivity.
  - vm_compute. reflexivity.
  - eexists. split; [vm_compute; reflexivity|].
    split; vm_compute; reflexivity.
  - intros iters start step a b m v Hi Hs Hp Ha Hb Hm H.
    rewrite (modLinearSeriesSumI64_sum iters start step a b m v) by assumption.
    destruct (Z.leb_spec iters 0) as [Hle|Hpos].
    { now replace (Z.to_nat iters) with O by lia. }
    destruct (modLinearSeriesSumI64_checked iters start step a b m v)
      as [Ix Id]; try assumption; [lia|].
    apply sumTo_ext. intros k Hk. rewrite Z2Nat.id in Hk by lia.
    symmetry. apply ls_mod_pos_i128_mod.
    + unfold I64val, INT64_MIN, INT64_MAX, two63, two127 in *. nia.
    + unfold two62, two63 in *. lia.
Qed.

End ClosedFormDefects.

Section TypingFacts.
Import TypeCheck Exec.

Variable σ : gmap string Val.

Lemma evalE_setAnn e a : evalE (setAnn e a) σ = evalE e σ.
Proof. now destruct e. Qed.

Lemma sound_mark e t :
  (forall v, evalE e σ = Some v -> hasTy v t = true) -> post (mark e t) (sound σ).
Proof.
  intros H. apply post_ret. intros v. cbn [fst snd]. rewrite evalE_setAnn. apply H.
Qed.

Lemma sound_failType e m t : post (failType false e m t) (sound σ).
Proof. apply post_throw. Qed.

Lemma hasTy_int z t : hasTy (VInt z) t = true -> t = Ty.I64.
Proof. cbn [hasTy]. apply bool_decide_eq_true_1. Qed.

Lemma hasTy_bool b t : hasTy (VBool b) t = true -> t = Ty.Bool.
Proof. cbn [hasTy]. apply bool_decide_eq_true_1. Qed.

Lemma sound_unaryDefault op t x a :
  sound σ (t, x) ->
  post (unaryDefault false (EUnary op x EmptyString a) op t) (sound σ).
Proof.
  intros Hx. unfold unaryDefault, sound in *. cbn [fst snd] in Hx.
  destruct op.
  - destruct (negb (isNum t)); [apply sound_failType|].
    apply sound_mark. intros v. cbn [evalE String.eqb negb].
    destruct (evalE x σ) as [[z|b|s]|] eqn:E; try discriminate.
    intros [= <-]. now rewrite (hasTy_int z t (Hx _ eq_refl)).
  - destruct (negb (bool_decide (t = Ty.Bool))); [apply sound_failType|].
    apply sound_mark. intros v. cbn [evalE String.eqb negb].
    destruct (evalE x σ) as [[z|b|s]|] eqn:E; try discriminate.
    now intros [= <-].
Qed.

Lemma evalBinary_bool op a b v :
  match op with
  | BK.Lt | BK.Lte | BK.Gt | BK.Gte | BK.Eq | BK.Neq => True
  | _ => False
  end ->
  evalBinary op a b = Some v -> hasTy v Ty.Bool = true.
Proof.
  intros Hop. destruct a as [x|x|x], b as [y|y|y], op; cbn; try contradiction;
    try discriminate; now intros [= <-].
Qed.

Lemma evalBinary_arith op a b v ta tb :
  match op with
  | BK.Add | BK.Sub | BK.Mul | BK.Div | BK.Mod | BK.Pow => True
  | _ => False
  end ->
  hasTy a ta = true -> hasTy b tb = true ->
  evalBinary op a b = Some v -> hasTy v (promote ta tb) = true.
Proof.
  intros Hop Ha Hb.
  destruct a as [x|x|x], b as [y|y|y];
    try (destruct op; cbn; first [contradiction | discriminate]).
  apply hasTy_int in Ha as ->. apply hasTy_int in Hb as ->.
  change (promote Ty.I64 Ty.I64) with Ty.I64.
  destruct op; cbn; try contradiction; try discriminate;
    repeat match goal with |- context [if ?c then _ else _] => destruct c end;
    try discriminate; now intros [= <-].
Qed.

Ltac sound_step :=
  lazymatch goal with
  | |- post (failType false _ _ _) _ => apply sound_failType
  | |- post (throw _) _ => apply post_throw
  | |- post (bind _ _) _ => apply post_bind; intros
  | |- post (match ?x with _ => _ end) _ => destruct x
  end.

Lemma sound_binaryDefault op ta tb l r a :
  sound σ (ta, l) -> sound σ (tb, r) ->
  post (binaryDefault false (EBinary op l r EmptyString a) op ta tb r) (sound σ).
Proof.
  intros Hl Hr. unfold binaryDefault, sound in *. cbn [fst snd] in Hl, Hr.
  assert (G : forall v, match op with BK.And | BK.Or => False | _ => True end ->
                evalE (EBinary op l r EmptyString a) σ = Some v ->
                exists x y, evalE l σ = Some x /\ evalE r σ = Some y
                            /\ evalBinary op x y = Some v).
  { intros v Hop. cbn [evalE String.eqb negb].
    destruct op; try contradiction;
      destruct (evalE l σ) as [x|], (evalE r σ) as [y|]; try discriminate; eauto. }
  destruct op; unfold mbind, M_bind;
    repeat sound_step;
    try (apply sound_mark; intros v Hv;
         apply G in Hv as (x & y & Ex & Ey & Hv); [|exact I];
         first [ eapply evalBinary_bool; [|exact Hv]; exact I
               | eapply evalBinary_arith; [| | |exact Hv]; [exact I|eauto..] ]).
  - apply sound_mark. intros v. cbn [evalE String.eqb negb].
    destruct (evalE l σ) as [[x|[]|x]|]; try discriminate; [|now intros [= <-]].
    destruct (evalE r σ) as [[y|y|y]|]; try discriminate. now intros [= <-].
  - apply sound_mark. intros v. cbn [evalE String.eqb negb].
    destruct (evalE l σ) as [[x|[]|x]|]; try discriminate; [now intros [= <-]|].
    destruct (evalE r σ) as [[y|y|y]|]; try discriminate. now intros [= <-].
Qed.

Lemma sound_call f args a t : post (mark (ECall f args a) t) (sound σ).
Proof. apply sound_mark. discriminate. Qed.

Lemma sound_override_unary op x ov a t :
  ov <> EmptyString -> post (mark (EUnary op x ov a) t) (sound σ).
Proof.
  intros H. apply sound_mark. intros v. cbn [evalE].
  destruct (String.eqb_spec ov EmptyString); [contradiction|discriminate].
Qed.

Lemma sound_override_binary op l r ov a t :
  ov <> EmptyString -> post (mark (EBinary op l r ov a) t) (sound σ).
Proof.
  intros H. apply sound_mark. intros v. cbn [evalE].
  destruct (String.eqb_spec ov EmptyString); [contradiction|discriminate].
Qed.

Ltac call_step :=
  lazymatch goal with
  | |- post (mark (ECall _ _ _) _) _ => apply sound_call
  | |- _ => sound_step
  end.

Lemma sound_callResolved f fnName a args argTypes thr :
  post (callResolved false f fnName a args argTypes thr) (sound σ).
Proof. unfold callResolved, mbind, M_bind. repeat call_step. Qed.

Lemma sound_spawnTarget f a tf targs ta :
  post (spawnTarget false f a tf targs ta) (sound σ).
Proof. unfold spawnTarget, mbind, M_bind. repeat call_step. Qed.

Lemma sound_expr l thr :
  storeTyped l σ -> forall e, post (expr false e l thr) (sound σ).
Proof.
  intros Hst.
  induction e as [v a|v a|v a|n a|op x IHx ov a|op lhs IHl rhs IHr ov a|f args _ a]
    using Expr_ind.
  - cbn [expr]. apply sound_mark. now intros w [= <-].
  - cbn [expr]. apply sound_mark. now intros w [= <-].
  - cbn [expr]. apply sound_mark. now intros w [= <-].
  - cbn [expr]. destruct (l !! n) as [loc|] eqn:E; [|apply sound_failType].
    apply sound_mark. intros w Hw. exact (Hst n loc w E Hw).
  - cbn [expr]. unfold mbind, M_bind.
    apply (post_bind_with (sound σ)); [exact IHx|]. intros [t x'] Hx.
    apply (post_bind_with (fun r1 => r1 = None \/ ov <> EmptyString)).
    { destruct (String.eqb_spec ov EmptyString); [apply post_ret; now left|].
      intros ? ? ? _. now right. }
    intros [rt|] Hr1.
    { destruct Hr1 as [Hr1|Hr1]; [discriminate Hr1|]. now apply sound_override_unary. }
    apply post_bind. intros [rt|].
    + apply sound_override_unary. now destruct op.
    + now apply sound_unaryDefault.
  - cbn [expr]. unfold mbind, M_bind.
    apply (post_bind_with (sound σ)); [exact IHl|]. intros [ta lhs'] Hl.
    apply (post_bind_with (sound σ)); [exact IHr|]. intros [tb rhs'] Hr.
    apply (post_bind_with (fun r1 => r1 = None \/ ov <> EmptyString)).
    { destruct (String.eqb_spec ov EmptyString); [apply post_ret; now left|].
      intros ? ? ? _. now right. }
    intros [rt|] Hr1.
    { destruct Hr1 as [Hr1|Hr1]; [discriminate Hr1|]. now apply sound_override_binary. }
    apply post_bind. intros [rt|].
    + apply sound_override_binary. now destruct op.
    + now apply sound_binaryDefault.
  - cbn [expr]. unfold mbind, M_bind. cbn [negb andb]. rewrite andb_true_r.
    repeat lazymatch goal with
           | |- post (mark (ECall _ _ _) _) _ => apply sound_call
           | |- post (callResolved false _ _ _ _ _ _) _ => apply sound_callResolved
           | |- post (spawnTarget false _ _ _ _ _) _ => apply sound_spawnTarget
           | |- _ => sound_step
           end.
Qed.

End TypingFacts.

(** Type soundness on the fragment that [Exec] covers: outside superuser
    mode, when [expr] accepts an expression with a type and the checked
    node has a value in a store whose variables have their declared
    types, the value has that type. *)
Theorem expr_type_sound :
  forall (e : Expr) (l : gmap string Local.t) (thr : gset string) (st st' : TypeCheck.State)
         (t : Ty.t) (e' : Expr) (s : gmap string Exec.Val) (v : Exec.Val),
    storeTyped l s ->
    TypeCheck.expr false e l thr st = inr ((t, e'), st') ->
    Exec.evalE e' s = Some v ->
    hasTy v t = true.
Proof.
  intros e l thr st st' t e' s v Hst He Hv.
  exact (sound_expr s l thr Hst e st (t, e') st' He v Hv).
Qed.



Example expr_type_sound_witness :
  hasTy (Exec.VBool true) Ty.Bool = true.
Proof.
  apply (expr_type_sound (eBin BK.Lt (eVar "x") (eInt 2))
           {[ "x" := Local.mk Ty.I64 false false EmptyString ]} ∅
           TypeCheck.emptyState TypeCheck.emptyState Ty.Bool
           (EBinary BK.Lt (EVar "x" (mkAnn Ty.I64 true)) (EInt 2 (mkAnn Ty.I64 true))
                    EmptyString (mkAnn Ty.Bool true))
           {[ "x" := Exec.VInt 1 ]} (Exec.VBool true)).
  - intros n loc v H1 H2.
    apply lookup_singleton_Some in H1 as [<- <-].
    apply lookup_singleton_Some in H2 as [_ <-]. reflexivity.
  - vm_compute. reflexivity.
  - vm_compute. reflexivity.
Defined.

Section LoopFoldFacts.
Import Exec.

Lemma wrap128_cong x : (two64 | wrap128 x - x).
Proof.
  unfold wrap128. exists (- ((x + two127) / two128) * two64).
  pose proof (Z.div_mod (x + two127) two128 ltac:(unfold two128; lia)) as E.
  assert (T : two128 = two64 * two64) by reflexivity.
  rewrite T in E at 1. lia.
Qed.

Lemma ceilDiv_spec x y : 0 < y -> (ceilDiv x y - 1) * y < x <= ceilDiv x y * y.
Proof.
  intros Hy. unfold ceilDiv.
  pose proof (Z.div_mod (- x) y ltac:(lia)) as E.
  pose proof (Z.mod_pos_bound (- x) y Hy) as B. nia.
Qed.

Lemma sumTo_arith n st sp :
  2 * sumTo n (fun k => st + k * sp) = Z.of_nat n * (2 * st + (Z.of_nat n - 1) * sp).
Proof. induction n as [|n IH]; [reflexivity|]. cbn [sumTo]. lia. Qed.

Lemma sumTo_affine n a b st sp :
  sumTo n (fun k => a * (st + k * sp) + b)
  = a * sumTo n (fun k => st + k * sp) + b * Z.of_nat n.
Proof. induction n as [|n IH]; [simpl; lia|]. cbn [sumTo]. rewrite IH. lia. Qed.

Lemma leaveFor_assign (σ : gmap string Val) loopVar n i w :
  n <> loopVar -> is_Some (σ !! n) ->
  leaveFor loopVar σ (<[n := w]> (<[loopVar := i]> σ)) = <[n := w]> σ.
Proof.
  intros Hne [w0 Hn].
  assert (L : forall k, k <> loopVar ->
            leave σ (<[n := w]> (<[loopVar := i]> σ)) !! k = <[n := w]> σ !! k).
  { intros k Hk. unfold leave. rewrite map_lookup_imap.
    destruct (decide (k = n)) as [->|Hkn].
    - rewrite Hn, !lookup_insert_eq. reflexivity.
    - rewrite !lookup_insert_ne by congruence.
      destruct (σ !! k); reflexivity. }
  apply map_eq. intros k. unfold leaveFor.
  destruct (σ !! loopVar) as [v|] eqn:E.
  - destruct (decide (k = loopVar)) as [->|Hk].
    + rewrite lookup_insert_eq, lookup_insert_ne by congruence. symmetry. exact E.
    + rewrite lookup_insert_ne by congruence. now apply L.
  - destruct (decide (k = loopVar)) as [->|Hk]; [|now apply L].
    unfold leave. rewrite map_lookup_imap, E. cbn [mbind option_bind].
    rewrite lookup_insert_ne by congruence. symmetry. exact E.
Qed.

Lemma runsFor_next sp en i k :
  runsFor sp en i (S k) -> runsFor sp en (i + sp) k.
Proof.
  intros (H1 & H2 & H3). rewrite Nat2Z.inj_succ in *. split; [|split].
  - intros j Hj. replace (i + sp + j * sp) with (i + (j + 1) * sp) by lia.
    apply H1. lia.
  - replace (i + sp + Z.of_nat k * sp) with (i + Z.succ (Z.of_nat k) * sp) by lia.
    exact H2.
  - intros j Hj. replace (i + sp + j * sp) with (i + (j + 1) * sp) by lia.
    apply H3. lia.
Qed.

Section OneLoop.

Variable neg : bool.
Variables (loopVar n : string) (l r other : Expr) (an : Ann) (a b en sp : Z).

Local Abbreviation v := (EBinary BK.Add l r EmptyString an) (only parsing).

Hypothesis Hne : n <> loopVar.
Hypothesis Hlits : litsI64 other = true.
Hypothesis Hself : Opt.selfPlus n v = Some other.
Hypothesis Haff : Opt.affineI64ConstExpr neg other loopVar = Some (a, b).

(** One round: the assignment adds the affine term to the accumulator. *)
Lemma round_value (σ : gmap string Val) i acc :
  I64val i -> σ !! n = Some (VInt acc) ->
  evalE v (<[loopVar := VInt i]> σ) = Some (VInt (wrap64 (acc + (a * i + b)))).
Proof.
  intros Hi Hacc.
  assert (Ho : evalE other (<[loopVar := VInt i]> σ) = Some (VInt (wrap64 (a * i + b)))).
  { eapply (affineI64ConstExpr_eval neg other loopVar a b _ i); try eassumption.
    apply lookup_insert_eq. }
  assert (Hn : (<[loopVar := VInt i]> σ) !! n = Some (VInt acc)).
  { rewrite lookup_insert_ne by congruence. exact Hacc. }
  cbn [Opt.selfPlus] in Hself. cbn [evalE String.eqb negb].
  destruct (Opt.isVarNamed l n) eqn:El.
  - cbn [negb andb] in Hself. injection Hself as <-.
    destruct l as [| | |m am| | |]; try discriminate El. cbn [Opt.isVarNamed] in El.
    apply String.eqb_eq in El as ->. cbn [evalE]. rewrite Hn, Ho. cbn [evalBinary].
    do 2 f_equal. unfold add64. apply wrap64_eq.
    destruct (wrap64_cong (a * i + b)) as [k Hk]. exists k. lia.
  - destruct (Opt.isVarNamed r n) eqn:Er; cbn [negb andb] in Hself; [|discriminate Hself].
    injection Hself as <-.
    destruct r as [| | |m am| | |]; try discriminate Er. cbn [Opt.isVarNamed] in Er.
    apply String.eqb_eq in Er as ->. cbn [evalE]. rewrite Hn, Ho. cbn [evalBinary].
    do 2 f_equal. unfold add64. apply wrap64_eq.
    destruct (wrap64_cong (a * i + b)) as [k Hk]. exists k. lia.
Qed.

Lemma exec_assign fuel m e (σ : gmap string Val) out :
  exec (S fuel) (SAssign m e) σ out
  = (val ← evalE e σ;
     if bool_decide (is_Some (σ !! m)) then Some (FNext, <[m := val]> σ, out) else None).
Proof. reflexivity. Qed.

(** [k] rounds of the loop add the [k] terms. *)
Lemma for_rounds (k : nat) : forall fuel start stop step (σ : gmap string Val) out i acc,
  (k + 2 <= fuel)%nat ->
  evalE start σ = Some (VInt i) -> evalE stop σ = Some (VInt en) ->
  evalE step σ = Some (VInt sp) ->
  runsFor sp en i k ->
  σ !! n = Some (VInt acc) -> I64val acc ->
  exec fuel (SFor loopVar start stop step false [SAssign n v]) σ out
  = Some (FNext,
          <[n := VInt (wrap64 (acc + sumTo k (fun j => a * (i + j * sp) + b)))]> σ,
          out).
Proof.
  induction k as [|k IH];
    intros fuel start stop step σ out i acc Hf Hs He Hp Hr Hacc Hia.
  - destruct fuel as [|fuel]; [lia|]. cbn [exec]. rewrite Hs, He, Hp.
    destruct Hr as (_ & Hc & Hi). cbn [Z.of_nat] in Hc.
    rewrite Z.mul_0_l, Z.add_0_r in Hc. unfold loopCond in Hc. rewrite Hc.
    cbn [sumTo]. rewrite Z.add_0_r, (I64val_wrap64 acc Hia), insert_id by exact Hacc.
    reflexivity.
  - destruct fuel as [|fuel]; [lia|]. cbn [exec]. rewrite Hs, He, Hp.
    pose proof Hr as (Hc & _ & Hi).
    specialize (Hc 0 ltac:(lia)). rewrite Z.mul_0_l, Z.add_0_r in Hc.
    unfold loopCond in Hc. rewrite Hc.
    pose proof (Hi 0 ltac:(lia)) as Hi0. rewrite Z.mul_0_l, Z.add_0_r in Hi0.
    pose proof (Hi 1 ltac:(lia)) as Hi1. rewrite Z.mul_1_l in Hi1.
    destruct fuel as [|fuel]; [lia|]. rewrite exec_assign.
    rewrite (round_value σ i acc Hi0 Hacc). cbn [mbind option_bind].
    rewrite bool_decide_true
      by (rewrite lookup_insert_ne by congruence; now exists (VInt acc)).
    cbn [mbind option_bind].
    rewrite lookup_insert_ne by congruence. rewrite lookup_insert_eq.
    rewrite leaveFor_assign by (try assumption; now exists (VInt acc)).
    unfold add64 at 1. rewrite (I64val_wrap64 (i + sp) Hi1).
    rewrite (IH (S fuel) _ _ _ _ out (i + sp) (wrap64 (acc + (a * i + b))));
      [| lia | reflexivity | reflexivity | reflexivity | now apply runsFor_next
       | apply lookup_insert_eq | apply wrap64_range].
    rewrite insert_insert_eq.
    lazymatch goal with
    | |- Some (_, <[_ := VInt ?x]> _, _) = Some (_, <[_ := VInt ?y]> _, _) =>
      assert (EQ : x = y); [|now rewrite EQ]
    end.
    replace (S k) with (1 + k)%nat by lia. rewrite (sumTo_add 1 k). cbn [sumTo].
    rewrite Z.mul_0_l, Z.add_0_r.
    rewrite (sumTo_ext k (fun j => a * (i + sp + j * sp) + b)
               (fun j => a * (i + (Z.of_nat 1 + j) * sp) + b))
      by (intros; f_equal; lia).
    apply wrap64_eq. destruct (wrap64_cong (acc + (a * i + b))) as [q Hq].
    exists q. lia.
Qed.

End OneLoop.

Lemma runsFor_tripCount st en sp tc :
  I64val st -> I64val en -> I64val sp ->
  Opt.tripCount st en sp = Some tc -> 0 < tc -> spanFits st en sp = true ->
  I64val (st + tc * sp) ->
  runsFor sp en st (Z.to_nat tc).
Proof.
  intros Hs He Hp Htc Hpos Hfit Hlast.
  assert (B : forall z, I64val z -> inI64 z = true).
  { intros z Hz. unfold inI64. apply andb_true_iff. unfold I64val in Hz. lia. }
  rewrite tripCount_in_range in Htc by auto.
  unfold tripCountSpec in Htc. unfold runsFor, loopCond. rewrite Z2Nat.id by lia.
  unfold I64val, INT64_MIN, INT64_MAX, two63 in *.
  destruct (Z.eqb_spec sp 0); [discriminate Htc|].
  destruct (Z.ltb_spec 0 sp) as [Hsp|Hsp].
  - destruct (Z.leb_spec en st); injection Htc as <-; [lia|].
    pose proof (ceilDiv_spec (en - st) sp Hsp) as C.
    set (c := ceilDiv (en - st) sp) in *.
    split; [|split].
    + intros j Hj. destruct (Z.ltb_spec (st + j * sp) en); [reflexivity|nia].
    + destruct (Z.ltb_spec (st + c * sp) en); [nia|].
      destruct (Z.ltb_spec sp 0); [lia|reflexivity].
    + intros j Hj. nia.
  - destruct (Z.leb_spec st en); injection Htc as <-; [lia|].
    pose proof (ceilDiv_spec (st - en) (- sp) ltac:(lia)) as C.
    set (c := ceilDiv (st - en) (- sp)) in *.
    destruct (Z.ltb_spec sp 0); [|lia].
    split; [|split].
    + intros j Hj. destruct (Z.ltb_spec en (st + j * sp)); [reflexivity|nia].
    + destruct (Z.ltb_spec en (st + c * sp)); [nia|reflexivity].
    + intros j Hj. nia.
Qed.

Lemma sumIdx128_exact st sp tc :
  0 < tc -> I64val tc -> I64val st -> I64val (st + (tc - 1) * sp) -> I64val sp ->
  Opt.sumIdx128 tc st sp = sumTo (Z.to_nat tc) (fun k => st + k * sp).
Proof.
  intros Hpos Htc Hst Hlast Hsp.
  pose proof (sumTo_arith (Z.to_nat tc) st sp) as E. rewrite Z2Nat.id in E by lia.
  unfold Opt.sumIdx128, div128, mul128, add128, sub128.
  unfold I64val, INT64_MIN, INT64_MAX, two63 in *.
  rewrite (wrap128_id (2 * st)) by (unfold two127; lia).
  rewrite (wrap128_id (tc - 1)) by (unfold two127; lia).
  rewrite (wrap128_id ((tc - 1) * sp)) by (unfold two127; nia).
  rewrite (wrap128_id (2 * st + (tc - 1) * sp)) by (unfold two127; nia).
  rewrite (wrap128_id (tc * _)) by (unfold two127; nia).
  rewrite <- E, Z.mul_comm, Z.quot_mul by lia.
  apply wrap128_id. unfold two127. nia.
Qed.

Lemma affine_mod_none neg ml mr ov an loopVar :
  Opt.affineI64ConstExpr neg (EBinary BK.Mod ml mr ov an) loopVar = None.
Proof. cbn. destruct (negb (String.eqb ov EmptyString)); reflexivity. Qed.

Lemma i64_last st sp tc :
  0 < tc -> I64val st -> I64val (st + tc * sp) -> I64val (st + (tc - 1) * sp).
Proof. unfold I64val, INT64_MIN, INT64_MAX, two63. intros. nia. Qed.

End LoopFoldFacts.

(** The single-reduction fold keeps what the loop computes.  For a loop
    [for i in start..stop step sp do n = n + other end] (or [other + n])
    whose term [other] is affine in the loop variable, whose trip count is
    formed without overflow and whose loop variable stays an [int64_t],
    the statement that [foldSingle] puts in place of the loop leaves the
    store and the output that the loop leaves when it is run round by
    round in [int64_t] arithmetic: [n] has grown by the sum of the terms,
    reduced to 64 bits. *)
Theorem foldSingle_affine_preserves :
  forall (neg : bool) (loopVar n : string) (l r other : Expr) (an : Ann)
         (start stop step : Expr) (st en sp tc a b acc0 : Z) (rep : list Stmt)
         (s : gmap string Exec.Val) (out : string) (fuel : nat),
    n <> loopVar ->
    litsI64 other = true ->
    Opt.selfPlus n (EBinary BK.Add l r EmptyString an) = Some other ->
    Opt.affineI64ConstExpr neg other loopVar = Some (a, b) ->
    Exec.evalE start s = Some (Exec.VInt st) ->
    Exec.evalE stop s = Some (Exec.VInt en) ->
    Exec.evalE step s = Some (Exec.VInt sp) ->
    I64val st -> I64val en -> I64val sp ->
    Opt.tripCount st en sp = Some tc -> 0 < tc ->
    spanFits st en sp = true -> I64val (st + tc * sp) ->
    s !! n = Some (Exec.VInt acc0) -> I64val acc0 ->
    Opt.foldSingle neg tc st sp loopVar [SAssign n (EBinary BK.Add l r EmptyString an)]
    = Some rep ->
    (Z.to_nat tc + 2 <= fuel)%nat ->
    Exec.exec fuel
      (SFor loopVar start stop step false [SAssign n (EBinary BK.Add l r EmptyString an)])
      s out
    = Exec.execBlock fuel rep s out
    /\ Exec.execBlock fuel rep s out
       = Some (Exec.FNext,
               <[n := Exec.VInt
                        (wrap64 (acc0 + sumTo (Z.to_nat tc)
                                          (fun k => a * (st + k * sp) + b)))]> s,
               out).
Proof.
  intros neg loopVar n l r other an start stop step st en sp tc a b acc0 rep s out fuel
         Hne Hlits Hself Haff Hs He Hp Ist Ien Isp Htc Hpos Hfit Ilast Hacc Iacc Hfold Hfuel.
  pose proof (runsFor_tripCount st en sp tc Ist Ien Isp Htc Hpos Hfit Ilast) as Hruns.
  rewrite (for_rounds neg loopVar n l r other an a b en sp Hne Hlits Hself Haff
             (Z.to_nat tc) fuel start stop step s out st acc0 Hfuel Hs He Hp Hruns Hacc Iacc).
  assert (Itc : I64val tc).
  { unfold Opt.tripCount in Htc.
    repeat match type of Htc with
           | (if ?c then _ else _) = _ => destruct c
           end; try discriminate Htc; injection Htc as <-;
      first [apply wrap64_range | unfold I64val, INT64_MIN, INT64_MAX, two63; lia]. }
  unfold Opt.foldSingle, Opt.reductionOther in Hfold. rewrite Hself in Hfold.
  cbn [mbind option_bind] in Hfold.
  destruct (Opt.exprHasVarName other n); [discriminate Hfold|].
  cbn [mbind option_bind] in Hfold.
  assert (Hmod : match other with
                 | EBinary BK.Mod ml mr _ _ =>
                   match Opt.evalConstI64Expr neg mr, Opt.affineI64ConstExpr neg ml loopVar with
                   | Some m, Some (a, b) =>
                     if 0 <? m then Opt.modLinearSeriesSumI64 tc st sp a b m else None
                   | _, _ => None
                   end
                 | _ => None
                 end = None).
  { destruct other as [| | | | |op ml mr ov an'|]; try reflexivity.
    destruct op; try reflexivity. rewrite affine_mod_none in Haff. discriminate Haff. }
  rewrite Hmod, Haff in Hfold. cbn [mbind option_bind] in Hfold.
  destruct (Opt.checkedI128ToI64 _) as [d|] eqn:Ed; [|discriminate Hfold].
  cbn [mbind option_bind] in Hfold. injection Hfold as <-.
  apply checkedI128ToI64_some in Ed as [-> _].
  assert (Hrep : Exec.execBlock fuel
                   [Opt.plusLit n (add128 (mul128 a (Opt.sumIdx128 tc st sp)) (mul128 b tc))]
                   s out
                 = Some (Exec.FNext,
                         <[n := Exec.VInt
                                  (wrap64 (acc0 + sumTo (Z.to_nat tc)
                                                    (fun k => a * (st + k * sp) + b)))]> s,
                         out)).
  { destruct fuel as [|fuel]; [lia|]. cbn [Exec.execBlock]. unfold Opt.plusLit.
    rewrite exec_assign. cbn [Exec.evalE String.eqb negb]. rewrite Hacc.
    cbn [Exec.evalBinary mbind option_bind].
    rewrite bool_decide_true by (now exists (Exec.VInt acc0)).
    cbn [mbind option_bind]. unfold add64.
    lazymatch goal with
    | |- Some (_, <[_ := Exec.VInt ?x]> _, _) = Some (_, <[_ := Exec.VInt ?y]> _, _) =>
      assert (EQ : x = y); [|now rewrite EQ]
    end.
    apply wrap64_eq.
    rewrite sumTo_affine, Z2Nat.id by lia.
    rewrite (sumIdx128_exact st sp tc Hpos Itc Ist (i64_last st sp tc Hpos Ist Ilast) Isp).
    set (S := sumTo (Z.to_nat tc) (fun k => st + k * sp)).
    unfold add128, mul128.
    destruct (wrap128_cong (wrap128 (a * S) + wrap128 (b * tc))) as [k1 H1].
    destruct (wrap128_cong (a * S)) as [k2 H2].
    destruct (wrap128_cong (b * tc)) as [k3 H3].
    exists (k1 + k2 + k3). lia. }
  split; [symmetry|]; exact Hrep.
Qed.

Example foldSingle_affine_preserves_witness :
  Exec.exec 7
    (SFor "i" (eInt 0) (eInt 5) (eInt 1) false
       [SAssign "acc" (EBinary BK.Add (eVar "acc")
                         (eBin BK.Add (eBin BK.Mul (eInt 2) (eVar "i")) (eInt 1))
                         EmptyString noAnn)])
    {[ "acc" := Exec.VInt 100 ]} EmptyString
  = Exec.execBlock 7 [Opt.plusLit "acc" 25] {[ "acc" := Exec.VInt 100 ]} EmptyString
  /\ Exec.execBlock 7 [Opt.plusLit "acc" 25] {[ "acc" := Exec.VInt 100 ]} EmptyString
     = Some (Exec.FNext,
             <[ "acc" := Exec.VInt
                           (wrap64 (100 + sumTo (Z.to_nat 5)
                                            (fun k => 2 * (0 + k * 1) + 1))) ]>
               {[ "acc" := Exec.VInt 100 ]},
             EmptyString).
Proof.
  apply (foldSingle_affine_preserves false "i" "acc" (eVar "acc")
           (eBin BK.Add (eBin BK.Mul (eInt 2) (eVar "i")) (eInt 1))
           (eBin BK.Add (eBin BK.Mul (eInt 2) (eVar "i")) (eInt 1)) noAnn
           (eInt 0) (eInt 5) (eInt 1) 0 5 1 5 2 1 100 [Opt.plusLit "acc" 25]
           {[ "acc" := Exec.VInt 100 ]} EmptyString 7);
    try reflexivity;
    try (unfold I64val, INT64_MIN, INT64_MAX, two63; lia);
    try discriminate; try lia.
Defined.

Section PolyFacts.
Import Exec.

Lemma w64 x : exists k, wrap64 x = x + k * two64.
Proof. destruct (wrap64_cong x) as [k H]. exists k. lia. Qed.

Lemma w128 x : exists k, wrap128 x = x + k * two64.
Proof. destruct (wrap128_cong x) as [k H]. exists k. lia. Qed.

Lemma mul128_cong x y : exists k, mul128 x y = x * y + k * two64.
Proof. apply w128. Qed.

Lemma add128_cong x y : exists k, add128 x y = x + y + k * two64.
Proof. apply w128. Qed.

Lemma neg128_cong x : exists k, neg128 x = - x + k * two64.
Proof. apply w128. Qed.

Lemma wrap64_by k x y : x = y + k * two64 -> wrap64 x = wrap64 y.
Proof. intros H. apply wrap64_eq. exists k. lia. Qed.

Lemma plainNeg_true neg op ov :
  Opt.plainNeg neg op ov = true -> ov = EmptyString /\ op = UK.Neg.
Proof.
  unfold Opt.plainNeg. intros H.
  apply andb_true_iff in H as [H H2]. apply andb_true_iff in H as [H1 _].
  apply String.eqb_eq in H1. apply bool_decide_eq_true in H2. auto.
Qed.

Section WithNeg3.
Variable neg : bool.
Variable σ : gmap string Val.
Variable loopVar : string.
Variable i : Z.
Hypothesis Hi : σ !! loopVar = Some (VInt i).
Hypothesis Hri : I64val i.

Lemma poly2Add_cong p q sign c2 c1 c0 :
  Opt.poly2Add p q sign = Some (c2, c1, c0) ->
  exists k,
    c2 * i * i + c1 * i + c0
    = (p.1.1 * i * i + p.1.2 * i + p.2)
      + sign * (q.1.1 * i * i + q.1.2 * i + q.2) + k * two64.
Proof.
  destruct p as [[a2 a1] a0], q as [[b2 b1] b0]. unfold Opt.poly2Add. cbn [fst snd].
  destruct (Opt.checkedI128ToI64 _) as [x2|] eqn:E2; [|discriminate].
  destruct (Opt.checkedI128ToI64 _) as [x1|] eqn:E1 in |- *; [|discriminate].
  destruct (Opt.checkedI128ToI64 _) as [x0|] eqn:E0 in |- *; [|discriminate].
  intros [= <- <- <-].
  apply checkedI128ToI64_some in E2 as [-> _].
  apply checkedI128ToI64_some in E1 as [-> _].
  apply checkedI128ToI64_some in E0 as [-> _].
  destruct (mul128_cong sign b2) as [m2 ->], (mul128_cong sign b1) as [m1 ->],
           (mul128_cong sign b0) as [m0 ->].
  destruct (add128_cong a2 (sign * b2 + m2 * two64)) as [k2 ->].
  destruct (add128_cong a1 (sign * b1 + m1 * two64)) as [k1 ->].
  destruct (add128_cong a0 (sign * b0 + m0 * two64)) as [k0 ->].
  exists ((m2 + k2) * i * i + (m1 + k1) * i + (m0 + k0)). lia.
Qed.

Lemma poly2Mul_cong p q c2 c1 c0 :
  Opt.poly2Mul p q = Some (c2, c1, c0) ->
  exists k,
    c2 * i * i + c1 * i + c0
    = (p.1.1 * i * i + p.1.2 * i + p.2) * (q.1.1 * i * i + q.1.2 * i + q.2)
      + k * two64.
Proof.
  destruct p as [[a2 a1] a0], q as [[b2 b1] b0]. unfold Opt.poly2Mul. cbn [fst snd].
  destruct (mul128_cong a2 b2) as [k4 E4].
  destruct (mul128_cong a2 b1) as [k31 E31], (mul128_cong a1 b2) as [k32 E32].
  destruct (add128_cong (mul128 a2 b1) (mul128 a1 b2)) as [k3 E3].
  destruct (Z.eqb_spec (mul128 a2 b2) 0) as [Z4|]; [|discriminate].
  destruct (Z.eqb_spec (add128 (mul128 a2 b1) (mul128 a1 b2)) 0) as [Z3|]; [|discriminate].
  cbn [negb orb].
  destruct (Opt.checkedI128ToI64 _) as [x2|] eqn:E2; [|discriminate].
  destruct (Opt.checkedI128ToI64 _) as [x1|] eqn:E1 in |- *; [|discriminate].
  destruct (Opt.checkedI128ToI64 _) as [x0|] eqn:E0 in |- *; [|discriminate].
  intros [= <- <- <-].
  apply checkedI128ToI64_some in E2 as [-> _].
  apply checkedI128ToI64_some in E1 as [-> _].
  apply checkedI128ToI64_some in E0 as [-> _].
  rewrite Z3 in E3. rewrite Z4 in E4. rewrite E31, E32 in E3.
  destruct (mul128_cong a2 b0) as [m20 ->], (mul128_cong a1 b1) as [m11 ->],
           (mul128_cong a0 b2) as [m02 ->], (mul128_cong a1 b0) as [m10 ->],
           (mul128_cong a0 b1) as [m01 ->], (mul128_cong a0 b0) as [m00 ->].
  destruct (add128_cong (a2 * b0 + m20 * two64) (a1 * b1 + m11 * two64)) as [s1 ->].
  destruct (add128_cong (a2 * b0 + m20 * two64 + (a1 * b1 + m11 * two64) + s1 * two64)
                        (a0 * b2 + m02 * two64)) as [s2 ->].
  destruct (add128_cong (a1 * b0 + m10 * two64) (a0 * b1 + m01 * two64)) as [s3 ->].
  assert (T4 : a2 * b2 * (i * i * i * i) = - k4 * two64 * (i * i * i * i)).
  { replace (a2 * b2) with (- k4 * two64) by lia. ring. }
  assert (T3 : (a2 * b1 + a1 * b2) * (i * i * i)
               = - (k31 + k32 + k3) * two64 * (i * i * i)).
  { replace (a2 * b1 + a1 * b2) with (- (k31 + k32 + k3) * two64) by lia. ring. }
  exists ((m20 + m11 + s1 + m02 + s2) * i * i + (m10 + m01 + s3) * i + m00
          + k4 * (i * i * i * i) + (k31 + k32 + k3) * (i * i * i)).
  lia.
Qed.

(** The value of an expression that [poly2ConstI64Expr] classifies. *)
Lemma poly2ConstI64Expr_eval e : forall c2 c1 c0 w,
  litsI64 e = true ->
  Opt.poly2ConstI64Expr neg e loopVar = Some (c2, c1, c0) ->
  evalE e σ = Some w ->
  w = VInt (wrap64 (c2 * i * i + c1 * i + c0)).
Proof.
  induction e as [v0 an|v0 an|v0 an|n an|op x IHx ov an|op l IHl r IHr ov an|f args _ an];
    intros c2 c1 c0 w Hl; cbn [Opt.poly2ConstI64Expr]; try discriminate.
  - intros [= <- <- <-] [= <-]. cbn [litsI64] in Hl. apply inI64_I64val in Hl.
    f_equal. rewrite <- (I64val_wrap64 v0 Hl) at 1. f_equal; lia.
  - destruct (String.eqb_spec n loopVar) as [->|]; [|discriminate].
    intros [= <- <- <-]. cbn [evalE]. rewrite Hi. intros [= <-].
    f_equal. rewrite <- (I64val_wrap64 i Hri) at 1. f_equal; lia.
  - destruct (Opt.plainNeg neg op ov) eqn:Ep; [|discriminate]. cbn [negb].
    apply plainNeg_true in Ep as [-> ->].
    destruct (Opt.poly2ConstI64Expr neg x loopVar) as [[[i2 i1] i0]|] eqn:Ex;
      [|discriminate].
    cbn [mbind option_bind].
    destruct (Opt.checkedI128ToI64 (neg128 i2)) as [x2|] eqn:E2; [|discriminate].
    destruct (Opt.checkedI128ToI64 (neg128 i1)) as [x1|] eqn:E1; [|discriminate].
    destruct (Opt.checkedI128ToI64 (neg128 i0)) as [x0|] eqn:E0; [|discriminate].
    intros [= <- <- <-].
    apply checkedI128ToI64_some in E2 as [-> _].
    apply checkedI128ToI64_some in E1 as [-> _].
    apply checkedI128ToI64_some in E0 as [-> _].
    cbn [evalE String.eqb negb].
    destruct (evalE x σ) as [wx|] eqn:Ev; [|discriminate].
    rewrite (IHx i2 i1 i0 wx Hl eq_refl eq_refl). intros [= <-]. f_equal.
    unfold neg64.
    destruct (w64 (i2 * i * i + i1 * i + i0)) as [k ->].
    destruct (neg128_cong i2) as [k2 ->], (neg128_cong i1) as [k1 ->],
             (neg128_cong i0) as [k0 ->].
    apply (wrap64_by (- k - k2 * i * i - k1 * i - k0)). lia.
  - cbn [litsI64] in Hl. apply andb_true_iff in Hl as [Hll Hlr].
    intros Hp Hv.
    assert (V : forall bop, op = bop ->
              match bop with BK.Add | BK.Sub | BK.Mul => True | _ => False end ->
              forall pl pr, Opt.poly2ConstI64Expr neg l loopVar = Some pl ->
                Opt.poly2ConstI64Expr neg r loopVar = Some pr ->
                exists zl zr,
                  zl = wrap64 (pl.1.1 * i * i + pl.1.2 * i + pl.2)
                  /\ zr = wrap64 (pr.1.1 * i * i + pr.1.2 * i + pr.2)
                  /\ evalBinary op (VInt zl) (VInt zr) = Some w).
    { intros bop -> Hb [[a2 a1] a0] [[b2 b1] b0] El Er. cbn [evalE] in Hv.
      destruct (negb (String.eqb ov EmptyString)); [discriminate Hv|].
      destruct (evalE l σ) as [wl|] eqn:Evl;
        [|destruct bop; try contradiction; discriminate Hv].
      destruct (evalE r σ) as [wr|] eqn:Evr;
        [|destruct bop; try contradiction; discriminate Hv].
      rewrite (IHl a2 a1 a0 wl Hll El eq_refl) in Hv.
      rewrite (IHr b2 b1 b0 wr Hlr Er eq_refl) in Hv.
      eexists _, _. split; [reflexivity|]. split; [reflexivity|].
      destruct bop; try contradiction; exact Hv. }
    destruct (bool_decide (op = BK.Add) || bool_decide (op = BK.Sub)) eqn:Eas.
    + destruct (Opt.poly2ConstI64Expr neg l loopVar) as [pl|] eqn:El; [|discriminate Hp].
      destruct (Opt.poly2ConstI64Expr neg r loopVar) as [pr|] eqn:Er; [|discriminate Hp].
      apply poly2Add_cong in Hp as [k Hk].
      apply orb_true_iff in Eas as [Eo|Eo]; apply bool_decide_eq_true in Eo; subst op.
      * destruct (V BK.Add eq_refl I pl pr eq_refl eq_refl) as (zl & zr & -> & -> & Hw).
        cbn [evalBinary] in Hw. injection Hw as <-. f_equal. unfold add64.
        destruct (w64 (pl.1.1 * i * i + pl.1.2 * i + pl.2)) as [kl ->].
        destruct (w64 (pr.1.1 * i * i + pr.1.2 * i + pr.2)) as [kr ->].
        rewrite Hk. change (Opt.signOf BK.Add) with 1.
        apply (wrap64_by (kl + kr - k)). lia.
      * destruct (V BK.Sub eq_refl I pl pr eq_refl eq_refl) as (zl & zr & -> & -> & Hw).
        cbn [evalBinary] in Hw. injection Hw as <-. f_equal. unfold sub64.
        destruct (w64 (pl.1.1 * i * i + pl.1.2 * i + pl.2)) as [kl ->].
        destruct (w64 (pr.1.1 * i * i + pr.1.2 * i + pr.2)) as [kr ->].
        rewrite Hk. change (Opt.signOf BK.Sub) with (-1).
        apply (wrap64_by (kl - kr - k)). lia.
    + destruct (bool_decide (op = BK.Mul)) eqn:Em; [|discriminate Hp].
      apply bool_decide_eq_true in Em. subst op.
      destruct (Opt.poly2ConstI64Expr neg l loopVar) as [pl|] eqn:El; [|discriminate Hp].
      destruct (Opt.poly2ConstI64Expr neg r loopVar) as [pr|] eqn:Er; [|discriminate Hp].
      destruct (2 <? Opt.poly2Degree pl + Opt.poly2Degree pr); [discriminate Hp|].
      apply poly2Mul_cong in Hp as [k Hk].
      destruct (V BK.Mul eq_refl I pl pr eq_refl eq_refl) as (zl & zr & -> & -> & Hw).
      cbn [evalBinary] in Hw. injection Hw as <-. f_equal. unfold mul64.
      rewrite Hk.
      set (PL := pl.1.1 * i * i + pl.1.2 * i + pl.2).
      set (PR := pr.1.1 * i * i + pr.1.2 * i + pr.2).
      destruct (w64 PL) as [kl ->]. destruct (w64 PR) as [kr ->].
      apply (wrap64_by (kl * PR + kr * PL + kl * kr * two64 - k)). lia.
Qed.

End WithNeg3.

Section WithNeg4.
Variable neg : bool.
Variable σ : gmap string Val.
Variables xVar yVar : string.
Variables x y : Z.
Hypothesis Hx : σ !! xVar = Some (VInt x).
Hypothesis Hy : σ !! yVar = Some (VInt y).
Hypothesis Hrx : I64val x.
Hypothesis Hry : I64val y.

Lemma linear2Scale_cong k p ax ay c :
  Opt.linear2Scale k p = Some (ax, ay, c) ->
  exists q, ax * x + ay * y + c = k * (p.1.1 * x + p.1.2 * y + p.2) + q * two64.
Proof.
  destruct p as [[pax pay] pc]. unfold Opt.linear2Scale. cbn [fst snd].
  destruct (Opt.checkedI128ToI64 (mul128 k pax)) as [x2|] eqn:E2; [|discriminate].
  destruct (Opt.checkedI128ToI64 (mul128 k pay)) as [x1|] eqn:E1; [|discriminate].
  destruct (Opt.checkedI128ToI64 (mul128 k pc)) as [x0|] eqn:E0; [|discriminate].
  cbn [mbind option_bind]. intros [= <- <- <-].
  apply checkedI128ToI64_some in E2 as [-> _].
  apply checkedI128ToI64_some in E1 as [-> _].
  apply checkedI128ToI64_some in E0 as [-> _].
  destruct (mul128_cong k pax) as [m2 ->], (mul128_cong k pay) as [m1 ->],
           (mul128_cong k pc) as [m0 ->].
  exists (m2 * x + m1 * y + m0). lia.
Qed.

(** The value of an expression that [linear2I64ConstExpr] classifies. *)
Lemma linear2I64ConstExpr_eval e : forall ax ay c w,
  litsI64 e = true ->
  Opt.linear2I64ConstExpr neg e xVar yVar = Some (ax, ay, c) ->
  evalE e σ = Some w ->
  w = VInt (wrap64 (ax * x + ay * y + c)).
Proof.
  induction e as [v0 an|v0 an|v0 an|n an|op e1 IHx ov an|op l IHl r IHr ov an|f args _ an];
    intros ax ay c w Hl; cbn [Opt.linear2I64ConstExpr]; try discriminate.
  - intros [= <- <- <-] [= <-]. cbn [litsI64] in Hl. apply inI64_I64val in Hl.
    f_equal. rewrite <- (I64val_wrap64 v0 Hl) at 1. f_equal; lia.
  - cbn [evalE]. destruct (String.eqb_spec n xVar) as [->|].
    + intros [= <- <- <-]. rewrite Hx. intros [= <-].
      f_equal. rewrite <- (I64val_wrap64 x Hrx) at 1. f_equal; lia.
    + destruct (String.eqb_spec n yVar) as [->|]; [|discriminate].
      intros [= <- <- <-]. rewrite Hy. intros [= <-].
      f_equal. rewrite <- (I64val_wrap64 y Hry) at 1. f_equal; lia.
  - destruct (Opt.plainNeg neg op ov) eqn:Ep; [|discriminate]. cbn [negb].
    apply plainNeg_true in Ep as [-> ->].
    destruct (Opt.linear2I64ConstExpr neg e1 xVar yVar) as [[[iax iay] ic]|] eqn:Ex;
      [|discriminate].
    cbn [mbind option_bind].
    destruct (Opt.checkedI128ToI64 (neg128 iax)) as [x2|] eqn:E2; [|discriminate].
    destruct (Opt.checkedI128ToI64 (neg128 iay)) as [x1|] eqn:E1; [|discriminate].
    destruct (Opt.checkedI128ToI64 (neg128 ic)) as [x0|] eqn:E0; [|discriminate].
    cbn [mbind option_bind]. intros [= <- <- <-].
    apply checkedI128ToI64_some in E2 as [-> _].
    apply checkedI128ToI64_some in E1 as [-> _].
    apply checkedI128ToI64_some in E0 as [-> _].
    cbn [evalE String.eqb negb].
    destruct (evalE e1 σ) as [wx|] eqn:Ev; [|discriminate].
    rewrite (IHx iax iay ic wx Hl eq_refl eq_refl). intros [= <-]. f_equal.
    unfold neg64.
    destruct (w64 (iax * x + iay * y + ic)) as [k ->].
    destruct (neg128_cong iax) as [k2 ->], (neg128_cong iay) as [k1 ->],
             (neg128_cong ic) as [k0 ->].
    apply (wrap64_by (- k - k2 * x - k1 * y - k0)). lia.
  - cbn [litsI64] in Hl. apply andb_true_iff in Hl as [Hll Hlr].
    destruct (String.eqb_spec ov EmptyString) as [->|]; [|discriminate]. cbn [negb].
    intros Hp Hv. cbn [evalE String.eqb negb] in Hv.
    destruct (bool_decide (op = BK.Add) || bool_decide (op = BK.Sub)) eqn:Eas.
    + destruct (Opt.linear2I64ConstExpr neg l xVar yVar) as [[[lax lay] lc]|] eqn:El;
        [|discriminate Hp].
      destruct (Opt.linear2I64ConstExpr neg r xVar yVar) as [[[rax ray] rc]|] eqn:Er;
        [|discriminate Hp].
      destruct (Opt.checkedI128ToI64 (add128 lax (mul128 (Opt.signOf op) rax)))
        as [x2|] eqn:E2; [|discriminate Hp].
      cbn [mbind option_bind] in Hp.
      destruct (Opt.checkedI128ToI64 (add128 lay (mul128 (Opt.signOf op) ray)))
        as [x1|] eqn:E1; [|discriminate Hp].
      cbn [mbind option_bind] in Hp.
      destruct (Opt.checkedI128ToI64 (add128 lc (mul128 (Opt.signOf op) rc)))
        as [x0|] eqn:E0; [|discriminate Hp].
      cbn [mbind option_bind] in Hp. injection Hp as <- <- <-.
      apply checkedI128ToI64_some in E2 as [-> _].
      apply checkedI128ToI64_some in E1 as [-> _].
      apply checkedI128ToI64_some in E0 as [-> _].
      set (sg := Opt.signOf op).
      destruct (mul128_cong sg rax) as [m2 ->], (mul128_cong sg ray) as [m1 ->],
               (mul128_cong sg rc) as [m0 ->].
      destruct (add128_cong lax (sg * rax + m2 * two64)) as [k2 ->].
      destruct (add128_cong lay (sg * ray + m1 * two64)) as [k1 ->].
      destruct (add128_cong lc (sg * rc + m0 * two64)) as [k0 ->].
      assert (Hop : op = BK.Add \/ op = BK.Sub).
      { apply orb_true_iff in Eas as [Eo|Eo]; apply bool_decide_eq_true in Eo; auto. }
      destruct (evalE l σ) as [wl|] eqn:Evl;
        [|destruct Hop; subst op; discriminate Hv].
      destruct (evalE r σ) as [wr|] eqn:Evr;
        [|destruct Hop; subst op; discriminate Hv].
      rewrite (IHl lax lay lc wl Hll eq_refl eq_refl) in Hv.
      rewrite (IHr rax ray rc wr Hlr eq_refl eq_refl) in Hv.
      destruct (w64 (lax * x + lay * y + lc)) as [kl Ekl].
      destruct (w64 (rax * x + ray * y + rc)) as [kr Ekr].
      destruct Hop; subst op; cbn [evalBinary] in Hv; injection Hv as <-; f_equal;
        unfold add64, sub64; rewrite Ekl, Ekr.
      * change sg with 1.
        apply (wrap64_by (kl + kr - (m2 + k2) * x - (m1 + k1) * y - (m0 + k0))). lia.
      * change sg with (-1).
        apply (wrap64_by (kl - kr - (m2 + k2) * x - (m1 + k1) * y - (m0 + k0))). lia.
    + destruct (bool_decide (op = BK.Mul)) eqn:Em; [|discriminate Hp].
      apply bool_decide_eq_true in Em. subst op.
      destruct (Opt.evalConstI64Expr neg l) as [lc|] eqn:Ecl.
      * destruct (Opt.linear2I64ConstExpr neg r xVar yVar) as [pr|] eqn:Er;
          [|discriminate Hp].
        cbn [mbind option_bind] in Hp. apply linear2Scale_cong in Hp as [q Hq].
        destruct pr as [[rax ray] rc]. cbn [fst snd] in Hq.
        destruct (evalConstI64Expr_eval neg l lc σ Hll Ecl) as [_ Evl].
        rewrite Evl in Hv.
        destruct (evalE r σ) as [wr|] eqn:Evr; [|discriminate Hv].
        rewrite (IHr rax ray rc wr Hlr eq_refl eq_refl) in Hv.
        cbn [evalBinary] in Hv. injection Hv as <-. f_equal. unfold mul64.
        destruct (w64 (rax * x + ray * y + rc)) as [kr ->]. rewrite Hq.
        apply (wrap64_by (lc * kr - q)). lia.
      * destruct (Opt.evalConstI64Expr neg r) as [rc0|] eqn:Ecr; [|discriminate Hp].
        destruct (Opt.linear2I64ConstExpr neg l xVar yVar) as [pl|] eqn:El;
          [|discriminate Hp].
        cbn [mbind option_bind] in Hp. apply linear2Scale_cong in Hp as [q Hq].
        destruct pl as [[lax lay] lc]. cbn [fst snd] in Hq.
        destruct (evalConstI64Expr_eval neg r rc0 σ Hlr Ecr) as [_ Evr].
        rewrite Evr in Hv.
        destruct (evalE l σ) as [wl|] eqn:Evl; [|discriminate Hv].
        rewrite (IHl lax lay lc wl Hll eq_refl eq_refl) in Hv.
        cbn [evalBinary] in Hv. injection Hv as <-. f_equal. unfold mul64.
        destruct (w64 (lax * x + lay * y + lc)) as [kl ->]. rewrite Hq.
        apply (wrap64_by (rc0 * kl - q)). lia.
Qed.

End WithNeg4.

Section WithNeg5.
Variable neg : bool.
Variable σ : gmap string Val.
Variable env : gmap string Z.
Hypothesis Henv : forall n z, env !! n = Some z -> σ !! n = Some (VInt z).

(** The value of an expression that [evalConstI64WithEnv] evaluates. *)
Lemma evalConstI64WithEnv_eval e : forall v w,
  Opt.evalConstI64WithEnv neg e env = Some (Some v) ->
  evalE e σ = Some w ->
  w = VInt v.
Proof.
  induction e as [v0 an|v0 an|v0 an|n an|op e1 IHx ov an|op l IHl r IHr ov an|f args _ an];
    intros v w; cbn [Opt.evalConstI64WithEnv]; try discriminate.
  - now intros [= <-] [= <-].
  - intros [= Hn]. cbn [evalE]. rewrite (Henv n v Hn). now intros [= <-].
  - destruct (Opt.plainNeg neg op ov) eqn:Ep; [|discriminate]. cbn [negb].
    apply plainNeg_true in Ep as [-> ->].
    destruct (Opt.evalConstI64WithEnv neg e1 env) as [[vx|]|] eqn:Ex;
      try discriminate.
    cbn [mbind option_bind]. intros [= Hc].
    apply checkedI128ToI64_some in Hc as [-> Hr].
    cbn [evalE String.eqb negb].
    destruct (evalE e1 σ) as [wx|] eqn:Ev; [|discriminate].
    rewrite (IHx vx wx eq_refl eq_refl). intros [= <-]. f_equal.
    rewrite <- (I64val_wrap64 _ Hr). unfold neg64. apply wrap64_eq.
    destruct (neg128_cong vx) as [k2 H2].
    exists (- k2). lia.
  - destruct (String.eqb_spec ov EmptyString) as [->|]; [|discriminate]. cbn [negb].
    destruct (Opt.evalConstI64WithEnv neg l env) as [[vl|]|] eqn:El;
      try discriminate;
      destruct (Opt.evalConstI64WithEnv neg r env) as [[vr|]|] eqn:Er;
      try discriminate.
    cbn [mbind option_bind].
    intros Hp Hv. cbn [evalE String.eqb negb] in Hv.
    assert (V : match op with BK.And | BK.Or => True
                | _ => evalBinary op (VInt vl) (VInt vr) = Some w end).
    { destruct op; try exact I;
        (destruct (evalE l σ) as [wl|] eqn:Evl; [|discriminate Hv];
         destruct (evalE r σ) as [wr|] eqn:Evr; [|discriminate Hv];
         rewrite (IHl vl wl eq_refl eq_refl), (IHr vr wr eq_refl eq_refl) in Hv;
         exact Hv). }
    destruct op; try discriminate Hp; cbn [evalBinary] in V.
    + injection Hp as Hp.
      apply checkedI128ToI64_some in Hp as [-> Hr]. injection V as <-. f_equal.
      rewrite <- (I64val_wrap64 _ Hr). unfold add64. apply wrap64_eq.
      destruct (add128_cong vl vr) as [k2 H2].
      exists (- k2). lia.
    + injection Hp as Hp.
      apply checkedI128ToI64_some in Hp as [-> Hr]. injection V as <-. f_equal.
      rewrite <- (I64val_wrap64 _ Hr). unfold sub64. apply wrap64_eq.
      destruct (w128 (vl - vr)) as [k2 H2].
      unfold sub128 in *. exists (- k2). lia.
    + injection Hp as Hp.
      apply checkedI128ToI64_some in Hp as [-> Hr]. injection V as <-. f_equal.
      rewrite <- (I64val_wrap64 _ Hr). unfold mul64. apply wrap64_eq.
      destruct (mul128_cong vl vr) as [k2 H2].
      exists (- k2). lia.
    + destruct (Z.eqb_spec vr 0); [discriminate Hp|].
      unfold cdiv64, divOverflows in Hp.
      cbn [orb] in V. destruct ((vl =? INT64_MIN) && (vr =? -1)); [discriminate V|].
      injection Hp as <-. now injection V as <-.
    + destruct (Z.eqb_spec vr 0); [discriminate Hp|].
      unfold crem64, divOverflows in Hp.
      cbn [orb] in V. destruct ((vl =? INT64_MIN) && (vr =? -1)); [discriminate V|].
      injection Hp as <-. now injection V as <-.
Qed.

End WithNeg5.

End PolyFacts.

(** The quadratic classification is sound: when [poly2ConstI64Expr] gives
    [(c2, c1, c0)] for an expression and a loop variable, the expression,
    whenever it has a value with the loop variable holding [i], has the
    value [c2 * i * i + c1 * i + c0] reduced to 64 bits. *)
Theorem poly2ConstI64Expr_sound :
  forall (neg : bool) (e : Expr) (loopVar : string) (c2 c1 c0 i : Z)
         (s : gmap string Exec.Val) (w : Exec.Val),
    litsI64 e = true ->
    s !! loopVar = Some (Exec.VInt i) -> I64val i ->
    Opt.poly2ConstI64Expr neg e loopVar = Some (c2, c1, c0) ->
    Exec.evalE e s = Some w ->
    w = Exec.VInt (wrap64 (c2 * i * i + c1 * i + c0)).
Proof.
  intros neg e loopVar c2 c1 c0 i s w Hl Hi Hri Hp Hv.
  exact (poly2ConstI64Expr_eval neg s loopVar i Hi Hri e c2 c1 c0 w Hl Hp Hv).
Qed.

Example poly2ConstI64Expr_sound_witness :
  Exec.VInt 28 = Exec.VInt (wrap64 (1 * 5 * 5 + 1 * 5 + -2)).
Proof.
  apply (poly2ConstI64Expr_sound false
           (eBin BK.Mul (eBin BK.Add (eVar "i") (eInt 2)) (eBin BK.Sub (eVar "i") (eInt 1)))
           "i" 1 1 (-2) 5 {[ "i" := Exec.VInt 5 ]} (Exec.VInt 28));
    try reflexivity.
  unfold I64val, INT64_MIN, INT64_MAX, two63. lia.
Defined.

(** The bilinear classification is sound: when [linear2I64ConstExpr]
    gives [(ax, ay, c)] for an expression and two variables, the
    expression, whenever it has a value with the variables holding [x] and
    [y], has the value [ax * x + ay * y + c] reduced to 64 bits. *)
Theorem linear2I64ConstExpr_sound :
  forall (neg : bool) (e : Expr) (xVar yVar : string) (ax ay c x y : Z)
         (s : gmap string Exec.Val) (w : Exec.Val),
    litsI64 e = true ->
    s !! xVar = Some (Exec.VInt x) -> s !! yVar = Some (Exec.VInt y) ->
    I64val x -> I64val y ->
    Opt.linear2I64ConstExpr neg e xVar yVar = Some (ax, ay, c) ->
    Exec.evalE e s = Some w ->
    w = Exec.VInt (wrap64 (ax * x + ay * y + c)).
Proof.
  intros neg e xVar yVar ax ay c x y s w Hl Hx Hy Hrx Hry Hp Hv.
  exact (linear2I64ConstExpr_eval neg s xVar yVar x y Hx Hy Hrx Hry e ax ay c w Hl Hp Hv).
Qed.

Example linear2I64ConstExpr_sound_witness :
  Exec.VInt 16 = Exec.VInt (wrap64 (3 * 4 + -1 * 3 + 7)).
Proof.
  apply (linear2I64ConstExpr_sound false
           (eBin BK.Add (eBin BK.Sub (eBin BK.Mul (eInt 3) (eVar "i")) (eVar "j")) (eInt 7))
           "i" "j" 3 (-1) 7 4 3 {[ "i" := Exec.VInt 4; "j" := Exec.VInt 3 ]} (Exec.VInt 16));
    try reflexivity;
    unfold I64val, INT64_MIN, INT64_MAX, two63; lia.
Defined.

(** Constant evaluation under known variables is sound: when
    [evalConstI64WithEnv] gives a constant for an expression, the
    expression, whenever it has a value in a store that holds the known
    variables' values, has exactly that constant as its value. *)
Theorem evalConstI64WithEnv_sound :
  forall (neg : bool) (e : Expr) (env : gmap string Z) (s : gmap string Exec.Val)
         (v : Z) (w : Exec.Val),
    (forall n z, env !! n = Some z -> s !! n = Some (Exec.VInt z)) ->
    Opt.evalConstI64WithEnv neg e env = Some (Some v) ->
    Exec.evalE e s = Some w ->
    w = Exec.VInt v.
Proof.
  intros neg e env s v w Henv Hc Hv.
  exact (evalConstI64WithEnv_eval neg s env Henv e v w Hc Hv).
Qed.

Example evalConstI64WithEnv_sound_witness :
  Exec.VInt 3 = Exec.VInt 3.
Proof.
  apply (evalConstI64WithEnv_sound false
           (eBin BK.Div (eBin BK.Add (eVar "n") (eInt 1)) (eInt 2))
           {[ "n" := 6 ]} {[ "n" := Exec.VInt 6 ]} 3 (Exec.VInt 3));
    try reflexivity.
  intros n z H. apply lookup_singleton_Some in H as [<- <-]. reflexivity.
Defined.

Section CliFacts.
Import Cli.

Lemma flagChar_dash c : flagChar c = true -> Ascii.eqb c "-" = false.
Proof.
  destruct (Ascii.eqb_spec c "-") as [->|]; [|reflexivity]. vm_compute. discriminate.
Qed.

Lemma splitDash_cons s : exists w ws, splitDash s = w :: ws.
Proof.
  destruct s as [|c r]; [now eexists _, _|]. cbn [splitDash].
  destruct (Ascii.eqb c "-"); [now eexists _, _|].
  destruct (splitDash r); now eexists _, _.
Qed.

Lemma joinDash_cons w w' ws : joinDash (w :: w' :: ws) = w ++ String "-" (joinDash (w' :: ws)).
Proof. reflexivity. Qed.

Lemma joinDash_push c w ws : joinDash (String c w :: ws) = String c (joinDash (w :: ws)).
Proof. destruct ws; reflexivity. Qed.

Lemma joinDash_splitDash s : joinDash (splitDash s) = s.
Proof.
  induction s as [|c r IH]; [reflexivity|]. cbn [splitDash].
  destruct (Ascii.eqb_spec c "-") as [->|].
  - destruct (splitDash_cons r) as (w & ws & E). rewrite E in *.
    rewrite joinDash_cons, IH. reflexivity.
  - destruct (splitDash_cons r) as (w & ws & E). rewrite E in *.
    now rewrite joinDash_push, IH.
Qed.

Lemma endsOk_next b c r :
  endsOk b (String c r) -> endsOk (Ascii.eqb c "-") r.
Proof.
  destruct r as [|d r']; cbn; [|auto]. destruct (Ascii.eqb c "-"); auto.
Qed.

(** What the loop has checked when it returns [true]. *)
Lemma flagBodyLoop_words s : forall b,
  flagBodyLoop s b = true -> endsOk b s ->
  exists w ws, splitDash s = w :: ws
               /\ allChars flagChar w = true
               /\ (b = true -> w <> EmptyString)
               /\ forallb flagWord ws = true.
Proof.
  induction s as [|c r IH]; intros b Hl He.
  - exists EmptyString, []. cbn in He. subst b. repeat split; auto; try discriminate.
  - pose proof (endsOk_next b c r He) as He'. cbn [flagBodyLoop splitDash] in *.
    destruct (Ascii.eqb c "-") eqn:Ec.
    + destruct b; [discriminate Hl|].
      destruct (IH true Hl He') as (w & ws & E & Hw & Hn & Hws).
      exists EmptyString, (w :: ws). rewrite E. repeat split; auto; try discriminate.
      cbn [forallb]. rewrite Hws, andb_true_r. unfold flagWord. rewrite Hw, andb_true_r.
      destruct (String.eqb_spec w EmptyString) as [->|]; [now destruct Hn|reflexivity].
    + destruct (negb (CType.isalnum c) && negb (Ascii.eqb c "_")) eqn:Ef;
        [discriminate Hl|].
      destruct (IH false Hl He') as (w & ws & E & Hw & _ & Hws).
      exists (String c w), ws. rewrite E. repeat split; auto; try discriminate.
      cbn [allChars]. rewrite Hw, andb_true_r. unfold flagChar.
      destruct (CType.isalnum c), (Ascii.eqb c "_"); try reflexivity; discriminate Ef.
Qed.

Lemma flagBodyLoop_word w : forall rest b,
  allChars flagChar w = true -> w <> EmptyString ->
  flagBodyLoop (w ++ rest) b = flagBodyLoop rest false.
Proof.
  induction w as [|c r IH]; intros rest b Hw Hn; [now destruct Hn|].
  cbn [allChars] in Hw. apply andb_true_iff in Hw as [Hc Hr].
  rewrite append_cons. cbn [flagBodyLoop]. rewrite (flagChar_dash c Hc).
  unfold flagChar in Hc.
  replace (negb (CType.isalnum c) && negb (Ascii.eqb c "_")) with false
    by (destruct (CType.isalnum c), (Ascii.eqb c "_"); try reflexivity; discriminate Hc).
  destruct r as [|d r']; [reflexivity|]. apply IH; [exact Hr|discriminate].
Qed.

Lemma flagWord_spec w :
  flagWord w = true -> allChars flagChar w = true /\ w <> EmptyString.
Proof.
  unfold flagWord. intros H. apply andb_true_iff in H as [H1 H2]. split; [exact H2|].
  intros ->. discriminate H1.
Qed.

Lemma flagBodyLoop_join ws : forall b,
  ws <> [] -> forallb flagWord ws = true -> flagBodyLoop (joinDash ws) b = true.
Proof.
  induction ws as [|w ws IH]; intros b Hne Hws; [now destruct Hne|].
  cbn [forallb] in Hws. apply andb_true_iff in Hws as [Hw Hws].
  apply flagWord_spec in Hw as [Hw Hn].
  destruct ws as [|w' ws'].
  - cbn [joinDash].
    replace (flagBodyLoop w b) with (flagBodyLoop (w ++ EmptyString) b)
      by (now rewrite append_nil_r).
    rewrite flagBodyLoop_word by assumption. reflexivity.
  - rewrite joinDash_cons, flagBodyLoop_word by assumption.
    cbn [flagBodyLoop]. cbn [Ascii.eqb]. cbn.
    apply IH; [discriminate|exact Hws].
Qed.

Lemma back_append a r : r <> EmptyString -> back (a ++ r) = back r.
Proof.
  intros Hr. induction a as [|c a IH]; [reflexivity|]. rewrite append_cons.
  cbn [back]. destruct (a ++ r) eqn:E; [|exact IH].
  destruct a; [now destruct Hr|discriminate E].
Qed.

Lemma back_word w :
  allChars flagChar w = true -> w <> EmptyString -> isChar "-" (back w) = false.
Proof.
  induction w as [|c r IH]; intros Hw Hn; [now destruct Hn|].
  cbn [allChars] in Hw. apply andb_true_iff in Hw as [Hc Hr].
  destruct r as [|d r']; [cbn; now apply flagChar_dash|].
  change (back (String c (String d r'))) with (back (String d r')).
  apply IH; [exact Hr|discriminate].
Qed.

Lemma back_join ws :
  ws <> [] -> forallb flagWord ws = true -> isChar "-" (back (joinDash ws)) = false.
Proof.
  induction ws as [|w ws IH]; intros Hne Hws; [now destruct Hne|].
  cbn [forallb] in Hws. apply andb_true_iff in Hws as [Hw Hws].
  apply flagWord_spec in Hw as [Hw Hn].
  destruct ws as [|w' ws']; [now apply back_word|].
  rewrite joinDash_cons, back_append by discriminate.
  change (back (String "-" (joinDash (w' :: ws')))) with
    (match joinDash (w' :: ws') with
     | EmptyString => Some "-"%char
     | _ => back (joinDash (w' :: ws'))
     end).
  destruct (joinDash (w' :: ws')) eqn:E; [|apply IH; [discriminate|exact Hws]].
  cbn [forallb] in Hws. apply andb_true_iff in Hws as [Hw' _].
  apply flagWord_spec in Hw' as [_ Hn'].
  destruct ws'; cbn [joinDash] in E; [now destruct Hn'|].
  destruct w'; [now destruct Hn'|discriminate E].
Qed.

(** The bodies that [isValidCliFlagBody] accepts. *)
Lemma isValidCliFlagBody_words body :
  isValidCliFlagBody body = true
  <-> exists ws, ws <> [] /\ forallb flagWord ws = true /\ body = joinDash ws.
Proof.
  unfold isValidCliFlagBody. split.
  - destruct body as [|c r]; [discriminate|]. cbn [String.eqb front isChar].
    destruct (Ascii.eqb c "-") eqn:Ec; [discriminate|]. cbn [orb].
    destruct (isChar "-" (back (String c r))) eqn:Eb; [discriminate|].
    intros Hl.
    destruct (flagBodyLoop_words (String c r) false Hl Eb) as (w & ws & E & Hw & _ & Hws).
    exists (w :: ws). split; [discriminate|]. split.
    + cbn [forallb]. rewrite Hws, andb_true_r. unfold flagWord. rewrite Hw, andb_true_r.
      cbn [splitDash] in E. rewrite Ec in E.
      destruct (splitDash r); injection E as <- _; reflexivity.
    + rewrite <- E. symmetry. apply joinDash_splitDash.
  - intros (ws & Hne & Hws & ->).
    pose proof (back_join ws Hne Hws) as Hb.
    pose proof (flagBodyLoop_join ws false Hne Hws) as Hl.
    destruct ws as [|w ws]; [now destruct Hne|].
    pose proof Hws as Hws'. cbn [forallb] in Hws'. apply andb_true_iff in Hws' as [Hw _].
    apply flagWord_spec in Hw as [Hw Hn].
    destruct w as [|c w]; [now destruct Hn|].
    rewrite joinDash_push in *. cbn [String.eqb front isChar].
    cbn [allChars] in Hw. apply andb_true_iff in Hw as [Hc _].
    rewrite (flagChar_dash c Hc), Hb. exact Hl.
Qed.

Lemma substring_all s : String.substring 0 (String.length s) s = s.
Proof. induction s as [|c r IH]; [reflexivity|]. cbn. now rewrite IH. Qed.

Lemma cliFlagBodyFromArg_dashes rest :
  cliFlagBodyFromArg (String "-" (String "-" rest)) = rest.
Proof.
  unfold cliFlagBodyFromArg, startsWith, substrFrom. cbn [String.prefix].
  cbn. rewrite Nat.sub_0_r.
  replace (String.prefix EmptyString rest) with true by (now destruct rest).
  apply substring_all.
Qed.

Lemma cliFlagBodyFromArg_other arg :
  (forall rest, arg <> String "-" (String "-" rest)) ->
  cliFlagBodyFromArg arg = EmptyString.
Proof.
  intros H. unfold cliFlagBodyFromArg, startsWith.
  destruct arg as [|c1 [|c2 rest]]; cbn [String.prefix]; try reflexivity;
    destruct (ascii_dec "-" c1) as [<-|]; try reflexivity.
  destruct (ascii_dec "-" c2) as [<-|]; try reflexivity.
  now destruct (H rest).
Qed.

End CliFacts.

(** The custom flags the driver accepts: an argument passes
    [isValidCliFlagBody] after [cliFlagBodyFromArg] exactly when it is two
    dashes followed by one or more words of letters, digits and
    underscores with a single dash between neighbours. *)
Theorem custom_flag_grammar :
  forall arg : string,
    Cli.isValidCliFlagBody (Cli.cliFlagBodyFromArg arg) = true
    <-> exists ws, ws <> [] /\ forallb flagWord ws = true
                   /\ arg = String "-" (String "-" (joinDash ws)).
Proof.
  intros arg. split.
  - intros H.
    assert (E : exists rest, arg = String "-" (String "-" rest)).
    { destruct arg as [|c1 [|c2 rest]].
      1, 2: rewrite cliFlagBodyFromArg_other in H by discriminate; discriminate H.
      destruct (Ascii.eqb_spec c1 "-") as [->|n1];
        [|rewrite cliFlagBodyFromArg_other in H by congruence; discriminate H].
      destruct (Ascii.eqb_spec c2 "-") as [->|n2];
        [now exists rest
        |rewrite cliFlagBodyFromArg_other in H by congruence; discriminate H]. }
    destruct E as [rest ->]. rewrite cliFlagBodyFromArg_dashes in H.
    apply isValidCliFlagBody_words in H as (ws & Hne & Hws & ->). now exists ws.
  - intros (ws & Hne & Hws & ->). rewrite cliFlagBodyFromArg_dashes.
    apply isValidCliFlagBody_words. now exists ws.
Qed.

Section ShellFacts.
Import Shell.

Lemma length_substring_le s : forall n m, (String.length (String.substring n m s) <= m)%nat.
Proof.
  induction s as [|c r IH]; intros n m; [destruct n, m; simpl; lia|].
  destruct n as [|n]; destruct m as [|m]; cbn [String.substring String.length]; try lia.
  - specialize (IH 0%nat m). lia.
  - apply IH.
  - apply IH.
Qed.

Lemma stripRound_same t t' :
  stripRound t = (t', false) -> t' = t /\ quoted t = false /\ escQuoted t = false.
Proof.
  unfold stripRound. destruct (quoted t).
  - destruct (escQuoted _); discriminate.
  - destruct (escQuoted t); [discriminate|]. now intros [= <-].
Qed.

Lemma stripRound_shorter t t' :
  stripRound t = (t', true) -> (String.length t' < String.length t)%nat.
Proof.
  unfold stripRound. destruct (quoted t) eqn:E1.
  - unfold quoted in E1. apply andb_true_iff in E1 as [E1 _]. apply Nat.leb_le in E1.
    pose proof (length_substring_le t 1 (String.length t - 2)) as L1.
    destruct (escQuoted _) eqn:E2; intros [= <-]; [|lia].
    pose proof (length_substring_le (String.substring 1 (String.length t - 2) t) 2
                  (String.length (String.substring 1 (String.length t - 2) t) - 4)).
    lia.
  - destruct (escQuoted t) eqn:E2; intros [= <-].
    unfold escQuoted in E2. repeat (apply andb_true_iff in E2 as [E2 _]).
    apply Nat.leb_le in E2.
    pose proof (length_substring_le t 2 (String.length t - 4)). lia.
Qed.

Lemma stripLoop_enough fuel : forall t,
  (String.length t < fuel)%nat ->
  stripRound (stripLoop fuel t) = (stripLoop fuel t, false)
  /\ forall k, (fuel <= k)%nat -> stripLoop k t = stripLoop fuel t.
Proof.
  induction fuel as [|fuel IH]; intros t Hlen; [lia|].
  cbn [stripLoop]. destruct (stripRound t) as [t' [|]] eqn:E.
  - pose proof (stripRound_shorter t t' E) as Hs.
    destruct (IH t' ltac:(lia)) as [H1 H2]. split; [exact H1|].
    intros [|k] Hk; [lia|]. cbn [stripLoop]. rewrite E. apply H2. lia.
  - pose proof (stripRound_same t t' E) as [-> _]. split; [exact E|].
    intros [|k] Hk; [lia|]. cbn [stripLoop]. now rewrite E.
Qed.

Lemma stripOuterQuotes_fix r :
  stripRound r = (r, false) -> stripOuterQuotes r = r.
Proof. intros H. unfold stripOuterQuotes. cbn [stripLoop]. now rewrite H. Qed.

Lemma length_app_str (a b : string) :
  String.length (a ++ b) = (String.length a + String.length b)%nat.
Proof. induction a as [|c a IH]; [reflexivity|]. rewrite append_cons. cbn. now rewrite IH. Qed.

Lemma get_app_last (a : string) c : String.get (String.length a) (a ++ str1 c) = Some c.
Proof. induction a as [|d a IH]; [reflexivity|]. rewrite append_cons. exact IH. Qed.

Lemma substring_app_prefix (a b : string) :
  String.substring 0 (String.length a) (a ++ b) = a.
Proof.
  induction a as [|c a IH]; [now destruct b|]. rewrite append_cons. cbn. now rewrite IH.
Qed.

(** The round that undoes the quotes [qCmd] has put around a text. *)
Lemma stripRound_wrapped t :
  stripRound t = (t, false) ->
  stripRound (String chQUOTE (t ++ str1 chQUOTE)) = (t, true).
Proof.
  intros H. apply stripRound_same in H as (_ & _ & He).
  unfold stripRound.
  assert (Hlen : String.length (String chQUOTE (t ++ str1 chQUOTE))
                 = S (S (String.length t))).
  { cbn [String.length]. rewrite length_app_str. cbn. lia. }
  assert (Hq : quoted (String chQUOTE (t ++ str1 chQUOTE)) = true).
  { unfold quoted, lastIs, charAt. rewrite Hlen.
    replace (S (S (String.length t)) - 1)%nat with (S (String.length t)) by lia.
    cbn [String.get]. rewrite get_app_last. reflexivity. }
  rewrite Hq, Hlen.
  replace (S (S (String.length t)) - 2)%nat with (String.length t) by lia.
  cbn [String.substring]. rewrite substring_app_prefix, He. reflexivity.
Qed.

Lemma stripOuterQuotes_wrapped t :
  stripRound t = (t, false) ->
  stripOuterQuotes (String chQUOTE (t ++ str1 chQUOTE)) = t.
Proof.
  intros H. unfold stripOuterQuotes. cbn [stripLoop].
  rewrite (stripRound_wrapped t H). cbn [String.length]. cbn [stripLoop].
  now rewrite H.
Qed.

End ShellFacts.

(** Quoting and stripping compose: the loop of [stripOuterQuotes] ends
    (a round that changes the text shortens it, so rounds beyond the
    length of the text change nothing), what it returns is not wrapped in
    quotes any more, stripping what [qCmd] returns gives what stripping
    its argument gives, and [qCmd] of its own result is that result. *)
Theorem qCmd_stripOuterQuotes :
  forall s : string,
    (forall k, (String.length s < k)%nat -> Shell.stripLoop k s = Shell.stripOuterQuotes s)
    /\ Shell.stripRound (Shell.stripOuterQuotes s) = (Shell.stripOuterQuotes s, false)
    /\ Shell.stripOuterQuotes (Shell.qCmd s) = Shell.stripOuterQuotes s
    /\ Shell.qCmd (Shell.qCmd s) = Shell.qCmd s.
Proof.
  intros s.
  destruct (stripLoop_enough (S (String.length s)) s ltac:(lia)) as [H1 H2].
  fold (Shell.stripOuterQuotes s) in H1.
  assert (H3 : Shell.stripOuterQuotes (Shell.qCmd s) = Shell.stripOuterQuotes s).
  { unfold Shell.qCmd. destruct (Shell.hasSpace (Shell.stripOuterQuotes s)).
    - now apply stripOuterQuotes_wrapped.
    - now apply stripOuterQuotes_fix. }
  split; [|split; [|split]].
  - intros k Hk. apply H2. lia.
  - exact H1.
  - exact H3.
  - unfold Shell.qCmd at 1. rewrite H3. reflexivity.
Qed.
